(** * badabing: the regex -> minimal DFA compiler and the DFA comparator

    A shallow embedding of [backend/c/regex2mindfa_compiler.c] and of
    [backend/c/dfa_checker.c].

    Conventions of the embedding.
    - A C string is the list of its bytes before the terminating NUL;
      a byte is an [ascii].  [fgets] buffers are cut at their first NUL by
      [c_str] where the program starts to treat them as strings.
    - An [int] is a [Z]; every value the programs compute stays far below
      2^31 (at most 4097 states times 128 symbols), so no wrap-around is
      written out.  A [uint64_t] word of a bitset is a [Z] in [0, 2^64).
    - [die] and the non-zero [return]s of [main] become [Err]. An access
      outside an allocation, or a read of a [malloc]ed cell that was never
      written, is undefined behaviour in C and is also an [Err]
      ([OutOfBounds], [UninitRead]), so that a result [Ok] always stands
      for a defined run.
    - Global arrays ([ALPHABET], [nfa], [dfa]) are passed explicitly. *)

From Stdlib Require Import ZArith Ascii String DecimalString Bool Lia List
  Permutation.
Import ListNotations.
Local Open Scope Z_scope.

(* ================================================================== *)
(** ** Errors and the error monad *)

Inductive error : Type :=
  (* parse_alphabet_line *)
  | AlphabetEpsilonToken      (* "alphabet must not contain internal epsilon token" *)
  | AlphabetMetaOperator      (* "alphabet contains meta-operator (| + * ( ) .)" *)
  | AlphabetNonPrintable      (* "alphabet contains non-printable byte" *)
  | AlphabetDuplicate         (* "alphabet contains duplicate symbol" *)
  | AlphabetTooLarge          (* "alphabet too large" *)
  | AlphabetEmpty             (* "alphabet is empty" *)
  (* main / check_regex_symbols_valid *)
  | EmptyRegex                (* "empty regex" *)
  | RegexExplicitDot          (* "regex must not contain explicit '.'" *)
  | RegexNonAscii             (* "regex contains non-ASCII byte. ..." *)
  | RegexInvalidChar (c : ascii) (* "regex contains invalid character: '%c'" *)
  (* check_parentheses_balanced / to_postfix *)
  | ParenExtraClose           (* "mismatched parentheses: extra ')'" *)
  | ParenUnclosed             (* "mismatched parentheses: unclosed '('" *)
  | PostfixMismatchedParens   (* "mismatched parentheses" *)
  | PostfixUnknownChar        (* "unknown character during postfix conversion" *)
  (* Thompson construction *)
  | TooManyNfaStates          (* "too many NFA states" *)
  | StackUnderflow            (* "invalid postfix (stack underflow)" *)
  | StackNotSingleton         (* "invalid postfix (stack not singleton)" *)
  | InvalidPostfixToken       (* "invalid postfix token" *)
  (* subset construction *)
  | TooManyDfaStates          (* "too many DFA states" *)
  (* undefined behaviour of the C program, and the loop budget *)
  | OutOfBounds
  | UninitRead
  | OutOfFuel.

(** The error kinds of the specification (section 7). *)
Inductive error_kind : Type :=
  | BadAlphabet | BadPatternChar | NonAsciiPatternByte | UnbalancedParens
  | MalformedPostfix | NfaTooLarge | DfaTooLarge | EmptyPattern
  | UndefinedBehaviour.

Definition kind_of (e : error) : error_kind :=
  match e with
  | AlphabetEpsilonToken | AlphabetMetaOperator | AlphabetNonPrintable
  | AlphabetDuplicate | AlphabetTooLarge | AlphabetEmpty => BadAlphabet
  | EmptyRegex => EmptyPattern
  | RegexExplicitDot | RegexInvalidChar _ => BadPatternChar
  | RegexNonAscii => NonAsciiPatternByte
  | ParenExtraClose | ParenUnclosed | PostfixMismatchedParens => UnbalancedParens
  | PostfixUnknownChar => BadPatternChar
  | TooManyNfaStates => NfaTooLarge
  | StackUnderflow | StackNotSingleton | InvalidPostfixToken => MalformedPostfix
  | TooManyDfaStates => DfaTooLarge
  | OutOfBounds | UninitRead | OutOfFuel => UndefinedBehaviour
  end.

Inductive result (A : Type) : Type :=
  | Ok (a : A)
  | Err (e : error).
Arguments Ok {A} a.
Arguments Err {A} e.

Definition bind {A B : Type} (c : result A) (f : A -> result B) : result B :=
  match c with
  | Ok a => f a
  | Err e => Err e
  end.

Notation "x <- c1 ;; c2" := (bind c1 (fun x => c2))
  (at level 61, c1 at next level, right associativity).
Notation "' pat <- c1 ;; c2" := (bind c1 (fun x => match x with pat => c2 end))
  (at level 61, pat pattern, c1 at next level, right associativity).

(** [for (x in l) s = f(s, x)], stopping at the first error. *)
Fixpoint foldM {A S : Type} (f : S -> A -> result S) (l : list A) (s : S)
  : result S :=
  match l with
  | [] => Ok s
  | x :: l' => s' <- f s x ;; foldM f l' s'
  end.

(** [lo, lo+1, ..., lo+n-1] *)
Fixpoint zrange_from (n : nat) (lo : Z) : list Z :=
  match n with
  | O => []
  | S n' => lo :: zrange_from n' (lo + 1)
  end.

(** The index values of [for (int i = 0; i < n; i++)]. *)
Definition zrange (n : Z) : list Z := zrange_from (Z.to_nat n) 0.

(** [while (cond(s)) s = body(s)], with a budget of iterations. *)
Fixpoint while_fuel {S : Type} (fuel : nat) (cond : S -> bool)
  (body : S -> result S) (s : S) : result S :=
  if cond s then
    match fuel with
    | O => Err OutOfFuel
    | Datatypes.S fuel' => s' <- body s ;; while_fuel fuel' cond body s'
    end
  else Ok s.

(** A run that stayed within the budget of its loops: whatever it
    returned, it is what the C program does. *)
Definition in_budget {A : Type} (r : result A) : Prop := r <> Err OutOfFuel.

(* ================================================================== *)
(** ** Arrays *)

(** Checked read of [a[i]]. *)
Definition aget {A : Type} (a : list A) (i : Z) : result A :=
  if i <? 0 then Err OutOfBounds
  else match nth_error a (Z.to_nat i) with
       | Some x => Ok x
       | None => Err OutOfBounds
       end.

Fixpoint list_set {A : Type} (a : list A) (n : nat) (x : A) : list A :=
  match a, n with
  | [], _ => []
  | _ :: a', O => x :: a'
  | y :: a', S n' => y :: list_set a' n' x
  end.

(** Checked write [a[i] = x]. *)
Definition aset {A : Type} (a : list A) (i : Z) (x : A) : result (list A) :=
  if (0 <=? i) && (i <? Z.of_nat (length a))
  then Ok (list_set a (Z.to_nat i) x)
  else Err OutOfBounds.

(** An [int] array from [xmalloc]: every cell starts indeterminate. *)
Definition cells : Type := list (option Z).

Definition xmalloc_ints (n : Z) : cells := repeat None (Z.to_nat n).

Definition cget (a : cells) (i : Z) : result Z :=
  c <- aget a i ;;
  match c with
  | Some v => Ok v
  | None => Err UninitRead
  end.

Definition cset (a : cells) (i : Z) (v : Z) : result cells := aset a i (Some v).

(* ================================================================== *)
(** ** Bytes *)

Definition byte_val (c : ascii) : Z := Z.of_N (N_of_ascii c).
Definition byte (n : Z) : ascii := ascii_of_N (Z.to_N n).

Definition str (s : string) : list ascii := list_ascii_of_string s.

(** The bytes of a buffer seen as a C string. *)
Fixpoint c_str (buf : list ascii) : list ascii :=
  match buf with
  | [] => []
  | c :: rest => if Ascii.eqb c zero then [] else c :: c_str rest
  end.

(** [isspace] in the "C" locale: space, \t, \n, \v, \f, \r. *)
Definition isspace (c : ascii) : bool :=
  let n := byte_val c in (n =? 32) || ((9 <=? n) && (n <=? 13)).

(* ================================================================== *)
(** * regex2mindfa_compiler.c *)

Module Regex2MinDfa.

(** [#define EPS_TOK 1] *)
Definition EPS_TOK : ascii := byte 1.
Definition MAX_NFA_STATES : Z := 4096.
Definition MAX_DFA_STATES : Z := 4096.
Definition MAX_ALPHABET : Z := 128.

Definition is_meta (c : ascii) : bool :=
  Ascii.eqb c "|" || Ascii.eqb c "+" || Ascii.eqb c "*" || Ascii.eqb c "("
  || Ascii.eqb c ")" || Ascii.eqb c ".".

(* ================================================================== *)
(** ** Alphabet *)

Definition is_alphabet_symbol (ALPHABET : list ascii) (c : ascii) : bool :=
  existsb (fun x => Ascii.eqb x c) ALPHABET.

(** The body of the loop of [parse_alphabet_line]; [seen] is [int seen[256]]
    indexed by the byte. *)
Fixpoint parse_alphabet_loop (line : list ascii) (seen : ascii -> bool)
  (ALPHABET : list ascii) : result (list ascii) :=
  match line with
  | [] =>
      if Z.of_nat (length ALPHABET) =? 0 then Err AlphabetEmpty else Ok ALPHABET
  | c :: rest =>
      if Ascii.eqb c "010" || Ascii.eqb c "013" then
        parse_alphabet_loop rest seen ALPHABET
      else if isspace c || Ascii.eqb c "," || Ascii.eqb c ";" then
        parse_alphabet_loop rest seen ALPHABET
      else if Ascii.eqb c EPS_TOK then Err AlphabetEpsilonToken
      else if is_meta c then Err AlphabetMetaOperator
      else if byte_val c <? 32 then Err AlphabetNonPrintable
      else if seen c then Err AlphabetDuplicate
      else if Z.of_nat (length ALPHABET) >=? MAX_ALPHABET then Err AlphabetTooLarge
      else
        parse_alphabet_loop rest
          (fun x => if Ascii.eqb x c then true else seen x)
          (ALPHABET ++ [c])
  end.

Definition parse_alphabet_line (line : list ascii) : result (list ascii) :=
  parse_alphabet_loop line (fun _ => false) [].

(* ================================================================== *)
(** ** Regex preprocessing *)

(** [strncmp(&line[i], p, |p|) == 0] with enough bytes left. *)
Fixpoint starts_with (p line : list ascii) : bool :=
  match p, line with
  | [], _ => true
  | _ :: _, [] => false
  | x :: p', y :: line' => Ascii.eqb x y && starts_with p' line'
  end.

Definition eps_ascii : list ascii := str "<eps>".
Definition eps_utf8 : list ascii := [byte 206; byte 181]. (* 0xCE 0xB5 *)

(** [preprocess_regex]: the argument is the part of the line from index
    [i] on; the three [match]es on [tl] are [i += 5], [i += 2], [i++]. *)
Fixpoint preprocess_regex (line : list ascii) : list ascii :=
  match line with
  | [] => []
  | b :: tl =>
      if Ascii.eqb b "013" || Ascii.eqb b "010" then preprocess_regex tl
      else if isspace b then preprocess_regex tl
      else if starts_with eps_ascii line then
        EPS_TOK :: match tl with
                   | _ :: _ :: _ :: _ :: r => preprocess_regex r
                   | _ => []
                   end
      else if starts_with eps_utf8 line then
        EPS_TOK :: match tl with
                   | _ :: r => preprocess_regex r
                   | _ => []
                   end
      else b :: preprocess_regex tl
  end.

Fixpoint check_parens_loop (s : list ascii) (bal : Z) : result unit :=
  match s with
  | [] => if negb (bal =? 0) then Err ParenUnclosed else Ok tt
  | c :: rest =>
      let bal := if Ascii.eqb c "(" then bal + 1
                 else if Ascii.eqb c ")" then bal - 1 else bal in
      if bal <? 0 then Err ParenExtraClose else check_parens_loop rest bal
  end.

Definition check_parentheses_balanced (s : list ascii) : result unit :=
  check_parens_loop s 0.

Fixpoint check_regex_symbols_valid (ALPHABET s : list ascii) : result unit :=
  match s with
  | [] => Ok tt
  | c :: rest =>
      if Ascii.eqb c EPS_TOK then check_regex_symbols_valid ALPHABET rest
      else if is_alphabet_symbol ALPHABET c then
        check_regex_symbols_valid ALPHABET rest
      else if Ascii.eqb c "|" || Ascii.eqb c "+" || Ascii.eqb c "*"
              || Ascii.eqb c "(" || Ascii.eqb c ")" then
        check_regex_symbols_valid ALPHABET rest
      else if Ascii.eqb c "." then Err RegexExplicitDot
      else if byte_val c >=? 128 then Err RegexNonAscii
      else Err (RegexInvalidChar c)
  end.

(* ================================================================== *)
(** ** Explicit concatenation *)

Definition is_atom_end (ALPHABET : list ascii) (c : ascii) : bool :=
  is_alphabet_symbol ALPHABET c || Ascii.eqb c EPS_TOK || Ascii.eqb c ")"
  || Ascii.eqb c "*".
Definition is_atom_start (ALPHABET : list ascii) (c : ascii) : bool :=
  is_alphabet_symbol ALPHABET c || Ascii.eqb c EPS_TOK || Ascii.eqb c "(".
Definition need_concat (ALPHABET : list ascii) (a b : ascii) : bool :=
  is_atom_end ALPHABET a && is_atom_start ALPHABET b.

(** One round of the loop of [add_concat_ops]: [out] is the buffer written
    so far and [i] the index into [inp]. *)
Definition add_concat_step (ALPHABET inp : list ascii) (out : list ascii)
  (i : nat) : list ascii :=
  let a := nth i inp zero in
  let out := out ++ [a] in
  if (i + 1 <? length inp)%nat then
    let b := nth (i + 1) inp zero in
    if need_concat ALPHABET a b then out ++ ["."%char] else out
  else out.

Definition add_concat_ops (ALPHABET inp : list ascii) : list ascii :=
  fold_left (add_concat_step ALPHABET inp) (seq 0 (length inp)) [].

(* ================================================================== *)
(** ** Shunting-yard *)

Definition prec (op : ascii) : Z :=
  if Ascii.eqb op "*" then 3
  else if Ascii.eqb op "." then 2
  else if Ascii.eqb op "|" || Ascii.eqb op "+" then 1
  else 0.
Definition is_left_assoc (op : ascii) : bool := negb (Ascii.eqb op "*").

(** The operator stack [st] is a list whose head is [st[top]]. *)

(** [while(top>=0 && st[top]!='(') out[j++]=st[top--];] *)
Fixpoint pop_until_lparen (st out : list ascii) : list ascii * list ascii :=
  match st with
  | [] => ([], out)
  | o :: st' =>
      if Ascii.eqb o "(" then (st, out) else pop_until_lparen st' (out ++ [o])
  end.

(** The [while(top>=0)] loop of the operator case. *)
Fixpoint pop_operators (c : ascii) (st out : list ascii)
  : list ascii * list ascii :=
  match st with
  | [] => ([], out)
  | o2 :: st' =>
      if Ascii.eqb o2 "(" then (st, out)
      else
        let p1 := prec c in
        let p2 := prec o2 in
        if (is_left_assoc c && (p1 <=? p2))
           || (negb (is_left_assoc c) && (p1 <? p2))
        then pop_operators c st' (out ++ [o2])
        else (st, out)
  end.

(** The final [while(top>=0)] loop. *)
Fixpoint drain_stack (st out : list ascii) : result (list ascii) :=
  match st with
  | [] => Ok out
  | o :: st' =>
      if Ascii.eqb o "(" then Err PostfixMismatchedParens
      else drain_stack st' (out ++ [o])
  end.

Fixpoint to_postfix_loop (ALPHABET regex st out : list ascii)
  : result (list ascii) :=
  match regex with
  | [] => drain_stack st out
  | c :: rest =>
      if is_alphabet_symbol ALPHABET c || Ascii.eqb c EPS_TOK then
        to_postfix_loop ALPHABET rest st (out ++ [c])
      else if Ascii.eqb c "(" then
        to_postfix_loop ALPHABET rest (c :: st) out
      else if Ascii.eqb c ")" then
        let '(st1, out1) := pop_until_lparen st out in
        match st1 with
        | [] => Err PostfixMismatchedParens
        | _ :: st2 => to_postfix_loop ALPHABET rest st2 out1
        end
      else if Ascii.eqb c "*" then
        to_postfix_loop ALPHABET rest st (out ++ [c])
      else if Ascii.eqb c "|" || Ascii.eqb c "+" || Ascii.eqb c "." then
        let '(st1, out1) := pop_operators c st out in
        to_postfix_loop ALPHABET rest (c :: st1) out1
      else Err PostfixUnknownChar
  end.

Definition to_postfix (ALPHABET regex : list ascii) : result (list ascii) :=
  to_postfix_loop ALPHABET regex [] [].

(* ================================================================== *)
(** ** Thompson epsilon-NFA *)

(** [sym == 0] (the NUL byte) marks an epsilon edge. *)
Record Edge : Type := mkEdge { to : Z; sym : ascii }.

(** The edges of a state, [edges[0 .. n_edges-1]]; the global [nfa] array
    is the list of its first [nfa_states] entries. *)
Definition NFAState : Type := list Edge.

Definition new_nfa_state (nfa : list NFAState) : result (list NFAState * Z) :=
  let nfa_states := Z.of_nat (length nfa) in
  if nfa_states >=? MAX_NFA_STATES then Err TooManyNfaStates
  else Ok (nfa ++ [[]], nfa_states).

Definition add_edge (nfa : list NFAState) (from to : Z) (sym : ascii)
  : result (list NFAState) :=
  s <- aget nfa from ;;
  aset nfa from (s ++ [mkEdge to sym]).

Record Frag : Type := mkFrag { start : Z; accept : Z }.

(** The fragment stack is a list whose head is [a[top-1]]. *)
Definition fs_push (fs : list Frag) (f : Frag) : list Frag := f :: fs.

Definition fs_pop (fs : list Frag) : result (Frag * list Frag) :=
  match fs with
  | [] => Err StackUnderflow
  | f :: fs' => Ok (f, fs')
  end.

(** One round of the loop of [postfix_to_nfa]. *)
Definition postfix_step (ALPHABET : list ascii)
  (st : list NFAState * list Frag) (c : ascii)
  : result (list NFAState * list Frag) :=
  let '(nfa, fs) := st in
  if is_alphabet_symbol ALPHABET c then
    '(nfa, s) <- new_nfa_state nfa ;;
    '(nfa, t) <- new_nfa_state nfa ;;
    nfa <- add_edge nfa s t c ;;
    Ok (nfa, fs_push fs (mkFrag s t))
  else if Ascii.eqb c EPS_TOK then
    '(nfa, s) <- new_nfa_state nfa ;;
    '(nfa, t) <- new_nfa_state nfa ;;
    nfa <- add_edge nfa s t zero ;;
    Ok (nfa, fs_push fs (mkFrag s t))
  else if Ascii.eqb c "." then
    '(f2, fs) <- fs_pop fs ;;
    '(f1, fs) <- fs_pop fs ;;
    nfa <- add_edge nfa (accept f1) (start f2) zero ;;
    Ok (nfa, fs_push fs (mkFrag (start f1) (accept f2)))
  else if Ascii.eqb c "|" || Ascii.eqb c "+" then
    '(f2, fs) <- fs_pop fs ;;
    '(f1, fs) <- fs_pop fs ;;
    '(nfa, s) <- new_nfa_state nfa ;;
    '(nfa, t) <- new_nfa_state nfa ;;
    nfa <- add_edge nfa s (start f1) zero ;;
    nfa <- add_edge nfa s (start f2) zero ;;
    nfa <- add_edge nfa (accept f1) t zero ;;
    nfa <- add_edge nfa (accept f2) t zero ;;
    Ok (nfa, fs_push fs (mkFrag s t))
  else if Ascii.eqb c "*" then
    '(f, fs) <- fs_pop fs ;;
    '(nfa, s) <- new_nfa_state nfa ;;
    '(nfa, t) <- new_nfa_state nfa ;;
    nfa <- add_edge nfa s (start f) zero ;;
    nfa <- add_edge nfa s t zero ;;
    nfa <- add_edge nfa (accept f) (start f) zero ;;
    nfa <- add_edge nfa (accept f) t zero ;;
    Ok (nfa, fs_push fs (mkFrag s t))
  else Err InvalidPostfixToken.

Definition postfix_to_nfa (ALPHABET post : list ascii)
  : result (list NFAState * Frag) :=
  '(nfa, fs) <- foldM (postfix_step ALPHABET) post ([], []) ;;
  if negb (Z.of_nat (length fs) =? 1) then Err StackNotSingleton
  else
    '(res, _) <- fs_pop fs ;;
    Ok (nfa, res).

(* ================================================================== *)
(** ** Bitsets *)

(** The words [w[0 .. nwords-1]]. *)
Definition Bitset : Type := list Z.

Definition bs_new (nbits : Z) : Bitset :=
  repeat 0 (Z.to_nat (Z.quot (nbits + 63) 64)).

Definition bs_set (b : Bitset) (i : Z) : result Bitset :=
  w <- aget b (Z.shiftr i 6) ;;
  aset b (Z.shiftr i 6) (Z.lor w (Z.shiftl 1 (Z.land i 63))).

Definition bs_get (b : Bitset) (i : Z) : result Z :=
  w <- aget b (Z.shiftr i 6) ;;
  Ok (Z.land (Z.shiftr w (Z.land i 63)) 1).

(** Both arguments always have the width of the NFA. *)
Fixpoint bs_eq (a b : Bitset) : bool :=
  match a, b with
  | [], _ => true
  | x :: a', y :: b' => if negb (x =? y) then false else bs_eq a' b'
  | _ :: _, [] => false
  end.

Fixpoint bs_empty (a : Bitset) : bool :=
  match a with
  | [] => true
  | x :: a' => if negb (x =? 0) then false else bs_empty a'
  end.

(* ================================================================== *)
(** ** Epsilon closure and move *)

Record closure_state : Type := mkClosure {
  cl_out : Bitset;   (* the set being saturated *)
  cl_q : cells;      (* int q[nfa_states] *)
  cl_qh : Z;
  cl_qt : Z
}.

Definition closure_edge (st : closure_state) (e : Edge) : result closure_state :=
  if Ascii.eqb (sym e) zero then
    g <- bs_get (cl_out st) (to e) ;;
    if g =? 0 then
      out <- bs_set (cl_out st) (to e) ;;
      q <- cset (cl_q st) (cl_qt st) (to e) ;;
      Ok (mkClosure out q (cl_qh st) (cl_qt st + 1))
    else Ok st
  else Ok st.

Definition closure_body (nfa : list NFAState) (st : closure_state)
  : result closure_state :=
  u <- cget (cl_q st) (cl_qh st) ;;
  edges <- aget nfa u ;;
  foldM closure_edge edges
    (mkClosure (cl_out st) (cl_q st) (cl_qh st + 1) (cl_qt st)).

Definition closure_seed (inb : Bitset) (acc : cells * Z) (s : Z)
  : result (cells * Z) :=
  let '(q, qt) := acc in
  g <- bs_get inb s ;;
  if g =? 0 then Ok (q, qt)
  else q <- cset q qt s ;; Ok (q, qt + 1).

(** [eps_closure(out, in)]; the result is the new content of [out]. The
    queue holds [nfa_states] cells, which bounds the number of rounds. *)
Definition eps_closure (nfa : list NFAState) (inb : Bitset) : result Bitset :=
  let nfa_states := Z.of_nat (length nfa) in
  '(q, qt) <- foldM (closure_seed inb) (zrange nfa_states)
                (xmalloc_ints nfa_states, 0) ;;
  st <- while_fuel (length nfa) (fun st => cl_qh st <? cl_qt st)
          (closure_body nfa) (mkClosure inb q 0 qt) ;;
  Ok (cl_out st).

Definition move_edge (sy : ascii) (out : Bitset) (e : Edge) : result Bitset :=
  if Ascii.eqb (sym e) sy then bs_set out (to e) else Ok out.

Definition move_state (nfa : list NFAState) (inb : Bitset) (sy : ascii)
  (out : Bitset) (s : Z) : result Bitset :=
  g <- bs_get inb s ;;
  if g =? 0 then Ok out
  else edges <- aget nfa s ;; foldM (move_edge sy) edges out.

Definition move_on_symbol (nfa : list NFAState) (inb : Bitset) (sy : ascii)
  : result Bitset :=
  let nfa_states := Z.of_nat (length nfa) in
  foldM (move_state nfa inb sy) (zrange nfa_states) (bs_new nfa_states).

(* ================================================================== *)
(** ** Subset construction *)

(** [trans] holds the cells [0 .. ALPHABET_SIZE-1], the only ones used. *)
Record DFAState : Type := mkDFAState {
  set : Bitset;
  is_accept : Z;
  trans : list Z
}.

Fixpoint find_dfa_state_from (dfa : list DFAState) (i : Z) (s : Bitset) : Z :=
  match dfa with
  | [] => -1
  | d :: rest =>
      if bs_eq (set d) s then i else find_dfa_state_from rest (i + 1) s
  end.

Definition find_dfa_state (dfa : list DFAState) (s : Bitset) : Z :=
  find_dfa_state_from dfa 0 s.

(** The global [dfa] array is the list of its first [dfa_n] entries;
    [k] is [ALPHABET_SIZE]. *)
Definition dfa_add_state (k : Z) (dfa : list DFAState) (s : Bitset)
  (nfa_accept : Z) : result (list DFAState * Z) :=
  let dfa_n := Z.of_nat (length dfa) in
  if dfa_n >=? MAX_DFA_STATES then Err TooManyDfaStates
  else
    acc <- bs_get s nfa_accept ;;
    Ok (dfa ++ [mkDFAState s acc (repeat (-1) (Z.to_nat k))], dfa_n).

(** [dfa[id].trans[ai] = v] *)
Definition set_trans (dfa : list DFAState) (id ai v : Z)
  : result (list DFAState) :=
  d <- aget dfa id ;;
  tr <- aset (trans d) ai v ;;
  aset dfa id (mkDFAState (set d) (is_accept d) tr).

Record subset_state : Type := mkSubset {
  ss_dfa : list DFAState;
  ss_q : cells;       (* int q[MAX_DFA_STATES] *)
  ss_qh : Z;
  ss_qt : Z
}.

(** The body of [for(ai...)] for the dequeued state [id]. *)
Definition subset_symbol (ALPHABET : list ascii) (nfa : list NFAState)
  (nfa_accept id : Z) (st : subset_state) (ai : Z) : result subset_state :=
  let k := Z.of_nat (length ALPHABET) in
  sy <- aget ALPHABET ai ;;
  d <- aget (ss_dfa st) id ;;
  mv <- move_on_symbol nfa (set d) sy ;;
  if bs_empty mv then
    dfa <- set_trans (ss_dfa st) id ai (-1) ;;
    Ok (mkSubset dfa (ss_q st) (ss_qh st) (ss_qt st))
  else
    cl <- eps_closure nfa mv ;;
    let ex := find_dfa_state (ss_dfa st) cl in
    if ex <? 0 then
      '(dfa, ex) <- dfa_add_state k (ss_dfa st) cl nfa_accept ;;
      q <- cset (ss_q st) (ss_qt st) ex ;;
      dfa <- set_trans dfa id ai ex ;;
      Ok (mkSubset dfa q (ss_qh st) (ss_qt st + 1))
    else
      dfa <- set_trans (ss_dfa st) id ai ex ;;
      Ok (mkSubset dfa (ss_q st) (ss_qh st) (ss_qt st)).

Definition subset_body (ALPHABET : list ascii) (nfa : list NFAState)
  (nfa_accept : Z) (st : subset_state) : result subset_state :=
  id <- cget (ss_q st) (ss_qh st) ;;
  foldM (subset_symbol ALPHABET nfa nfa_accept id)
    (zrange (Z.of_nat (length ALPHABET)))
    (mkSubset (ss_dfa st) (ss_q st) (ss_qh st + 1) (ss_qt st)).

(** [nfa_to_dfa]; the queue holds [MAX_DFA_STATES] cells, which bounds the
    number of rounds. *)
Definition nfa_to_dfa (ALPHABET : list ascii) (nfa : list NFAState)
  (nfa_start nfa_accept : Z) : result (list DFAState) :=
  let nfa_states := Z.of_nat (length nfa) in
  let k := Z.of_nat (length ALPHABET) in
  init <- bs_set (bs_new nfa_states) nfa_start ;;
  init_cl <- eps_closure nfa init ;;
  '(dfa, _) <- dfa_add_state k [] init_cl nfa_accept ;;
  q <- cset (xmalloc_ints MAX_DFA_STATES) 0 0 ;;
  st <- while_fuel (Z.to_nat MAX_DFA_STATES)
          (fun st => ss_qh st <? ss_qt st)
          (subset_body ALPHABET nfa nfa_accept) (mkSubset dfa q 0 1) ;;
  Ok (ss_dfa st).

(* ================================================================== *)
(** ** Completion and Hopcroft minimization *)

(** The elements [a[0 .. n-1]]. *)
Definition IntVec : Type := list Z.
Definition iv_push (v : IntVec) (x : Z) : IntVec := v ++ [x].

Definition need_dead_of (dfa : list DFAState) : Z :=
  if existsb (fun d => existsb (fun t => t =? -1) (trans d)) dfa then 1 else 0.

(** The table [T], row-major with rows of [k] cells: the rows of [dfa] with
    [-1] replaced by [dead], then the row of the dead state if there is one. *)
Definition complete_T (k : Z) (dfa : list DFAState) (need_dead dead : Z)
  : list Z :=
  flat_map (fun d => map (fun t => if t =? -1 then dead else t) (trans d)) dfa
  ++ (if negb (need_dead =? 0) then repeat dead (Z.to_nat k) else []).

Definition complete_A (dfa : list DFAState) (need_dead : Z) : list Z :=
  map is_accept dfa ++ (if negb (need_dead =? 0) then [0] else []).

Record hopcroft_state : Type := mkHopcroft {
  hp_P : list IntVec;   (* IntVec P[N] *)
  hp_Pn : Z;
  hp_cls : cells;       (* int cls[N] *)
  hp_W : IntVec
}.

(** [for(k...) cls[v.a[k]] = i] *)
Definition assign_class (i : Z) (cls : cells) (v : IntVec) : result cells :=
  foldM (fun cls s => cset cls s i) v cls.

(** [for(w...) if(W.a[w]==yi){ found=w; break; }] *)
Fixpoint find_in_W (W : IntVec) (w : Z) (yi : Z) : Z :=
  match W with
  | [] => -1
  | x :: W' => if x =? yi then w else find_in_W W' (w + 1) yi
  end.

(** [cnt]: the members of the block that are marked. *)
Definition count_marked (mark : list Z) (blk : IntVec) : result Z :=
  foldM (fun cnt s => m <- aget mark s ;;
                      Ok (if negb (m =? 0) then cnt + 1 else cnt)) blk 0.

(** The loop filling [Y1] and [Y2]. *)
Definition split_members (mark : list Z) (blk : IntVec)
  : result (IntVec * IntVec) :=
  foldM (fun '(Y1, Y2) s =>
           m <- aget mark s ;;
           Ok (if negb (m =? 0) then (iv_push Y1 s, Y2) else (Y1, iv_push Y2 s)))
        blk ([], []).

(** The split of block [yi], from [IntVec Y1] to the update of [W]. *)
Definition split_block (mark : list Z) (st : hopcroft_state) (yi : Z)
  : result hopcroft_state :=
  blk <- aget (hp_P st) yi ;;
  '(Y1, Y2) <- split_members mark blk ;;
  P <- aset (hp_P st) yi Y1 ;;
  let newi := hp_Pn st in
  let Pn := hp_Pn st + 1 in
  P <- aset P newi Y2 ;;
  Pyi <- aget P yi ;;
  cls <- assign_class yi (hp_cls st) Pyi ;;
  Pnew <- aget P newi ;;
  cls <- assign_class newi cls Pnew ;;
  let found := find_in_W (hp_W st) 0 yi in
  if found >=? 0 then
    W <- aset (hp_W st) found yi ;;
    Ok (mkHopcroft P Pn cls (iv_push W newi))
  else if Z.of_nat (length Pyi) <=? Z.of_nat (length Pnew) then
    Ok (mkHopcroft P Pn cls (iv_push (hp_W st) yi))
  else
    Ok (mkHopcroft P Pn cls (iv_push (hp_W st) newi)).

(** The body of [for(yi...)]; the second component is [yi]. *)
Definition refine_block (mark : list Z) (sy : hopcroft_state * Z)
  : result (hopcroft_state * Z) :=
  let '(st, yi) := sy in
  blk <- aget (hp_P st) yi ;;
  cnt <- count_marked mark blk ;;
  if (cnt =? 0) || (cnt =? Z.of_nat (length blk)) then Ok (st, yi + 1)
  else
    st <- split_block mark st yi ;;
    Ok (st, yi + 1).

(** [mark]: the predecessors on symbol [a] of the members of the splitter. *)
Definition mark_preimage (N a : Z) (inv : list IntVec) (blk : IntVec)
  : result (list Z) :=
  foldM (fun mark qstate =>
           pre <- aget inv (a * N + qstate) ;;
           foldM (fun mark p => aset mark p 1) pre mark)
        blk (repeat 0 (Z.to_nat N)).

(** The body of [for(a...)] for the popped block [Ablock]. The bound [Pn]
    of the [yi] loop moves with the splits and never passes [N]. *)
Definition refine_symbol (N : Z) (inv : list IntVec) (Ablock : Z)
  (st : hopcroft_state) (a : Z) : result hopcroft_state :=
  blk <- aget (hp_P st) Ablock ;;
  mark <- mark_preimage N a inv blk ;;
  '(st, _) <- while_fuel (Z.to_nat N) (fun sy => snd sy <? hp_Pn (fst sy))
                (refine_block mark) (st, 0) ;;
  Ok st.

(** The body of [while(W.n>0)]. *)
Definition hopcroft_body (N k : Z) (inv : list IntVec) (st : hopcroft_state)
  : result hopcroft_state :=
  let Ablock := last (hp_W st) 0 in
  let st := mkHopcroft (hp_P st) (hp_Pn st) (hp_cls st) (removelast (hp_W st)) in
  foldM (refine_symbol N inv Ablock) (zrange k) st.

(** The reverse transition buckets [inv[a*N+q]]. *)
Definition build_inv (N k : Z) (T : list Z) : result (list IntVec) :=
  foldM (fun inv p =>
           foldM (fun inv a =>
                    q <- aget T (p * k + a) ;;
                    pre <- aget inv (a * N + q) ;;
                    aset inv (a * N + q) (iv_push pre p))
                 (zrange k) inv)
        (zrange N) (repeat [] (Z.to_nat (k * N))).

Record minimized : Type := mkMinimized {
  m_cls : cells;
  m_min_n : Z;      (* *out_min_n *)
  m_need_dead : Z;  (* *out_need_dead *)
  m_dead : Z        (* *out_dead *)
}.

Definition dfa_minimize (k : Z) (dfa : list DFAState) : result minimized :=
  let dfa_n := Z.of_nat (length dfa) in
  let need_dead := need_dead_of dfa in
  let N := dfa_n + (if negb (need_dead =? 0) then 1 else 0) in
  let dead := if negb (need_dead =? 0) then N - 1 else -1 in
  let T := complete_T k dfa need_dead dead in
  let A := complete_A dfa need_dead in
  let nF := Z.of_nat (length (filter (fun x => negb (x =? 0)) A)) in
  let nNF := Z.of_nat (length (filter (fun x => x =? 0) A)) in
  if (nF =? 0) || (nNF =? 0) then
    Ok (mkMinimized (repeat (Some 0) (Z.to_nat N)) 1 need_dead dead)
  else
    let P := repeat [] (Z.to_nat N) in
    P <- aset P 0 (filter (fun s => negb (nth (Z.to_nat s) A 0 =? 0)) (zrange N)) ;;
    P <- aset P 1 (filter (fun s => nth (Z.to_nat s) A 0 =? 0) (zrange N)) ;;
    let Pn := 2 in
    P0 <- aget P 0 ;;
    P1 <- aget P 1 ;;
    cls <- assign_class 0 (xmalloc_ints N) P0 ;;
    cls <- assign_class 1 cls P1 ;;
    let W := if Z.of_nat (length P0) <=? Z.of_nat (length P1) then [0] else [1] in
    inv <- build_inv N k T ;;
    st <- while_fuel (Z.to_nat N) (fun st => Z.of_nat (length (hp_W st)) >? 0)
            (hopcroft_body N k inv) (mkHopcroft P Pn cls W) ;;
    Ok (mkMinimized (hp_cls st) (hp_Pn st) need_dead dead).

(* ================================================================== *)
(** ** The writer *)

(** What [write_min_dfa] prints, field by field. *)
Record DfaFile : Type := mkDfaFile {
  f_k : Z;                    (* ALPHABET <k> *)
  f_symbols : list ascii;     (*          <symbols> *)
  f_states : Z;               (* STATES <n> *)
  f_start : Z;                (* START <s> *)
  f_accept_count : Z;         (* ACCEPT <m> *)
  f_accept : list Z;          (*        <a0> ... *)
  f_rows : list (list Z)      (* the rows after TRANS *)
}.

Definition build_rep (N min_n : Z) (cls : cells) : result (list Z) :=
  foldM (fun rep s =>
           c <- cget cls s ;;
           r <- aget rep c ;;
           if r =? -1 then aset rep c s else Ok rep)
        (zrange N) (repeat (-1) (Z.to_nat min_n)).

Definition build_acc (N min_n : Z) (A : list Z) (cls : cells) : result (list Z) :=
  foldM (fun acc s =>
           x <- aget A s ;;
           if negb (x =? 0) then c <- cget cls s ;; aset acc c 1 else Ok acc)
        (zrange N) (repeat 0 (Z.to_nat min_n)).

Definition write_row (k : Z) (T : list Z) (cls : cells) (r : Z)
  : result (list Z) :=
  foldM (fun row a =>
           t <- aget T (r * k + a) ;;
           tc <- cget cls t ;;
           Ok (row ++ [tc]))
        (zrange k) [].

Definition write_rows (k min_n : Z) (T : list Z) (cls : cells) (rep : list Z)
  : result (list (list Z)) :=
  foldM (fun rows c =>
           r <- aget rep c ;;
           row <- write_row k T cls r ;;
           Ok (rows ++ [row]))
        (zrange min_n) [].

Definition write_min_dfa (ALPHABET : list ascii) (dfa : list DFAState)
  (cls : cells) (min_n need_dead dead : Z) : result DfaFile :=
  let k := Z.of_nat (length ALPHABET) in
  let dfa_n := Z.of_nat (length dfa) in
  let N := dfa_n + (if negb (need_dead =? 0) then 1 else 0) in
  let T := complete_T k dfa need_dead dead in
  let A := complete_A dfa need_dead in
  rep <- build_rep N min_n cls ;;
  acc <- build_acc N min_n A cls ;;
  let m := Z.of_nat (length (filter (fun x => negb (x =? 0)) acc)) in
  s0 <- cget cls 0 ;;
  let ids := filter (fun i => negb (nth (Z.to_nat i) acc 0 =? 0)) (zrange min_n) in
  rows <- write_rows k min_n T cls rep ;;
  Ok (mkDfaFile k ALPHABET min_n s0 m ids rows).

(** [printf("%d")] *)
Definition print_int (z : Z) : string := NilZero.string_of_int (Z.to_int z).

Definition nl : string := String "010" EmptyString.

(** [fprintf(out,"%d%s",tc,(a==ALPHABET_SIZE-1)?"":" ")] over a row. *)
Fixpoint print_row (row : list Z) : string :=
  match row with
  | [] => EmptyString
  | [t] => print_int t
  | t :: rest => (print_int t ++ " " ++ print_row rest)%string
  end.

(** The bytes written to the output file. *)
Definition render (f : DfaFile) : string :=
  ("ALPHABET " ++ print_int (f_k f) ++ " "
   ++ string_of_list_ascii (f_symbols f) ++ nl
   ++ "STATES " ++ print_int (f_states f) ++ nl
   ++ "START " ++ print_int (f_start f) ++ nl
   ++ "ACCEPT " ++ print_int (f_accept_count f)
   ++ String.concat "" (map (fun i => " " ++ print_int i) (f_accept f)) ++ nl
   ++ "TRANS" ++ nl
   ++ String.concat "" (map (fun row => print_row row ++ nl) (f_rows f))
   ++ "END" ++ nl)%string.

(* ================================================================== *)
(** ** The driver *)

(** What [main] computes up to the automaton it hands to the minimizer. *)
Definition build_dfa (line_regex line_alpha : list ascii)
  : result (list ascii * list DFAState) :=
  ALPHABET <- parse_alphabet_line (c_str line_alpha) ;;
  let regex0 := preprocess_regex (c_str line_regex) in
  match regex0 with
  | [] => Err EmptyRegex
  | _ :: _ =>
      _ <- check_regex_symbols_valid ALPHABET regex0 ;;
      _ <- check_parentheses_balanced regex0 ;;
      let regex1 := add_concat_ops ALPHABET regex0 in
      post <- to_postfix ALPHABET regex1 ;;
      '(nfa, frag) <- postfix_to_nfa ALPHABET post ;;
      dfa <- nfa_to_dfa ALPHABET nfa (start frag) (accept frag) ;;
      Ok (ALPHABET, dfa)
  end.

(** [main] on the two lines that [read_two_lines] returned. *)
Definition main (line_regex line_alpha : list ascii) : result DfaFile :=
  '(ALPHABET, dfa) <- build_dfa line_regex line_alpha ;;
  m <- dfa_minimize (Z.of_nat (length ALPHABET)) dfa ;;
  write_min_dfa ALPHABET dfa (m_cls m) (m_min_n m) (m_need_dead m) (m_dead m).

End Regex2MinDfa.

(* ================================================================== *)
(** * Statements of the specification, as definitions *)

Module Spec.
Import Regex2MinDfa.

(** Section 4.B: a marker goes between [a] and [b] iff [a] is an alphabet
    symbol, the epsilon sentinel, [)] or [*], and [b] is an alphabet
    symbol, the epsilon sentinel or [(]. *)
Definition marker_between (ALPHABET : list ascii) (a b : ascii) : Prop :=
  (In a ALPHABET \/ a = EPS_TOK \/ a = ")"%char \/ a = "*"%char)
  /\ (In b ALPHABET \/ b = EPS_TOK \/ b = "("%char).

Definition marker_between_dec (ALPHABET : list ascii) (a b : ascii)
  : {marker_between ALPHABET a b} + {~ marker_between ALPHABET a b}.
Proof.
  unfold marker_between.
  destruct (in_dec ascii_dec a ALPHABET); destruct (ascii_dec a EPS_TOK);
    destruct (ascii_dec a ")"%char); destruct (ascii_dec a "*"%char);
    destruct (in_dec ascii_dec b ALPHABET); destruct (ascii_dec b EPS_TOK);
    destruct (ascii_dec b "("%char);
    solve [left; tauto | right; tauto].
Defined.

(** The token stream with the markers of section 4.B put in, walking the
    stream pairwise. *)
Fixpoint insert_markers (ALPHABET : list ascii) (toks : list ascii)
  : list ascii :=
  match toks with
  | [] => []
  | a :: rest =>
      match rest with
      | [] => [a]
      | b :: _ =>
          if marker_between_dec ALPHABET a b
          then a :: "."%char :: insert_markers ALPHABET rest
          else a :: insert_markers ALPHABET rest
      end
  end.

(** A token the validation lets through: alphabet symbol, operator
    [| + * ( )], or the epsilon sentinel. *)
Definition valid_token (ALPHABET : list ascii) (c : ascii) : Prop :=
  c = EPS_TOK \/ In c ALPHABET \/ c = "|"%char \/ c = "+"%char
  \/ c = "*"%char \/ c = "("%char \/ c = ")"%char.


(** What [parse_alphabet_line] asks of a byte before it enters the
    alphabet. *)
Definition accepted_symbol (c : ascii) : Prop :=
  is_meta c = false /\ c <> ","%char /\ c <> ";"%char /\ isspace c = false
  /\ c <> EPS_TOK /\ 32 <= byte_val c.

(** The members of the set X of section 4.E: the states whose mark is set. *)
Definition marked (mark : list Z) (s : Z) : bool :=
  negb (nth (Z.to_nat s) mark 0 =? 0).

(** The queue of [eps_closure] never holds more than its cells. *)
Definition closure_queue_ok (cap : nat) (qh : Z) (st : closure_state) : Prop :=
  cl_qh st = qh /\ cl_qt st <= Z.of_nat cap /\ length (cl_q st) = cap.

(** The queue of [nfa_to_dfa] never holds more than its cells. *)
Definition subset_queue_ok (cap : nat) (qh : Z) (st : subset_state) : Prop :=
  ss_qh st = qh /\ ss_qt st <= Z.of_nat cap /\ length (ss_q st) = cap.

(** The array [P] has [cap] cells of which [Pn] are in use, and the
    worklist is [d] entries longer than [Pn]: a split adds one to both. *)
Definition blocks_ok (cap : nat) (d : Z) (st : hopcroft_state) : Prop :=
  length (hp_P st) = cap
  /\ hp_Pn st <= Z.of_nat cap
  /\ Z.of_nat (length (hp_W st)) - hp_Pn st = d.

(** A cell of [cls] that has been written holds a class id below [n]. *)
Definition cell_in_range (n : Z) (c : option Z) : Prop :=
  match c with
  | None => True
  | Some v => 0 <= v < n
  end.

(** The invariant of the refinement on the class ids. *)
Definition classes_in_range (st : hopcroft_state) : Prop :=
  2 <= hp_Pn st /\ Forall (cell_in_range (hp_Pn st)) (hp_cls st).

(** The line feed that ends a line read by [fgets]. *)
Definition newline : list ascii := ["010"%char].

(** The partition and worklist of the run on [a|b] when the block
    [{0, 3}] of the non-accepting states is about to be split. *)
Definition tie_state : hopcroft_state :=
  mkHopcroft [[1; 2]; [0; 3]; []; []] 2 [Some 1; Some 0; Some 0; Some 1] [].
Definition tie_mark : list Z := [1; 0; 0; 0].

(** Reachability in the emitted table: [s] is reached from the START
    state by following cells of the TRANS rows. *)
Inductive reachable (f : DfaFile) : Z -> Prop :=
  | reach_start : reachable f (f_start f)
  | reach_step : forall s row t,
      reachable f s ->
      0 <= s ->
      nth_error (f_rows f) (Z.to_nat s) = Some row ->
      In t row ->
      reachable f t.

(** Section 6 / 8.2: the emitted table is total and every id is a state. *)
Definition total_file (f : DfaFile) : Prop :=
  let n := f_states f in
  f_k f = Z.of_nat (length (f_symbols f))
  /\ Z.of_nat (length (f_rows f)) = n
  /\ Forall (fun row => length row = length (f_symbols f)
                        /\ Forall (fun t => 0 <= t < n) row) (f_rows f)
  /\ 0 <= f_start f < n
  /\ Forall (fun a => 0 <= a < n) (f_accept f).

End Spec.

(* ================================================================== *)
(** * dfa_checker.c *)

Module DfaChecker.

Definition MAX_LINE : Z := 8192.
Definition MAX_ALPHABET : Z := 128.

(** A DFA as [dfa_read] returns it: [alphabet] has [k] bytes, [acc] has [n]
    cells and [trans] has [n*k] cells. *)
Record DFA : Type := mkDFA {
  k : Z;
  alphabet : list ascii;
  n : Z;
  start : Z;
  acc : list Z;
  trans : list Z
}.

Fixpoint alph_index_from (alphabet : list ascii) (i : Z) (c : ascii) : Z :=
  match alphabet with
  | [] => -1
  | x :: rest => if Ascii.eqb x c then i else alph_index_from rest (i + 1) c
  end.

Definition alph_index (d : DFA) (c : ascii) : Z :=
  alph_index_from (firstn (Z.to_nat (k d)) (alphabet d)) 0 c.

(** The loop of [run_dfa] from state [st]. *)
Fixpoint run_dfa_from (d : DFA) (st : Z) (s : list ascii) : result Z :=
  match s with
  | [] =>
      a <- aget (acc d) st ;;
      Ok (if negb (a =? 0) then 1 else 0)
  | c :: rest =>
      let idx := alph_index d c in
      if idx <? 0 then Ok (-1)
      else
        st' <- aget (trans d) (st * k d + idx) ;;
        run_dfa_from d st' rest
  end.

Definition run_dfa (d : DFA) (s : list ascii) : result Z :=
  run_dfa_from d (start d) s.

Fixpoint list_eqb (a b : list ascii) : bool :=
  match a, b with
  | [], [] => true
  | x :: a', y :: b' => Ascii.eqb x y && list_eqb a' b'
  | _, _ => false
  end.

Definition same_alphabet (a b : DFA) : bool :=
  if negb (k a =? k b) then false
  else list_eqb (firstn (Z.to_nat (k a)) (alphabet a))
                (firstn (Z.to_nat (k a)) (alphabet b)).

Fixpoint drop_newlines (rev_s : list ascii) : list ascii :=
  match rev_s with
  | [] => []
  | c :: rest =>
      if Ascii.eqb c "010" || Ascii.eqb c "013" then drop_newlines rest
      else rev_s
  end.

(** [trim_newline]: the loop works from the end of the string. *)
Definition trim_newline (s : list ascii) : list ascii :=
  rev (drop_newlines (rev s)).

(** The loops that advance [p] over white space. *)
Fixpoint skip_spaces (p : list ascii) : list ascii :=
  match p with
  | [] => []
  | c :: rest => if isspace c then skip_spaces rest else p
  end.

(** The loop that copies the token into [strbuf], which has room for
    [sizeof(strbuf)-1] bytes. *)
Fixpoint read_token (p : list ascii) (room : nat) : list ascii :=
  match p, room with
  | c :: rest, S room' => if isspace c then [] else c :: read_token rest room'
  | _, _ => []
  end.

(** How [main] ends. *)
Inductive verdict : Type :=
  | Pass (total : Z)         (* "PASS: %d tests matched ..." on stdout *)
  | AlphabetsDiffer          (* "FAIL: alphabets differ ..." *)
  | FailAt (line_no : Z) (w : list ascii) (rref rusr label : Z)
  | BadLabel (line_no : Z)   (* "label must be 0 or 1" *)
  | MissingString (line_no : Z)
  | SymbolNotInAlphabet (line_no : Z).

Definition exit_code (v : verdict) : Z :=
  match v with
  | Pass _ => 0
  | AlphabetsDiffer | FailAt _ _ _ _ _ => 2
  | BadLabel _ | MissingString _ | SymbolNotInAlphabet _ => 1
  end.

(** A "WARNING: test label mismatch vs reference" line on stderr. *)
Record warning : Type := mkWarning { w_line : Z; w_label : Z; w_ref : Z }.

(** The [while(fgets(...))] loop over the chunks [fgets] returns. *)
Fixpoint tests_loop (ref usr : DFA) (lines : list (list ascii))
  (line_no total : Z) (warns : list warning) : result (verdict * list warning) :=
  match lines with
  | [] => Ok (Pass total, warns)
  | buf :: rest =>
      let line_no := line_no + 1 in
      let line := trim_newline (c_str buf) in
      match skip_spaces line with
      | [] => tests_loop ref usr rest line_no total warns
      | c :: p =>
          if Ascii.eqb c "#" then tests_loop ref usr rest line_no total warns
          else if negb (Ascii.eqb c "0") && negb (Ascii.eqb c "1") then
            Ok (BadLabel line_no, warns)
          else
            let label := if Ascii.eqb c "1" then 1 else 0 in
            match skip_spaces p with
            | [] => Ok (MissingString line_no, warns)
            | p =>
                let strbuf := read_token p (Z.to_nat (MAX_LINE - 1)) in
                let w := if list_eqb strbuf (str "<eps>") then [] else strbuf in
                rref <- run_dfa ref w ;;
                rusr <- run_dfa usr w ;;
                if (rref <? 0) || (rusr <? 0) then
                  Ok (SymbolNotInAlphabet line_no, warns)
                else
                  let total := total + 1 in
                  if negb (rref =? rusr) then
                    Ok (FailAt line_no w rref rusr label, warns)
                  else
                    let warns :=
                      if negb (rref =? label)
                      then warns ++ [mkWarning line_no label rref]
                      else warns in
                    tests_loop ref usr rest line_no total warns
            end
      end
  end.

(** [main] after the two [dfa_read]s, on the lines of the tests file. *)
Definition main (ref usr : DFA) (lines : list (list ascii))
  : result (verdict * list warning) :=
  if negb (same_alphabet ref usr) then Ok (AlphabetsDiffer, [])
  else tests_loop ref usr lines 0 0 [].

(** [fgets(line, sizeof(line), ft)] with room for [room] bytes before the
    NUL it appends: the bytes it stores, which end with the first line feed
    if one comes within [room] bytes, and what is left of the file. *)
Fixpoint fgets (room : nat) (file : list ascii) : list ascii * list ascii :=
  match room, file with
  | S room', c :: rest =>
      if Ascii.eqb c "010" then ([c], rest)
      else let '(l, r) := fgets room' rest in (c :: l, r)
  | _, _ => ([], file)
  end.

(** The chunks the calls of [fgets] in [while(fgets(line,sizeof(line),ft))]
    return until the end of the file. Every call takes at least one byte,
    so a [fuel] of the length of the file is never used up. *)
Fixpoint file_chunks (fuel : nat) (file : list ascii) : list (list ascii) :=
  match fuel, file with
  | S fuel', _ :: _ =>
      let '(l, r) := fgets (Z.to_nat (MAX_LINE - 1)) file in
      l :: file_chunks fuel' r
  | _, _ => []
  end.

(** [main] after the two [dfa_read]s, on the bytes of the tests file. *)
Definition main_on_file (ref usr : DFA) (file : list ascii)
  : result (verdict * list warning) :=
  main ref usr (file_chunks (length file) file).

(** What [dfa_read] checks before it returns, and what reading the
    alphabet with [%s] gives: no NUL and no white space in it. *)
Record wf_DFA (d : DFA) : Prop := mkWf {
  wf_k : 0 < k d <= MAX_ALPHABET;
  wf_alphabet : Z.of_nat (length (alphabet d)) = k d;
  wf_bytes : Forall (fun c => c <> zero /\ isspace c = false) (alphabet d);
  wf_n : 0 < n d;
  wf_start : 0 <= start d < n d;
  wf_acc : Z.of_nat (length (acc d)) = n d;
  wf_trans_len : Z.of_nat (length (trans d)) = n d * k d;
  wf_trans : Forall (fun t => 0 <= t < n d) (trans d)
}.

Definition is_space (c : ascii) : Prop := isspace c = true.

(** A line of a well-formed tests file (section 6) over the alphabet
    [sigma], as [fgets] returns it, and the test it stands for: nothing for
    a blank or [#] line, else the label and the string, [<eps>] standing
    for the empty string. *)
Inductive test_line (sigma : list ascii)
  : list ascii -> option (Z * list ascii) -> Prop :=
  | tl_blank : forall ws,
      Forall is_space ws ->
      test_line sigma ws None
  | tl_comment : forall ws rest,
      Forall is_space ws ->
      test_line sigma (ws ++ "#"%char :: rest) None
  | tl_test : forall ws1 lab ws2 tok ws3 w,
      Forall is_space ws1 ->
      lab = "0"%char \/ lab = "1"%char ->
      ws2 <> [] ->
      Forall is_space ws2 ->
      tok <> [] ->
      Forall (fun c => isspace c = false /\ c <> zero) tok ->
      Forall is_space ws3 ->
      (Z.of_nat (length (ws1 ++ lab :: ws2 ++ tok ++ ws3)) < MAX_LINE) ->
      w = (if list_eqb tok (str "<eps>") then [] else tok) ->
      Forall (fun c => In c sigma) w ->
      test_line sigma (ws1 ++ lab :: ws2 ++ tok ++ ws3)
        (Some (if Ascii.eqb lab "1" then 1 else 0, w)).

(** A line of a well-formed tests file as section 6 describes it, without
    its line feed and whatever its length, and the test it stands for. *)
Inductive spec_line (sigma : list ascii)
  : list ascii -> option (Z * list ascii) -> Prop :=
  | sl_blank : forall ws,
      Forall is_space ws ->
      spec_line sigma ws None
  | sl_comment : forall ws rest,
      Forall is_space ws ->
      spec_line sigma (ws ++ "#"%char :: rest) None
  | sl_test : forall ws1 lab ws2 tok ws3 w,
      Forall is_space ws1 ->
      lab = "0"%char \/ lab = "1"%char ->
      ws2 <> [] ->
      Forall is_space ws2 ->
      tok <> [] ->
      Forall (fun c => isspace c = false /\ c <> zero) tok ->
      Forall is_space ws3 ->
      w = (if list_eqb tok (str "<eps>") then [] else tok) ->
      Forall (fun c => In c sigma) w ->
      spec_line sigma (ws1 ++ lab :: ws2 ++ tok ++ ws3)
        (Some (if Ascii.eqb lab "1" then 1 else 0, w)).

(** The bytes of the file whose lines are [ls]: a line feed ends every
    line but the last, so a file that ends with a line feed has an empty
    last line. *)
Fixpoint unlines (ls : list (list ascii)) : list ascii :=
  match ls with
  | [] => []
  | l :: rest =>
      match rest with
      | [] => l
      | _ :: _ => l ++ "010"%char :: unlines rest
      end
  end.

(** The lines [ls] as [fgets] returns them when each fits in the buffer:
    with their line feeds, and nothing for an empty last line. *)
Fixpoint chunks_of (ls : list (list ascii)) : list (list ascii) :=
  match ls with
  | [] => []
  | l :: rest =>
      match rest with
      | [] => match l with [] => [] | _ :: _ => [l] end
      | _ :: _ => (l ++ ["010"%char]) :: chunks_of rest
      end
  end.

(** The line has no line feed and, with one, fits in the [MAX_LINE - 1]
    bytes [fgets] stores at most. *)
Definition fits_buffer (l : list ascii) : Prop :=
  ~ In "010"%char l /\ Z.of_nat (length l) < MAX_LINE - 1.

(** The tests of a file: the lines that are neither blank nor comments. *)
Fixpoint tests_of (ts : list (option (Z * list ascii))) : list (Z * list ascii) :=
  match ts with
  | [] => []
  | Some t :: rest => t :: tests_of rest
  | None :: rest => tests_of rest
  end.

(** The warnings a well-formed tests file must produce: one for each test
    whose label differs from what the reference DFA answers, with the number
    of its line; [line_no] lines came before. *)
Fixpoint warnings_of (ref : DFA) (ts : list (option (Z * list ascii)))
  (line_no : Z) : list warning :=
  match ts with
  | [] => []
  | None :: rest => warnings_of ref rest (line_no + 1)
  | Some (label, w) :: rest =>
      match run_dfa ref w with
      | Ok rref =>
          if negb (rref =? label) then [mkWarning (line_no + 1) label rref]
          else []
      | Err _ => []
      end ++ warnings_of ref rest (line_no + 1)
  end.

(** The DFA of [a*] over the alphabet [a], and a tests file for it whose
    second test carries a wrong label. *)
Definition star_dfa : DFA := mkDFA 1 (str "a") 1 0 [1] [0].
Definition star_tests : list (list ascii) :=
  [ str "1 <eps>" ++ ["010"%char];
    str "0 aa" ++ ["010"%char];
    str "# a comment" ++ ["010"%char];
    ["010"%char] ].

End DfaChecker.

(* ================================================================== *)
(** * Notions used to state further properties of the code *)

Module Props.
Import Regex2MinDfa Spec.

(** The bytes [parse_alphabet_line] steps over. *)
Definition is_separator (c : ascii) : bool :=
  Ascii.eqb c "010" || Ascii.eqb c "013" || isspace c || Ascii.eqb c ","
  || Ascii.eqb c ";".

(** The bytes of an alphabet line that are not separators, in order. *)
Definition alphabet_symbols (line : list ascii) : list ascii :=
  filter (fun c => negb (is_separator c)) line.

(** A byte that passes the three tests made on a symbol by itself. *)
Definition admissible (c : ascii) : Prop :=
  c <> EPS_TOK /\ is_meta c = false /\ 32 <= byte_val c.

(** Opening minus closing parentheses. *)
Fixpoint paren_depth (s : list ascii) : Z :=
  match s with
  | [] => 0
  | c :: rest =>
      (if Ascii.eqb c "(" then 1 else if Ascii.eqb c ")" then -1 else 0)
      + paren_depth rest
  end.

(** An operand of the shunting-yard loop: alphabet symbol or sentinel. *)
Definition is_operand (ALPHABET : list ascii) (c : ascii) : bool :=
  is_alphabet_symbol ALPHABET c || Ascii.eqb c EPS_TOK.

Definition is_paren (c : ascii) : bool :=
  Ascii.eqb c "(" || Ascii.eqb c ")".

(** The opening parentheses waiting on the operator stack. *)
Definition open_parens (st : list ascii) : Z :=
  Z.of_nat (length (filter (fun c => Ascii.eqb c "(") st)).

(** What the operator stack of [to_postfix] can hold. *)
Definition stack_symbol (c : ascii) : Prop :=
  c = "("%char \/ c = "|"%char \/ c = "+"%char \/ c = "."%char.

(** A byte [to_postfix] has a case for. *)
Definition known_token (ALPHABET : list ascii) (c : ascii) : Prop :=
  is_operand ALPHABET c = true \/ c = "("%char \/ c = ")"%char
  \/ c = "*"%char \/ c = "|"%char \/ c = "+"%char \/ c = "."%char.

(** No operator is an alphabet symbol, as [parse_alphabet_line] ensures. *)
Definition meta_free (ALPHABET : list ascii) : Prop :=
  forall c, is_meta c = true -> is_alphabet_symbol ALPHABET c = false.

(** The operators that were popped: stack symbols other than [(]. *)
Definition popped_ok (popped : list ascii) : Prop :=
  Forall (fun c => stack_symbol c /\ Ascii.eqb c "(" = false) popped.

(** The edges of state [i], the empty list outside the array. *)
Definition edges_at (nfa : list NFAState) (i : Z) : NFAState :=
  nth (Z.to_nat i) nfa [].

(** An edge that stays inside an NFA of [n] states and is labelled with
    epsilon or an alphabet symbol. *)
Definition edge_ok (ALPHABET : list ascii) (n : Z) (e : Edge) : Prop :=
  0 <= to e < n /\ (sym e = zero \/ In (sym e) ALPHABET).

Definition edges_ok (ALPHABET : list ascii) (nfa : list NFAState) : Prop :=
  Forall (Forall (edge_ok ALPHABET (Z.of_nat (length nfa)))) nfa.

(** A fragment on the stack: both ends are states and nothing leaves its
    accept state yet. *)
Definition frag_ok (nfa : list NFAState) (f : Frag) : Prop :=
  0 <= start f < Z.of_nat (length nfa)
  /\ 0 <= accept f < Z.of_nat (length nfa)
  /\ edges_at nfa (accept f) = [].

(** The invariant of the loop of [postfix_to_nfa]. *)
Definition thompson_ok (ALPHABET : list ascii)
  (st : list NFAState * list Frag) : Prop :=
  edges_ok ALPHABET (fst st)
  /\ Z.of_nat (length (fst st)) <= MAX_NFA_STATES
  /\ Forall (frag_ok (fst st)) (snd st)
  /\ NoDup (map accept (snd st)).

(** The tokens of a postfix that make states: all but the marker. *)
Definition state_tokens (post : list ascii) : list ascii :=
  filter (fun c => negb (Ascii.eqb c ".")) post.

(** A cell of a transition row before completion: missing, or a state. *)
Definition cell_ok (n : Z) (t : Z) : Prop := t = -1 \/ 0 <= t < n.

(** A state of the subset construction in a table of [n] states over [k]
    symbols. *)
Definition row_ok (k n : Z) (d : DFAState) : Prop :=
  Z.of_nat (length (trans d)) = k
  /\ Forall (cell_ok n) (trans d)
  /\ (is_accept d = 0 \/ is_accept d = 1).

(** No two states carry the same set of NFA states. *)
Definition sets_distinct (dfa : list DFAState) : Prop :=
  ForallOrdPairs (fun a b => bs_eq a b = false) (map set dfa).

(** The invariant of the loop of [nfa_to_dfa]. *)
Definition subset_ok (k : Z) (dfa : list DFAState) : Prop :=
  1 <= Z.of_nat (length dfa) <= MAX_DFA_STATES
  /\ Forall (row_ok k (Z.of_nat (length dfa))) dfa
  /\ sets_distinct dfa.

(** State [s] of the completed automaton is accepting: [A[s] != 0]. *)
Definition accepting (A : list Z) (s : Z) : bool :=
  negb (nth (Z.to_nat s) A 0 =? 0).

(** The blocks [P[0 .. Pn-1]] and the array [cls] describe the same
    partition of the states [0 .. N-1]: every state has a class and is a
    member of the block of that class; every member of block [i] has class
    [i]; no block is empty; and the members of a block are all accepting
    or all non-accepting. *)
Definition partition_ok (N : Z) (A : list Z) (st : hopcroft_state) : Prop :=
  (2 <= hp_Pn st <= N
   /\ Z.of_nat (length (hp_P st)) = N
   /\ Z.of_nat (length (hp_cls st)) = N)
  /\ (forall s, 0 <= s < N ->
        exists c blk, cget (hp_cls st) s = Ok c /\ 0 <= c < hp_Pn st
                      /\ aget (hp_P st) c = Ok blk /\ In s blk)
  /\ (forall i blk, 0 <= i < hp_Pn st -> aget (hp_P st) i = Ok blk ->
        blk <> []
        /\ forall s, In s blk -> 0 <= s < N /\ cget (hp_cls st) s = Ok i)
  /\ (forall i blk s t, 0 <= i < hp_Pn st -> aget (hp_P st) i = Ok blk ->
        In s blk -> In t blk -> accepting A s = accepting A t).

(** [r] is the first state whose class is [c]. *)
Definition first_of_class (cls : cells) (c r : Z) : Prop :=
  0 <= r /\ cget cls r = Ok c /\ forall s, 0 <= s < r -> cget cls s <> Ok c.

(** Bit [i] of the set is on. *)
Definition member (b : Bitset) (i : Z) : Prop := bs_get b i = Ok 1.

(** The NFA has an edge from [u] to [v] with label [sy]; the label of an
    epsilon edge is the byte 0. *)
Definition nfa_edge (nfa : list NFAState) (sy : ascii) (u v : Z) : Prop :=
  exists edges, aget nfa u = Ok edges /\ In (mkEdge v sy) edges.

(** [v] is a member of [b] or is reached from one by epsilon edges. *)
Inductive eps_reach (nfa : list NFAState) (b : Bitset) : Z -> Prop :=
  | er_member : forall v, member b v -> eps_reach nfa b v
  | er_step : forall u v,
      eps_reach nfa b u -> nfa_edge nfa zero u v -> eps_reach nfa b v.

(** State [u] is waiting in the queue of [eps_closure]. *)
Definition in_queue (st : closure_state) (u : Z) : Prop :=
  exists i, cl_qh st <= i < cl_qt st /\ cget (cl_q st) i = Ok u.

(** All epsilon successors of [u] are in the set. *)
Definition eps_closed_at (nfa : list NFAState) (out : Bitset) (u : Z) : Prop :=
  forall v, nfa_edge nfa zero u v -> member out v.

(** The invariant of the loop of [eps_closure] over the input set [inb]:
    the set only grows, holds only states reached from [inb], every queued
    state is in the set, and every member is either still queued or has
    all its epsilon successors in the set. *)
Definition closure_ok (nfa : list NFAState) (inb : Bitset)
  (st : closure_state) : Prop :=
  length (cl_out st) = length inb
  /\ 0 <= cl_qh st <= cl_qt st
  /\ (forall v, member inb v -> member (cl_out st) v)
  /\ (forall v, member (cl_out st) v -> eps_reach nfa inb v)
  /\ (forall i, 0 <= i < cl_qt st ->
        exists u, cget (cl_q st) i = Ok u /\ member (cl_out st) u)
  /\ (forall u, member (cl_out st) u ->
        in_queue st u \/ eps_closed_at nfa (cl_out st) u).

(** The invariant of the loop over the edges of the popped state [u], of
    which the edges [pre] have been looked at. *)
Definition closure_edges_ok (nfa : list NFAState) (inb : Bitset) (u : Z)
  (pre : list Edge) (st : closure_state) : Prop :=
  length (cl_out st) = length inb
  /\ 0 <= cl_qh st <= cl_qt st
  /\ (forall v, member inb v -> member (cl_out st) v)
  /\ (forall v, member (cl_out st) v -> eps_reach nfa inb v)
  /\ (forall i, 0 <= i < cl_qt st ->
        exists u, cget (cl_q st) i = Ok u /\ member (cl_out st) u)
  /\ (forall u', member (cl_out st) u' ->
        in_queue st u' \/ eps_closed_at nfa (cl_out st) u' \/ u' = u)
  /\ (forall e, In e pre -> sym e = zero -> member (cl_out st) (to e))
  /\ member (cl_out st) u.

(** The cell [dfa[id].trans[ai]]. *)
Definition cell (dfa : list DFAState) (id ai : Z) : result Z :=
  d <- aget dfa id ;; aget (trans d) ai.

(** The cell of state [id] for the symbol [sy] at index [ai] is filled in:
    it is -1 if no member of the set of [id] has an edge with [sy], and
    else the state whose set is the closure of the set [move_on_symbol]
    gives. *)
Definition row_done (nfa : list NFAState) (dfa : list DFAState)
  (id ai : Z) (sy : ascii) : Prop :=
  exists S mv,
    aget (map set dfa) id = Ok S
    /\ move_on_symbol nfa S sy = Ok mv
    /\ if bs_empty mv then cell dfa id ai = Ok (-1)
       else exists t cl, cell dfa id ai = Ok t
                         /\ eps_closure nfa mv = Ok cl
                         /\ aget (map set dfa) t = Ok cl.

(** The invariant of the loops of [nfa_to_dfa]: the states before [id]
    have all their cells filled in, and state [id] the cells before [j];
    the queue holds the states in the order of their numbers. *)
Definition subset_rows_ok (sigma : list ascii) (nfa : list NFAState)
  (nfa_accept : Z) (init_cl : Bitset) (id j : Z) (st : subset_state) : Prop :=
  let dfa := ss_dfa st in
  Forall (fun d => length (set d) = length (bs_new (Z.of_nat (length nfa)))
                   /\ bs_get (set d) nfa_accept = Ok (is_accept d)) dfa
  /\ aget (map set dfa) 0 = Ok init_cl
  /\ ss_qt st = Z.of_nat (length dfa)
  /\ 0 <= ss_qh st <= ss_qt st
  /\ (forall i, 0 <= i < ss_qt st -> cget (ss_q st) i = Ok i)
  /\ (forall id' ai sy, 0 <= id' < id -> aget sigma ai = Ok sy ->
        row_done nfa dfa id' ai sy)
  /\ (forall ai sy, 0 <= ai < j -> aget sigma ai = Ok sy ->
        row_done nfa dfa id ai sy).

(** The NFA can be in state [v] after reading [w] from state [s]. *)
Inductive nfa_reach (nfa : list NFAState) (s : Z) : list ascii -> Z -> Prop :=
  | nr_start : nfa_reach nfa s [] s
  | nr_eps : forall w u v,
      nfa_reach nfa s w u -> nfa_edge nfa zero u v -> nfa_reach nfa s w v
  | nr_sym : forall w c u v,
      nfa_reach nfa s w u -> nfa_edge nfa c u v ->
      nfa_reach nfa s (w ++ [c]) v.

(** The table of the subset construction is in state [id] after reading
    [w] from state 0; a cell -1 ends the run. *)
Inductive table_run (sigma : list ascii) (dfa : list DFAState)
  : list ascii -> Z -> Prop :=
  | tr_start : table_run sigma dfa [] 0
  | tr_step : forall w c id ai t,
      table_run sigma dfa w id ->
      aget sigma ai = Ok c -> cell dfa id ai = Ok t -> 0 <= t ->
      table_run sigma dfa (w ++ [c]) t.

(** The completed table [T], with rows of [k] cells, is in state [s] after
    reading the symbols with the indices [w] from state 0. *)
Inductive T_run (k : Z) (T : list Z) : list Z -> Z -> Prop :=
  | Tr_start : T_run k T [] 0
  | Tr_step : forall w a s t,
      T_run k T w s -> 0 <= a < k -> aget T (s * k + a) = Ok t ->
      T_run k T (w ++ [a]) t.

(** The emitted file is in state [c] after reading the symbols with the
    indices [w] from its START state. *)
Inductive file_run (f : DfaFile) : list Z -> Z -> Prop :=
  | fr_start : file_run f [] (f_start f)
  | fr_step : forall w a c row t,
      file_run f w c -> aget (f_rows f) c = Ok row -> aget row a = Ok t ->
      file_run f (w ++ [a]) t.

Definition file_accepts (f : DfaFile) (w : list Z) : Prop :=
  exists c, file_run f w c /\ In c (f_accept f).

Definition T_accepts (k : Z) (T A : list Z) (w : list Z) : Prop :=
  exists s, T_run k T w s /\ accepting A s = true.

(** The class written for state [s], -1 if the cell is indeterminate. *)
Definition class_of (cls : cells) (s : Z) : Z :=
  match nth (Z.to_nat s) cls None with
  | Some c => c
  | None => -1
  end.

(** The partition [cls] of the states [0 .. N-1] is stable: two states of
    one class go to states of one class on every symbol. *)
Definition stable_b (N k : Z) (T : list Z) (cls : cells) : bool :=
  forallb (fun s =>
    forallb (fun t =>
      negb (class_of cls s =? class_of cls t)
      || forallb (fun a =>
           class_of cls (nth (Z.to_nat (s * k + a)) T 0)
           =? class_of cls (nth (Z.to_nat (t * k + a)) T 0))
         (zrange k))
    (zrange N))
  (zrange N).

(** What the minimizer and the writer are given and return, for a table
    as the subset construction leaves it. *)
Definition emitted_from (sigma : list ascii) (dfa : list DFAState)
  (m : minimized) (f : DfaFile) : Prop :=
  let k := Z.of_nat (length sigma) in
  sigma <> [] /\ dfa <> []
  /\ Forall (row_ok k (Z.of_nat (length dfa))) dfa
  /\ dfa_minimize k dfa = Ok m
  /\ write_min_dfa sigma dfa (m_cls m) (m_min_n m) (m_need_dead m) (m_dead m)
     = Ok f.

(** The word whose symbols have the indices [wi] in the alphabet. *)
Definition word_symbols (sigma : list ascii) (wi : list Z) : list ascii :=
  map (fun ai => nth (Z.to_nat ai) sigma zero) wi.

(** The table of the subset construction accepts the word: its run ends
    in a state whose accepting flag is set. *)
Definition table_accepts (sigma : list ascii) (dfa : list DFAState)
  (w : list ascii) : Prop :=
  exists id d, table_run sigma dfa w id /\ aget dfa id = Ok d
               /\ is_accept d = 1.

(** The expressions a postfix string stands for. *)
Inductive re : Type :=
  | re_eps : re
  | re_sym : ascii -> re
  | re_cat : re -> re -> re
  | re_alt : re -> re -> re
  | re_star : re -> re.

Inductive matches : re -> list ascii -> Prop :=
  | m_eps : matches re_eps []
  | m_sym : forall c, matches (re_sym c) [c]
  | m_cat : forall r1 r2 w1 w2,
      matches r1 w1 -> matches r2 w2 -> matches (re_cat r1 r2) (w1 ++ w2)
  | m_alt_l : forall r1 r2 w, matches r1 w -> matches (re_alt r1 r2) w
  | m_alt_r : forall r1 r2 w, matches r2 w -> matches (re_alt r1 r2) w
  | m_star_nil : forall r, matches (re_star r) []
  | m_star_app : forall r w1 w2,
      matches r w1 -> matches (re_star r) w2 ->
      matches (re_star r) (w1 ++ w2).

(** The expression stack after one more token of the postfix string, read
    as [postfix_to_nfa] reads it: [.] is concatenation, [|] and [+] are
    both union, [*] is iteration. *)
Definition re_step (ALPHABET : list ascii) (st : option (list re))
  (c : ascii) : option (list re) :=
  match st with
  | None => None
  | Some rs =>
      if is_alphabet_symbol ALPHABET c then Some (re_sym c :: rs)
      else if Ascii.eqb c EPS_TOK then Some (re_eps :: rs)
      else if Ascii.eqb c "." then
        match rs with
        | r2 :: r1 :: rs' => Some (re_cat r1 r2 :: rs')
        | _ => None
        end
      else if Ascii.eqb c "|" || Ascii.eqb c "+" then
        match rs with
        | r2 :: r1 :: rs' => Some (re_alt r1 r2 :: rs')
        | _ => None
        end
      else if Ascii.eqb c "*" then
        match rs with
        | r :: rs' => Some (re_star r :: rs')
        | _ => None
        end
      else None
  end.

Definition postfix_re (ALPHABET post : list ascii) : option (list re) :=
  fold_left (re_step ALPHABET) post (Some []).

(** A labelled graph on state numbers, and its paths: [reach E s w v] says
    that [v] is reached from [s] reading [w], edges labelled with the byte 0
    being free. *)
Definition graph : Type := ascii -> Z -> Z -> Prop.

Inductive reach (E : graph) (s : Z) : list ascii -> Z -> Prop :=
  | r_start : reach E s [] s
  | r_eps : forall w u v, reach E s w u -> E zero u v -> reach E s w v
  | r_sym : forall w c u v,
      reach E s w u -> E c u v -> reach E s (w ++ [c]) v.

(** A word without the byte 0. *)
Definition nonzero (w : list ascii) : Prop := Forall (fun c => c <> zero) w.

(** The fragment [f] owns the states [lo .. hi-1]: its ends are among
    them, no edge leaves them, no edge leaves its accept state, and the
    words that lead from its start to its accept state are those of [r]. *)
Definition region_ok (E : graph) (lo hi : Z) (f : Frag) (r : re) : Prop :=
  lo <= start f < hi /\ lo <= accept f < hi
  /\ (forall c u v, E c u v -> lo <= u < hi -> lo <= v < hi)
  /\ (forall c v, ~ E c (accept f) v)
  /\ (forall w, nonzero w ->
        (reach E (start f) w (accept f) <-> matches r w)).

(** The fragments of the stack own consecutive ranges of states, the top
    one the last range, which ends at [hi]. *)
Fixpoint stack_ok (E : graph) (hi : Z) (fs : list Frag) (rs : list re)
  : Prop :=
  match fs, rs with
  | [], [] => hi = 0
  | f :: fs', r :: rs' =>
      exists lo, region_ok E lo hi f r /\ stack_ok E lo fs' rs'
  | _, _ => False
  end.

(** The invariant of the loop of [postfix_to_nfa] after the tokens [pre]. *)
Definition thompson_lang (ALPHABET : list ascii) (pre : list ascii)
  (st : list NFAState * list Frag) : Prop :=
  exists rs, postfix_re ALPHABET pre = Some rs
             /\ stack_ok (nfa_edge (fst st)) (Z.of_nat (length (fst st)))
                  (snd st) rs.

(** The state the completed table reaches from [s] on the symbols with
    the indices [w]. *)
Fixpoint T_walk (k : Z) (T : list Z) (s : Z) (w : list Z) : Z :=
  match w with
  | [] => s
  | a :: w' => T_walk k T (nth (Z.to_nat (s * k + a)) T 0) w'
  end.

(** The states [s] and [t] of the completed table accept the same words. *)
Definition same_language (k : Z) (T A : list Z) (s t : Z) : Prop :=
  forall w, Forall (fun a => 0 <= a < k) w ->
    accepting A (T_walk k T s w) = accepting A (T_walk k T t w).

(** The invariant of the refinement on the classes: the blocks and [cls]
    agree, the worklist names blocks in use, and two states that accept
    the same words have the same class. *)
Definition refine_ok (N k : Z) (T A : list Z) (st : hopcroft_state) : Prop :=
  partition_ok N A st
  /\ Forall (fun i => 0 <= i < hp_Pn st) (hp_W st)
  /\ (forall s t, 0 <= s < N -> 0 <= t < N -> same_language k T A s t ->
        cget (hp_cls st) s = cget (hp_cls st) t).

(** The marks do not tell apart two states that accept the same words. *)
Definition mark_fair (N k : Z) (T A : list Z) (mark : list Z) : Prop :=
  forall s t, 0 <= s < N -> 0 <= t < N -> same_language k T A s t ->
    marked mark s = marked mark t.

(** The buckets [inv[a*N+q]] hold the predecessors of [q] on symbol [a]. *)
Definition inv_ok (N k : Z) (T : list Z) (inv : list IntVec) : Prop :=
  forall a q, 0 <= a < k -> 0 <= q < N ->
    exists pre, aget inv (a * N + q) = Ok pre
                /\ forall p, In p pre
                             <-> 0 <= p < N /\ aget T (p * k + a) = Ok q.

End Props.

(* ================================================================== *)
(** * Properties *)

(** ** The error monad and the loops *)

Lemma bind_Ok {A B : Type} (c : result A) (f : A -> result B) (b : B) :
  bind c f = Ok b -> exists a, c = Ok a /\ f a = Ok b.
Proof.
  destruct c as [a|e]; simpl; intros H; [eauto | discriminate].
Qed.

Ltac inv_bind H :=
  let x := fresh "x" in
  let Hx := fresh "Hx" in
  apply bind_Ok in H; destruct H as (x & Hx & H).

Lemma foldM_inv {A S : Type} (I : S -> Prop) (f : S -> A -> result S)
  (l : list A) :
  (forall s a s', I s -> In a l -> f s a = Ok s' -> I s') ->
  forall s s', I s -> foldM f l s = Ok s' -> I s'.
Proof.
  induction l as [|x l IH]; simpl; intros Hstep s s' Hs H.
  - now inversion H; subst.
  - inv_bind H. apply IH with (s := x0); eauto.
Qed.

Lemma while_fuel_inv {S : Type} (I : S -> Prop) (cond : S -> bool)
  (body : S -> result S) :
  (forall s s', I s -> cond s = true -> body s = Ok s' -> I s') ->
  forall fuel s s', I s -> while_fuel fuel cond body s = Ok s' ->
                    I s' /\ cond s' = false.
Proof.
  intros Hstep fuel; induction fuel as [|fuel IH]; intros s s' Hs H;
    simpl in H; destruct (cond s) eqn:Hc; try discriminate.
  - inversion H; subst; auto.
  - inv_bind H. apply (IH x s'); [eapply Hstep; eauto | exact H].
  - inversion H; subst; auto.
Qed.

Lemma zrange_from_In (n : nat) (lo i : Z) :
  In i (zrange_from n lo) <-> lo <= i < lo + Z.of_nat n.
Proof.
  revert lo; induction n as [|n IH]; intros lo; simpl.
  - lia.
  - rewrite IH. lia.
Qed.

Lemma zrange_In (n i : Z) : In i (zrange n) <-> 0 <= i < n.
Proof.
  unfold zrange. rewrite zrange_from_In. lia.
Qed.

Lemma zrange_from_length (n : nat) (lo : Z) : length (zrange_from n lo) = n.
Proof.
  revert lo; induction n as [|n IH]; intros lo; simpl; [reflexivity|].
  now rewrite IH.
Qed.

Lemma zrange_length (n : Z) : length (zrange n) = Z.to_nat n.
Proof. apply zrange_from_length. Qed.

(** ** Arrays *)

Lemma aget_Ok {A : Type} (a : list A) (i : Z) (x : A) :
  aget a i = Ok x -> 0 <= i < Z.of_nat (length a) /\ In x a.
Proof.
  unfold aget. destruct (i <? 0) eqn:Hi; [discriminate|].
  destruct (nth_error a (Z.to_nat i)) eqn:Hn; [|discriminate].
  intros H; inversion H; subst.
  apply Z.ltb_ge in Hi. split.
  - assert (Z.to_nat i < length a)%nat by (apply nth_error_Some; congruence).
    lia.
  - eapply nth_error_In; eauto.
Qed.

Lemma list_set_length {A : Type} (a : list A) (n : nat) (x : A) :
  length (list_set a n x) = length a.
Proof.
  revert n; induction a as [|y a IH]; intros [|n]; simpl; auto.
Qed.


Lemma list_set_Forall {A : Type} (Q : A -> Prop) (a : list A) (n : nat) (x : A) :
  Forall Q a -> Q x -> Forall Q (list_set a n x).
Proof.
  intros Ha Hx; revert n; induction Ha as [|y a Hy Ha IH]; intros [|n];
    simpl; auto.
Qed.

Lemma aset_Ok {A : Type} (a : list A) (i : Z) (x : A) (a' : list A) :
  aset a i x = Ok a' ->
  0 <= i < Z.of_nat (length a) /\ a' = list_set a (Z.to_nat i) x.
Proof.
  unfold aset.
  destruct ((0 <=? i) && (i <? Z.of_nat (length a))) eqn:Hi; [|discriminate].
  intros H; inversion H; subst. split; [lia | reflexivity].
Qed.

Lemma aset_Forall {A : Type} (Q : A -> Prop) (a : list A) (i : Z) (x : A)
  (a' : list A) :
  aset a i x = Ok a' -> Forall Q a -> Q x -> Forall Q a'.
Proof.
  intros H Ha Hx. apply aset_Ok in H as [_ ->]. now apply list_set_Forall.
Qed.

Lemma aset_length {A : Type} (a : list A) (i : Z) (x : A) (a' : list A) :
  aset a i x = Ok a' -> length a' = length a.
Proof.
  intros H. apply aset_Ok in H as [_ ->]. apply list_set_length.
Qed.

Lemma cget_Ok (a : cells) (i v : Z) : cget a i = Ok v -> In (Some v) a.
Proof.
  unfold cget. intros H. inv_bind H. destruct x; [|discriminate].
  inversion H; subst. now apply aget_Ok in Hx.
Qed.

(* ================================================================== *)
(** ** The alphabet line *)

Section FrontEnd.
Import Regex2MinDfa Spec.


Lemma is_alphabet_symbol_In (sigma : list ascii) (c : ascii) :
  is_alphabet_symbol sigma c = true <-> In c sigma.
Proof.
  unfold is_alphabet_symbol. rewrite existsb_exists. split.
  - intros (x & Hx & He). apply Ascii.eqb_eq in He. now subst.
  - intros H. exists c. split; [assumption | apply Ascii.eqb_refl].
Qed.





(* ================================================================== *)
(** ** Validation of the pattern *)

Lemma check_regex_symbols_valid_app (sigma pre rest : list ascii) :
  check_regex_symbols_valid sigma pre = Ok tt ->
  check_regex_symbols_valid sigma (pre ++ rest)
  = check_regex_symbols_valid sigma rest.
Proof.
  induction pre as [|c pre IH]; simpl; [reflexivity|].
  repeat match goal with
         | |- context [if ?b then _ else _] => destruct b
         end; auto; discriminate.
Qed.

Lemma high_byte_neq (b c : ascii) :
  128 <= byte_val b -> byte_val c < 128 -> Ascii.eqb b c = false.
Proof.
  intros Hb Hc. apply Ascii.eqb_neq. intros ->. lia.
Qed.

Lemma check_regex_symbols_valid_high (sigma post : list ascii) (b : ascii) :
  128 <= byte_val b ->
  is_alphabet_symbol sigma b = false ->
  check_regex_symbols_valid sigma (b :: post) = Err RegexNonAscii.
Proof.
  intros Hb Hs. simpl. rewrite Hs.
  rewrite !(high_byte_neq b) by (assumption || (vm_compute; reflexivity)).
  simpl. destruct (byte_val b >=? 128) eqn:E; [reflexivity|].
  rewrite Z.geb_leb in E. apply Z.leb_gt in E. lia.
Qed.

Lemma check_regex_symbols_valid_tokens (sigma s : list ascii) :
  check_regex_symbols_valid sigma s = Ok tt <-> Forall (valid_token sigma) s.
Proof.
  induction s as [|c s IH]; simpl.
  - split; [constructor | reflexivity].
  - destruct (Ascii.eqb c EPS_TOK) eqn:E1.
    { apply Ascii.eqb_eq in E1. rewrite IH. split.
      - intros H; constructor; [unfold valid_token; tauto | assumption].
      - intros H; now inversion H. }
    destruct (is_alphabet_symbol sigma c) eqn:E2.
    { apply is_alphabet_symbol_In in E2. rewrite IH. split.
      - intros H; constructor; [unfold valid_token; tauto | assumption].
      - intros H; now inversion H. }
    destruct (Ascii.eqb c "|" || Ascii.eqb c "+" || Ascii.eqb c "*"
              || Ascii.eqb c "(" || Ascii.eqb c ")") eqn:E3.
    { rewrite !orb_true_iff, !Ascii.eqb_eq in E3. rewrite IH. split.
      - intros H; constructor; [unfold valid_token; tauto | assumption].
      - intros H; now inversion H. }
    rewrite !orb_false_iff, !Ascii.eqb_neq in E3.
    apply Ascii.eqb_neq in E1.
    assert (Hnot : ~ valid_token sigma c).
    { unfold valid_token. rewrite <- is_alphabet_symbol_In, E2.
      intuition discriminate. }
    split.
    + destruct (Ascii.eqb c "."); [discriminate|].
      destruct (byte_val c >=? 128); discriminate.
    + intros H; inversion H; subst; contradiction.
Qed.

(** C6 (amended): when the alphabet line is accepted, a byte >= 128 left in
    the preprocessed pattern that is not an alphabet symbol, and before
    which every byte is a valid token, stops the compiler with the
    non-ASCII error. *)
Theorem non_ascii_byte_rejected
  (line_regex line_alpha sigma pre post : list ascii) (b : ascii) :
  parse_alphabet_line (c_str line_alpha) = Ok sigma ->
  preprocess_regex (c_str line_regex) = pre ++ b :: post ->
  Forall (valid_token sigma) pre ->
  128 <= byte_val b ->
  ~ In b sigma ->
  main line_regex line_alpha = Err RegexNonAscii
  /\ kind_of RegexNonAscii = NonAsciiPatternByte.
Proof.
  intros Ha Hp Hpre Hb Hnot. split; [|reflexivity].
  unfold main, build_dfa. rewrite Ha. simpl. rewrite Hp.
  assert (Hs : is_alphabet_symbol sigma b = false).
  { destruct (is_alphabet_symbol sigma b) eqn:E; [|reflexivity].
    apply is_alphabet_symbol_In in E. contradiction. }
  apply check_regex_symbols_valid_tokens in Hpre.
  destruct (pre ++ b :: post) eqn:Hl.
  { destruct pre; discriminate. }
  rewrite <- Hl.
  rewrite (check_regex_symbols_valid_app _ _ _ Hpre).
  now rewrite (check_regex_symbols_valid_high _ _ _ Hb Hs).
Qed.

Lemma non_ascii_byte_rejected_witness :
  main (str "a|" ++ [byte 233; "b"%char]) (str "ab") = Err RegexNonAscii
  /\ kind_of RegexNonAscii = NonAsciiPatternByte.
Proof.
  apply (non_ascii_byte_rejected (str "a|" ++ [byte 233; "b"%char]) (str "ab")
           (str "ab") (str "a|") (str "b") (byte 233)).
  - reflexivity.
  - reflexivity.
  - repeat constructor; unfold valid_token; simpl; tauto.
  - vm_compute; discriminate.
  - simpl. intros [H|[H|[]]]; discriminate.
Defined.

(** C6 as stated fails: with the alphabet line [a] followed by the byte
    0xE9, the byte 0xE9 stays in the pattern after preprocessing and the
    pattern compiles. *)
Lemma non_ascii_alphabet_symbol_accepted :
  In (byte 233) (preprocess_regex (c_str ("a"%char :: [byte 233])))
  /\ 128 <= byte_val (byte 233)
  /\ exists f, main ("a"%char :: [byte 233]) ("a"%char :: [byte 233]) = Ok f.
Proof.
  split; [simpl; auto|]. split; [vm_compute; discriminate|].
  eexists. vm_compute. reflexivity.
Qed.

(* ================================================================== *)
(** ** Explicit concatenation *)

Lemma need_concat_marker (sigma : list ascii) (a b : ascii) :
  need_concat sigma a b = true <-> marker_between sigma a b.
Proof.
  unfold need_concat, is_atom_end, is_atom_start, marker_between.
  rewrite andb_true_iff, !orb_true_iff, !Ascii.eqb_eq, !is_alphabet_symbol_In.
  tauto.
Qed.

Lemma add_concat_step_at (sigma pre suf out : list ascii) (a : ascii) :
  add_concat_step sigma (pre ++ a :: suf) out (length pre)
  = out ++ a :: match suf with
                | [] => []
                | b :: _ => if need_concat sigma a b then ["."%char] else []
                end.
Proof.
  unfold add_concat_step. rewrite nth_middle.
  destruct suf as [|b suf].
  - destruct (Nat.ltb_spec (length pre + 1) (length (pre ++ [a]))) as [H|H].
    + rewrite length_app in H; simpl in H; lia.
    + reflexivity.
  - destruct (Nat.ltb_spec (length pre + 1) (length (pre ++ a :: b :: suf)))
      as [H|H].
    + replace (pre ++ a :: b :: suf) with ((pre ++ [a]) ++ b :: suf)
        by (now rewrite <- app_assoc).
      replace (length pre + 1)%nat with (length (pre ++ [a]))
        by (rewrite length_app; simpl; lia).
      rewrite nth_middle.
      destruct (need_concat sigma a b); [|reflexivity].
      now rewrite <- app_assoc.
    + rewrite length_app in H; simpl in H; lia.
Qed.

Lemma add_concat_fold (sigma : list ascii) (suf : list ascii) :
  forall pre out,
    fold_left (add_concat_step sigma (pre ++ suf))
              (seq (length pre) (length suf)) out
    = out ++ insert_markers sigma suf.
Proof.
  induction suf as [|a suf IH]; intros pre out.
  - simpl. now rewrite app_nil_r.
  - cbn [length seq fold_left]. rewrite add_concat_step_at.
    replace (pre ++ a :: suf) with ((pre ++ [a]) ++ suf)
      by (now rewrite <- app_assoc).
    replace (S (length pre)) with (length (pre ++ [a]))
      by (rewrite length_app; simpl; lia).
    rewrite IH. rewrite <- app_assoc. f_equal.
    destruct suf as [|b suf']; [reflexivity|].
    cbn [insert_markers].
    destruct (marker_between_dec sigma a b) as [Hm|Hm].
    + apply need_concat_marker in Hm. rewrite Hm. reflexivity.
    + destruct (need_concat sigma a b) eqn:E; [|reflexivity].
      apply need_concat_marker in E. contradiction.
Qed.

(** C7: on a preprocessed, validated pattern, [add_concat_ops] yields the
    token stream with a concatenation marker between adjacent tokens [a]
    and [b] exactly when [a] is an alphabet symbol, the epsilon sentinel,
    [)] or [*] and [b] is an alphabet symbol, the epsilon sentinel or [(],
    and with no marker anywhere else. *)
Theorem concat_markers_inserted (sigma s : list ascii) :
  check_regex_symbols_valid sigma s = Ok tt ->
  add_concat_ops sigma s = insert_markers sigma s.
Proof.
  intros _. unfold add_concat_ops.
  exact (add_concat_fold sigma s [] []).
Qed.

Lemma concat_markers_inserted_witness :
  add_concat_ops (str "ab") ("a"%char :: str "b*(a|" ++ [EPS_TOK] ++ str ")b")
  = insert_markers (str "ab") ("a"%char :: str "b*(a|" ++ [EPS_TOK] ++ str ")b").
Proof.
  apply (concat_markers_inserted (str "ab")
           ("a"%char :: str "b*(a|" ++ [EPS_TOK] ++ str ")b")).
  reflexivity.
Defined.

(* ================================================================== *)
(** ** Preprocessing and the raw sentinel byte *)




Lemma c_str_app (l1 l2 : list ascii) :
  c_str (l1 ++ l2) = c_str l1 ++ (if in_dec ascii_dec zero l1 then [] else c_str l2).
Proof.
  induction l1 as [|c l1 IH]; simpl; [reflexivity|].
  destruct (Ascii.eqb c zero) eqn:E.
  - apply Ascii.eqb_eq in E. subst.
    destruct (ascii_dec zero zero); [reflexivity | congruence].
  - apply Ascii.eqb_neq in E. rewrite IH. simpl.
    destruct (ascii_dec c zero); [contradiction|].
    destruct (in_dec ascii_dec zero l1); reflexivity.
Qed.



End FrontEnd.

(* ================================================================== *)
(** ** Runs of the whole compiler *)

Section Runs.
Import Regex2MinDfa Spec.

(** C3: the pattern [a*] over the alphabet [a] gives one state, accepting
    and looping on [a], and the file is ALPHABET 1 a, STATES 1, START 0,
    ACCEPT 1 0, TRANS, the row 0, END. *)
Theorem star_a_file :
  let f := mkDfaFile 1 (str "a") 1 0 1 [0] [[0]] in
  main (str "a*" ++ newline) (str "a" ++ newline) = Ok f
  /\ main (str "a*") (str "a") = Ok f
  /\ render f
     = ("ALPHABET 1 a" ++ nl ++ "STATES 1" ++ nl ++ "START 0" ++ nl
        ++ "ACCEPT 1 0" ++ nl ++ "TRANS" ++ nl ++ "0" ++ nl
        ++ "END" ++ nl)%string.
Proof.
  repeat split; vm_compute; reflexivity.
Qed.

Lemma union_ab_file_eval :
  main (str "a|b" ++ newline) (str "ab" ++ newline)
  = Ok (mkDfaFile 2 (str "ab") 3 1 1 [0] [[2; 2]; [0; 0]; [2; 2]]).
Proof.
  vm_compute. reflexivity.
Qed.

(** C1 (amended): the pattern [a|b] over the alphabet [ab] gives three
    states: the start state 1, the accepting state 0 entered from the start
    on [a] and on [b], and the dead state 2; exactly one is accepting. *)
Theorem union_ab_file :
  main (str "a|b" ++ newline) (str "ab" ++ newline)
  = Ok (mkDfaFile 2 (str "ab") 3 1 1 [0] [[2; 2]; [0; 0]; [2; 2]]).
Proof.
  exact union_ab_file_eval.
Qed.

(** C1 as stated fails: the file for [a|b] has neither four states nor
    two accepting ones. *)
Lemma union_ab_not_four_states :
  ~ exists f, main (str "a|b" ++ newline) (str "ab" ++ newline) = Ok f
              /\ f_states f = 4 /\ f_accept_count f = 2.
Proof.
  intros (f & H & H4 & _). rewrite union_ab_file_eval in H.
  inversion H; subst. discriminate.
Qed.

Lemma failing_run_eval :
  main (str "a*a|bab" ++ newline) (str "ab" ++ newline)
  = Ok (mkDfaFile 2 (str "ab") 4 1 2 [0; 2] [[0; 3]; [0; 3]; [3; 3]; [3; 3]]).
Proof.
  vm_compute. reflexivity.
Qed.

(** What the minimizer did on that run: the states 3 (after [ba]) and 5
    (the dead state) end in the same class 3, although on [b] the first goes
    to state 4, of class 2, and the second to state 5, of class 3. The
    partition it returns is not stable. *)
Lemma failing_run_partition :
  exists sigma dfa m,
    build_dfa (str "a*a|bab" ++ newline) (str "ab" ++ newline) = Ok (sigma, dfa)
    /\ dfa_minimize 2 dfa = Ok m
    /\ m_cls m = [Some 1; Some 0; Some 3; Some 3; Some 2; Some 3]
    /\ complete_T 2 dfa (m_need_dead m) (m_dead m)
       = [1; 2;  1; 5;  3; 5;  5; 4;  5; 5;  5; 5].
Proof.
  eexists. eexists. eexists.
  split; [vm_compute; reflexivity|].
  split; [vm_compute; reflexivity|].
  split; reflexivity.
Qed.

(** C9 fails on the code: for the pattern [a*a|bab] over [ab] the compiler
    emits four states with START 1, and state 2, an accepting one, is not
    reachable from the start state through the emitted rows. *)
Theorem emitted_state_unreachable :
  exists f, main (str "a*a|bab" ++ newline) (str "ab" ++ newline) = Ok f
            /\ f_states f = 4
            /\ In 2 (f_accept f)
            /\ ~ reachable f 2.
Proof.
  eexists. split; [exact failing_run_eval|].
  split; [reflexivity|]. split; [simpl; auto|].
  intros H.
  assert (Hinv : forall s, reachable
                   (mkDfaFile 2 (str "ab") 4 1 2 [0; 2]
                      [[0; 3]; [0; 3]; [3; 3]; [3; 3]]) s ->
                 s = 0 \/ s = 1 \/ s = 3).
  { clear H. intros s Hs. induction Hs as [|s row t Hs IH Hpos Hrow Ht].
    - simpl. auto.
    - destruct IH as [->|[->| ->]]; simpl in Hrow; inversion Hrow; subst;
        simpl in Ht; intuition. }
  apply Hinv in H. lia.
Qed.

End Runs.

(* ================================================================== *)
(** ** The minimizer *)

Lemma aget_nth {A : Type} (a : list A) (i : Z) (x d : A) :
  aget a i = Ok x -> nth (Z.to_nat i) a d = x.
Proof.
  unfold aget. destruct (i <? 0); [discriminate|].
  destruct (nth_error a (Z.to_nat i)) eqn:E; [|discriminate].
  intros H; inversion H; subst. now apply nth_error_nth.
Qed.

Lemma nth_error_list_set_same {A : Type} (a : list A) (n : nat) (x : A) :
  (n < length a)%nat -> nth_error (list_set a n x) n = Some x.
Proof.
  revert n; induction a as [|y a IH]; intros [|n] H; simpl in *;
    try lia; [reflexivity | apply IH; lia].
Qed.

Lemma nth_error_list_set_other {A : Type} (a : list A) (n m : nat) (x : A) :
  n <> m -> nth_error (list_set a n x) m = nth_error a m.
Proof.
  revert n m; induction a as [|y a IH]; intros [|n] [|m] H; simpl;
    try reflexivity; try congruence.
  apply IH. congruence.
Qed.

Lemma aget_aset_same {A : Type} (a a' : list A) (i : Z) (x : A) :
  aset a i x = Ok a' -> aget a' i = Ok x.
Proof.
  intros H. apply aset_Ok in H as [Hi ->]. unfold aget.
  destruct (i <? 0) eqn:E; [apply Z.ltb_lt in E; lia|].
  rewrite nth_error_list_set_same by lia. reflexivity.
Qed.

Lemma aget_aset_other {A : Type} (a a' : list A) (i j : Z) (x : A) :
  aset a i x = Ok a' -> 0 <= j -> j <> i -> aget a' j = aget a j.
Proof.
  intros H Hj Hne. apply aset_Ok in H as [Hi ->]. unfold aget.
  destruct (j <? 0); [reflexivity|].
  rewrite nth_error_list_set_other by lia. reflexivity.
Qed.

Section Minimizer.
Import Regex2MinDfa Spec.

Lemma split_members_filter (mark : list Z) (blk : IntVec) :
  forall A1 A2 Y1 Y2,
    foldM (fun '(Y1, Y2) s =>
             m <- aget mark s ;;
             Ok (if negb (m =? 0) then (iv_push Y1 s, Y2)
                 else (Y1, iv_push Y2 s)))
          blk (A1, A2) = Ok (Y1, Y2) ->
    Y1 = A1 ++ filter (marked mark) blk
    /\ Y2 = A2 ++ filter (fun s => negb (marked mark s)) blk.
Proof.
  induction blk as [|s blk IH]; intros A1 A2 Y1 Y2 H; simpl in H.
  - inversion H; subst. now rewrite !app_nil_r.
  - inv_bind H. inv_bind Hx. inversion Hx; subst; clear Hx.
    apply (aget_nth _ _ _ 0) in Hx0.
    assert (Hm : marked mark s = negb (x0 =? 0))
      by (unfold marked; now rewrite Hx0).
    cbn [filter]. rewrite Hm.
    destruct (negb (x0 =? 0)); apply IH in H as [-> ->]; unfold iv_push;
      cbn [negb]; rewrite <- ?app_assoc; auto.
Qed.

Lemma find_in_W_absent (W : IntVec) (yi : Z) :
  ~ In yi W -> forall w, find_in_W W w yi = -1.
Proof.
  induction W as [|x W IH]; intros Hn w; simpl; [reflexivity|].
  destruct (x =? yi) eqn:E.
  - apply Z.eqb_eq in E. subst. exfalso. apply Hn. now left.
  - apply IH. intros H. apply Hn. now right.
Qed.

(** C4 (amended): when a block [Y] with index [yi], not on the worklist,
    is split into [Y1], the marked members, which keeps the index [yi], and
    [Y2], the unmarked ones, which gets the new index, the worklist grows by
    one entry: the index of whichever of the two has fewer members, and the
    index [yi] of [Y1] when they have as many. *)
Theorem worklist_gets_smaller_half
  (mark : list Z) (st st' : hopcroft_state) (yi : Z) :
  0 <= yi < hp_Pn st ->
  ~ In yi (hp_W st) ->
  split_block mark st yi = Ok st' ->
  exists Y,
    let Y1 := filter (marked mark) Y in
    let Y2 := filter (fun s => negb (marked mark s)) Y in
    let newi := hp_Pn st in
    aget (hp_P st) yi = Ok Y
    /\ aget (hp_P st') yi = Ok Y1
    /\ aget (hp_P st') newi = Ok Y2
    /\ hp_Pn st' = newi + 1
    /\ hp_W st'
       = hp_W st ++ [if (length Y1 <=? length Y2)%nat then yi else newi].
Proof.
  intros Hyi Hw H. unfold split_block in H.
  apply bind_Ok in H as (Y & HY & H).
  apply bind_Ok in H as ([Y1 Y2] & Hsplit & H).
  apply bind_Ok in H as (P1 & HP1 & H).
  apply bind_Ok in H as (P2 & HP2 & H).
  apply bind_Ok in H as (Pyi & HPyi & H).
  apply bind_Ok in H as (cls1 & Hcls1 & H).
  apply bind_Ok in H as (Pnew & HPnew & H).
  apply bind_Ok in H as (cls2 & Hcls2 & H).
  rewrite (find_in_W_absent _ _ Hw) in H. cbn [Z.geb Z.compare] in H.
  apply split_members_filter in Hsplit as [-> ->]. cbn [app] in *.
  assert (E1 : aget P2 yi = Ok (filter (marked mark) Y)).
  { rewrite (aget_aset_other _ _ _ _ _ HP2) by lia.
    now apply aget_aset_same in HP1. }
  assert (E2 : aget P2 (hp_Pn st)
               = Ok (filter (fun s => negb (marked mark s)) Y)).
  { now apply aget_aset_same in HP2. }
  rewrite E1 in HPyi. rewrite E2 in HPnew.
  inversion HPyi; subst Pyi. inversion HPnew; subst Pnew.
  exists Y. cbv zeta.
  destruct (Z.of_nat (length (filter (marked mark) Y))
            <=? Z.of_nat (length (filter (fun s => negb (marked mark s)) Y)))
    eqn:E; inversion H; subst; cbn [hp_P hp_Pn hp_W]; unfold iv_push.
  - apply Z.leb_le in E.
    replace (length (filter (marked mark) Y)
             <=? length (filter (fun s => negb (marked mark s)) Y))%nat
      with true by (symmetry; apply Nat.leb_le; lia).
    auto.
  - apply Z.leb_gt in E.
    replace (length (filter (marked mark) Y)
             <=? length (filter (fun s => negb (marked mark s)) Y))%nat
      with false by (symmetry; apply Nat.leb_gt; lia).
    auto.
Qed.

Lemma worklist_gets_smaller_half_witness :
  exists Y,
    aget (hp_P tie_state) 1 = Ok Y
    /\ (exists st', split_block tie_mark tie_state 1 = Ok st'
          /\ hp_W st'
             = hp_W tie_state
               ++ [if (length (filter (marked tie_mark) Y)
                       <=? length (filter (fun s => negb (marked tie_mark s)) Y))%nat
                   then 1 else hp_Pn tie_state]).
Proof.
  destruct (worklist_gets_smaller_half tie_mark tie_state
              (mkHopcroft [[1; 2]; [0]; [3]; []] 3
                 [Some 1; Some 0; Some 0; Some 2] [1]) 1)
    as (Y & H1 & _ & _ & _ & H5).
  - simpl; lia.
  - simpl; tauto.
  - reflexivity.
  - exists Y. split; [exact H1|]. eexists. split; [reflexivity | exact H5].
Defined.

(** C4 as stated fails: in the run on [a|b] the block [{0, 3}], not on the
    worklist, is split into [{0}] and the new block [{3}] of the same size,
    and the worklist receives the old index 1, not the new index 2. *)
Lemma tie_adds_old_block :
  ~ In 1 (hp_W tie_state)
  /\ exists st',
       split_block tie_mark tie_state 1 = Ok st'
       /\ aget (hp_P st') 1 = Ok [0]
       /\ aget (hp_P st') (hp_Pn tie_state) = Ok [3]
       /\ hp_W st' = [1]
       /\ ~ In (hp_Pn tie_state) (hp_W st').
Proof.
  split; [simpl; tauto|].
  eexists. split; [vm_compute; reflexivity|].
  repeat split; try reflexivity.
  simpl. intros [H|[]]. discriminate.
Qed.

(** *** Class ids stay below the number of blocks *)

Lemma cells_range_mono (n n' : Z) (cls : cells) :
  n <= n' -> Forall (cell_in_range n) cls -> Forall (cell_in_range n') cls.
Proof.
  intros Hn H. eapply Forall_impl; [|exact H].
  intros [v|]; simpl; [lia | trivial].
Qed.

Lemma assign_class_range (n i : Z) (v : IntVec) :
  0 <= i < n ->
  forall cls cls',
    Forall (cell_in_range n) cls ->
    assign_class i cls v = Ok cls' ->
    Forall (cell_in_range n) cls'.
Proof.
  intros Hi cls cls' Hcls H. unfold assign_class in H.
  revert H. apply foldM_inv with (I := Forall (cell_in_range n)); [|exact Hcls].
  intros c s c' Hc _ Hset. unfold cset in Hset.
  eapply aset_Forall; eauto.
Qed.

Lemma split_block_range (mark : list Z) (st st' : hopcroft_state) (yi : Z) :
  0 <= yi < hp_Pn st ->
  classes_in_range st ->
  split_block mark st yi = Ok st' ->
  classes_in_range st'.
Proof.
  intros Hyi [Hn Hcls] H. unfold split_block in H.
  apply bind_Ok in H as (Y & HY & H).
  apply bind_Ok in H as ([Y1 Y2] & Hsplit & H).
  apply bind_Ok in H as (P1 & HP1 & H).
  apply bind_Ok in H as (P2 & HP2 & H).
  apply bind_Ok in H as (Pyi & HPyi & H).
  apply bind_Ok in H as (cls1 & Hcls1 & H).
  apply bind_Ok in H as (Pnew & HPnew & H).
  apply bind_Ok in H as (cls2 & Hcls2 & H).
  assert (Hr : Forall (cell_in_range (hp_Pn st + 1)) cls2).
  { eapply assign_class_range; [| |exact Hcls2]; [lia|].
    eapply assign_class_range; [| |exact Hcls1]; [lia|].
    eapply cells_range_mono; [|exact Hcls]. lia. }
  destruct (find_in_W (hp_W st) 0 yi >=? 0).
  - apply bind_Ok in H as (W1 & _ & H). inversion H; subst.
    split; simpl; [lia | assumption].
  - destruct (Z.of_nat (length Pyi) <=? Z.of_nat (length Pnew));
      inversion H; subst; split; simpl; (lia || assumption).
Qed.

Lemma refine_block_range (mark : list Z) (sy sy' : hopcroft_state * Z) :
  classes_in_range (fst sy) ->
  (snd sy <? hp_Pn (fst sy)) = true ->
  refine_block mark sy = Ok sy' ->
  classes_in_range (fst sy').
Proof.
  destruct sy as [st yi]. simpl. intros Hinv Hlt H.
  apply Z.ltb_lt in Hlt.
  apply bind_Ok in H as (blk & Hblk & H).
  apply bind_Ok in H as (cnt & _ & H).
  apply aget_Ok in Hblk as [Hyi _].
  destruct ((cnt =? 0) || (cnt =? Z.of_nat (length blk))).
  - inversion H; subst. assumption.
  - apply bind_Ok in H as (st1 & Hsplit & H). inversion H; subst. simpl.
    eapply split_block_range; [|exact Hinv|exact Hsplit]. lia.
Qed.

Lemma refine_symbol_range (N : Z) (inv : list IntVec) (Ablock a : Z)
  (st st' : hopcroft_state) :
  classes_in_range st ->
  refine_symbol N inv Ablock st a = Ok st' ->
  classes_in_range st'.
Proof.
  intros Hinv H. unfold refine_symbol in H.
  apply bind_Ok in H as (blk & _ & H).
  apply bind_Ok in H as (mark & _ & H).
  apply bind_Ok in H as ([st1 y1] & Hloop & H). inversion H; subst.
  apply (while_fuel_inv (fun sy => classes_in_range (fst sy))) in Hloop.
  - apply Hloop.
  - intros s s' Hs Hc Hb. eapply refine_block_range; eauto.
  - exact Hinv.
Qed.

Lemma hopcroft_body_range (N k : Z) (inv : list IntVec)
  (st st' : hopcroft_state) :
  classes_in_range st ->
  hopcroft_body N k inv st = Ok st' ->
  classes_in_range st'.
Proof.
  intros Hinv H. unfold hopcroft_body in H.
  revert H. apply foldM_inv with (I := classes_in_range).
  - intros s a s' Hs _. now apply refine_symbol_range.
  - exact Hinv.
Qed.

Lemma repeat_Forall {A : Type} (Q : A -> Prop) (x : A) (n : nat) :
  Q x -> Forall Q (repeat x n).
Proof.
  intros Hx. induction n; simpl; auto.
Qed.

Lemma dfa_minimize_range (k : Z) (dfa : list DFAState) (m : minimized) :
  dfa_minimize k dfa = Ok m ->
  1 <= m_min_n m /\ Forall (cell_in_range (m_min_n m)) (m_cls m).
Proof.
  unfold dfa_minimize.
  match goal with
  | |- context [if ?b then _ else _] => destruct b
  end.
  - intros H. inversion H; subst. simpl. split; [lia|].
    apply repeat_Forall. simpl. lia.
  - intros H.
    apply bind_Ok in H as (P1 & _ & H).
    apply bind_Ok in H as (P2 & _ & H).
    apply bind_Ok in H as (P0 & _ & H).
    apply bind_Ok in H as (P1' & _ & H).
    apply bind_Ok in H as (cls1 & Hcls1 & H).
    apply bind_Ok in H as (cls2 & Hcls2 & H).
    apply bind_Ok in H as (inv & _ & H).
    apply bind_Ok in H as (st & Hloop & H). inversion H; subst. simpl.
    apply (while_fuel_inv classes_in_range) in Hloop.
    + destruct Hloop as [[Hn Hc] _]. split; [lia | assumption].
    + intros s s' Hs _. now apply hopcroft_body_range.
    + split; simpl; [lia|].
      eapply assign_class_range; [| |exact Hcls2]; [lia|].
      eapply assign_class_range; [| |exact Hcls1]; [lia|].
      apply repeat_Forall. exact I.
Qed.

(** *** The writer *)

Lemma foldM_snoc {A B : Type} (f : list B -> A -> result (list B))
  (Q : B -> Prop) (l : list A) :
  (forall acc a acc', In a l -> f acc a = Ok acc' ->
                      exists b, acc' = acc ++ [b] /\ Q b) ->
  forall acc res,
    foldM f l acc = Ok res ->
    exists ys, res = acc ++ ys /\ length ys = length l /\ Forall Q ys.
Proof.
  induction l as [|a l IH]; intros Hstep acc res H; simpl in H.
  - inversion H; subst. exists []. rewrite !app_nil_r. auto.
  - apply bind_Ok in H as (acc1 & H1 & H).
    apply Hstep in H1 as (b & -> & Hb); [|now left].
    apply IH in H as (ys & -> & Hlen & Hys).
    + exists (b :: ys). rewrite <- app_assoc. simpl. auto.
    + intros acc0 a0 acc' Hin. apply Hstep. now right.
Qed.

Lemma cget_range (n : Z) (cls : cells) (i v : Z) :
  Forall (cell_in_range n) cls -> cget cls i = Ok v -> 0 <= v < n.
Proof.
  intros Hcls H. apply cget_Ok in H.
  rewrite Forall_forall in Hcls. exact (Hcls _ H).
Qed.

Lemma write_row_total (k n : Z) (T : list Z) (cls : cells) (r : Z)
  (row : list Z) :
  Forall (cell_in_range n) cls ->
  write_row k T cls r = Ok row ->
  length row = Z.to_nat k /\ Forall (fun t => 0 <= t < n) row.
Proof.
  intros Hcls H. unfold write_row in H.
  apply (foldM_snoc _ (fun t => 0 <= t < n)) in H.
  - destruct H as (ys & -> & Hlen & Hys). simpl.
    now rewrite Hlen, zrange_length.
  - intros acc a acc' _ Hstep.
    apply bind_Ok in Hstep as (t & _ & Hstep).
    apply bind_Ok in Hstep as (tc & Htc & Hstep). inversion Hstep; subst.
    exists tc. split; [reflexivity|]. eapply cget_range; eauto.
Qed.

Lemma write_rows_total (k n : Z) (T : list Z) (cls : cells) (rep : list Z)
  (rows : list (list Z)) :
  Forall (cell_in_range n) cls ->
  write_rows k n T cls rep = Ok rows ->
  length rows = Z.to_nat n
  /\ Forall (fun row => length row = Z.to_nat k
                        /\ Forall (fun t => 0 <= t < n) row) rows.
Proof.
  intros Hcls H. unfold write_rows in H.
  apply (foldM_snoc _ (fun row => length row = Z.to_nat k
                                  /\ Forall (fun t => 0 <= t < n) row)) in H.
  - destruct H as (ys & -> & Hlen & Hys). simpl.
    now rewrite Hlen, zrange_length.
  - intros acc a acc' _ Hstep.
    apply bind_Ok in Hstep as (r & _ & Hstep).
    apply bind_Ok in Hstep as (row & Hrow & Hstep). inversion Hstep; subst.
    exists row. split; [reflexivity|]. eapply write_row_total; eauto.
Qed.

Lemma write_min_dfa_total (sigma : list ascii) (dfa : list DFAState)
  (cls : cells) (min_n need_dead dead : Z) (f : DfaFile) :
  Forall (cell_in_range min_n) cls ->
  write_min_dfa sigma dfa cls min_n need_dead dead = Ok f ->
  total_file f.
Proof.
  intros Hcls H. unfold write_min_dfa in H.
  apply bind_Ok in H as (rep & _ & H).
  apply bind_Ok in H as (acc & _ & H).
  apply bind_Ok in H as (s0 & Hs0 & H).
  apply bind_Ok in H as (rows & Hrows & H). inversion H; subst; clear H.
  apply (cget_range _ _ _ _ Hcls) in Hs0.
  apply (write_rows_total _ _ _ _ _ _ Hcls) in Hrows as [Hlen Hrows].
  unfold total_file. cbn [f_k f_symbols f_states f_start f_accept f_rows].
  split; [reflexivity|]. split; [lia|]. split.
  - eapply Forall_impl; [|exact Hrows]. intros row [Hl Hr].
    split; [lia | assumption].
  - split; [assumption|].
    apply Forall_forall. intros a Ha. apply filter_In in Ha as [Ha _].
    now apply zrange_In in Ha.
Qed.

(** C2: whenever the compiler accepts the pattern and the alphabet, the
    file it writes is total: with [n] the STATES value and [k] the number of
    symbols, TRANS has exactly [n] rows of [k] integers, and every
    transition target, the START value and every id of the ACCEPT list are
    in [0, n). *)
Theorem emitted_dfa_total (line_regex line_alpha : list ascii) (f : DfaFile) :
  main line_regex line_alpha = Ok f ->
  total_file f.
Proof.
  intros H. unfold main in H.
  apply bind_Ok in H as ([sigma dfa] & _ & H).
  apply bind_Ok in H as (m & Hmin & H).
  apply dfa_minimize_range in Hmin as [_ Hcls].
  eapply write_min_dfa_total; eauto.
Qed.

Lemma emitted_dfa_total_witness :
  total_file (mkDfaFile 2 (str "ab") 4 3 1 [0]
                [[2; 3]; [2; 0]; [2; 1]; [2; 3]]).
Proof.
  apply (emitted_dfa_total (str "(a|b)*abb" ++ newline) (str "ab" ++ newline)).
  vm_compute. reflexivity.
Defined.

End Minimizer.

(* ================================================================== *)
(** ** The comparator *)

Section Checker.
Import DfaChecker.

Lemma aget_in_range {A : Type} (a : list A) (i : Z) :
  0 <= i < Z.of_nat (length a) -> exists x, aget a i = Ok x /\ In x a.
Proof.
  intros Hi. unfold aget.
  destruct (i <? 0) eqn:E; [apply Z.ltb_lt in E; lia|].
  destruct (nth_error a (Z.to_nat i)) eqn:En.
  - exists a0. split; [reflexivity|]. eapply nth_error_In; eauto.
  - apply nth_error_None in En. lia.
Qed.

Lemma alph_index_from_range (l : list ascii) (c : ascii) :
  In c l -> forall i, i <= alph_index_from l i c < i + Z.of_nat (length l).
Proof.
  induction l as [|x l IH]; intros Hin i; [contradiction|].
  simpl alph_index_from. destruct (Ascii.eqb x c) eqn:E.
  - simpl length. lia.
  - destruct Hin as [->|Hin]; [rewrite Ascii.eqb_refl in E; discriminate|].
    specialize (IH Hin (i + 1)). simpl length. lia.
Qed.

Lemma alph_index_range (d : DFA) (c : ascii) :
  wf_DFA d -> In c (alphabet d) -> 0 <= alph_index d c < k d.
Proof.
  intros Hwf Hin. unfold alph_index.
  rewrite firstn_all2 by (pose proof (wf_alphabet d Hwf); lia).
  pose proof (alph_index_from_range _ _ Hin 0).
  pose proof (wf_alphabet d Hwf). lia.
Qed.

(** On a well-formed DFA and a string over its alphabet, [run_dfa] answers
    0 or 1. *)
Lemma run_dfa_from_answers (d : DFA) (w : list ascii) :
  wf_DFA d -> Forall (fun c => In c (alphabet d)) w ->
  forall st, 0 <= st < n d ->
    exists r, run_dfa_from d st w = Ok r /\ (r = 0 \/ r = 1).
Proof.
  intros Hwf Hw. induction Hw as [|c w Hc Hw IH]; intros st Hst.
  - simpl. destruct (aget_in_range (acc d) st) as (a & -> & _).
    { rewrite (wf_acc d Hwf). exact Hst. }
    simpl. destruct (negb (a =? 0)); eauto.
  - simpl. pose proof (alph_index_range d c Hwf Hc) as Hidx.
    destruct (alph_index d c <? 0) eqn:E; [apply Z.ltb_lt in E; lia|].
    destruct (aget_in_range (trans d) (st * k d + alph_index d c))
      as (st' & -> & Hin).
    { rewrite (wf_trans_len d Hwf). split; [nia|].
      assert (st * k d + alph_index d c < (st + 1) * k d) by lia. nia. }
    simpl. apply IH.
    pose proof (wf_trans d Hwf) as Ht. rewrite Forall_forall in Ht. auto.
Qed.

Lemma run_dfa_answers (d : DFA) (w : list ascii) :
  wf_DFA d -> Forall (fun c => In c (alphabet d)) w ->
  exists r, run_dfa d w = Ok r /\ (r = 0 \/ r = 1).
Proof.
  intros Hwf Hw. apply run_dfa_from_answers; auto. apply (wf_start d Hwf).
Qed.

Lemma list_eqb_eq (a b : list ascii) : list_eqb a b = true -> a = b.
Proof.
  revert b; induction a as [|x a IH]; intros [|y b] H; simpl in H;
    try discriminate; [reflexivity|].
  apply andb_true_iff in H as [Hx H]. apply Ascii.eqb_eq in Hx.
  f_equal; auto.
Qed.

Lemma same_alphabet_eq (a b : DFA) :
  wf_DFA a -> wf_DFA b -> same_alphabet a b = true -> alphabet a = alphabet b.
Proof.
  intros Ha Hb H. unfold same_alphabet in H.
  destruct (k a =? k b) eqn:E; [|discriminate]. apply Z.eqb_eq in E.
  simpl in H. apply list_eqb_eq in H.
  pose proof (wf_alphabet a Ha). pose proof (wf_alphabet b Hb).
  rewrite !firstn_all2 in H by lia. exact H.
Qed.

(** *** How a line is cut up *)

Lemma space_not_nul (c : ascii) : isspace c = true -> c <> zero.
Proof. intros H ->. discriminate. Qed.

Lemma c_str_clean (l : list ascii) : Forall (fun c => c <> zero) l -> c_str l = l.
Proof.
  induction 1 as [|c l Hc Hl IH]; simpl; [reflexivity|].
  apply Ascii.eqb_neq in Hc. now rewrite Hc, IH.
Qed.

Lemma skip_spaces_app (ws rest : list ascii) :
  Forall is_space ws -> skip_spaces (ws ++ rest) = skip_spaces rest.
Proof.
  induction 1 as [|c ws Hc Hws IH]; simpl; [reflexivity|].
  unfold is_space in Hc. now rewrite Hc.
Qed.

Lemma skip_spaces_all (ws : list ascii) : Forall is_space ws -> skip_spaces ws = [].
Proof.
  intros H. rewrite <- (app_nil_r ws). now rewrite skip_spaces_app.
Qed.

Lemma skip_spaces_stop (c : ascii) (rest : list ascii) :
  isspace c = false -> skip_spaces (c :: rest) = c :: rest.
Proof. intros H. simpl. now rewrite H. Qed.

Lemma drop_newlines_app (a b : list ascii) (c : ascii) :
  Ascii.eqb c "010" || Ascii.eqb c "013" = false ->
  drop_newlines (a ++ c :: b) = drop_newlines a ++ c :: b.
Proof.
  intros Hc. induction a as [|x a IH]; simpl.
  - now rewrite Hc.
  - destruct (Ascii.eqb x "010" || Ascii.eqb x "013"); [exact IH | reflexivity].
Qed.

Lemma trim_newline_app (l1 l2 : list ascii) (c : ascii) :
  Ascii.eqb c "010" || Ascii.eqb c "013" = false ->
  trim_newline (l1 ++ c :: l2) = l1 ++ c :: trim_newline l2.
Proof.
  intros Hc. unfold trim_newline.
  rewrite rev_app_distr. simpl rev. rewrite <- app_assoc. simpl app.
  rewrite drop_newlines_app by exact Hc.
  rewrite rev_app_distr. simpl rev.
  now rewrite rev_involutive, <- app_assoc.
Qed.

Lemma drop_newlines_Forall (Q : ascii -> Prop) (l : list ascii) :
  Forall Q l -> Forall Q (drop_newlines l).
Proof.
  induction 1 as [|c l Hc Hl IH]; simpl; [constructor|].
  destruct (Ascii.eqb c "010" || Ascii.eqb c "013"); auto.
Qed.

Lemma trim_newline_Forall (Q : ascii -> Prop) (l : list ascii) :
  Forall Q l -> Forall Q (trim_newline l).
Proof.
  intros H. unfold trim_newline.
  apply Forall_rev, drop_newlines_Forall, Forall_rev. exact H.
Qed.

Lemma not_space_not_newline (c : ascii) :
  isspace c = false -> Ascii.eqb c "010" || Ascii.eqb c "013" = false.
Proof.
  intros H. apply orb_false_iff. split; apply Ascii.eqb_neq; intros ->;
    discriminate.
Qed.

Lemma read_token_app (tok ws : list ascii) (room : nat) :
  Forall (fun c => isspace c = false /\ c <> zero) tok ->
  Forall is_space ws ->
  (length tok <= room)%nat ->
  read_token (tok ++ ws) room = tok.
Proof.
  intros Htok Hws. revert room.
  induction Htok as [|c tok [Hc _] Htok IH]; intros room Hlen; simpl.
  - destruct Hws as [|x ws Hx Hws]; [reflexivity|].
    unfold is_space in Hx. destruct room; simpl; [reflexivity|]. now rewrite Hx.
  - destruct room as [|room]; [simpl in Hlen; lia|].
    rewrite Hc. f_equal. apply IH. simpl in Hlen. lia.
Qed.

(** What one round of the loop does on a line of a well-formed file. *)
Lemma tests_loop_line (sigma : list ascii) (ref usr : DFA)
  (buf : list ascii) (t : option (Z * list ascii))
  (rest : list (list ascii)) (line_no total : Z) (warns : list warning) :
  test_line sigma buf t ->
  tests_loop ref usr (buf :: rest) line_no total warns
  = match t with
    | None => tests_loop ref usr rest (line_no + 1) total warns
    | Some (label, w) =>
        rref <- run_dfa ref w ;;
        rusr <- run_dfa usr w ;;
        if (rref <? 0) || (rusr <? 0) then
          Ok (SymbolNotInAlphabet (line_no + 1), warns)
        else if negb (rref =? rusr) then
          Ok (FailAt (line_no + 1) w rref rusr label, warns)
        else
          tests_loop ref usr rest (line_no + 1) (total + 1)
            (if negb (rref =? label)
             then warns ++ [mkWarning (line_no + 1) label rref]
             else warns)
    end.
Proof.
  intros Hline. cbn [tests_loop].
  destruct Hline as [ws Hws | ws tail Hws
                    | ws1 lab ws2 tok ws3 w Hws1 Hlab Hne2 Hws2 Hne Htok Hws3 Hlen Hw _].
  - rewrite c_str_clean
      by (eapply Forall_impl; [|exact Hws]; intros c; apply space_not_nul).
    rewrite skip_spaces_all by (now apply trim_newline_Forall).
    reflexivity.
  - replace (trim_newline (c_str (ws ++ "#"%char :: tail)))
      with (ws ++ "#"%char :: trim_newline (c_str tail)).
    2:{ rewrite c_str_app.
        destruct (in_dec ascii_dec zero ws) as [Hin|_].
        { rewrite Forall_forall in Hws. apply Hws in Hin. discriminate. }
        rewrite (c_str_clean ws)
          by (eapply Forall_impl; [|exact Hws]; intros c; apply space_not_nul).
        change (c_str ("#"%char :: tail)) with ("#"%char :: c_str tail).
        now rewrite trim_newline_app. }
    rewrite skip_spaces_app by exact Hws. reflexivity.
  - assert (Hnn : Forall (fun c => c <> zero) (ws1 ++ lab :: ws2 ++ tok ++ ws3)).
    { assert (Hsp : forall ws, Forall is_space ws -> Forall (fun c => c <> zero) ws).
      { intros ws H. eapply Forall_impl; [|exact H]. intros c; apply space_not_nul. }
      apply Forall_app; split; [now apply Hsp|].
      constructor; [destruct Hlab as [-> | ->]; discriminate|].
      apply Forall_app; split; [now apply Hsp|].
      apply Forall_app; split; [|now apply Hsp].
      eapply Forall_impl; [|exact Htok]. intros c [_ Hc]. exact Hc. }
    rewrite (c_str_clean _ Hnn).
    assert (Hlabnl : Ascii.eqb lab "010" || Ascii.eqb lab "013" = false)
      by (destruct Hlab as [-> | ->]; reflexivity).
    rewrite (trim_newline_app _ _ _ Hlabnl).
    destruct (exists_last Hne) as (tok' & l & Htl).
    assert (Hl : isspace l = false).
    { rewrite Htl in Htok. apply Forall_app in Htok as [_ Htok].
      inversion Htok; subst. tauto. }
    replace (trim_newline (ws2 ++ tok ++ ws3))
      with (ws2 ++ tok ++ trim_newline ws3).
    2:{ rewrite Htl, <- !app_assoc. cbn [app].
        rewrite (app_assoc ws2 tok' (l :: ws3)).
        rewrite (trim_newline_app _ _ _ (not_space_not_newline _ Hl)).
        now rewrite <- app_assoc. }
    rewrite skip_spaces_app by exact Hws1.
    assert (Hlabsp : isspace lab = false)
      by (destruct Hlab as [-> | ->]; reflexivity).
    rewrite (skip_spaces_stop _ _ Hlabsp).
    replace (Ascii.eqb lab "#") with false
      by (destruct Hlab as [-> | ->]; reflexivity).
    replace (negb (Ascii.eqb lab "0") && negb (Ascii.eqb lab "1")) with false
      by (destruct Hlab as [-> | ->]; reflexivity).
    rewrite skip_spaces_app by exact Hws2.
    destruct tok as [|c0 tok0]; [contradiction|].
    assert (Hc0 : isspace c0 = false) by (inversion Htok; subst; tauto).
    cbn [app]. rewrite (skip_spaces_stop _ _ Hc0).
    change (c0 :: tok0 ++ trim_newline ws3)
      with ((c0 :: tok0) ++ trim_newline ws3).
    rewrite read_token_app; [ | exact Htok | now apply trim_newline_Forall | ].
    2:{ rewrite !length_app in Hlen. cbn [length] in Hlen.
        rewrite !length_app in Hlen. unfold MAX_LINE in *. lia. }
    rewrite <- Hw. reflexivity.
Qed.

(** *** The verdict *)

Lemma tests_loop_pass (ref usr : DFA) :
  wf_DFA ref -> wf_DFA usr -> alphabet usr = alphabet ref ->
  forall lines tests,
    Forall2 (test_line (alphabet ref)) lines tests ->
    (forall label w, In (label, w) (tests_of tests) ->
                     run_dfa ref w = run_dfa usr w) ->
    forall line_no total warns,
      tests_loop ref usr lines line_no total warns
      = Ok (Pass (total + Z.of_nat (length (tests_of tests))),
            warns ++ warnings_of ref tests line_no).
Proof.
  intros Href Husr Halph lines tests Hlines.
  induction Hlines as [|buf t lines tests Hline Hlines IH];
    intros Hagree line_no total warns.
  - simpl. now rewrite Z.add_0_r, app_nil_r.
  - rewrite (tests_loop_line _ _ _ _ _ _ _ _ _ Hline).
    destruct t as [[label w]|].
    + assert (Hw : Forall (fun c => In c (alphabet ref)) w).
      { inversion Hline; subst. assumption. }
      destruct (run_dfa_answers ref w Href Hw) as (r & Hr & Hr01).
      assert (Hu : run_dfa usr w = Ok r).
      { rewrite <- Hr. symmetry. apply (Hagree label). now left. }
      rewrite Hr, Hu. cbn [bind].
      replace ((r <? 0) || (r <? 0)) with false
        by (destruct Hr01 as [-> | ->]; reflexivity).
      rewrite Z.eqb_refl. cbn [negb].
      rewrite IH by (intros l0 w0 Hin; apply (Hagree l0); now right).
      cbn [tests_of length warnings_of]. rewrite Hr.
      f_equal. f_equal.
      * f_equal. lia.
      * destruct (negb (r =? label)); [now rewrite <- app_assoc|].
        reflexivity.
    + rewrite IH by exact Hagree. reflexivity.
Qed.

(** *** The tests file as [fgets] cuts it *)

Lemma fgets_line (l rest : list ascii) :
  ~ In "010"%char l ->
  forall room, (length l < room)%nat ->
    fgets room (l ++ "010"%char :: rest) = (l ++ ["010"%char], rest).
Proof.
  intros Hl. induction l as [|c l IH]; intros room Hroom.
  - destruct room; [simpl in Hroom; lia | reflexivity].
  - destruct room as [|room]; [simpl in Hroom; lia|].
    cbn [app fgets].
    destruct (Ascii.eqb c "010") eqn:E.
    { apply Ascii.eqb_eq in E. exfalso. apply Hl. now left. }
    rewrite IH; [reflexivity | | simpl in Hroom; lia].
    intros Hin. apply Hl. now right.
Qed.

Lemma fgets_last (l : list ascii) :
  ~ In "010"%char l ->
  forall room, (length l <= room)%nat -> fgets room l = (l, []).
Proof.
  intros Hl. induction l as [|c l IH]; intros room Hroom.
  - destruct room; reflexivity.
  - destruct room as [|room]; [simpl in Hroom; lia|].
    cbn [fgets].
    destruct (Ascii.eqb c "010") eqn:E.
    { apply Ascii.eqb_eq in E. exfalso. apply Hl. now left. }
    rewrite IH; [reflexivity | | simpl in Hroom; lia].
    intros Hin. apply Hl. now right.
Qed.

Lemma file_chunks_step (fuel : nat) (file : list ascii) :
  file <> [] ->
  file_chunks (S fuel) file
  = (let '(l, r) := fgets (Z.to_nat (MAX_LINE - 1)) file in
     l :: file_chunks fuel r).
Proof.
  destruct file; [congruence | reflexivity].
Qed.

Lemma fgets_split (room : nat) (file : list ascii) :
  let '(l, r) := fgets room file in
  file = l ++ r /\ (length l <= room)%nat
  /\ (file <> [] -> (0 < room)%nat -> l <> []).
Proof.
  revert file. induction room as [|room IH]; intros file.
  - destruct file; cbn; repeat split; auto; lia.
  - destruct file as [|c rest]; [cbn; repeat split; auto; lia|].
    cbn [fgets]. destruct (Ascii.eqb c "010").
    + cbn. repeat split; [lia | discriminate].
    + specialize (IH rest). destruct (fgets room rest) as [l r].
      destruct IH as (E & Hlen & _). subst rest.
      cbn. repeat split; [lia | discriminate].
Qed.

(** The calls of [fgets] lose no byte of the file and never return more
    than [MAX_LINE - 1] bytes. *)
Lemma file_chunks_concat (file : list ascii) :
  forall fuel, (length file <= fuel)%nat ->
    concat (file_chunks fuel file) = file
    /\ Forall (fun l => Z.of_nat (length l) < MAX_LINE)
         (file_chunks fuel file).
Proof.
  intros fuel. revert file.
  induction fuel as [|fuel IH]; intros file Hfuel.
  - destruct file; [split; [reflexivity | constructor] | simpl in Hfuel; lia].
  - destruct file as [|c rest]; [split; [reflexivity | constructor]|].
    rewrite file_chunks_step by discriminate.
    pose proof (fgets_split (Z.to_nat (MAX_LINE - 1)) (c :: rest)) as H.
    destruct (fgets (Z.to_nat (MAX_LINE - 1)) (c :: rest)) as [l r].
    destruct H as (E & Hlen & Hne).
    assert (Hl : l <> [])
      by (apply Hne; [discriminate | unfold MAX_LINE; lia]).
    assert (Hr : (length r <= fuel)%nat).
    { apply (f_equal (@length ascii)) in E.
      rewrite length_app in E. simpl in E, Hfuel.
      destruct l; [congruence | simpl in E; lia]. }
    destruct (IH r Hr) as [Hc Hb].
    cbn [concat]. rewrite Hc. split; [now rewrite E|].
    constructor; [unfold MAX_LINE in *; lia | exact Hb].
Qed.

Lemma file_chunks_lines (ls : list (list ascii)) :
  Forall fits_buffer ls ->
  forall fuel, (length (unlines ls) <= fuel)%nat ->
    file_chunks fuel (unlines ls) = chunks_of ls.
Proof.
  induction 1 as [|l ls [Hlf Hlen] Hrest IH]; intros fuel Hfuel.
  - destruct fuel; reflexivity.
  - destruct ls as [|l2 ls].
    + cbn [unlines chunks_of] in *.
      destruct l as [|c l]; [destruct fuel; reflexivity|].
      destruct fuel as [|fuel]; [simpl in Hfuel; lia|].
      rewrite file_chunks_step by discriminate.
      rewrite (fgets_last (c :: l) Hlf) by (unfold MAX_LINE in *; lia).
      destruct fuel; reflexivity.
    + change (unlines (l :: l2 :: ls))
        with (l ++ "010"%char :: unlines (l2 :: ls)) in *.
      change (chunks_of (l :: l2 :: ls))
        with ((l ++ ["010"%char]) :: chunks_of (l2 :: ls)).
      rewrite length_app in Hfuel. cbn [length] in Hfuel.
      destruct fuel as [|fuel]; [lia|].
      rewrite file_chunks_step by (destruct l; discriminate).
      rewrite (fgets_line l _ Hlf) by (unfold MAX_LINE in *; lia).
      rewrite IH by lia. reflexivity.
Qed.

Lemma spec_line_chunk (sigma l tail : list ascii)
  (t : option (Z * list ascii)) :
  spec_line sigma l t ->
  Forall is_space tail ->
  Z.of_nat (length (l ++ tail)) < MAX_LINE ->
  test_line sigma (l ++ tail) t.
Proof.
  intros Hl Htail Hlen. destruct Hl as
    [ws Hws | ws rest Hws
    | ws1 lab ws2 tok ws3 w H1 Hlab Hne2 H2 Hnet Htok H3 Hw Hin].
  - apply tl_blank. apply Forall_app. now split.
  - rewrite <- app_assoc. cbn [app]. now apply tl_comment.
  - assert (E : (ws1 ++ lab :: ws2 ++ tok ++ ws3) ++ tail
                = ws1 ++ lab :: ws2 ++ tok ++ (ws3 ++ tail)).
    { rewrite <- app_assoc. cbn [app]. now rewrite <- !app_assoc. }
    rewrite E in Hlen |- *.
    apply tl_test; auto. apply Forall_app. now split.
Qed.

Lemma spec_line_empty (sigma : list ascii) (t : option (Z * list ascii)) :
  spec_line sigma [] t -> t = None.
Proof.
  intros H. remember [] as l eqn:El.
  destruct H as
    [ws Hws | ws rest Hws
    | ws1 lab ws2 tok ws3 w H1 Hlab Hne2 H2 Hnet Htok H3 Hw Hin];
    [reflexivity | destruct ws; discriminate | destruct ws1; discriminate].
Qed.

Lemma chunks_test_lines (sigma : list ascii) (ref : DFA)
  (ls : list (list ascii)) (tests : list (option (Z * list ascii))) :
  Forall2 (spec_line sigma) ls tests ->
  Forall fits_buffer ls ->
  exists tests',
    Forall2 (test_line sigma) (chunks_of ls) tests'
    /\ tests_of tests' = tests_of tests
    /\ forall line_no,
         warnings_of ref tests' line_no = warnings_of ref tests line_no.
Proof.
  induction 1 as [|l t ls tests Hl Hrest IH]; intros Hfit.
  - exists []. repeat split. constructor.
  - pose proof (Forall_inv Hfit) as [Hlf Hlen].
    apply Forall_inv_tail in Hfit.
    destruct ls as [|l2 ls].
    + inversion Hrest; subst tests. cbn [chunks_of].
      destruct l as [|c l].
      * apply spec_line_empty in Hl. subst t.
        exists []. repeat split. constructor.
      * exists [t]. repeat split.
        constructor; [|constructor].
        rewrite <- (app_nil_r (c :: l)).
        apply spec_line_chunk; [exact Hl | constructor|].
        rewrite app_nil_r. unfold MAX_LINE in *. lia.
    + destruct (IH Hfit) as (tests' & Hf2 & Ht & Hw).
      exists (t :: tests').
      change (chunks_of (l :: l2 :: ls))
        with ((l ++ ["010"%char]) :: chunks_of (l2 :: ls)).
      split; [|split].
      * constructor; [|exact Hf2].
        apply spec_line_chunk; [exact Hl | repeat constructor|].
        rewrite length_app. cbn [length]. unfold MAX_LINE in *. lia.
      * destruct t as [[lb w]|]; cbn [tests_of]; now rewrite Ht.
      * intros line_no. destruct t as [[lb w]|]; cbn [warnings_of];
          now rewrite Hw.
Qed.

(** C8 (amended): for two well-formed DFAs over the same alphabet and a
    tests file whose lines are well formed over that alphabet and each,
    with its line feed, fits in the [MAX_LINE - 1] bytes [fgets] stores, if
    both DFAs answer alike on every test string, the comparator ends with
    PASS and exit code 0, having counted every test, whatever the labels
    are; each test whose label differs from the answer of the reference
    DFA gives one warning and nothing else. *)
Theorem matching_dfas_pass (ref usr : DFA) (ls : list (list ascii))
  (tests : list (option (Z * list ascii))) :
  wf_DFA ref -> wf_DFA usr ->
  same_alphabet ref usr = true ->
  Forall2 (spec_line (alphabet ref)) ls tests ->
  Forall fits_buffer ls ->
  (forall label w, In (label, w) (tests_of tests) ->
                   run_dfa ref w = run_dfa usr w) ->
  let total := Z.of_nat (length (tests_of tests)) in
  main_on_file ref usr (unlines ls)
  = Ok (Pass total, warnings_of ref tests 0)
  /\ exit_code (Pass total) = 0.
Proof.
  intros Href Husr Hsame Hlines Hfit Hagree total. split; [|reflexivity].
  unfold main_on_file, main. rewrite Hsame. cbn [negb].
  pose proof (same_alphabet_eq _ _ Href Husr Hsame) as Halph.
  rewrite (file_chunks_lines ls Hfit) by lia.
  destruct (chunks_test_lines (alphabet ref) ref ls tests Hlines Hfit)
    as (tests' & Hf2 & Ht & Hw).
  rewrite (tests_loop_pass ref usr Href Husr (eq_sym Halph) (chunks_of ls)
             tests' Hf2) by (rewrite Ht; exact Hagree).
  unfold total. now rewrite Ht, Hw.
Qed.

Lemma star_dfa_wf : wf_DFA star_dfa.
Proof.
  constructor; simpl; unfold MAX_ALPHABET; try lia.
  - repeat constructor; discriminate.
  - repeat constructor; lia.
Qed.

Lemma matching_dfas_pass_witness :
  main_on_file star_dfa star_dfa
    (str "1 <eps>" ++ ["010"%char] ++ str "0 aa" ++ ["010"%char]
     ++ str "# a comment" ++ ["010"%char] ++ ["010"%char])
  = Ok (Pass 2, [mkWarning 2 0 1])
  /\ exit_code (Pass 2) = 0.
Proof.
  apply (matching_dfas_pass star_dfa star_dfa
           [str "1 <eps>"; str "0 aa"; str "# a comment"; []; []]
           [Some (1, []); Some (0, str "aa"); None; None; None]).
  - exact star_dfa_wf.
  - exact star_dfa_wf.
  - reflexivity.
  - repeat apply Forall2_cons; [ | | | | | apply Forall2_nil].
    + apply (sl_test (str "a") [] "1"%char [" "%char] (str "<eps>") [] []);
        [ constructor | now right | discriminate | repeat constructor
        | discriminate | repeat constructor; discriminate
        | constructor | reflexivity | constructor ].
    + apply (sl_test (str "a") [] "0"%char [" "%char] (str "aa") []
               (str "aa"));
        [ constructor | now left | discriminate | repeat constructor
        | discriminate | repeat constructor; discriminate
        | constructor | reflexivity | repeat constructor ].
    + apply (sl_comment (str "a") [] (str " a comment")). constructor.
    + apply (sl_blank (str "a") []). constructor.
    + apply (sl_blank (str "a") []). constructor.
  - repeat constructor; simpl; unfold MAX_LINE; try lia;
      intuition discriminate.
  - intros label w _. reflexivity.
Defined.

(** C8 as stated fails. The tests file with the one line [1 aa...a] of
    8190 symbols [a] and its line feed is well formed over the alphabet
    [a], and the DFA of [a*] compared with itself answers alike on its
    string; but [fgets] returns the line in two pieces, the second piece
    [a] starts with no label, and the comparator stops at "line" 2 with
    exit code 1. *)
Lemma overlong_line_exit_1 :
  let tok := repeat "a"%char (Z.to_nat 8190) in
  let line := str "1 " ++ tok in
  wf_DFA star_dfa
  /\ same_alphabet star_dfa star_dfa = true
  /\ spec_line (alphabet star_dfa) line (Some (1, tok))
  /\ ~ In "010"%char line
  /\ run_dfa star_dfa tok = Ok 1
  /\ main_on_file star_dfa star_dfa (unlines [line; []])
     = Ok (BadLabel 2, [])
  /\ exit_code (BadLabel 2) = 1.
Proof.
  intros tok line.
  assert (Htok : forall c, In c tok -> c = "a"%char)
    by (intros c Hc; now apply repeat_spec in Hc).
  split; [exact star_dfa_wf|]. split; [reflexivity|].
  split; [|split; [|split; [|split]]].
  - apply (sl_test (str "a") [] "1"%char [" "%char] tok [] tok).
    + constructor.
    + now right.
    + discriminate.
    + repeat constructor.
    + vm_compute. discriminate.
    + apply Forall_forall. intros c Hc. rewrite (Htok c Hc).
      split; [reflexivity | discriminate].
    + constructor.
    + vm_compute. reflexivity.
    + apply Forall_forall. intros c Hc. rewrite (Htok c Hc). now left.
  - intros [H|[H|H]]; [discriminate | discriminate|].
    apply Htok in H. discriminate.
  - vm_compute. reflexivity.
  - vm_compute. reflexivity.
  - reflexivity.
Qed.

End Checker.

(* ================================================================== *)
(** ** The loop budgets are never exhausted *)

Lemma in_budget_bind {A B : Type} (c : result A) (f : A -> result B) :
  in_budget c -> (forall a, c = Ok a -> in_budget (f a)) ->
  in_budget (bind c f).
Proof.
  intros Hc Hf. destruct c as [a|e]; simpl; [now apply Hf|].
  intros H. apply Hc. inversion H; subst. reflexivity.
Qed.

Lemma in_budget_foldM {A S : Type} (I : S -> Prop) (f : S -> A -> result S)
  (l : list A) :
  (forall s a, I s -> In a l -> in_budget (f s a)) ->
  (forall s a s', I s -> In a l -> f s a = Ok s' -> I s') ->
  forall s, I s -> in_budget (foldM f l s).
Proof.
  induction l as [|x l IH]; intros Hsafe Hstep s Hs; simpl.
  - discriminate.
  - apply in_budget_bind.
    + apply Hsafe; [assumption | now left].
    + intros s' Hs'. apply IH.
      * intros s0 a H0 Ha. apply Hsafe; [assumption | now right].
      * intros s0 a s1 H0 Ha. apply Hstep; [assumption | now right].
      * eapply Hstep; eauto. now left.
Qed.

Lemma in_budget_while {S : Type} (I : S -> Prop) (m : S -> nat)
  (cond : S -> bool) (body : S -> result S) :
  (forall s, I s -> cond s = true -> (0 < m s)%nat) ->
  (forall s, I s -> cond s = true -> in_budget (body s)) ->
  (forall s s', I s -> cond s = true -> body s = Ok s' ->
                I s' /\ (m s' < m s)%nat) ->
  forall fuel s, I s -> (m s <= fuel)%nat ->
                 in_budget (while_fuel fuel cond body s).
Proof.
  intros Hpos Hsafe Hstep fuel.
  induction fuel as [|fuel IH]; intros s Hs Hm; simpl;
    destruct (cond s) eqn:Hc; try discriminate.
  - specialize (Hpos s Hs Hc). lia.
  - apply in_budget_bind; [now apply Hsafe|].
    intros s' Hs'. destruct (Hstep s s' Hs Hc Hs') as [HI Hlt].
    apply IH; [assumption | lia].
Qed.

Lemma in_budget_aget {A : Type} (a : list A) (i : Z) : in_budget (aget a i).
Proof.
  unfold in_budget, aget. destruct (i <? 0); [discriminate|].
  destruct (nth_error a (Z.to_nat i)); discriminate.
Qed.

Lemma in_budget_aset {A : Type} (a : list A) (i : Z) (x : A) :
  in_budget (aset a i x).
Proof.
  unfold in_budget, aset.
  destruct ((0 <=? i) && (i <? Z.of_nat (length a))); discriminate.
Qed.

Lemma in_budget_cget (a : cells) (i : Z) : in_budget (cget a i).
Proof.
  unfold cget. apply in_budget_bind; [apply in_budget_aget|].
  intros [v|] _; discriminate.
Qed.

Lemma in_budget_cset (a : cells) (i v : Z) : in_budget (cset a i v).
Proof. apply in_budget_aset. Qed.

(** Splits a goal [in_budget c] along the structure of [c]. *)
Ltac budget :=
  repeat first
    [ apply in_budget_aget | apply in_budget_aset
    | apply in_budget_cget | apply in_budget_cset
    | assumption
    | match goal with
      | |- in_budget (Ok _) => discriminate
      | |- in_budget (Err _) => discriminate
      | |- in_budget (bind _ _) => apply in_budget_bind; [|intros ? ?]
      | |- in_budget (if ?b then _ else _) => destruct b
      | |- in_budget (match ?x with (_, _) => _ end) => destruct x
      | |- in_budget (foldM _ _ _) =>
          apply (in_budget_foldM (fun _ => True)); [intros ? ? _ _| auto | exact I]
      end ].

Section Budget.
Import Regex2MinDfa Spec.

Lemma in_budget_parse_alphabet_loop (line : list ascii) :
  forall seen sigma, in_budget (parse_alphabet_loop line seen sigma).
Proof.
  induction line as [|c line IH]; intros seen sigma; simpl; budget; apply IH.
Qed.

Lemma in_budget_check_regex_symbols_valid (sigma s : list ascii) :
  in_budget (check_regex_symbols_valid sigma s).
Proof.
  induction s as [|c s IH]; simpl; budget.
Qed.

Lemma in_budget_check_parens_loop (s : list ascii) :
  forall bal, in_budget (check_parens_loop s bal).
Proof.
  induction s as [|c s IH]; intros bal; simpl; budget; apply IH.
Qed.

Lemma in_budget_drain_stack (st : list ascii) :
  forall out, in_budget (drain_stack st out).
Proof.
  induction st as [|o st IH]; intros out; simpl; budget; apply IH.
Qed.

Lemma in_budget_to_postfix_loop (sigma regex : list ascii) :
  forall st out, in_budget (to_postfix_loop sigma regex st out).
Proof.
  induction regex as [|c regex IH]; intros st out; simpl.
  - apply in_budget_drain_stack.
  - repeat match goal with
           | |- in_budget (if ?b then _ else _) => destruct b
           | |- in_budget (let '(_, _) := ?x in _) => destruct x
           | |- in_budget (match ?x with [] => _ | _ :: _ => _ end) => destruct x
           end; try apply IH; discriminate.
Qed.

Lemma in_budget_new_nfa_state (nfa : list NFAState) :
  in_budget (new_nfa_state nfa).
Proof. unfold new_nfa_state. budget. Qed.

Lemma in_budget_add_edge (nfa : list NFAState) (from to : Z) (sy : ascii) :
  in_budget (add_edge nfa from to sy).
Proof. unfold add_edge. budget. Qed.

Lemma in_budget_fs_pop (fs : list Frag) : in_budget (fs_pop fs).
Proof. destruct fs; discriminate. Qed.

Lemma in_budget_postfix_step (sigma : list ascii)
  (st : list NFAState * list Frag) (c : ascii) :
  in_budget (postfix_step sigma st c).
Proof.
  unfold postfix_step. destruct st as [nfa fs].
  repeat first
    [ apply in_budget_new_nfa_state | apply in_budget_add_edge
    | apply in_budget_fs_pop
    | match goal with
      | |- in_budget (Ok _) => discriminate
      | |- in_budget (Err _) => discriminate
      | |- in_budget (bind _ _) => apply in_budget_bind; [|intros ? _]
      | |- in_budget (if ?b then _ else _) => destruct b
      | |- in_budget (match ?x with (_, _) => _ end) => destruct x
      end ].
Qed.

Lemma in_budget_postfix_to_nfa (sigma post : list ascii) :
  in_budget (postfix_to_nfa sigma post).
Proof.
  unfold postfix_to_nfa. apply in_budget_bind.
  - apply (in_budget_foldM (fun _ => True)); auto.
    intros s a _ _. apply in_budget_postfix_step.
  - intros [nfa fs] _. budget. apply in_budget_fs_pop.
Qed.

Lemma in_budget_bs_get (b : Bitset) (i : Z) : in_budget (bs_get b i).
Proof. unfold bs_get. budget. Qed.

Lemma in_budget_bs_set (b : Bitset) (i : Z) : in_budget (bs_set b i).
Proof. unfold bs_set. budget. Qed.

Lemma in_budget_closure_edge (st : closure_state) (e : Edge) :
  in_budget (closure_edge st e).
Proof.
  unfold closure_edge. budget; apply in_budget_bs_get || apply in_budget_bs_set.
Qed.

Lemma closure_edge_queue (cap : nat) (qh : Z) (st st' : closure_state)
  (e : Edge) :
  closure_queue_ok cap qh st -> closure_edge st e = Ok st' ->
  closure_queue_ok cap qh st'.
Proof.
  unfold closure_queue_ok. intros (Hqh & Hqt & Hlen) H.
  unfold closure_edge in H.
  destruct (Ascii.eqb (sym e) zero); [|inversion H; subst; auto].
  apply bind_Ok in H as (g & _ & H).
  destruct (g =? 0); [|inversion H; subst; auto].
  apply bind_Ok in H as (out & _ & H).
  apply bind_Ok in H as (q & Hq & H). inversion H; subst st'; simpl.
  unfold cset in Hq. pose proof (aset_length _ _ _ _ Hq) as Hl.
  apply aset_Ok in Hq as [Hr _].
  repeat split; [assumption | lia | congruence].
Qed.

Lemma in_budget_eps_closure (nfa : list NFAState) (inb : Bitset) :
  in_budget (eps_closure nfa inb).
Proof.
  unfold eps_closure. apply in_budget_bind.
  - apply (in_budget_foldM (fun _ => True)); auto.
    intros [q qt] s _ _. unfold closure_seed. budget. apply in_budget_bs_get.
  - intros [q qt] Hseed. apply in_budget_bind; [|intros; discriminate].
    assert (Hq : qt <= Z.of_nat (length nfa) /\ length q = length nfa).
    { revert Hseed.
      apply (foldM_inv (fun p => snd p <= Z.of_nat (length nfa)
                                 /\ length (fst p) = length nfa)).
      - intros [q0 qt0] s [q1 qt1] [H1 H2] _ Hs. simpl in *.
        unfold closure_seed in Hs. apply bind_Ok in Hs as (g & _ & Hs).
        destruct (g =? 0); [inversion Hs; subst; auto|].
        apply bind_Ok in Hs as (q2 & Hq2 & Hs). inversion Hs; subst.
        unfold cset in Hq2. pose proof (aset_length _ _ _ _ Hq2).
        apply aset_Ok in Hq2 as [Hr _]. split; [lia | congruence].
      - simpl. unfold xmalloc_ints. rewrite repeat_length. lia. }
    destruct Hq as [Hqt Hlen].
    apply (in_budget_while
             (fun st => 0 <= cl_qh st
                        /\ closure_queue_ok (length nfa) (cl_qh st) st)
             (fun st => Z.to_nat (Z.of_nat (length nfa) - cl_qh st))).
    + intros st (H0 & _ & H1 & _) Hc. apply Z.ltb_lt in Hc. lia.
    + intros st _ _. unfold closure_body. budget.
      apply in_budget_closure_edge.
    + intros st st' (H0 & Hok) Hc Hb. apply Z.ltb_lt in Hc.
      unfold closure_body in Hb.
      apply bind_Ok in Hb as (u & _ & Hb).
      apply bind_Ok in Hb as (edges & _ & Hb).
      assert (Hst' : closure_queue_ok (length nfa) (cl_qh st + 1) st').
      { revert Hb. apply foldM_inv.
        - intros s e s' Hs _. now apply closure_edge_queue.
        - destruct Hok as (_ & H1 & H2). repeat split; simpl; auto. }
      pose proof Hst' as (Hq' & H1' & H2').
      split; [split; [lia|] | destruct Hok as (_ & H1 & _); lia].
      now rewrite Hq'.
    + simpl. split; [lia|]. repeat split; simpl; auto.
    + simpl. lia.
Qed.

Lemma in_budget_move_on_symbol (nfa : list NFAState) (inb : Bitset)
  (sy : ascii) :
  in_budget (move_on_symbol nfa inb sy).
Proof.
  unfold move_on_symbol. apply (in_budget_foldM (fun _ => True)); auto.
  intros out s _ _. unfold move_state. budget; try apply in_budget_bs_get.
  unfold move_edge. budget. apply in_budget_bs_set.
Qed.

Lemma in_budget_dfa_add_state (k : Z) (dfa : list DFAState) (s : Bitset)
  (nfa_accept : Z) :
  in_budget (dfa_add_state k dfa s nfa_accept).
Proof. unfold dfa_add_state. budget. apply in_budget_bs_get. Qed.

Lemma in_budget_set_trans (dfa : list DFAState) (id ai v : Z) :
  in_budget (set_trans dfa id ai v).
Proof. unfold set_trans. budget. Qed.

Lemma in_budget_subset_symbol (sigma : list ascii) (nfa : list NFAState)
  (nfa_accept id : Z) (st : subset_state) (ai : Z) :
  in_budget (subset_symbol sigma nfa nfa_accept id st ai).
Proof.
  unfold subset_symbol.
  repeat first
    [ apply in_budget_aget | apply in_budget_cset
    | apply in_budget_move_on_symbol | apply in_budget_eps_closure
    | apply in_budget_set_trans | apply in_budget_dfa_add_state
    | match goal with
      | |- in_budget (Ok _) => discriminate
      | |- in_budget (bind _ _) => apply in_budget_bind; [|intros ? _]
      | |- in_budget (if ?b then _ else _) => destruct b
      | |- in_budget (match ?x with (_, _) => _ end) => destruct x
      end ].
Qed.

Lemma subset_symbol_queue (sigma : list ascii) (nfa : list NFAState)
  (nfa_accept id : Z) (cap : nat) (qh ai : Z) (st st' : subset_state) :
  subset_queue_ok cap qh st ->
  subset_symbol sigma nfa nfa_accept id st ai = Ok st' ->
  subset_queue_ok cap qh st'.
Proof.
  unfold subset_queue_ok. intros (Hqh & Hqt & Hlen) H.
  unfold subset_symbol in H.
  apply bind_Ok in H as (sy & _ & H).
  apply bind_Ok in H as (d & _ & H).
  apply bind_Ok in H as (mv & _ & H).
  destruct (bs_empty mv).
  { apply bind_Ok in H as (dfa & _ & H). inversion H; subst st'. auto. }
  apply bind_Ok in H as (cl & _ & H).
  destruct (find_dfa_state (ss_dfa st) cl <? 0).
  - apply bind_Ok in H as ([dfa ex] & _ & H).
    apply bind_Ok in H as (q & Hq & H).
    apply bind_Ok in H as (dfa' & _ & H). inversion H; subst st'; simpl.
    unfold cset in Hq. pose proof (aset_length _ _ _ _ Hq).
    apply aset_Ok in Hq as [Hr _].
    repeat split; [assumption | lia | congruence].
  - apply bind_Ok in H as (dfa & _ & H). inversion H; subst st'. auto.
Qed.

Lemma in_budget_nfa_to_dfa (sigma : list ascii) (nfa : list NFAState)
  (nfa_start nfa_accept : Z) :
  in_budget (nfa_to_dfa sigma nfa nfa_start nfa_accept).
Proof.
  unfold nfa_to_dfa.
  apply in_budget_bind; [apply in_budget_bs_set | intros init _].
  apply in_budget_bind; [apply in_budget_eps_closure | intros init_cl _].
  apply in_budget_bind; [apply in_budget_dfa_add_state | intros [dfa x] _].
  apply in_budget_bind; [apply in_budget_cset | intros q Hq].
  apply in_budget_bind; [|intros; discriminate].
  unfold cset in Hq. pose proof (aset_length _ _ _ _ Hq) as Hlen.
  unfold xmalloc_ints in Hlen. rewrite repeat_length in Hlen.
  apply (in_budget_while
           (fun st => 0 <= ss_qh st
                      /\ subset_queue_ok (Z.to_nat MAX_DFA_STATES) (ss_qh st) st)
           (fun st => Z.to_nat (MAX_DFA_STATES - ss_qh st))).
  - intros st (H0 & _ & H1 & _) Hc. apply Z.ltb_lt in Hc.
    unfold MAX_DFA_STATES in *. lia.
  - intros st _ _. unfold subset_body. budget.
    apply in_budget_subset_symbol.
  - intros st st' (H0 & Hok) Hc Hb. apply Z.ltb_lt in Hc.
    unfold subset_body in Hb. apply bind_Ok in Hb as (id & _ & Hb).
    assert (Hst' : subset_queue_ok (Z.to_nat MAX_DFA_STATES) (ss_qh st + 1) st').
    { revert Hb. apply foldM_inv.
      - intros s a s' Hs _. now apply subset_symbol_queue.
      - destruct Hok as (_ & H1 & H2). repeat split; simpl; auto. }
    pose proof Hst' as (Hq' & H1' & H2').
    split; [split; [lia|] | destruct Hok as (_ & H1 & _);
                            unfold MAX_DFA_STATES in *; lia].
    now rewrite Hq'.
  - split; [simpl; lia|]. repeat split; simpl; auto.
    unfold MAX_DFA_STATES. lia.
  - simpl. unfold MAX_DFA_STATES. lia.
Qed.

Lemma in_budget_assign_class (i : Z) (cls : cells) (v : IntVec) :
  in_budget (assign_class i cls v).
Proof. unfold assign_class. budget. Qed.

Lemma in_budget_split_members (mark : list Z) (blk : IntVec) :
  in_budget (split_members mark blk).
Proof.
  unfold split_members. apply (in_budget_foldM (fun _ => True)); auto.
  intros [Y1 Y2] s _ _. budget.
Qed.

Lemma in_budget_split_block (mark : list Z) (st : hopcroft_state) (yi : Z) :
  in_budget (split_block mark st yi).
Proof.
  unfold split_block.
  repeat first
    [ apply in_budget_aget | apply in_budget_aset
    | apply in_budget_assign_class | apply in_budget_split_members
    | match goal with
      | |- in_budget (Ok _) => discriminate
      | |- in_budget (bind _ _) => apply in_budget_bind; [|intros ? _]
      | |- in_budget (if ?b then _ else _) => destruct b
      | |- in_budget (match ?x with (_, _) => _ end) => destruct x
      end ].
Qed.

Lemma in_budget_refine_block (mark : list Z) (sy : hopcroft_state * Z) :
  in_budget (refine_block mark sy).
Proof.
  unfold refine_block, count_marked. destruct sy as [st yi].
  budget. apply in_budget_split_block.
Qed.

Lemma split_block_blocks (mark : list Z) (cap : nat) (d : Z)
  (st st' : hopcroft_state) (yi : Z) :
  blocks_ok cap d st -> split_block mark st yi = Ok st' ->
  blocks_ok cap d st'.
Proof.
  unfold blocks_ok. intros (Hlen & Hn & Hd) H. unfold split_block in H.
  apply bind_Ok in H as (Y & _ & H).
  apply bind_Ok in H as ([Y1 Y2] & _ & H).
  apply bind_Ok in H as (P1 & HP1 & H).
  apply bind_Ok in H as (P2 & HP2 & H).
  apply bind_Ok in H as (Pyi & _ & H).
  apply bind_Ok in H as (cls1 & _ & H).
  apply bind_Ok in H as (Pnew & _ & H).
  apply bind_Ok in H as (cls2 & _ & H).
  pose proof (aset_length _ _ _ _ HP1) as L1.
  pose proof (aset_length _ _ _ _ HP2) as L2.
  apply aset_Ok in HP2 as [Hr _].
  destruct (find_in_W (hp_W st) 0 yi >=? 0).
  - apply bind_Ok in H as (W1 & HW1 & H).
    pose proof (aset_length _ _ _ _ HW1) as LW.
    inversion H; subst st'; simpl. unfold iv_push. rewrite length_app. simpl.
    repeat split; [congruence | lia | lia].
  - destruct (Z.of_nat (length Pyi) <=? Z.of_nat (length Pnew));
      inversion H; subst st'; simpl; unfold iv_push; rewrite length_app;
      simpl; (repeat split; [congruence | lia | lia]).
Qed.

Lemma refine_block_blocks (mark : list Z) (cap : nat) (d : Z)
  (sy sy' : hopcroft_state * Z) :
  blocks_ok cap d (fst sy) -> refine_block mark sy = Ok sy' ->
  blocks_ok cap d (fst sy') /\ snd sy' = snd sy + 1.
Proof.
  destruct sy as [st yi]. simpl. intros Hok H.
  apply bind_Ok in H as (blk & _ & H).
  apply bind_Ok in H as (cnt & _ & H).
  destruct ((cnt =? 0) || (cnt =? Z.of_nat (length blk))).
  - inversion H; subst. auto.
  - apply bind_Ok in H as (st1 & Hsplit & H). inversion H; subst. simpl.
    split; [|reflexivity]. eapply split_block_blocks; eauto.
Qed.

Lemma in_budget_mark_preimage (N a : Z) (inv : list IntVec) (blk : IntVec) :
  in_budget (mark_preimage N a inv blk).
Proof. unfold mark_preimage. budget. Qed.

Lemma refine_symbol_blocks (N : Z) (inv : list IntVec) (Ablock a : Z) (d : Z)
  (st st' : hopcroft_state) :
  blocks_ok (Z.to_nat N) d st ->
  refine_symbol N inv Ablock st a = Ok st' ->
  blocks_ok (Z.to_nat N) d st'.
Proof.
  intros Hok H. unfold refine_symbol in H.
  apply bind_Ok in H as (blk & _ & H).
  apply bind_Ok in H as (mark & _ & H).
  apply bind_Ok in H as ([st1 y1] & Hloop & H). inversion H; subst.
  apply (while_fuel_inv (fun sy => blocks_ok (Z.to_nat N) d (fst sy))) in Hloop.
  - apply Hloop.
  - intros s s' Hs _ Hb. eapply refine_block_blocks; eauto.
  - exact Hok.
Qed.

Lemma in_budget_refine_symbol (N : Z) (inv : list IntVec) (Ablock a : Z)
  (d : Z) (st : hopcroft_state) :
  blocks_ok (Z.to_nat N) d st ->
  in_budget (refine_symbol N inv Ablock st a).
Proof.
  intros Hok. unfold refine_symbol.
  apply in_budget_bind; [apply in_budget_aget | intros blk _].
  apply in_budget_bind; [apply in_budget_mark_preimage | intros mark _].
  apply in_budget_bind; [|intros [st1 y1] _; discriminate].
  apply (in_budget_while
           (fun sy => 0 <= snd sy /\ blocks_ok (Z.to_nat N) d (fst sy))
           (fun sy => Z.to_nat (Z.of_nat (Z.to_nat N) - snd sy))).
  - intros [s y] (Hy & _ & Hn & _) Hc. simpl in *. apply Z.ltb_lt in Hc. lia.
  - intros s _ _. apply in_budget_refine_block.
  - intros s s' (Hy & Hs) Hc Hb. apply Z.ltb_lt in Hc.
    destruct (refine_block_blocks _ _ _ _ _ Hs Hb) as [Hs' Hy'].
    destruct Hs as (_ & Hn & _). simpl in *.
    split; [split; [lia | assumption] | lia].
  - simpl. split; [lia | assumption].
  - simpl. lia.
Qed.

Lemma removelast_length {A : Type} (l : list A) :
  l <> [] -> length l = S (length (removelast l)).
Proof.
  intros H. destruct (exists_last H) as (l' & x & ->).
  rewrite removelast_last, length_app. simpl. lia.
Qed.

Lemma hopcroft_body_blocks (N k : Z) (inv : list IntVec) (d : Z)
  (st st' : hopcroft_state) :
  blocks_ok (Z.to_nat N) d st ->
  (Z.of_nat (length (hp_W st)) >? 0) = true ->
  hopcroft_body N k inv st = Ok st' ->
  blocks_ok (Z.to_nat N) (d - 1) st'.
Proof.
  intros (Hlen & Hn & Hd) Hc H. unfold hopcroft_body in H.
  revert H. apply foldM_inv.
  - intros s a s' Hs _. now apply refine_symbol_blocks.
  - unfold blocks_ok. simpl. repeat split; [assumption | assumption|].
    assert (hp_W st <> []) by (destruct (hp_W st); [discriminate | congruence]).
    pose proof (removelast_length _ H). lia.
Qed.

Lemma in_budget_hopcroft_body (N k : Z) (inv : list IntVec) (d : Z)
  (st : hopcroft_state) :
  blocks_ok (Z.to_nat N) d st ->
  in_budget (hopcroft_body N k inv st).
Proof.
  intros (Hlen & Hn & Hd). unfold hopcroft_body.
  apply (in_budget_foldM
           (fun s => exists d', blocks_ok (Z.to_nat N) d' s)).
  - intros s a [d' Hs] _. now apply in_budget_refine_symbol with (d := d').
  - intros s a s' [d' Hs] _ Hr. exists d'. eapply refine_symbol_blocks; eauto.
  - eexists. unfold blocks_ok. simpl. repeat split; eauto.
Qed.

Lemma in_budget_build_inv (N k : Z) (T : list Z) : in_budget (build_inv N k T).
Proof. unfold build_inv. budget. Qed.

Lemma in_budget_dfa_minimize (k : Z) (dfa : list DFAState) :
  in_budget (dfa_minimize k dfa).
Proof.
  unfold dfa_minimize.
  match goal with
  | |- in_budget (if ?b then _ else _) => destruct b; [discriminate|]
  end.
  set (N := Z.of_nat (length dfa)
            + (if negb (need_dead_of dfa =? 0) then 1 else 0)).
  apply in_budget_bind; [apply in_budget_aset | intros P1 HP1].
  apply in_budget_bind; [apply in_budget_aset | intros P2 HP2].
  apply in_budget_bind; [apply in_budget_aget | intros P0 _].
  apply in_budget_bind; [apply in_budget_aget | intros P1' _].
  apply in_budget_bind; [apply in_budget_assign_class | intros cls1 _].
  apply in_budget_bind; [apply in_budget_assign_class | intros cls2 _].
  apply in_budget_bind; [apply in_budget_build_inv | intros inv _].
  apply in_budget_bind; [|intros; discriminate].
  pose proof (aset_length _ _ _ _ HP1) as L1.
  pose proof (aset_length _ _ _ _ HP2) as L2.
  rewrite repeat_length in L1.
  apply aset_Ok in HP2 as [Hr _].
  apply (in_budget_while
           (fun st => exists d, blocks_ok (Z.to_nat N) d st)
           (fun st => Z.to_nat (Z.of_nat (length (hp_W st))
                                + Z.of_nat (Z.to_nat N) - hp_Pn st))).
  - intros st [d (Hlen & Hn & Hd)] Hc. apply Z.gtb_lt in Hc. lia.
  - intros st [d Hst] _. now apply in_budget_hopcroft_body with (d := d).
  - intros st st' [d Hst] Hc Hb.
    pose proof (hopcroft_body_blocks _ _ _ _ _ _ Hst Hc Hb) as Hst'.
    split; [now exists (d - 1)|].
    destruct Hst as (_ & Hn & Hd). destruct Hst' as (_ & Hn' & Hd').
    apply Z.gtb_lt in Hc. lia.
  - eexists. unfold blocks_ok. simpl.
    repeat split; [exact (eq_trans L2 L1) | lia].
  - destruct (Z.of_nat (length P0) <=? Z.of_nat (length P1'));
      cbn [hp_W hp_Pn length]; lia.
Qed.

Lemma in_budget_write_min_dfa (sigma : list ascii) (dfa : list DFAState)
  (cls : cells) (min_n need_dead dead : Z) :
  in_budget (write_min_dfa sigma dfa cls min_n need_dead dead).
Proof.
  unfold write_min_dfa, build_rep, build_acc, write_rows, write_row. budget.
Qed.

Lemma in_budget_build_dfa (line_regex line_alpha : list ascii) :
  in_budget (build_dfa line_regex line_alpha).
Proof.
  unfold build_dfa.
  apply in_budget_bind; [apply in_budget_parse_alphabet_loop | intros sigma _].
  destruct (preprocess_regex (c_str line_regex)) as [|c r]; [discriminate|].
  apply in_budget_bind;
    [apply in_budget_check_regex_symbols_valid | intros ? _].
  apply in_budget_bind; [apply in_budget_check_parens_loop | intros ? _].
  apply in_budget_bind; [apply in_budget_to_postfix_loop | intros post _].
  apply in_budget_bind; [apply in_budget_postfix_to_nfa | intros [nfa frag] _].
  apply in_budget_bind; [apply in_budget_nfa_to_dfa | intros dfa _].
  discriminate.
Qed.

(** The budgets given to the loops of the model are never the reason for
    an error: whenever [main] returns [Err], the C program dies with that
    message or leaves defined behaviour. *)
Theorem main_in_budget (line_regex line_alpha : list ascii) :
  main line_regex line_alpha <> Err OutOfFuel.
Proof.
  change (in_budget (main line_regex line_alpha)). unfold main.
  apply in_budget_bind; [apply in_budget_build_dfa | intros [sigma dfa] _].
  apply in_budget_bind; [apply in_budget_dfa_minimize | intros m _].
  apply in_budget_write_min_dfa.
Qed.

End Budget.

(* ================================================================== *)
(** * Further properties of the compiler *)

Section AlphabetLine.
Import Regex2MinDfa Spec Props.

Lemma is_separator_code (c : ascii) :
  is_separator c
  = (Ascii.eqb c "010" || Ascii.eqb c "013")
    || (isspace c || Ascii.eqb c "," || Ascii.eqb c ";").
Proof.
  unfold is_separator. now rewrite !orb_assoc.
Qed.

Lemma parse_alphabet_loop_spec (line : list ascii) :
  forall seen sigma0 sigma,
    (forall x, seen x = true <-> In x sigma0) ->
    NoDup sigma0 -> Forall admissible sigma0 ->
    Z.of_nat (length sigma0) <= MAX_ALPHABET ->
    (parse_alphabet_loop line seen sigma0 = Ok sigma
     <-> sigma = sigma0 ++ alphabet_symbols line
         /\ sigma <> [] /\ NoDup sigma
         /\ Z.of_nat (length sigma) <= MAX_ALPHABET
         /\ Forall admissible sigma).
Proof.
  induction line as [|c line IH]; intros seen sigma0 sigma Hseen Hnd Hadm Hlen.
  - simpl. rewrite app_nil_r.
    destruct (Z.of_nat (length sigma0) =? 0) eqn:E.
    + apply Z.eqb_eq in E. split; [discriminate|].
      intros (-> & Hne & _). destruct sigma0; [contradiction | discriminate].
    + split.
      * intros H; inversion H; subst. repeat split; auto.
        intros ->. discriminate.
      * intros (-> & _). reflexivity.
  - cbn [parse_alphabet_loop alphabet_symbols filter].
    fold (alphabet_symbols line).
    rewrite is_separator_code.
    destruct (Ascii.eqb c "010" || Ascii.eqb c "013") eqn:E1;
      [now apply IH|].
    destruct (isspace c || Ascii.eqb c "," || Ascii.eqb c ";") eqn:E2;
      [now apply IH|].
    cbn [orb negb].
    assert (Hhead : forall r, sigma = sigma0 ++ c :: r ->
                              Forall admissible sigma -> admissible c).
    { intros r -> H. apply Forall_app in H as [_ H]. now inversion H. }
    destruct (Ascii.eqb c EPS_TOK) eqn:E3.
    { split; [discriminate|]. intros (Hs & _ & _ & _ & Ha).
      apply (Hhead _ Hs) in Ha as (Hc & _). apply Ascii.eqb_eq in E3.
      contradiction. }
    destruct (is_meta c) eqn:E4.
    { split; [discriminate|]. intros (Hs & _ & _ & _ & Ha).
      apply (Hhead _ Hs) in Ha as (_ & Hc & _). congruence. }
    destruct (byte_val c <? 32) eqn:E5.
    { split; [discriminate|]. intros (Hs & _ & _ & _ & Ha).
      apply (Hhead _ Hs) in Ha as (_ & _ & Hc). apply Z.ltb_lt in E5. lia. }
    destruct (seen c) eqn:E6.
    { split; [discriminate|]. intros (-> & _ & Hn & _).
      apply Hseen in E6. apply NoDup_remove_2 in Hn.
      exfalso. apply Hn. apply in_or_app. now left. }
    destruct (Z.of_nat (length sigma0) >=? MAX_ALPHABET) eqn:E7.
    { split; [discriminate|]. intros (-> & _ & _ & Hl & _).
      rewrite Z.geb_leb in E7. apply Z.leb_le in E7.
      rewrite length_app in Hl. simpl in Hl. lia. }
    rewrite Z.geb_leb in E7. apply Z.leb_gt in E7.
    apply Ascii.eqb_neq in E3. apply Z.ltb_ge in E5.
    assert (Hnotin : ~ In c sigma0).
    { intros H. apply Hseen in H. congruence. }
    rewrite IH.
    + rewrite <- app_assoc. reflexivity.
    + intros x. rewrite in_app_iff. simpl.
      destruct (Ascii.eqb x c) eqn:Ex.
      * apply Ascii.eqb_eq in Ex. subst. tauto.
      * apply Ascii.eqb_neq in Ex. rewrite Hseen. intuition congruence.
    + apply NoDup_app; [assumption | repeat constructor; auto
                        | intros x Hx [<-|[]]; contradiction].
    + apply Forall_app. split; [assumption|].
      constructor; [|constructor]. unfold admissible. auto.
    + rewrite length_app. simpl. lia.
Qed.

(** The alphabet line is accepted exactly when its non-separator bytes, in
    the order written, are at least one and at most 128, are pairwise
    distinct, and each is at least 32 and neither the epsilon sentinel nor
    one of [| + * ( ) .]; the alphabet is then that sequence of bytes. *)
Theorem parse_alphabet_line_accepts (line sigma : list ascii) :
  parse_alphabet_line line = Ok sigma
  <-> sigma = alphabet_symbols line
      /\ sigma <> [] /\ NoDup sigma
      /\ Z.of_nat (length sigma) <= MAX_ALPHABET
      /\ Forall admissible sigma.
Proof.
  unfold parse_alphabet_line.
  rewrite (parse_alphabet_loop_spec line (fun _ => false) [] sigma).
  - reflexivity.
  - intros x. simpl. split; [discriminate | contradiction].
  - constructor.
  - constructor.
  - unfold MAX_ALPHABET. simpl. lia.
Qed.

End AlphabetLine.

(* ================================================================== *)
(** ** Operators and separators in the alphabet line *)

Section AlphabetMeta.
Import Regex2MinDfa Spec Props.








End AlphabetMeta.

Section PatternChecks.
Import Regex2MinDfa Spec Props.

Lemma preprocess_regex_shape_len (m : nat) :
  forall line, (length line <= m)%nat ->
    Forall (fun c => isspace c = false) (preprocess_regex line)
    /\ (length (preprocess_regex line) <= length line)%nat.
Proof.
  induction m as [|m IH]; intros line Hlen.
  - destruct line; [simpl; auto | simpl in Hlen; lia].
  - destruct line as [|b tl]; [simpl; auto|].
    simpl in Hlen. cbn [preprocess_regex].
    destruct (Ascii.eqb b "013" || Ascii.eqb b "010").
    { destruct (IH tl) as [H1 H2]; [lia|]. split; [assumption | simpl; lia]. }
    destruct (isspace b) eqn:Hb.
    { destruct (IH tl) as [H1 H2]; [lia|]. split; [assumption | simpl; lia]. }
    destruct (starts_with eps_ascii (b :: tl)) eqn:E1.
    { destruct tl as [|c1 [|c2 [|c3 [|c4 r5]]]];
        try (split; [repeat constructor | simpl; lia]).
      destruct (IH r5) as [H1 H2]; [simpl in Hlen; lia|].
      split; [constructor; [reflexivity | assumption] | simpl; lia]. }
    destruct (starts_with eps_utf8 (b :: tl)) eqn:E2.
    { destruct tl as [|c1 r1];
        try (split; [repeat constructor | simpl; lia]).
      destruct (IH r1) as [H1 H2]; [simpl in Hlen; lia|].
      split; [constructor; [reflexivity | assumption] | simpl; lia]. }
    destruct (IH tl) as [H1 H2]; [lia|].
    split; [constructor; assumption | simpl; lia].
Qed.

(** Preprocessing leaves no white space in the pattern and never makes it
    longer, so the buffer of [strlen(line)+1] bytes it writes to is large
    enough. *)
Theorem preprocess_regex_strips (line : list ascii) :
  Forall (fun c => isspace c = false) (preprocess_regex line)
  /\ (length (preprocess_regex line) <= length line)%nat.
Proof.
  apply preprocess_regex_shape_len with (m := length line). lia.
Qed.

Lemma paren_step_depth (c : ascii) (bal : Z) :
  (if Ascii.eqb c "(" then bal + 1
   else if Ascii.eqb c ")" then bal - 1 else bal)
  = bal + paren_depth [c].
Proof.
  simpl. destruct (Ascii.eqb c "("); [lia|].
  destruct (Ascii.eqb c ")"); lia.
Qed.

Lemma paren_depth_cons (c : ascii) (s : list ascii) :
  paren_depth (c :: s) = paren_depth [c] + paren_depth s.
Proof. simpl. lia. Qed.

Lemma check_parens_loop_spec (s : list ascii) :
  forall bal, 0 <= bal ->
    match check_parens_loop s bal with
    | Ok _ =>
        (forall n, 0 <= bal + paren_depth (firstn n s))
        /\ bal + paren_depth s = 0
    | Err ParenExtraClose =>
        exists n, bal + paren_depth (firstn n s) < 0
    | Err ParenUnclosed =>
        (forall n, 0 <= bal + paren_depth (firstn n s))
        /\ bal + paren_depth s <> 0
    | Err _ => False
    end.
Proof.
  induction s as [|c s IH]; intros bal Hbal.
  - cbn [check_parens_loop]. destruct (bal =? 0) eqn:E; cbn [negb].
    + apply Z.eqb_eq in E. split; [|simpl; lia].
      intros n. rewrite firstn_nil. simpl. lia.
    + apply Z.eqb_neq in E. split; [|simpl; lia].
      intros n. rewrite firstn_nil. simpl. lia.
  - cbn [check_parens_loop]. rewrite paren_step_depth.
    destruct (bal + paren_depth [c] <? 0) eqn:E.
    + apply Z.ltb_lt in E. exists 1%nat.
      rewrite firstn_cons, firstn_O. exact E.
    + apply Z.ltb_ge in E. specialize (IH _ E).
      assert (Hpre : (forall n, 0 <= bal + paren_depth [c]
                                     + paren_depth (firstn n s)) ->
                     forall n, 0 <= bal + paren_depth (firstn n (c :: s))).
      { intros H [|n]; [simpl; lia|].
        rewrite firstn_cons, paren_depth_cons. specialize (H n). lia. }
      destruct (check_parens_loop s (bal + paren_depth [c])) as [u|e].
      * destruct IH as [H1 H2]. split; [now apply Hpre|].
        rewrite paren_depth_cons. lia.
      * destruct e; try contradiction.
        -- destruct IH as [n Hn]. exists (S n).
           rewrite firstn_cons, paren_depth_cons. lia.
        -- destruct IH as [H1 H2]. split; [now apply Hpre|].
           rewrite paren_depth_cons. lia.
Qed.

(** The parenthesis check answers by the running depth (opening minus
    closing parentheses): it dies with "extra ')'" exactly when some prefix
    of the pattern has negative depth, with "unclosed '('" exactly when no
    prefix has and the whole pattern has a depth other than zero, and it
    passes exactly when no prefix has negative depth and the whole has depth
    zero. *)
Theorem check_parentheses_balanced_depth (s : list ascii) :
  (check_parentheses_balanced s = Err ParenExtraClose
   <-> exists n, paren_depth (firstn n s) < 0)
  /\ (check_parentheses_balanced s = Err ParenUnclosed
      <-> (forall n, 0 <= paren_depth (firstn n s)) /\ paren_depth s <> 0)
  /\ (check_parentheses_balanced s = Ok tt
      <-> (forall n, 0 <= paren_depth (firstn n s)) /\ paren_depth s = 0).
Proof.
  unfold check_parentheses_balanced.
  pose proof (check_parens_loop_spec s 0 (Z.le_refl 0)) as H.
  destruct (check_parens_loop s 0) as [[]|e].
  - destruct H as [H1 H2]. simpl in H1, H2. repeat split; try discriminate; auto.
    + intros [n Hn]. specialize (H1 n). lia.
    + intros [_ Hne]. contradiction.
  - destruct e; try contradiction.
    + destruct H as [n Hn]. simpl in Hn. repeat split; try discriminate; eauto.
      * intros [H1 _]. specialize (H1 n). lia.
      * intros [H1 _]. specialize (H1 n). lia.
    + destruct H as [H1 H2]. simpl in H1, H2.
      repeat split; try discriminate; auto.
      * intros [n Hn]. specialize (H1 n). lia.
      * intros [_ H0]. contradiction.
Qed.

(** *** Shunting-yard *)

Lemma accepted_meta_free (sigma : list ascii) :
  Forall accepted_symbol sigma -> meta_free sigma.
Proof.
  intros H c Hc. destruct (is_alphabet_symbol sigma c) eqn:E; [|reflexivity].
  apply is_alphabet_symbol_In in E. rewrite Forall_forall in H.
  apply H in E. unfold accepted_symbol in E. destruct E as [E _]. congruence.
Qed.

Lemma stack_symbol_not_operand (sigma : list ascii) (c : ascii) :
  meta_free sigma -> stack_symbol c -> is_operand sigma c = false.
Proof.
  intros Hm Hc. unfold is_operand.
  rewrite Hm by (destruct Hc as [->|[->|[->| ->]]]; reflexivity).
  destruct Hc as [->|[->|[->| ->]]]; reflexivity.
Qed.

Lemma operand_not_paren (sigma : list ascii) (c : ascii) :
  meta_free sigma -> is_operand sigma c = true ->
  Ascii.eqb c "(" = false /\ Ascii.eqb c ")" = false.
Proof.
  intros Hm Hc. split.
  - destruct (Ascii.eqb c "(") eqn:E; [|reflexivity].
    apply Ascii.eqb_eq in E. subst. unfold is_operand in Hc.
    rewrite Hm in Hc by reflexivity. discriminate.
  - destruct (Ascii.eqb c ")") eqn:E; [|reflexivity].
    apply Ascii.eqb_eq in E. subst. unfold is_operand in Hc.
    rewrite Hm in Hc by reflexivity. discriminate.
Qed.

Lemma popped_facts (sigma popped : list ascii) :
  meta_free sigma -> popped_ok popped ->
  filter (fun c => negb (is_paren c)) popped = popped
  /\ filter (is_operand sigma) popped = []
  /\ filter (fun c => Ascii.eqb c "(") popped = [].
Proof.
  intros Hm H. induction H as [|c l [Hc Hn] Hl (IH1 & IH2 & IH3)];
    [auto|].
  cbn [filter]. rewrite Hn, (stack_symbol_not_operand _ _ Hm Hc), IH1, IH2, IH3.
  replace (is_paren c) with false
    by (destruct Hc as [->|[->|[->| ->]]]; try reflexivity; discriminate).
  auto.
Qed.

Lemma pop_until_lparen_spec (st : list ascii) :
  Forall stack_symbol st ->
  forall out st1 out1,
    pop_until_lparen st out = (st1, out1) ->
    exists popped,
      st = popped ++ st1 /\ out1 = out ++ popped /\ popped_ok popped
      /\ (st1 = [] \/ exists st2, st1 = "("%char :: st2).
Proof.
  induction 1 as [|o st Ho Hst IH]; intros out st1 out1 H; simpl in H.
  - inversion H; subst. exists []. rewrite !app_nil_r.
    repeat split; auto. constructor.
  - destruct (Ascii.eqb o "(") eqn:E.
    + inversion H; subst. apply Ascii.eqb_eq in E. subst.
      exists []. rewrite !app_nil_r. repeat split; eauto. constructor.
    + apply IH in H as (popped & -> & -> & Hp & Hs).
      exists (o :: popped). rewrite <- app_assoc. repeat split; auto.
      constructor; auto.
Qed.

Lemma pop_operators_spec (c : ascii) (st : list ascii) :
  Forall stack_symbol st ->
  forall out st1 out1,
    pop_operators c st out = (st1, out1) ->
    exists popped,
      st = popped ++ st1 /\ out1 = out ++ popped /\ popped_ok popped.
Proof.
  induction 1 as [|o st Ho Hst IH]; intros out st1 out1 H; simpl in H.
  - inversion H; subst. exists []. rewrite !app_nil_r.
    repeat split; auto. constructor.
  - destruct (Ascii.eqb o "(") eqn:E.
    { inversion H; subst. exists []. rewrite !app_nil_r.
      repeat split; auto. constructor. }
    match type of H with
    | (if ?b then _ else _) = _ => destruct b
    end.
    + apply IH in H as (popped & -> & -> & Hp).
      exists (o :: popped). rewrite <- app_assoc. repeat split; auto.
      constructor; auto.
    + inversion H; subst. exists []. rewrite !app_nil_r.
      repeat split; auto. constructor.
Qed.

Lemma drain_stack_ok (st : list ascii) :
  popped_ok st -> forall out, drain_stack st out = Ok (out ++ st).
Proof.
  induction 1 as [|o st [_ Ho] Hst IH]; intros out; simpl.
  - now rewrite app_nil_r.
  - rewrite Ho, IH, <- app_assoc. reflexivity.
Qed.

Lemma open_parens_app (a b : list ascii) :
  open_parens (a ++ b) = open_parens a + open_parens b.
Proof.
  unfold open_parens. rewrite filter_app, length_app. lia.
Qed.

Lemma open_parens_zero (st : list ascii) :
  Forall stack_symbol st -> open_parens st = 0 -> popped_ok st.
Proof.
  unfold open_parens. induction 1 as [|c st Hc Hst IH]; intros H0;
    [constructor|].
  cbn [filter] in H0. destruct (Ascii.eqb c "(") eqn:E.
  - simpl in H0. lia.
  - constructor; [split; assumption | apply IH; exact H0].
Qed.

Lemma open_parens_lparen (st : list ascii) :
  open_parens ("("%char :: st) = open_parens st + 1.
Proof.
  unfold open_parens. cbn [filter]. change (Ascii.eqb "(" "(") with true.
  cbn [length]. lia.
Qed.

Lemma open_parens_nonneg (st : list ascii) : 0 <= open_parens st.
Proof. unfold open_parens. lia. Qed.

Lemma to_postfix_loop_spec (sigma : list ascii) :
  meta_free sigma ->
  forall regex st out,
    Forall (known_token sigma) regex ->
    Forall stack_symbol st ->
    check_parens_loop regex (open_parens st) = Ok tt ->
    exists post,
      to_postfix_loop sigma regex st out = Ok post
      /\ Permutation post
           (out ++ filter (fun c => negb (is_paren c)) st
                ++ filter (fun c => negb (is_paren c)) regex)
      /\ filter (is_operand sigma) post
         = filter (is_operand sigma) out ++ filter (is_operand sigma) regex
      /\ (Forall (fun c => is_paren c = false) out ->
          Forall (fun c => is_paren c = false) post).
Proof.
  intros Hm regex.
  induction regex as [|c rest IH]; intros st out Hk Hst Hchk.
  - cbn [check_parens_loop] in Hchk.
    destruct (open_parens st =? 0) eqn:E; [|discriminate].
    apply Z.eqb_eq in E. pose proof (open_parens_zero _ Hst E) as Hp.
    destruct (popped_facts sigma st Hm Hp) as (F1 & F2 & _).
    exists (out ++ st). cbn [to_postfix_loop filter].
    rewrite (drain_stack_ok _ Hp), F1, !app_nil_r.
    repeat split; auto.
    + now rewrite filter_app, F2, app_nil_r.
    + intros Ho. apply Forall_app. split; [assumption|].
      eapply Forall_impl; [|exact Hp].
      intros a [Ha Hn].
      destruct Ha as [->|[->|[->| ->]]]; try reflexivity; discriminate.
  - inversion Hk as [|c0 r0 Hc Hrest]; subst.
    cbn [to_postfix_loop].
    change (is_alphabet_symbol sigma c || Ascii.eqb c EPS_TOK)
      with (is_operand sigma c).
    pose proof (open_parens_nonneg st) as Hnn.
    destruct (is_operand sigma c) eqn:Eop.
    { (* operand *)
      destruct (operand_not_paren _ _ Hm Eop) as [N1 N2].
      cbn [check_parens_loop] in Hchk. rewrite N1, N2 in Hchk.
      destruct (open_parens st <? 0) eqn:El; [apply Z.ltb_lt in El; lia|].
      destruct (IH st (out ++ [c]) Hrest Hst Hchk) as (post & H1 & H2 & H3 & H4).
      assert (Hnp : is_paren c = false) by (unfold is_paren; now rewrite N1, N2).
      exists post. split; [exact H1|]. cbn [filter].
      rewrite Hnp, Eop. cbn [negb].
      repeat split.
      - eapply perm_trans; [exact H2|]. rewrite <- app_assoc.
        apply Permutation_app_head. cbn [app]. apply Permutation_middle.
      - rewrite H3, filter_app. cbn [filter]. rewrite Eop.
        now rewrite <- app_assoc.
      - intros Ho. apply H4. apply Forall_app. split; [assumption|].
        constructor; [|constructor]. unfold is_paren. now rewrite N1, N2. }
    destruct Hc as [Hc|Hc]; [congruence|].
    destruct Hc as [->|[->|[->|Hc]]].
    + (* ( *)
      cbn [check_parens_loop] in Hchk. cbn in Hchk.
      destruct (open_parens st + 1 <? 0) eqn:El; [apply Z.ltb_lt in El; lia|].
      assert (Ho : open_parens ("("%char :: st) = open_parens st + 1).
      { apply open_parens_lparen. }
      rewrite <- Ho in Hchk.
      destruct (IH ("("%char :: st) out Hrest) as (post & H1 & H2 & H3 & H4);
        [constructor; [left; reflexivity | assumption] | exact Hchk |].
      exists post. cbn. rewrite Eop. split; [exact H1|]. repeat split; auto.
    + (* ) *)
      cbn [check_parens_loop] in Hchk. cbn in Hchk.
      destruct (open_parens st - 1 <? 0) eqn:El; [discriminate|].
      apply Z.ltb_ge in El. cbn.
      destruct (pop_until_lparen st out) as [st1 out1] eqn:Ep.
      apply (pop_until_lparen_spec _ Hst) in Ep
        as (popped & -> & -> & Hp & Hs).
      destruct (popped_facts sigma popped Hm Hp) as (F1 & F2 & F3).
      assert (Hop : open_parens (popped ++ st1) = open_parens st1).
      { rewrite open_parens_app. unfold open_parens at 1. rewrite F3.
        simpl. lia. }
      destruct Hs as [->|[st2 ->]].
      { exfalso. rewrite Hop in El. change (open_parens []) with 0 in El. lia. }
      assert (Ho2 : open_parens st2 = open_parens (popped ++ "("%char :: st2) - 1).
      { rewrite Hop, open_parens_lparen. lia. }
      rewrite <- Ho2 in Hchk.
      apply Forall_app in Hst as [_ Hst]. apply Forall_inv_tail in Hst.
      destruct (IH st2 (out ++ popped) Hrest) as (post & H1 & H2 & H3 & H4);
        [assumption | exact Hchk |].
      exists post. split; [exact H1|]. cbn [filter]. rewrite Eop.
      change (is_paren ")") with true. cbn [negb]. repeat split.
      * eapply perm_trans; [exact H2|].
        rewrite filter_app, F1. cbn. rewrite <- !app_assoc. reflexivity.
      * rewrite H3, filter_app, F2, app_nil_r. reflexivity.
      * intros Ho. apply H4. apply Forall_app. split; [assumption|].
        eapply Forall_impl; [|exact Hp]. intros a [Ha Hn].
        destruct Ha as [->|[->|[->| ->]]]; try reflexivity; discriminate.
    + (* * *)
      cbn [check_parens_loop] in Hchk. cbn in Hchk.
      destruct (open_parens st <? 0) eqn:El; [apply Z.ltb_lt in El; lia|].
      destruct (IH st (out ++ ["*"%char]) Hrest Hst Hchk)
        as (post & H1 & H2 & H3 & H4).
      exists post. cbn. split; [exact H1|]. rewrite Eop. repeat split.
      * eapply perm_trans; [exact H2|]. rewrite <- app_assoc.
        apply Permutation_app_head. cbn [app]. apply Permutation_middle.
      * rewrite H3, filter_app. cbn [filter]. rewrite Eop.
        now rewrite app_nil_r.
      * intros Ho. apply H4. apply Forall_app. split; [assumption|].
        repeat constructor.
    + (* | + . *)
      assert (Hcs : stack_symbol c) by (unfold stack_symbol; tauto).
      assert (Ec : Ascii.eqb c "(" = false /\ Ascii.eqb c ")" = false
                   /\ Ascii.eqb c "*" = false
                   /\ Ascii.eqb c "|" || Ascii.eqb c "+" || Ascii.eqb c "." = true)
        by (destruct Hc as [->|[->| ->]]; repeat split; reflexivity).
      destruct Ec as (N1 & N2 & N3 & N4).
      cbn [check_parens_loop] in Hchk. rewrite N1, N2 in Hchk.
      destruct (open_parens st <? 0) eqn:El; [apply Z.ltb_lt in El; lia|].
      rewrite N1, N2, N3, N4.
      destruct (pop_operators c st out) as [st1 out1] eqn:Ep.
      apply (pop_operators_spec _ _ Hst) in Ep as (popped & -> & -> & Hp).
      destruct (popped_facts sigma popped Hm Hp) as (F1 & F2 & F3).
      assert (Hop : open_parens (c :: st1) = open_parens (popped ++ st1)).
      { rewrite open_parens_app. unfold open_parens. cbn [filter].
        rewrite N1, F3. simpl. lia. }
      rewrite <- Hop in Hchk.
      apply Forall_app in Hst as [_ Hst].
      destruct (IH (c :: st1) (out ++ popped) Hrest) as (post & H1 & H2 & H3 & H4);
        [constructor; assumption | exact Hchk |].
      assert (Hnp : is_paren c = false) by (unfold is_paren; now rewrite N1, N2).
      exists post. split; [exact H1|]. cbn [filter].
      rewrite Hnp, Eop. cbn [negb].
      repeat split.
      * cbn [filter] in H2. rewrite Hnp in H2. cbn [negb] in H2.
        eapply perm_trans; [exact H2|].
        rewrite filter_app, F1, <- !app_assoc.
        do 2 apply Permutation_app_head. cbn [app]. apply Permutation_middle.
      * rewrite H3, filter_app, F2, app_nil_r. reflexivity.
      * intros Ho. apply H4. apply Forall_app. split; [assumption|].
        eapply Forall_impl; [|exact Hp]. intros a [Ha Hn].
        destruct Ha as [->|[->|[->| ->]]]; try reflexivity; discriminate.
Qed.

Lemma add_concat_ops_markers (sigma s : list ascii) :
  add_concat_ops sigma s = insert_markers sigma s.
Proof.
  unfold add_concat_ops. exact (add_concat_fold sigma s [] []).
Qed.

Lemma check_parens_loop_markers (sigma s : list ascii) :
  forall bal, 0 <= bal ->
    check_parens_loop (insert_markers sigma s) bal = check_parens_loop s bal.
Proof.
  induction s as [|a s IH]; intros bal Hbal; [reflexivity|].
  cbn [insert_markers]. destruct s as [|b s']; [reflexivity|].
  assert (Hdot : forall bal', 0 <= bal' ->
            check_parens_loop ("."%char :: insert_markers sigma (b :: s')) bal'
            = check_parens_loop (b :: s') bal').
  { intros bal' Hb. rewrite <- (IH bal' Hb).
    cbn [check_parens_loop]. change (Ascii.eqb "." "(") with false.
    change (Ascii.eqb "." ")") with false. cbn iota.
    destruct (bal' <? 0) eqn:E; [apply Z.ltb_lt in E; lia | reflexivity]. }
  destruct (marker_between_dec sigma a b);
    cbn [check_parens_loop]; rewrite paren_step_depth;
    (destruct (bal + paren_depth [a] <? 0) eqn:E; [reflexivity|]);
    apply Z.ltb_ge in E; [now apply Hdot | now apply IH].
Qed.

Lemma valid_token_known (sigma : list ascii) (c : ascii) :
  valid_token sigma c -> known_token sigma c.
Proof.
  unfold valid_token, known_token, is_operand.
  intros [->|[H|H]].
  - left. rewrite Ascii.eqb_refl. apply orb_true_r.
  - left. apply is_alphabet_symbol_In in H. now rewrite H.
  - tauto.
Qed.

Lemma insert_markers_known (sigma s : list ascii) :
  Forall (valid_token sigma) s ->
  Forall (known_token sigma) (insert_markers sigma s).
Proof.
  induction 1 as [|a s Ha Hs IH]; [constructor|].
  cbn [insert_markers]. destruct s as [|b s'].
  - constructor; [now apply valid_token_known | constructor].
  - destruct (marker_between_dec sigma a b).
    + constructor; [now apply valid_token_known|].
      constructor; [unfold known_token; tauto | exact IH].
    + constructor; [now apply valid_token_known | exact IH].
Qed.

Lemma insert_markers_operands (sigma s : list ascii) :
  meta_free sigma ->
  filter (is_operand sigma) (insert_markers sigma s)
  = filter (is_operand sigma) s.
Proof.
  intros Hm. induction s as [|a s IH]; [reflexivity|].
  cbn [insert_markers]. destruct s as [|b s']; [reflexivity|].
  assert (Hdot : is_operand sigma "." = false).
  { apply stack_symbol_not_operand; [assumption | unfold stack_symbol; tauto]. }
  destruct (marker_between_dec sigma a b); cbn [filter];
    rewrite ?Hdot; cbn [filter] in IH; rewrite IH; reflexivity.
Qed.

Lemma to_postfix_after_checks_spec (sigma s : list ascii) :
  Forall accepted_symbol sigma ->
  check_regex_symbols_valid sigma s = Ok tt ->
  check_parentheses_balanced s = Ok tt ->
  exists post,
    to_postfix sigma (add_concat_ops sigma s) = Ok post
    /\ Forall (fun c => is_paren c = false) post
    /\ filter (is_operand sigma) post = filter (is_operand sigma) s
    /\ Permutation post
         (filter (fun c => negb (is_paren c)) (add_concat_ops sigma s)).
Proof.
  intros Hacc Hval Hpar. pose proof (accepted_meta_free _ Hacc) as Hm.
  apply check_regex_symbols_valid_tokens in Hval.
  rewrite add_concat_ops_markers. unfold to_postfix.
  destruct (to_postfix_loop_spec sigma Hm (insert_markers sigma s) [] [])
    as (post & H1 & H2 & H3 & H4).
  - now apply insert_markers_known.
  - constructor.
  - change (open_parens []) with 0.
    rewrite check_parens_loop_markers by lia. exact Hpar.
  - exists post. split; [exact H1|]. split; [apply H4; constructor|].
    split; [now rewrite H3, insert_markers_operands | exact H2].
Qed.

(** After the validation of the symbols and the parenthesis check, the
    conversion to postfix cannot fail: its "mismatched parentheses" and
    "unknown character" exits are not reached. The postfix holds exactly the
    tokens of the pattern with its concatenation markers, the parentheses
    left out, and the operands stand in the order of the pattern. *)
Theorem to_postfix_after_checks (sigma s : list ascii) :
  Forall accepted_symbol sigma ->
  check_regex_symbols_valid sigma s = Ok tt ->
  check_parentheses_balanced s = Ok tt ->
  exists post,
    to_postfix sigma (add_concat_ops sigma s) = Ok post
    /\ Forall (fun c => is_paren c = false) post
    /\ filter (is_operand sigma) post = filter (is_operand sigma) s
    /\ Permutation post
         (filter (fun c => negb (is_paren c)) (add_concat_ops sigma s)).
Proof.
  exact (to_postfix_after_checks_spec sigma s).
Qed.

Lemma accepted_ab : Forall accepted_symbol (str "ab").
Proof.
  repeat constructor; try discriminate; vm_compute; discriminate.
Qed.

Lemma to_postfix_after_checks_witness :
  exists post,
    to_postfix (str "ab") (add_concat_ops (str "ab") (str "a(b|a)*b")) = Ok post
    /\ Forall (fun c => is_paren c = false) post
    /\ filter (is_operand (str "ab")) post
       = filter (is_operand (str "ab")) (str "a(b|a)*b")
    /\ Permutation post
         (filter (fun c => negb (is_paren c))
            (add_concat_ops (str "ab") (str "a(b|a)*b"))).
Proof.
  apply (to_postfix_after_checks (str "ab") (str "a(b|a)*b")).
  - exact accepted_ab.
  - reflexivity.
  - reflexivity.
Defined.

End PatternChecks.

(* ================================================================== *)
(** ** The Thompson construction *)

Section Thompson.
Import Regex2MinDfa Spec Props.

Lemma edges_ok_grow (sigma : list ascii) (n n' : Z) (l : list NFAState) :
  n <= n' ->
  Forall (Forall (edge_ok sigma n)) l -> Forall (Forall (edge_ok sigma n')) l.
Proof.
  intros Hn H. eapply Forall_impl; [|exact H]. intros edges He.
  eapply Forall_impl; [|exact He]. intros e [H1 H2]. split; [lia | assumption].
Qed.

Lemma edges_at_app_old (nfa extra : list NFAState) (j : Z) :
  0 <= j < Z.of_nat (length nfa) ->
  edges_at (nfa ++ extra) j = edges_at nfa j.
Proof.
  intros Hj. unfold edges_at. apply app_nth1. lia.
Qed.

Lemma new_nfa_state_spec (sigma : list ascii) (nfa nfa' : list NFAState)
  (s : Z) :
  new_nfa_state nfa = Ok (nfa', s) ->
  edges_ok sigma nfa ->
  nfa' = nfa ++ [[]] /\ s = Z.of_nat (length nfa)
  /\ Z.of_nat (length nfa') = Z.of_nat (length nfa) + 1
  /\ Z.of_nat (length nfa') <= MAX_NFA_STATES
  /\ edges_ok sigma nfa'
  /\ edges_at nfa' s = [].
Proof.
  unfold new_nfa_state. intros H Hok.
  destruct (Z.of_nat (length nfa) >=? MAX_NFA_STATES) eqn:E; [discriminate|].
  rewrite Z.geb_leb in E. apply Z.leb_gt in E.
  inversion H; subst. rewrite length_app. cbn [length].
  repeat split; try lia.
  - unfold edges_ok. rewrite length_app. cbn [length].
    apply Forall_app. split.
    + eapply edges_ok_grow; [|exact Hok]. lia.
    + repeat constructor.
  - unfold edges_at. rewrite Nat2Z.id, nth_middle. reflexivity.
Qed.

Lemma nth_list_set_same {A : Type} (a : list A) (n : nat) (x d : A) :
  (n < length a)%nat -> nth n (list_set a n x) d = x.
Proof.
  intros H. apply nth_error_nth. now apply nth_error_list_set_same.
Qed.

Lemma nth_list_set_other {A : Type} (a : list A) (n m : nat) (x d : A) :
  n <> m -> nth m (list_set a n x) d = nth m a d.
Proof.
  revert n m; induction a as [|y a IH]; intros [|n] [|m] H; simpl;
    try reflexivity; try congruence.
  apply IH. congruence.
Qed.

Lemma list_set_Forall_at {A : Type} (Q : A -> Prop) (a : list A) (n : nat)
  (x : A) :
  Forall Q a -> Q x -> Forall Q (list_set a n x).
Proof. apply list_set_Forall. Qed.

Lemma add_edge_spec (sigma : list ascii) (nfa nfa' : list NFAState)
  (from to0 : Z) (sy : ascii) :
  add_edge nfa from to0 sy = Ok nfa' ->
  edges_ok sigma nfa ->
  0 <= to0 < Z.of_nat (length nfa) ->
  sy = zero \/ In sy sigma ->
  length nfa' = length nfa
  /\ edges_ok sigma nfa'
  /\ 0 <= from < Z.of_nat (length nfa)
  /\ (forall j, 0 <= j -> j <> from -> edges_at nfa' j = edges_at nfa j).
Proof.
  unfold add_edge. intros H Hok Hto Hsy.
  apply bind_Ok in H as (edges & Hget & H).
  pose proof (aset_length _ _ _ _ H) as Hlen.
  apply aget_Ok in Hget as [Hfrom Hin].
  apply aset_Ok in H as [_ ->].
  repeat split; try lia.
  - unfold edges_ok. rewrite list_set_length. apply list_set_Forall.
    + exact Hok.
    + apply Forall_app. split.
      * unfold edges_ok in Hok. rewrite Forall_forall in Hok. now apply Hok.
      * constructor; [|constructor]. split; assumption.
  - intros j Hj Hne. unfold edges_at. apply nth_list_set_other. lia.
Qed.

Lemma frag_ok_keep (nfa nfa' : list NFAState) (f : Frag) :
  frag_ok nfa f ->
  (length nfa <= length nfa')%nat ->
  edges_at nfa' (accept f) = edges_at nfa (accept f) ->
  frag_ok nfa' f.
Proof.
  intros (H1 & H2 & H3) Hlen He. repeat split; try lia. now rewrite He.
Qed.

Lemma old_accepts_below (nfa : list NFAState) (fs : list Frag) (t : Z) :
  Forall (frag_ok nfa) fs -> Z.of_nat (length nfa) <= t ->
  ~ In t (map accept fs).
Proof.
  intros Hfs Ht Hin. apply in_map_iff in Hin as (f & <- & Hf).
  rewrite Forall_forall in Hfs. destruct (Hfs f Hf) as (_ & H & _). lia.
Qed.

(** The two cases that make a fresh fragment of two states and one edge. *)
Lemma leaf_fragment_ok (sigma : list ascii) (nfa nfa' : list NFAState)
  (fs fs' : list Frag) (sy : ascii) :
  sy = zero \/ In sy sigma ->
  thompson_ok sigma (nfa, fs) ->
  ('(nfa1, s) <- new_nfa_state nfa ;;
   '(nfa2, t) <- new_nfa_state nfa1 ;;
   nfa3 <- add_edge nfa2 s t sy ;;
   Ok (nfa3, fs_push fs (mkFrag s t))) = Ok (nfa', fs') ->
  thompson_ok sigma (nfa', fs')
  /\ Z.of_nat (length nfa') = Z.of_nat (length nfa) + 2.
Proof.
  intros Hsy (Hok & Hsz & Hfs & Hnd) H. cbn [fst snd] in *.
  apply bind_Ok in H as ([nfa1 s] & H1 & H).
  apply bind_Ok in H as ([nfa2 t] & H2 & H).
  apply bind_Ok in H as (nfa3 & H3 & H). inversion H; subst nfa' fs'; clear H.
  destruct (new_nfa_state_spec sigma _ _ _ H1 Hok)
    as (E1 & Es & L1 & S1 & Ok1 & At1).
  destruct (new_nfa_state_spec sigma _ _ _ H2 Ok1)
    as (E2 & Et & L2 & S2 & Ok2 & At2).
  destruct (add_edge_spec sigma _ _ _ _ _ H3 Ok2) as (L3 & Ok3 & _ & Keep);
    [lia | assumption |].
  assert (Hlen : Z.of_nat (length nfa3) = Z.of_nat (length nfa) + 2) by lia.
  split; [|exact Hlen].
  unfold thompson_ok, fs_push. cbn [fst snd map accept].
  repeat split; try assumption; try lia.
  - constructor.
    + unfold frag_ok. cbn [start accept].
      repeat split; try lia. rewrite Keep by lia. exact At2.
    + eapply Forall_impl; [|exact Hfs]. intros f Hf.
      destruct Hf as (F1 & F2 & F3).
      unfold frag_ok. repeat split; try lia.
      rewrite Keep by lia. subst nfa2 nfa1.
      rewrite edges_at_app_old by (rewrite length_app; simpl; lia).
      rewrite edges_at_app_old by lia. exact F3.
  - constructor; [|exact Hnd]. apply (old_accepts_below nfa); [assumption | lia].
Qed.

Lemma concat_fragment_ok (sigma : list ascii) (nfa nfa' : list NFAState)
  (fs fs' : list Frag) :
  thompson_ok sigma (nfa, fs) ->
  ('(f2, fs) <- fs_pop fs ;;
   '(f1, fs) <- fs_pop fs ;;
   nfa <- add_edge nfa (accept f1) (start f2) zero ;;
   Ok (nfa, fs_push fs (mkFrag (start f1) (accept f2)))) = Ok (nfa', fs') ->
  thompson_ok sigma (nfa', fs')
  /\ Z.of_nat (length nfa') = Z.of_nat (length nfa).
Proof.
  intros (Hok & Hsz & Hfs & Hnd) H. cbn [fst snd] in *.
  destruct fs as [|f2 [|f1 fs2]]; try discriminate. cbn [fs_pop bind] in H.
  apply bind_Ok in H as (nfa1 & H1 & H). inversion H; subst nfa' fs'; clear H.
  inversion Hfs as [|x1 l1 (A1 & A2 & A3) Hfs1]; subst.
  inversion Hfs1 as [|x2 l2 (B1 & B2 & B3) Hfs2]; subst.
  cbn [map] in Hnd.
  inversion Hnd as [|y1 m1 Hn2 Hnd1]; subst.
  inversion Hnd1 as [|y2 m2 Hn1 Hnd2]; subst.
  destruct (add_edge_spec sigma _ _ _ _ _ H1 Hok) as (L1 & Ok1 & _ & Keep);
    [lia | now left |].
  split; [|lia].
  unfold thompson_ok, fs_push. cbn [fst snd map accept start].
  rewrite L1. repeat split; try assumption.
  - constructor.
    + unfold frag_ok. cbn [start accept]. rewrite L1.
      repeat split; try lia. rewrite Keep; [assumption | lia |].
      intros E. apply Hn2. left. now symmetry.
    + rewrite Forall_forall in Hfs2 |- *. intros f Hf.
      destruct (Hfs2 f Hf) as (F1 & F2 & F3).
      unfold frag_ok. rewrite L1. repeat split; try lia.
      rewrite Keep; [assumption | lia |].
      intros E. apply Hn1. rewrite <- E. now apply in_map.
  - constructor; [|assumption]. intros Hin. apply Hn2. now right.
Qed.

Lemma union_fragment_ok (sigma : list ascii) (nfa nfa' : list NFAState)
  (fs fs' : list Frag) :
  thompson_ok sigma (nfa, fs) ->
  ('(f2, fs) <- fs_pop fs ;;
   '(f1, fs) <- fs_pop fs ;;
   '(nfa, s) <- new_nfa_state nfa ;;
   '(nfa, t) <- new_nfa_state nfa ;;
   nfa <- add_edge nfa s (start f1) zero ;;
   nfa <- add_edge nfa s (start f2) zero ;;
   nfa <- add_edge nfa (accept f1) t zero ;;
   nfa <- add_edge nfa (accept f2) t zero ;;
   Ok (nfa, fs_push fs (mkFrag s t))) = Ok (nfa', fs') ->
  thompson_ok sigma (nfa', fs')
  /\ Z.of_nat (length nfa') = Z.of_nat (length nfa) + 2.
Proof.
  intros (Hok & Hsz & Hfs & Hnd) H. cbn [fst snd] in *.
  destruct fs as [|f2 [|f1 fs2]]; try discriminate. cbn [fs_pop bind] in H.
  apply bind_Ok in H as ([nfa1 s] & H1 & H).
  apply bind_Ok in H as ([nfa2 t] & H2 & H).
  apply bind_Ok in H as (nfa3 & H3 & H).
  apply bind_Ok in H as (nfa4 & H4 & H).
  apply bind_Ok in H as (nfa5 & H5 & H).
  apply bind_Ok in H as (nfa6 & H6 & H). inversion H; subst nfa' fs'; clear H.
  inversion Hfs as [|x1 l1 (A1 & A2 & A3) Hfs1]; subst.
  inversion Hfs1 as [|x2 l2 (B1 & B2 & B3) Hfs2]; subst.
  cbn [map] in Hnd.
  inversion Hnd as [|y1 m1 Hn2 Hnd1]; subst.
  inversion Hnd1 as [|y2 m2 Hn1 Hnd2]; subst.
  destruct (new_nfa_state_spec sigma _ _ _ H1 Hok)
    as (E1 & Es & L1 & S1 & Ok1 & At1).
  destruct (new_nfa_state_spec sigma _ _ _ H2 Ok1)
    as (E2 & Et & L2 & S2 & Ok2 & At2).
  destruct (add_edge_spec sigma _ _ _ _ _ H3 Ok2) as (L3 & Ok3 & _ & K3);
    [lia | now left |].
  destruct (add_edge_spec sigma _ _ _ _ _ H4 Ok3) as (L4 & Ok4 & _ & K4);
    [lia | now left |].
  destruct (add_edge_spec sigma _ _ _ _ _ H5 Ok4) as (L5 & Ok5 & _ & K5);
    [lia | now left |].
  destruct (add_edge_spec sigma _ _ _ _ _ H6 Ok5) as (L6 & Ok6 & _ & K6);
    [lia | now left |].
  assert (Hlen : Z.of_nat (length nfa6) = Z.of_nat (length nfa) + 2) by lia.
  assert (Hold : forall j, 0 <= j < Z.of_nat (length nfa) ->
                           edges_at nfa2 j = edges_at nfa j).
  { intros j Hj. subst nfa2 nfa1.
    rewrite edges_at_app_old by (rewrite length_app; simpl; lia).
    now rewrite edges_at_app_old by lia. }
  split; [|exact Hlen].
  unfold thompson_ok, fs_push. cbn [fst snd map accept].
  repeat split; try assumption; try lia.
  - constructor.
    + unfold frag_ok. cbn [start accept]. repeat split; try lia.
      rewrite K6, K5, K4, K3 by lia. exact At2.
    + rewrite Forall_forall in Hfs2 |- *. intros f Hf.
      destruct (Hfs2 f Hf) as (F1 & F2 & F3).
      assert (Ne1 : accept f <> accept f1)
        by (intros E; apply Hn1; rewrite <- E; now apply in_map).
      assert (Ne2 : accept f <> accept f2)
        by (intros E; apply Hn2; right; rewrite <- E; now apply in_map).
      unfold frag_ok. repeat split; try lia.
      rewrite K6, K5, K4, K3, Hold by lia. exact F3.
  - constructor; [|assumption].
    apply (old_accepts_below nfa); [assumption | lia].
Qed.

Lemma star_fragment_ok (sigma : list ascii) (nfa nfa' : list NFAState)
  (fs fs' : list Frag) :
  thompson_ok sigma (nfa, fs) ->
  ('(f, fs) <- fs_pop fs ;;
   '(nfa, s) <- new_nfa_state nfa ;;
   '(nfa, t) <- new_nfa_state nfa ;;
   nfa <- add_edge nfa s (start f) zero ;;
   nfa <- add_edge nfa s t zero ;;
   nfa <- add_edge nfa (accept f) (start f) zero ;;
   nfa <- add_edge nfa (accept f) t zero ;;
   Ok (nfa, fs_push fs (mkFrag s t))) = Ok (nfa', fs') ->
  thompson_ok sigma (nfa', fs')
  /\ Z.of_nat (length nfa') = Z.of_nat (length nfa) + 2.
Proof.
  intros (Hok & Hsz & Hfs & Hnd) H. cbn [fst snd] in *.
  destruct fs as [|f1 fs2]; try discriminate. cbn [fs_pop bind] in H.
  apply bind_Ok in H as ([nfa1 s] & H1 & H).
  apply bind_Ok in H as ([nfa2 t] & H2 & H).
  apply bind_Ok in H as (nfa3 & H3 & H).
  apply bind_Ok in H as (nfa4 & H4 & H).
  apply bind_Ok in H as (nfa5 & H5 & H).
  apply bind_Ok in H as (nfa6 & H6 & H). inversion H; subst nfa' fs'; clear H.
  inversion Hfs as [|x1 l1 (A1 & A2 & A3) Hfs2]; subst.
  cbn [map] in Hnd.
  inversion Hnd as [|y1 m1 Hn1 Hnd2]; subst.
  destruct (new_nfa_state_spec sigma _ _ _ H1 Hok)
    as (E1 & Es & L1 & S1 & Ok1 & At1).
  destruct (new_nfa_state_spec sigma _ _ _ H2 Ok1)
    as (E2 & Et & L2 & S2 & Ok2 & At2).
  destruct (add_edge_spec sigma _ _ _ _ _ H3 Ok2) as (L3 & Ok3 & _ & K3);
    [lia | now left |].
  destruct (add_edge_spec sigma _ _ _ _ _ H4 Ok3) as (L4 & Ok4 & _ & K4);
    [lia | now left |].
  destruct (add_edge_spec sigma _ _ _ _ _ H5 Ok4) as (L5 & Ok5 & _ & K5);
    [lia | now left |].
  destruct (add_edge_spec sigma _ _ _ _ _ H6 Ok5) as (L6 & Ok6 & _ & K6);
    [lia | now left |].
  assert (Hlen : Z.of_nat (length nfa6) = Z.of_nat (length nfa) + 2) by lia.
  assert (Hold : forall j, 0 <= j < Z.of_nat (length nfa) ->
                           edges_at nfa2 j = edges_at nfa j).
  { intros j Hj. subst nfa2 nfa1.
    rewrite edges_at_app_old by (rewrite length_app; simpl; lia).
    now rewrite edges_at_app_old by lia. }
  split; [|exact Hlen].
  unfold thompson_ok, fs_push. cbn [fst snd map accept].
  repeat split; try assumption; try lia.
  - constructor.
    + unfold frag_ok. cbn [start accept]. repeat split; try lia.
      rewrite K6, K5, K4, K3 by lia. exact At2.
    + rewrite Forall_forall in Hfs2 |- *. intros f Hf.
      destruct (Hfs2 f Hf) as (F1 & F2 & F3).
      assert (Ne1 : accept f <> accept f1)
        by (intros E; apply Hn1; rewrite <- E; now apply in_map).
      unfold frag_ok. repeat split; try lia.
      rewrite K6, K5, K4, K3, Hold by lia. exact F3.
  - constructor; [|assumption].
    apply (old_accepts_below nfa); [assumption | lia].
Qed.

Lemma postfix_step_ok (sigma : list ascii) (st st' : list NFAState * list Frag)
  (c : ascii) :
  meta_free sigma ->
  thompson_ok sigma st ->
  postfix_step sigma st c = Ok st' ->
  thompson_ok sigma st'
  /\ Z.of_nat (length (fst st'))
     = Z.of_nat (length (fst st)) + 2 * Z.of_nat (length (state_tokens [c])).
Proof.
  intros Hm Hinv H. destruct st as [nfa fs]. destruct st' as [nfa' fs'].
  unfold postfix_step in H. cbn [fst snd state_tokens filter].
  destruct (is_alphabet_symbol sigma c) eqn:E1.
  { assert (Hdot : Ascii.eqb c "." = false).
    { destruct (Ascii.eqb c ".") eqn:E; [|reflexivity].
      apply Ascii.eqb_eq in E. subst. rewrite Hm in E1 by reflexivity.
      discriminate. }
    rewrite Hdot. cbn [negb length].
    apply is_alphabet_symbol_In in E1.
    destruct (leaf_fragment_ok sigma nfa nfa' fs fs' c (or_intror E1) Hinv H).
    split; [assumption | lia]. }
  destruct (Ascii.eqb c EPS_TOK) eqn:E2.
  { apply Ascii.eqb_eq in E2. subst c.
    change (Ascii.eqb EPS_TOK ".") with false. cbn [negb length].
    destruct (leaf_fragment_ok sigma nfa nfa' fs fs' zero
                (or_introl eq_refl) Hinv H).
    split; [assumption | lia]. }
  destruct (Ascii.eqb c ".") eqn:E3.
  { cbn [negb length].
    destruct (concat_fragment_ok sigma nfa nfa' fs fs' Hinv H).
    split; [assumption | lia]. }
  cbn [negb length].
  destruct (Ascii.eqb c "|" || Ascii.eqb c "+") eqn:E4.
  { destruct (union_fragment_ok sigma nfa nfa' fs fs' Hinv H).
    split; [assumption | lia]. }
  destruct (Ascii.eqb c "*") eqn:E5; [|discriminate].
  destruct (star_fragment_ok sigma nfa nfa' fs fs' Hinv H).
  split; [assumption | lia].
Qed.

Lemma state_tokens_cons (c : ascii) (post : list ascii) :
  length (state_tokens (c :: post))
  = (length (state_tokens [c]) + length (state_tokens post))%nat.
Proof.
  unfold state_tokens. cbn [filter].
  destruct (negb (Ascii.eqb c ".")); reflexivity.
Qed.

Lemma postfix_loop_ok (sigma : list ascii) (post : list ascii) :
  meta_free sigma ->
  forall st st',
    thompson_ok sigma st ->
    foldM (postfix_step sigma) post st = Ok st' ->
    thompson_ok sigma st'
    /\ Z.of_nat (length (fst st'))
       = Z.of_nat (length (fst st)) + 2 * Z.of_nat (length (state_tokens post)).
Proof.
  intros Hm. induction post as [|c post IH]; intros st st' Hinv H; simpl in H.
  - inversion H; subst. split; [assumption|]. simpl. lia.
  - apply bind_Ok in H as (st1 & H1 & H).
    destruct (postfix_step_ok _ _ _ _ Hm Hinv H1) as [Hinv1 L1].
    destruct (IH _ _ Hinv1 H) as [Hinv' L'].
    split; [assumption|]. rewrite state_tokens_cons. lia.
Qed.

(** The automaton [postfix_to_nfa] returns: it has two states for every
    token of the postfix other than the concatenation marker and at most
    4096 in all; its start and accept states are states of it; every edge
    leads to a state of it and carries epsilon or an alphabet symbol; and no
    edge leaves the accept state. *)
Theorem postfix_to_nfa_shape (sigma post : list ascii)
  (nfa : list NFAState) (frag : Frag) :
  meta_free sigma ->
  postfix_to_nfa sigma post = Ok (nfa, frag) ->
  let n := Z.of_nat (length nfa) in
  n = 2 * Z.of_nat (length (state_tokens post))
  /\ n <= MAX_NFA_STATES
  /\ 0 <= start frag < n
  /\ 0 <= accept frag < n
  /\ edges_at nfa (accept frag) = []
  /\ Forall (Forall (edge_ok sigma n)) nfa.
Proof.
  intros Hm H n. unfold postfix_to_nfa in H.
  apply bind_Ok in H as ([nfa0 fs] & Hloop & H).
  destruct (Z.of_nat (length fs) =? 1); [|discriminate]. cbn [negb] in H.
  apply bind_Ok in H as ([res rest] & Hpop & H). inversion H; subst; clear H.
  destruct fs as [|f fs]; [discriminate|]. inversion Hpop; subst; clear Hpop.
  destruct (postfix_loop_ok sigma post Hm ([], []) (nfa, frag :: rest))
    as [(Hok & Hsz & Hfs & _) Hlen]; [|exact Hloop|].
  { unfold thompson_ok. cbn. repeat split; try constructor.
    unfold MAX_NFA_STATES. lia. }
  cbn [fst snd] in *. inversion Hfs as [|x l (F1 & F2 & F3) _]; subst.
  subst n. repeat split; try assumption; try lia.
Qed.

Lemma postfix_to_nfa_shape_witness :
  exists nfa frag,
    postfix_to_nfa (str "ab") (str "ab|*") = Ok (nfa, frag)
    /\ Z.of_nat (length nfa) = 2 * Z.of_nat (length (state_tokens (str "ab|*")))
    /\ edges_at nfa (accept frag) = [].
Proof.
  eexists. eexists. split; [reflexivity|].
  match goal with
  | |- Z.of_nat (length ?n) = _ /\ edges_at _ (accept ?f) = _ =>
      destruct (postfix_to_nfa_shape (str "ab") (str "ab|*") n f)
        as (H1 & _ & _ & _ & H5 & _)
  end.
  - apply accepted_meta_free, accepted_ab.
  - reflexivity.
  - split; [exact H1 | exact H5].
Defined.

End Thompson.

(* ================================================================== *)
(** ** Bitsets *)

Section Bitsets.
Import Regex2MinDfa Spec Props.

Lemma land_1_bit (x : Z) : Z.land x 1 = Z.b2z (Z.testbit x 0).
Proof.
  change 1 with (Z.ones 1) at 1. rewrite Z.land_ones by lia.
  rewrite Z.bit0_mod. reflexivity.
Qed.

(** Reading bit [kj] of a word in which bit [ki] was just set. *)
Lemma word_set_get (w ki kj : Z) :
  0 <= ki -> 0 <= kj ->
  Z.land (Z.shiftr (Z.lor w (Z.shiftl 1 ki)) kj) 1
  = if ki =? kj then 1 else Z.land (Z.shiftr w kj) 1.
Proof.
  intros Hi Hj. rewrite !land_1_bit, !Z.shiftr_spec by lia.
  rewrite Z.lor_spec, Z.shiftl_1_l, Z.pow2_bits_eqb by lia. cbn [Z.add].
  destruct (ki =? kj); [now rewrite orb_true_r | now rewrite orb_false_r].
Qed.

Lemma bit_index_nonneg (i : Z) : 0 <= Z.land i 63.
Proof. apply Z.land_nonneg. right. lia. Qed.

Lemma bit_address_inj (i j : Z) :
  Z.shiftr i 6 = Z.shiftr j 6 -> Z.land i 63 = Z.land j 63 -> i = j.
Proof.
  rewrite !Z.shiftr_div_pow2 by lia.
  change 63 with (Z.ones 6). rewrite !Z.land_ones by lia.
  change (2 ^ 6) with 64. intros H1 H2.
  rewrite (Z.div_mod i 64), (Z.div_mod j 64) by lia. congruence.
Qed.

Lemma bs_set_spec (b b' : Bitset) (i : Z) :
  bs_set b i = Ok b' ->
  0 <= i
  /\ length b' = length b
  /\ bs_get b' i = Ok 1
  /\ (forall j, 0 <= j -> j <> i -> bs_get b' j = bs_get b j).
Proof.
  unfold bs_set. intros H. apply bind_Ok in H as (w & Hw & H).
  pose proof (aset_length _ _ _ _ H) as Hlen.
  pose proof (bit_index_nonneg i) as Hk.
  split; [|split; [exact Hlen|split]].
  - apply aget_Ok in Hw as [Hw _]. apply (Z.shiftr_nonneg i 6). lia.
  - unfold bs_get. rewrite (aget_aset_same _ _ _ _ H). cbn [bind].
    rewrite word_set_get by assumption. now rewrite Z.eqb_refl.
  - intros j Hj Hne. unfold bs_get.
    destruct (Z.eq_dec (Z.shiftr j 6) (Z.shiftr i 6)) as [E|E].
    + rewrite E, (aget_aset_same _ _ _ _ H), Hw. cbn [bind].
      rewrite word_set_get by (assumption || apply bit_index_nonneg).
      destruct (Z.land i 63 =? Z.land j 63) eqn:Ek; [|reflexivity].
      apply Z.eqb_eq in Ek. exfalso. apply Hne.
      now apply bit_address_inj.
    + rewrite (aget_aset_other _ _ _ _ _ H); [reflexivity | | exact E].
      apply Z.shiftr_nonneg. exact Hj.
Qed.

(** A bit that was set reads 1, every other bit reads as before, and the
    width does not change. *)
Theorem bs_set_then_get (b b' : Bitset) (i : Z) :
  bs_set b i = Ok b' ->
  length b' = length b
  /\ bs_get b' i = Ok 1
  /\ (forall j, 0 <= j -> j <> i -> bs_get b' j = bs_get b j).
Proof.
  intros H. exact (proj2 (bs_set_spec b b' i H)).
Qed.

Lemma bs_set_then_get_witness :
  bs_get [5; 0] 70 = Ok 0
  /\ bs_get [5; 64] 70 = Ok 1
  /\ bs_get [5; 64] 2 = bs_get [5; 0] 2.
Proof.
  destruct (bs_set_then_get [5; 0] [5; 64] 70) as (_ & H2 & H3);
    [reflexivity|].
  split; [reflexivity|]. split; [exact H2|].
  apply H3; lia.
Defined.

Lemma bs_new_length (n : Z) :
  0 <= n -> Z.of_nat (length (bs_new n)) = (n + 63) / 64.
Proof.
  intros Hn. unfold bs_new. rewrite repeat_length.
  rewrite Z.quot_div_nonneg by lia.
  rewrite Z2Nat.id; [reflexivity|]. apply Z.div_pos; lia.
Qed.

Lemma bit_word_in_range (n i : Z) :
  0 <= i < n -> 0 <= Z.shiftr i 6 < (n + 63) / 64.
Proof.
  intros Hi. rewrite Z.shiftr_div_pow2 by lia. change (2 ^ 6) with 64.
  split; [apply Z.div_pos; lia|].
  apply Z.div_lt_upper_bound; [lia|].
  pose proof (Z.mul_div_le (n + 63) 64 ltac:(lia)).
  pose proof (Z.mod_pos_bound (n + 63) 64 ltac:(lia)).
  pose proof (Z.div_mod (n + 63) 64 ltac:(lia)). lia.
Qed.

(** A fresh bitset for [n] bits is empty: [bs_empty] holds, each of the
    bits [0 .. n-1] reads 0, and each of them can be set. *)
Theorem bs_new_clear (n i : Z) :
  0 <= i < n ->
  bs_empty (bs_new n) = true
  /\ bs_get (bs_new n) i = Ok 0
  /\ exists b', bs_set (bs_new n) i = Ok b'.
Proof.
  intros Hi. pose proof (bit_word_in_range n i Hi) as Hw.
  assert (Hlen : Z.of_nat (length (bs_new n)) = (n + 63) / 64)
    by (apply bs_new_length; lia).
  assert (Hget : aget (bs_new n) (Z.shiftr i 6) = Ok 0).
  { unfold aget. destruct (Z.shiftr i 6 <? 0) eqn:E;
      [apply Z.ltb_lt in E; lia|].
    unfold bs_new in *. rewrite repeat_length in Hlen.
    rewrite nth_error_repeat by lia. reflexivity. }
  split; [|split].
  - unfold bs_new. induction (Z.to_nat (Z.quot (n + 63) 64)); simpl; auto.
  - unfold bs_get. rewrite Hget. cbn [bind].
    rewrite Z.shiftr_0_l. reflexivity.
  - unfold bs_set. rewrite Hget. cbn [bind]. unfold aset.
    destruct ((0 <=? Z.shiftr i 6)
              && (Z.shiftr i 6 <? Z.of_nat (length (bs_new n)))) eqn:E;
      [eauto|].
    apply andb_false_iff in E as [E|E];
      [apply Z.leb_gt in E | apply Z.ltb_ge in E]; lia.
Qed.

Lemma bs_new_clear_witness :
  bs_empty (bs_new 130) = true
  /\ bs_get (bs_new 130) 129 = Ok 0
  /\ exists b', bs_set (bs_new 130) 129 = Ok b'.
Proof.
  apply (bs_new_clear 130 129). lia.
Defined.

End Bitsets.

(* ================================================================== *)
(** ** The subset construction *)

Section Subset.
Import Regex2MinDfa Spec Props.

Lemma find_dfa_state_from_spec (dfa : list DFAState) (s : Bitset) :
  forall i,
    (find_dfa_state_from dfa i s = -1
     /\ Forall (fun d => bs_eq (set d) s = false) dfa)
    \/ i <= find_dfa_state_from dfa i s < i + Z.of_nat (length dfa).
Proof.
  induction dfa as [|d dfa IH]; intros i; simpl find_dfa_state_from.
  - left. auto.
  - destruct (bs_eq (set d) s) eqn:E.
    + right. simpl length. lia.
    + destruct (IH (i + 1)) as [[H1 H2]|H].
      * left. auto.
      * right. simpl length. lia.
Qed.

Lemma find_dfa_state_spec (dfa : list DFAState) (s : Bitset) :
  (find_dfa_state dfa s < 0
   /\ Forall (fun d => bs_eq (set d) s = false) dfa)
  \/ 0 <= find_dfa_state dfa s < Z.of_nat (length dfa).
Proof.
  unfold find_dfa_state.
  destruct (find_dfa_state_from_spec dfa s 0) as [[H1 H2]|H].
  - left. split; [lia | assumption].
  - right. lia.
Qed.

Lemma bs_get_bit (b : Bitset) (i v : Z) : bs_get b i = Ok v -> v = 0 \/ v = 1.
Proof.
  unfold bs_get. intros H. apply bind_Ok in H as (w & _ & H).
  inversion H; subst. rewrite land_1_bit.
  destruct (Z.testbit _ 0); simpl; auto.
Qed.

Lemma row_ok_grow (k n n' : Z) (d : DFAState) :
  n <= n' -> row_ok k n d -> row_ok k n' d.
Proof.
  intros Hn (H1 & H2 & H3). repeat split; auto.
  eapply Forall_impl; [|exact H2]. intros t [Ht|Ht]; [left | right]; lia.
Qed.

Lemma ForallOrdPairs_snoc {A : Type} (R : A -> A -> Prop) (l : list A) (x : A) :
  ForallOrdPairs R l -> Forall (fun a => R a x) l ->
  ForallOrdPairs R (l ++ [x]).
Proof.
  induction 1 as [|a l Ha Hl IH]; intros Hx; simpl.
  - repeat constructor.
  - inversion Hx; subst. constructor.
    + apply Forall_app. split; [assumption | repeat constructor; assumption].
    + now apply IH.
Qed.

Lemma dfa_add_state_ok (k : Z) (dfa dfa' : list DFAState) (s : Bitset)
  (nfa_accept ex : Z) :
  0 <= k ->
  Forall (row_ok k (Z.of_nat (length dfa))) dfa ->
  sets_distinct dfa ->
  Forall (fun d => bs_eq (set d) s = false) dfa ->
  dfa_add_state k dfa s nfa_accept = Ok (dfa', ex) ->
  ex = Z.of_nat (length dfa)
  /\ Z.of_nat (length dfa') = Z.of_nat (length dfa) + 1
  /\ subset_ok k dfa'.
Proof.
  intros Hk Hrows Hdist Hnew H. unfold dfa_add_state in H.
  destruct (Z.of_nat (length dfa) >=? MAX_DFA_STATES) eqn:E; [discriminate|].
  rewrite Z.geb_leb in E. apply Z.leb_gt in E.
  apply bind_Ok in H as (a & Ha & H). inversion H; subst; clear H.
  apply bs_get_bit in Ha.
  assert (Hlen : Z.of_nat (length (dfa ++ [mkDFAState s a (repeat (-1) (Z.to_nat k))]))
                 = Z.of_nat (length dfa) + 1)
    by (rewrite length_app; simpl; lia).
  split; [reflexivity|]. split; [exact Hlen|].
  unfold subset_ok. rewrite Hlen. split; [lia|]. split.
  - apply Forall_app. split.
    + eapply Forall_impl; [|exact Hrows]. intros d. apply row_ok_grow. lia.
    + constructor; [|constructor]. unfold row_ok. cbn [trans is_accept].
      rewrite repeat_length. repeat split; [lia | | assumption].
      apply repeat_Forall. now left.
  - unfold sets_distinct. rewrite map_app. cbn [map set].
    apply ForallOrdPairs_snoc; [exact Hdist|].
    apply Forall_map. exact Hnew.
Qed.

Lemma list_set_map_same {A B : Type} (f : A -> B) (a : list A) (n : nat)
  (x y : A) :
  nth_error a n = Some y -> f x = f y ->
  map f (list_set a n x) = map f a.
Proof.
  revert n; induction a as [|z a IH]; intros [|n] Hn Hf; simpl in *;
    try discriminate.
  - inversion Hn; subst. now rewrite Hf.
  - f_equal. now apply IH.
Qed.

Lemma aget_nth_error {A : Type} (a : list A) (i : Z) (x : A) :
  aget a i = Ok x -> nth_error a (Z.to_nat i) = Some x.
Proof.
  unfold aget. destruct (i <? 0); [discriminate|].
  destruct (nth_error a (Z.to_nat i)); [|discriminate].
  now intros H; inversion H.
Qed.

Lemma set_trans_ok (k : Z) (dfa dfa' : list DFAState) (id ai v : Z) :
  subset_ok k dfa -> cell_ok (Z.of_nat (length dfa)) v ->
  set_trans dfa id ai v = Ok dfa' ->
  length dfa' = length dfa /\ subset_ok k dfa'.
Proof.
  intros (Hn & Hrows & Hdist) Hv H. unfold set_trans in H.
  apply bind_Ok in H as (d & Hd & H).
  apply bind_Ok in H as (tr & Htr & H).
  pose proof (aset_length _ _ _ _ H) as Hlen.
  pose proof (aset_length _ _ _ _ Htr) as Hlt.
  split; [exact Hlen|]. unfold subset_ok. rewrite Hlen.
  split; [exact Hn|]. split.
  - eapply aset_Forall; [exact H | exact Hrows |].
    pose proof (aget_Ok _ _ _ Hd) as [_ Hin].
    rewrite Forall_forall in Hrows. destruct (Hrows d Hin) as (R1 & R2 & R3).
    unfold row_ok. cbn [trans is_accept]. repeat split; [lia | | assumption].
    eapply aset_Forall; eauto.
  - unfold sets_distinct in *. apply aset_Ok in H as [_ ->].
    rewrite (list_set_map_same set _ _ _ d); [assumption | | reflexivity].
    now apply aget_nth_error.
Qed.

Lemma subset_symbol_ok (sigma : list ascii) (nfa : list NFAState)
  (nfa_accept id ai : Z) (st st' : subset_state) :
  subset_ok (Z.of_nat (length sigma)) (ss_dfa st) ->
  subset_symbol sigma nfa nfa_accept id st ai = Ok st' ->
  subset_ok (Z.of_nat (length sigma)) (ss_dfa st').
Proof.
  intros Hinv H. unfold subset_symbol in H.
  apply bind_Ok in H as (sy & _ & H).
  apply bind_Ok in H as (d & _ & H).
  apply bind_Ok in H as (mv & _ & H).
  destruct (bs_empty mv).
  { apply bind_Ok in H as (dfa & Hset & H). inversion H; subst. cbn [ss_dfa].
    refine (proj2 (set_trans_ok _ _ _ _ _ _ Hinv _ Hset)). now left. }
  apply bind_Ok in H as (cl & _ & H).
  destruct (find_dfa_state_spec (ss_dfa st) cl) as [[Hneg Hnew]|Hfound].
  - destruct (find_dfa_state (ss_dfa st) cl <? 0) eqn:E;
      [|apply Z.ltb_ge in E; lia].
    apply bind_Ok in H as ([dfa ex] & Hadd & H).
    apply bind_Ok in H as (q & _ & H).
    apply bind_Ok in H as (dfa' & Hset & H). inversion H; subst. cbn [ss_dfa].
    destruct Hinv as (Hn & Hrows & Hdist).
    destruct (dfa_add_state_ok (Z.of_nat (length sigma)) _ _ _ _ _
                (Zle_0_nat _) Hrows Hdist Hnew Hadd) as (-> & Hlen & Hinv1).
    refine (proj2 (set_trans_ok _ dfa dfa' id ai _ Hinv1 _ Hset)).
    right. lia.
  - destruct (find_dfa_state (ss_dfa st) cl <? 0) eqn:E;
      [apply Z.ltb_lt in E; lia|].
    apply bind_Ok in H as (dfa & Hset & H). inversion H; subst. cbn [ss_dfa].
    refine (proj2 (set_trans_ok _ _ _ _ _ _ Hinv _ Hset)). now right.
Qed.

Lemma nfa_to_dfa_table_spec (sigma : list ascii) (nfa : list NFAState)
  (nfa_start nfa_accept : Z) (dfa : list DFAState) :
  nfa_to_dfa sigma nfa nfa_start nfa_accept = Ok dfa ->
  let n := Z.of_nat (length dfa) in
  1 <= n <= MAX_DFA_STATES
  /\ Forall (row_ok (Z.of_nat (length sigma)) n) dfa
  /\ sets_distinct dfa.
Proof.
  intros H. unfold nfa_to_dfa in H.
  apply bind_Ok in H as (init & _ & H).
  apply bind_Ok in H as (init_cl & _ & H).
  apply bind_Ok in H as ([dfa0 x] & Hadd & H).
  apply bind_Ok in H as (q & _ & H).
  apply bind_Ok in H as (st & Hloop & H). inversion H; subst; clear H.
  apply (while_fuel_inv
           (fun st => subset_ok (Z.of_nat (length sigma)) (ss_dfa st)))
    in Hloop.
  - apply Hloop.
  - intros s s' Hs _ Hb. unfold subset_body in Hb.
    apply bind_Ok in Hb as (id & _ & Hb). revert Hb.
    apply (foldM_inv
             (fun st => subset_ok (Z.of_nat (length sigma)) (ss_dfa st))).
    + intros s0 a s1 Hs0 _. now apply subset_symbol_ok.
    + exact Hs.
  - cbn [ss_dfa].
    apply (dfa_add_state_ok (Z.of_nat (length sigma)) [] dfa0 init_cl
             nfa_accept x); try constructor. lia.
    exact Hadd.
Qed.

(** The table [nfa_to_dfa] returns: it has between 1 and 4096 states; each
    state has one cell per alphabet symbol, holding -1 or a state of the
    table, and an accepting flag 0 or 1; and no two states stand for the
    same set of NFA states. *)
Theorem nfa_to_dfa_table (sigma : list ascii) (nfa : list NFAState)
  (nfa_start nfa_accept : Z) (dfa : list DFAState) :
  nfa_to_dfa sigma nfa nfa_start nfa_accept = Ok dfa ->
  let n := Z.of_nat (length dfa) in
  1 <= n <= MAX_DFA_STATES
  /\ Forall (row_ok (Z.of_nat (length sigma)) n) dfa
  /\ sets_distinct dfa.
Proof.
  exact (nfa_to_dfa_table_spec sigma nfa nfa_start nfa_accept dfa).
Qed.

Lemma nfa_to_dfa_table_witness :
  exists dfa,
    nfa_to_dfa (str "ab") [[mkEdge 1 "a"]; []] 0 1 = Ok dfa
    /\ 1 <= Z.of_nat (length dfa) <= MAX_DFA_STATES
    /\ sets_distinct dfa.
Proof.
  eexists. split; [vm_compute; reflexivity|].
  match goal with
  | |- _ <= Z.of_nat (length ?d) <= _ /\ _ =>
      destruct (nfa_to_dfa_table (str "ab") [[mkEdge 1 "a"]; []] 0 1 d)
        as (H1 & _ & H3)
  end.
  - vm_compute. reflexivity.
  - split; [exact H1 | exact H3].
Defined.

End Subset.

(* ================================================================== *)
(** ** The partition kept by the minimizer *)

Section Partition.
Import Regex2MinDfa Spec Props.

Lemma cget_cset_same (a a' : cells) (i v : Z) :
  cset a i v = Ok a' -> cget a' i = Ok v.
Proof.
  intros H. unfold cget. now rewrite (aget_aset_same _ _ _ _ H).
Qed.

Lemma cget_cset_other (a a' : cells) (i j v : Z) :
  cset a i v = Ok a' -> j <> i -> cget a' j = cget a j.
Proof.
  intros H Hne. unfold cget.
  destruct (Z.ltb_spec j 0) as [Hj|Hj].
  - unfold aget. apply Z.ltb_lt in Hj. now rewrite Hj.
  - now rewrite (aget_aset_other _ _ _ _ _ H Hj Hne).
Qed.

Lemma assign_class_spec (i : Z) (v : IntVec) :
  forall cls cls',
    assign_class i cls v = Ok cls' ->
    length cls' = length cls
    /\ (forall s, In s v ->
          0 <= s < Z.of_nat (length cls) /\ cget cls' s = Ok i)
    /\ (forall s, ~ In s v -> cget cls' s = cget cls s).
Proof.
  unfold assign_class.
  induction v as [|x v IH]; intros cls cls' H; simpl in H.
  - inversion H; subst. split; [reflexivity|].
    split; intros s Hs; [destruct Hs | reflexivity].
  - apply bind_Ok in H as (cls1 & H1 & H).
    destruct (IH _ _ H) as (L & Hin & Hout).
    pose proof (aset_length _ _ _ _ H1) as L1.
    split; [congruence|]. split.
    + intros s Hs.
      destruct (in_dec Z.eq_dec s v) as [Hv|Hv].
      * destruct (Hin s Hv) as [Hr Hc]. split; [|exact Hc].
        rewrite <- L1. exact Hr.
      * destruct Hs as [->|Hs]; [|contradiction].
        rewrite (Hout s Hv). split.
        -- now apply aset_Ok in H1 as [Hr _].
        -- now apply cget_cset_same with (a := cls).
    + intros s Hs. rewrite Hout by (intros Hv; apply Hs; now right).
      apply cget_cset_other with (i := x) (v := i); [exact H1|].
      intros ->. apply Hs. now left.
Qed.

Lemma count_marked_acc (mark : list Z) (blk : IntVec) :
  forall c0 cnt,
    foldM (fun cnt s => m <- aget mark s ;;
                        Ok (if negb (m =? 0) then cnt + 1 else cnt)) blk c0
    = Ok cnt ->
    cnt = c0 + Z.of_nat (length (filter (marked mark) blk)).
Proof.
  induction blk as [|s blk IH]; intros c0 cnt H; simpl in H.
  - inversion H; subst. simpl. lia.
  - apply bind_Ok in H as (c1 & H1 & H).
    apply bind_Ok in H1 as (m & Hm & H1). inversion H1; subst; clear H1.
    apply (aget_nth _ _ _ 0) in Hm.
    apply IH in H. cbn [filter]. unfold marked at 1. rewrite Hm.
    destruct (negb (m =? 0)); cbn [length]; lia.
Qed.

Lemma count_marked_spec (mark : list Z) (blk : IntVec) (cnt : Z) :
  count_marked mark blk = Ok cnt ->
  cnt = Z.of_nat (length (filter (marked mark) blk)).
Proof.
  intros H. apply count_marked_acc in H. lia.
Qed.

Lemma filter_split_length {A : Type} (f : A -> bool) (l : list A) :
  (length (filter f l) + length (filter (fun x => negb (f x)) l)
   = length l)%nat.
Proof.
  induction l as [|x l IH]; simpl; [reflexivity|].
  destruct (f x); simpl; lia.
Qed.

Lemma aget_inj {A : Type} (a : list A) (i : Z) (x y : A) :
  aget a i = Ok x -> aget a i = Ok y -> x = y.
Proof. congruence. Qed.

Lemma split_block_partition (N : Z) (A : list Z) (mark : list Z)
  (st st' : hopcroft_state) (yi : Z) (blk : IntVec) :
  partition_ok N A st ->
  0 <= yi < hp_Pn st ->
  aget (hp_P st) yi = Ok blk ->
  filter (marked mark) blk <> [] ->
  filter (fun s => negb (marked mark s)) blk <> [] ->
  split_block mark st yi = Ok st' ->
  partition_ok N A st'.
Proof.
  intros (Hn & Hcov & Hblk & Hacc) Hyi Hget Hne1 Hne2 H.
  unfold split_block in H.
  apply bind_Ok in H as (blk0 & HY & H).
  assert (blk0 = blk) by (eapply aget_inj; eauto). subst blk0.
  apply bind_Ok in H as ([Y1 Y2] & Hsplit & H).
  apply bind_Ok in H as (P1 & HP1 & H).
  apply bind_Ok in H as (P2 & HP2 & H).
  apply bind_Ok in H as (Pyi & HPyi & H).
  apply bind_Ok in H as (cls1 & Hcls1 & H).
  apply bind_Ok in H as (Pnew & HPnew & H).
  apply bind_Ok in H as (cls2 & Hcls2 & H).
  unfold split_members in Hsplit.
  apply split_members_filter in Hsplit as [EY1 EY2]. simpl in EY1, EY2.
  rewrite (aget_aset_same _ _ _ _ HP2) in HPnew.
  inversion HPnew; subst Pnew; clear HPnew.
  rewrite (aget_aset_other _ _ _ _ _ HP2) in HPyi by lia.
  rewrite (aget_aset_same _ _ _ _ HP1) in HPyi.
  inversion HPyi; subst Pyi; clear HPyi.
  destruct (assign_class_spec _ _ _ _ Hcls1) as (L1 & In1 & Out1).
  destruct (assign_class_spec _ _ _ _ Hcls2) as (L2 & In2 & Out2).
  assert (HY1 : forall s, In s Y1 <-> In s blk /\ marked mark s = true)
    by (intros s; rewrite EY1; apply filter_In).
  assert (HY2 : forall s, In s Y2 <-> In s blk /\ marked mark s = false).
  { intros s. rewrite EY2, filter_In. now rewrite negb_true_iff. }
  assert (Hdisj : forall s, In s Y1 -> ~ In s Y2).
  { intros s H1 H2. apply HY1 in H1. apply HY2 in H2.
    destruct H1, H2. congruence. }
  assert (HP2len : length P2 = length (hp_P st)).
  { rewrite (aset_length _ _ _ _ HP2). apply (aset_length _ _ _ _ HP1). }
  pose proof (aset_Ok _ _ _ _ HP2) as [Hnew _].
  rewrite (aset_length _ _ _ _ HP1) in Hnew.
  assert (Hold : forall i, 0 <= i < hp_Pn st -> i <> yi ->
                           aget P2 i = aget (hp_P st) i).
  { intros i Hi Hne.
    rewrite (aget_aset_other _ _ _ _ _ HP2) by lia.
    apply (aget_aset_other _ _ _ _ _ HP1); lia. }
  assert (HgY1 : aget P2 yi = Ok Y1).
  { rewrite (aget_aset_other _ _ _ _ _ HP2) by lia.
    apply (aget_aset_same _ _ _ _ HP1). }
  assert (HgY2 : aget P2 (hp_Pn st) = Ok Y2)
    by apply (aget_aset_same _ _ _ _ HP2).
  assert (Hcls_out : forall s, ~ In s blk -> cget cls2 s = cget (hp_cls st) s).
  { intros s Hs. rewrite Out2, Out1; [reflexivity | |];
      intros Hc; [apply HY1 in Hc | apply HY2 in Hc]; tauto. }
  assert (Hcls_Y1 : forall s, In s Y1 -> cget cls2 s = Ok yi).
  { intros s Hs. rewrite Out2 by now apply Hdisj. now apply In1. }
  assert (Hcls_Y2 : forall s, In s Y2 -> cget cls2 s = Ok (hp_Pn st))
    by (intros s Hs; now apply In2).
  assert (Hgoal : forall W,
             partition_ok N A (mkHopcroft P2 (hp_Pn st + 1) cls2 W)).
  { intros W. unfold partition_ok. cbn [hp_P hp_Pn hp_cls].
    split; [rewrite HP2len, L2, L1; lia|]. split; [|split].
    - intros s Hs. destruct (Hcov s Hs) as (c & b & Hc & Hcr & Hb & Hin).
      destruct (Z.eq_dec c yi) as [->|Hne].
      + assert (b = blk) by (eapply aget_inj; eauto). subst b.
        destruct (marked mark s) eqn:Hm.
        * exists yi, Y1. assert (In s Y1) by (apply HY1; auto).
          repeat split; auto; lia.
        * exists (hp_Pn st), Y2. assert (In s Y2) by (apply HY2; auto).
          repeat split; auto; lia.
      + exists c, b.
        assert (Hnot : ~ In s blk).
        { intros Hin'. destruct (Hblk yi blk Hyi Hget) as [_ Hm].
          destruct (Hm s Hin') as [_ Hc']. congruence. }
        rewrite (Hcls_out s Hnot), (Hold c Hcr Hne).
        repeat split; auto; lia.
    - intros i b Hi Hb.
      destruct (Z.eq_dec i (hp_Pn st)) as [->|Hnw].
      + rewrite HgY2 in Hb. inversion Hb; subst b; clear Hb.
        split; [rewrite EY2; exact Hne2|].
        intros s Hs. split; [|now apply Hcls_Y2].
        apply HY2 in Hs as [Hs _].
        now destruct (Hblk yi blk Hyi Hget) as [_ Hm]; destruct (Hm s Hs).
      + destruct (Z.eq_dec i yi) as [->|Hne].
        * rewrite HgY1 in Hb. inversion Hb; subst b; clear Hb.
          split; [rewrite EY1; exact Hne1|].
          intros s Hs. split; [|now apply Hcls_Y1].
          apply HY1 in Hs as [Hs _].
          now destruct (Hblk yi blk Hyi Hget) as [_ Hm]; destruct (Hm s Hs).
        * rewrite (Hold i) in Hb by lia.
          destruct (Hblk i b ltac:(lia) Hb) as [Hnonempty Hm].
          split; [exact Hnonempty|].
          intros s Hs. destruct (Hm s Hs) as [Hr Hc]. split; [exact Hr|].
          rewrite Hcls_out; [exact Hc|].
          intros Hin'. destruct (Hblk yi blk Hyi Hget) as [_ Hm'].
          destruct (Hm' s Hin') as [_ Hc']. congruence.
    - intros i b s t Hi Hb Hs Ht.
      destruct (Z.eq_dec i (hp_Pn st)) as [->|Hnw].
      + rewrite HgY2 in Hb. inversion Hb; subst b; clear Hb.
        apply HY2 in Hs as [Hs _]. apply HY2 in Ht as [Ht _].
        exact (Hacc yi blk s t Hyi Hget Hs Ht).
      + destruct (Z.eq_dec i yi) as [->|Hne].
        * rewrite HgY1 in Hb. inversion Hb; subst b; clear Hb.
          apply HY1 in Hs as [Hs _]. apply HY1 in Ht as [Ht _].
          exact (Hacc yi blk s t Hyi Hget Hs Ht).
        * rewrite (Hold i) in Hb by lia.
          exact (Hacc i b s t ltac:(lia) Hb Hs Ht). }
  destruct (find_in_W (hp_W st) 0 yi >=? 0).
  - apply bind_Ok in H as (W1 & _ & H). inversion H; subst. apply Hgoal.
  - destruct (Z.of_nat (length Y1) <=? Z.of_nat (length Y2));
      inversion H; subst; apply Hgoal.
Qed.

Lemma refine_block_partition (N : Z) (A : list Z) (mark : list Z)
  (sy sy' : hopcroft_state * Z) :
  partition_ok N A (fst sy) ->
  (snd sy <? hp_Pn (fst sy)) = true ->
  refine_block mark sy = Ok sy' ->
  partition_ok N A (fst sy').
Proof.
  destruct sy as [st yi]. simpl. intros Hinv Hlt H.
  apply Z.ltb_lt in Hlt.
  apply bind_Ok in H as (blk & Hblk & H).
  apply bind_Ok in H as (cnt & Hcnt & H).
  apply count_marked_spec in Hcnt.
  pose proof (aget_Ok _ _ _ Hblk) as [Hyi _].
  destruct ((cnt =? 0) || (cnt =? Z.of_nat (length blk))) eqn:E.
  - inversion H; subst. assumption.
  - apply bind_Ok in H as (st1 & Hsplit & H). inversion H; subst. simpl.
    apply orb_false_iff in E as [E1 E2].
    apply Z.eqb_neq in E1. apply Z.eqb_neq in E2.
    pose proof (filter_split_length (marked mark) blk) as Hlen.
    apply (split_block_partition N A mark st st1 yi blk Hinv);
      [lia | exact Hblk | | | exact Hsplit].
    + intros E. rewrite E in E1. simpl in E1. lia.
    + intros E. rewrite E in Hlen. simpl in Hlen. lia.
Qed.

Lemma refine_symbol_partition (N : Z) (A : list Z) (inv : list IntVec)
  (Ablock a : Z) (st st' : hopcroft_state) :
  partition_ok N A st ->
  refine_symbol N inv Ablock st a = Ok st' ->
  partition_ok N A st'.
Proof.
  intros Hinv H. unfold refine_symbol in H.
  apply bind_Ok in H as (blk & _ & H).
  apply bind_Ok in H as (mark & _ & H).
  apply bind_Ok in H as ([st1 y1] & Hloop & H). inversion H; subst.
  apply (while_fuel_inv (fun sy => partition_ok N A (fst sy))) in Hloop.
  - apply Hloop.
  - intros s s' Hs Hc Hb. eapply refine_block_partition; eauto.
  - exact Hinv.
Qed.

Lemma hopcroft_body_partition (N k : Z) (A : list Z) (inv : list IntVec)
  (st st' : hopcroft_state) :
  partition_ok N A st ->
  hopcroft_body N k inv st = Ok st' ->
  partition_ok N A st'.
Proof.
  intros Hinv H. unfold hopcroft_body in H.
  revert H. apply foldM_inv with (I := partition_ok N A).
  - intros s a s' Hs _. now apply refine_symbol_partition.
  - exact Hinv.
Qed.

Lemma complete_A_length (dfa : list DFAState) (need_dead : Z) :
  Z.of_nat (length (complete_A dfa need_dead))
  = Z.of_nat (length dfa) + (if negb (need_dead =? 0) then 1 else 0).
Proof.
  unfold complete_A. rewrite length_app, length_map.
  destruct (negb (need_dead =? 0)); simpl; lia.
Qed.

Lemma filter_witness (f : Z -> bool) (A : list Z) :
  filter f A <> [] ->
  exists s, 0 <= s < Z.of_nat (length A) /\ f (nth (Z.to_nat s) A 0) = true.
Proof.
  intros H. destruct (filter f A) as [|x l] eqn:E; [congruence|].
  assert (Hx : In x (filter f A)) by (rewrite E; now left).
  apply filter_In in Hx as [Hin Hf].
  destruct (In_nth _ _ 0 Hin) as (j & Hj & Hnth).
  exists (Z.of_nat j). rewrite Nat2Z.id, Hnth. split; [lia | exact Hf].
Qed.

Lemma filter_none {A : Type} (f : A -> bool) (l : list A) :
  length (filter f l) = O -> forall x, In x l -> f x = false.
Proof.
  intros H x Hx. destruct (f x) eqn:E; [|reflexivity].
  assert (Hin : In x (filter f l)) by (apply filter_In; auto).
  destruct (filter f l); [destruct Hin | discriminate].
Qed.

Lemma cget_repeat (v : Z) (n : nat) (s c : Z) :
  cget (repeat (Some v) n) s = Ok c -> c = v /\ 0 <= s < Z.of_nat n.
Proof.
  intros H. unfold cget in H. apply bind_Ok in H as (x & Hx & H).
  apply aget_Ok in Hx as [Hr Hin]. rewrite repeat_length in Hr.
  apply repeat_spec in Hin. subst x. inversion H; subst. auto.
Qed.

Lemma cget_repeat_Ok (v : Z) (n : nat) (s : Z) :
  0 <= s < Z.of_nat n -> cget (repeat (Some v) n) s = Ok v.
Proof.
  intros Hs. unfold cget, aget.
  destruct (Z.ltb_spec s 0); [lia|].
  destruct (nth_error (repeat (Some v) n) (Z.to_nat s)) eqn:E.
  - apply nth_error_In, repeat_spec in E. now subst.
  - apply nth_error_None in E. rewrite repeat_length in E. lia.
Qed.

Lemma initial_partition (A : list Z) (P1 P2 : list IntVec)
  (cls1 cls2 : cells) (W : IntVec) :
  let N := Z.of_nat (length A) in
  let F := filter (fun s => negb (nth (Z.to_nat s) A 0 =? 0)) (zrange N) in
  let NF := filter (fun s => nth (Z.to_nat s) A 0 =? 0) (zrange N) in
  1 <= N ->
  Z.of_nat (length (filter (fun x => negb (x =? 0)) A)) <> 0 ->
  Z.of_nat (length (filter (fun x => x =? 0) A)) <> 0 ->
  aset (repeat [] (Z.to_nat N)) 0 F = Ok P1 ->
  aset P1 1 NF = Ok P2 ->
  assign_class 0 (xmalloc_ints N) F = Ok cls1 ->
  assign_class 1 cls1 NF = Ok cls2 ->
  partition_ok N A (mkHopcroft P2 2 cls2 W)
  /\ forall s, 0 <= s < N ->
       cget cls2 s = Ok (if accepting A s then 0 else 1).
Proof.
  intros N F NF HN1 EF ENF HP1 HP2 Hcls1 Hcls2.
  assert (HF : forall s, In s F <-> 0 <= s < N /\ accepting A s = true)
    by (intros s; unfold F; rewrite filter_In, zrange_In; reflexivity).
  assert (HNF : forall s, In s NF <-> 0 <= s < N /\ accepting A s = false).
  { intros s. unfold NF, accepting.
    rewrite filter_In, zrange_In, negb_false_iff. reflexivity. }
  destruct (assign_class_spec _ _ _ _ Hcls1) as (L1 & In1 & Out1).
  destruct (assign_class_spec _ _ _ _ Hcls2) as (L2 & In2 & Out2).
  pose proof (aset_Ok _ _ _ _ HP2) as [Hlen2 _].
  assert (Hg0 : aget P2 0 = Ok F).
  { rewrite (aget_aset_other _ _ _ _ _ HP2) by lia.
    apply (aget_aset_same _ _ _ _ HP1). }
  assert (Hg1 : aget P2 1 = Ok NF) by apply (aget_aset_same _ _ _ _ HP2).
  split.
  { unfold partition_ok. cbn [hp_P hp_Pn hp_cls].
    split.
    { pose proof (aset_length _ _ _ _ HP2) as LP2.
      pose proof (aset_length _ _ _ _ HP1) as LP1.
      rewrite repeat_length in LP1.
      unfold xmalloc_ints in L1. rewrite repeat_length in L1.
      assert (H2 : 2 <= N).
      { destruct Hlen2 as [_ Hl].
        assert (Hl' : 1 < Z.of_nat (Z.to_nat N))
          by exact (eq_ind _ (fun n => 1 < Z.of_nat n) Hl _ LP1).
        lia. }
      split; [lia|]. split.
      - etransitivity;
          [exact (f_equal Z.of_nat (eq_trans LP2 LP1)) | lia].
      - etransitivity;
          [exact (f_equal Z.of_nat (eq_trans L2 L1)) | lia]. }
    split; [|split].
    - intros s Hs. destruct (accepting A s) eqn:Ea.
      + exists 0, F. assert (HsF : In s F) by (apply HF; auto).
        repeat split; auto; try lia.
        rewrite Out2; [now apply In1|].
        intros Hc. apply HNF in Hc as [_ Hc]. congruence.
      + exists 1, NF. assert (HsF : In s NF) by (apply HNF; auto).
        repeat split; auto; try lia. now apply In2.
    - intros i b Hi Hb. assert (Hi' : i = 0 \/ i = 1) by lia.
      destruct Hi' as [-> | ->].
      + assert (Eb : b = F) by exact (aget_inj _ _ _ _ Hb Hg0). subst b. split.
        * destruct (filter_witness (fun x => negb (x =? 0)) A) as (s & Hs & Hf).
          { intros Ef. rewrite Ef in EF. simpl in EF. lia. }
          intros Ef. assert (Hin : In s F) by (apply HF; auto).
          rewrite Ef in Hin. destruct Hin.
        * intros s Hs. pose proof Hs as Hs'. apply HF in Hs' as [Hr Ha].
          split; [exact Hr|].
          rewrite Out2; [now apply In1|].
          intros Hc. apply HNF in Hc as [_ Hc]. congruence.
      + assert (Eb : b = NF) by exact (aget_inj _ _ _ _ Hb Hg1). subst b. split.
        * destruct (filter_witness (fun x => x =? 0) A) as (s & Hs & Hf).
          { intros Ef. rewrite Ef in ENF. simpl in ENF. lia. }
          intros Ef. assert (Hin : In s NF).
          { apply HNF. split; [exact Hs|]. unfold accepting. now rewrite Hf. }
          rewrite Ef in Hin. destruct Hin.
        * intros s Hs. pose proof Hs as Hs'. apply HNF in Hs' as [Hr Ha].
          split; [exact Hr | now apply In2].
    - intros i b s t Hi Hb Hs Ht. assert (Hi' : i = 0 \/ i = 1) by lia.
      destruct Hi' as [-> | ->].
      + assert (Eb : b = F) by exact (aget_inj _ _ _ _ Hb Hg0). subst b.
        apply HF in Hs as [_ Hs]. apply HF in Ht as [_ Ht]. congruence.
      + assert (Eb : b = NF) by exact (aget_inj _ _ _ _ Hb Hg1). subst b.
        apply HNF in Hs as [_ Hs]. apply HNF in Ht as [_ Ht]. congruence. }
  intros s Hs. destruct (accepting A s) eqn:Ea.
  - rewrite Out2; [apply In1; apply HF; auto|].
    intros Hc. apply HNF in Hc as [_ Hc]. congruence.
  - apply In2. apply HNF; auto.
Qed.

Lemma dfa_minimize_partition_spec (k : Z) (dfa : list DFAState) (m : minimized) :
  dfa <> [] ->
  dfa_minimize k dfa = Ok m ->
  let A := complete_A dfa (need_dead_of dfa) in
  let N := Z.of_nat (length A) in
  1 <= m_min_n m <= N
  /\ (forall s, 0 <= s < N ->
        exists c, cget (m_cls m) s = Ok c /\ 0 <= c < m_min_n m)
  /\ (forall c, 0 <= c < m_min_n m ->
        exists s, 0 <= s < N /\ cget (m_cls m) s = Ok c)
  /\ (forall s t c, cget (m_cls m) s = Ok c -> cget (m_cls m) t = Ok c ->
        accepting A s = accepting A t).
Proof.
  intros Hdfa H A N.
  assert (HN : N = Z.of_nat (length dfa)
                   + (if negb (need_dead_of dfa =? 0) then 1 else 0))
    by apply complete_A_length.
  assert (HN1 : 1 <= N).
  { rewrite HN. destruct dfa; [congruence|].
    destruct (negb (need_dead_of (d :: dfa) =? 0)); simpl length; lia. }
  unfold dfa_minimize in H. fold A in H. rewrite <- HN in H.
  match type of H with
  | (if ?b then _ else _) = _ => destruct b eqn:E
  end.
  - inversion H; subst m; clear H. cbn [m_cls m_min_n].
    split; [lia|]. split; [|split].
    + intros s Hs. exists 0. split; [apply cget_repeat_Ok; lia | lia].
    + intros c Hc. exists 0. split; [lia|].
      replace c with 0 by lia. apply cget_repeat_Ok; lia.
    + intros s t c Hs Ht.
      apply cget_repeat in Hs as [_ Hs]. apply cget_repeat in Ht as [_ Ht].
      assert (Hnth : forall u, 0 <= u < N -> In (nth (Z.to_nat u) A 0) A)
        by (intros u Hu; apply nth_In; unfold N in Hu; lia).
      unfold accepting. apply orb_true_iff in E as [E|E];
        apply Z.eqb_eq in E;
        assert (E' := filter_none _ _ ltac:(apply Nat2Z.inj; exact E)).
      * rewrite (E' _ (Hnth s ltac:(lia))), (E' _ (Hnth t ltac:(lia))).
        reflexivity.
      * rewrite (E' _ (Hnth s ltac:(lia))), (E' _ (Hnth t ltac:(lia))).
        reflexivity.
  - apply orb_false_iff in E as [EF ENF].
    apply Z.eqb_neq in EF. apply Z.eqb_neq in ENF.
    apply bind_Ok in H as (P1 & HP1 & H).
    apply bind_Ok in H as (P2 & HP2 & H).
    apply bind_Ok in H as (P0 & HP0 & H).
    apply bind_Ok in H as (P1' & HP1' & H).
    apply bind_Ok in H as (cls1 & Hcls1 & H).
    apply bind_Ok in H as (cls2 & Hcls2 & H).
    apply bind_Ok in H as (inv & _ & H).
    apply bind_Ok in H as (st & Hloop & H).
    inversion H; subst m; clear H. cbn [m_cls m_min_n].
    rewrite (aget_aset_other _ _ _ _ _ HP2) in HP0 by lia.
    rewrite (aget_aset_same _ _ _ _ HP1) in HP0.
    inversion HP0; subst P0; clear HP0.
    rewrite (aget_aset_same _ _ _ _ HP2) in HP1'.
    inversion HP1'; subst P1'; clear HP1'.
    pose proof (initial_partition A P1 P2 cls1 cls2
                  (if Z.of_nat (length
                        (filter (fun s => negb (nth (Z.to_nat s) A 0 =? 0))
                           (zrange N)))
                      <=? Z.of_nat (length
                        (filter (fun s => nth (Z.to_nat s) A 0 =? 0)
                           (zrange N)))
                   then [0] else [1])
                  HN1 EF ENF HP1 HP2 Hcls1 Hcls2) as [Hinit _].
    apply (while_fuel_inv (partition_ok N A)) in Hloop;
      [| intros s s' Hs _; now apply hopcroft_body_partition | exact Hinit].
    destruct Hloop as [((Hn & HlenP & Hlenc) & Hcov & Hblk & Hacc) _].
    split; [|split; [|split]].
    + lia.
    + intros s Hs. destruct (Hcov s Hs) as (c & b & Hc & Hcr & _).
      exists c. auto.
    + intros c Hc.
      destruct (aget (hp_P st) c) as [b|e] eqn:Eb.
      * destruct (Hblk c b Hc Eb) as [Hne Hm].
        destruct b as [|s b]; [congruence|].
        exists s. apply Hm. now left.
      * exfalso. unfold aget in Eb.
        destruct (Z.ltb_spec c 0); [lia|].
        destruct (nth_error (hp_P st) (Z.to_nat c)) eqn:En; [discriminate|].
        apply nth_error_None in En. lia.
    + intros s t c Hs Ht.
      assert (Hr : forall u, cget (hp_cls st) u = Ok c ->
                         0 <= c < hp_Pn st
                         /\ exists b, aget (hp_P st) c = Ok b /\ In u b).
      { intros u Hu. assert (Hur : 0 <= u < N).
        { pose proof Hu as Hu'. unfold cget in Hu'.
          apply bind_Ok in Hu' as (x & Hx & _).
          apply aget_Ok in Hx as [Hx _]. lia. }
        destruct (Hcov u Hur) as (c' & b & Hc' & Hcr & Hb & Hin).
        assert (c' = c) by congruence. subst c'. eauto. }
      destruct (Hr s Hs) as (Hc & b & Hb & Hsb).
      destruct (Hr t Ht) as (_ & b' & Hb' & Htb).
      assert (b' = b) by congruence. subst b'.
      exact (Hacc c b s t Hc Hb Hsb Htb).
Qed.

(** What [dfa_minimize] returns for an automaton with at least one state,
    over the [N] states of the completed automaton: between 1 and [N]
    classes; every state has a class below [min_n]; every class below
    [min_n] has a member; and two states of the same class are both
    accepting or both non-accepting. *)
Theorem dfa_minimize_partition (k : Z) (dfa : list DFAState) (m : minimized) :
  dfa <> [] ->
  dfa_minimize k dfa = Ok m ->
  let A := complete_A dfa (need_dead_of dfa) in
  let N := Z.of_nat (length A) in
  1 <= m_min_n m <= N
  /\ (forall s, 0 <= s < N ->
        exists c, cget (m_cls m) s = Ok c /\ 0 <= c < m_min_n m)
  /\ (forall c, 0 <= c < m_min_n m ->
        exists s, 0 <= s < N /\ cget (m_cls m) s = Ok c)
  /\ (forall s t c, cget (m_cls m) s = Ok c -> cget (m_cls m) t = Ok c ->
        accepting A s = accepting A t).
Proof.
  exact (dfa_minimize_partition_spec k dfa m).
Qed.

Lemma dfa_minimize_partition_witness :
  exists m,
    dfa_minimize 1 [mkDFAState [1] 0 [1]; mkDFAState [2] 1 [-1]] = Ok m
    /\ 1 <= m_min_n m <= 3
    /\ (forall c, 0 <= c < m_min_n m ->
          exists s, 0 <= s < 3 /\ cget (m_cls m) s = Ok c).
Proof.
  eexists. split; [vm_compute; reflexivity|].
  match goal with
  | |- _ <= m_min_n ?m <= _ /\ _ =>
      destruct (dfa_minimize_partition 1
                  [mkDFAState [1] 0 [1]; mkDFAState [2] 1 [-1]] m)
        as (H1 & _ & H3 & _)
  end.
  - discriminate.
  - vm_compute. reflexivity.
  - split; [exact H1 | exact H3].
Defined.

End Partition.

(* ================================================================== *)
(** ** The contents of the emitted file *)

Section EmittedFile.
Import Regex2MinDfa Spec Props.

Lemma foldM_zrange_from_inv {St : Type} (I : Z -> St -> Prop)
  (f : St -> Z -> result St) :
  forall (n : nat) (lo : Z) (s s' : St),
    (forall j s s', lo <= j < lo + Z.of_nat n -> I j s -> f s j = Ok s' ->
                    I (j + 1) s') ->
    I lo s -> foldM f (zrange_from n lo) s = Ok s' ->
    I (lo + Z.of_nat n) s'.
Proof.
  induction n as [|n IH]; intros lo s s' Hstep Hs H; simpl in H.
  - inversion H; subst. now replace (lo + Z.of_nat 0) with lo by lia.
  - apply bind_Ok in H as (s1 & H1 & H).
    replace (lo + Z.of_nat (S n)) with (lo + 1 + Z.of_nat n) by lia.
    apply (IH (lo + 1) s1 s'); [| |exact H].
    + intros j t t' Hj. apply Hstep. lia.
    + apply (Hstep lo s s1); [lia | exact Hs | exact H1].
Qed.

Lemma foldM_zrange_inv {St : Type} (I : Z -> St -> Prop)
  (f : St -> Z -> result St) (n : Z) (s s' : St) :
  0 <= n ->
  (forall j s s', 0 <= j < n -> I j s -> f s j = Ok s' -> I (j + 1) s') ->
  I 0 s -> foldM f (zrange n) s = Ok s' -> I n s'.
Proof.
  intros Hn Hstep Hs H. unfold zrange in H.
  apply (foldM_zrange_from_inv I f) in H; [| |exact Hs].
  - now replace (0 + Z.of_nat (Z.to_nat n)) with n in H by lia.
  - intros j t t' Hj. apply Hstep. lia.
Qed.

Lemma nth_aset_same {A : Type} (a a' : list A) (i : Z) (x d : A) :
  aset a i x = Ok a' -> nth (Z.to_nat i) a' d = x.
Proof.
  intros H. apply aset_Ok in H as [Hi ->]. apply nth_list_set_same. lia.
Qed.

Lemma nth_aset_other {A : Type} (a a' : list A) (i j : Z) (x d : A) :
  aset a i x = Ok a' -> 0 <= j -> j <> i ->
  nth (Z.to_nat j) a' d = nth (Z.to_nat j) a d.
Proof.
  intros H Hj Hne. apply aset_Ok in H as [Hi ->].
  apply nth_list_set_other. lia.
Qed.

(** *** [rep]: the first state of each class *)

Lemma build_rep_first (N min_n : Z) (cls : cells) (rep : list Z) :
  0 <= N ->
  build_rep N min_n cls = Ok rep ->
  forall c, 0 <= c < min_n ->
    (nth (Z.to_nat c) rep (-1) = -1
     /\ forall s, 0 <= s < N -> cget cls s <> Ok c)
    \/ (nth (Z.to_nat c) rep (-1) < N
        /\ first_of_class cls c (nth (Z.to_nat c) rep (-1))).
Proof.
  intros HN H. unfold build_rep in H. revert H.
  apply (foldM_zrange_inv
           (fun j rep =>
              forall c, 0 <= c < min_n ->
                (nth (Z.to_nat c) rep (-1) = -1
                 /\ forall s, 0 <= s < j -> cget cls s <> Ok c)
                \/ (nth (Z.to_nat c) rep (-1) < j
                    /\ first_of_class cls c (nth (Z.to_nat c) rep (-1)))));
    [exact HN | |].
  - clear rep. intros j rep rep' Hj Hinv H.
    apply bind_Ok in H as (c0 & Hc0 & H).
    apply bind_Ok in H as (r0 & Hr0 & H).
    pose proof (aget_Ok _ _ _ Hr0) as [Hc0r _].
    apply (aget_nth _ _ _ (-1)) in Hr0.
    assert (Hother : forall c, c <> c0 ->
              (forall s, 0 <= s < j -> cget cls s <> Ok c) ->
              forall s, 0 <= s < j + 1 -> cget cls s <> Ok c).
    { intros c Hne Hold s Hs. destruct (Z.eq_dec s j) as [->|Hsj].
      - rewrite Hc0. congruence.
      - apply Hold. lia. }
    intros c Hc. destruct (r0 =? -1) eqn:E.
    + apply Z.eqb_eq in E. subst r0.
      destruct (Z.eq_dec c c0) as [->|Hne].
      * right. rewrite (nth_aset_same _ _ _ _ _ H). split; [lia|].
        repeat split; [lia | exact Hc0 |].
        destruct (Hinv c0 Hc) as [[_ Hno]|[_ (Hr & _)]]; [|lia].
        intros s Hs. apply Hno. lia.
      * rewrite (nth_aset_other _ _ _ _ _ _ H) by lia.
        destruct (Hinv c Hc) as [[Hm Hno]|[Hlt Hf]].
        -- left. split; [exact Hm|]. now apply Hother.
        -- right. split; [lia | exact Hf].
    + apply Z.eqb_neq in E. inversion H; subst rep'; clear H.
      destruct (Hinv c Hc) as [[Hm Hno]|[Hlt Hf]].
      * left. split; [exact Hm|]. apply Hother; [|exact Hno].
        intros ->. congruence.
      * right. split; [lia | exact Hf].
  - intros c Hc. left. split.
    + destruct (nth_in_or_default (Z.to_nat c) (repeat (-1) (Z.to_nat min_n))
                  (-1)) as [Hin|Hd]; [|exact Hd].
      now apply repeat_spec in Hin.
    + intros s Hs. lia.
Qed.

(** *** The rows *)

Lemma write_row_cells (k : Z) (T : list Z) (cls : cells) (r : Z)
  (row : list Z) :
  write_row k T cls r = Ok row ->
  Z.of_nat (length row) = Z.max k 0
  /\ forall a, 0 <= a < k ->
       exists t, aget T (r * k + a) = Ok t
                 /\ cget cls t = Ok (nth (Z.to_nat a) row 0).
Proof.
  intros H. unfold write_row in H.
  destruct (Z.le_gt_cases 0 k) as [Hk|Hk].
  - apply (foldM_zrange_inv
             (fun j row =>
                Z.of_nat (length row) = j
                /\ forall a, 0 <= a < j ->
                     exists t, aget T (r * k + a) = Ok t
                               /\ cget cls t = Ok (nth (Z.to_nat a) row 0)))
      in H; [| exact Hk | |].
    + destruct H as [L Hc]. split; [lia | exact Hc].
    + clear H row. intros j row row' Hj [L Hinv] H.
      apply bind_Ok in H as (t & Ht & H).
      apply bind_Ok in H as (tc & Htc & H).
      inversion H; subst row'; clear H.
      split; [rewrite length_app; simpl; lia|].
      intros a Ha. destruct (Z.eq_dec a j) as [->|Hne].
      * exists t. split; [exact Ht|].
        rewrite app_nth2 by lia.
        replace (Z.to_nat j - length row)%nat with O by lia. exact Htc.
      * destruct (Hinv a ltac:(lia)) as (t' & Ht' & Htc').
        exists t'. split; [exact Ht'|].
        rewrite app_nth1 by lia. exact Htc'.
    + split; [reflexivity | intros a Ha; lia].
  - unfold zrange in H. replace (Z.to_nat k) with O in H by lia.
    simpl in H. inversion H; subst. split; [simpl; lia | intros a Ha; lia].
Qed.

Lemma write_rows_cells (k min_n : Z) (T : list Z) (cls : cells)
  (rep : list Z) (rows : list (list Z)) :
  write_rows k min_n T cls rep = Ok rows ->
  forall c row, aget rows c = Ok row ->
    c < min_n
    /\ exists r, aget rep c = Ok r /\ write_row k T cls r = Ok row.
Proof.
  intros H. unfold write_rows in H.
  destruct (Z.le_gt_cases 0 min_n) as [Hn|Hn].
  - apply (foldM_zrange_inv
             (fun j rows =>
                Z.of_nat (length rows) = j
                /\ forall c row, aget rows c = Ok row ->
                     exists r, aget rep c = Ok r
                               /\ write_row k T cls r = Ok row))
      in H; [| exact Hn | |].
    + destruct H as [L Hc]. intros c row Hrow. split.
      * apply aget_Ok in Hrow as [Hr _]. lia.
      * now apply Hc.
    + clear H rows. intros j rows rows' Hj [L Hinv] H.
      apply bind_Ok in H as (r & Hr & H).
      apply bind_Ok in H as (row & Hrow & H).
      inversion H; subst rows'; clear H.
      split; [rewrite length_app; simpl; lia|].
      intros c row' Hc. pose proof (aget_Ok _ _ _ Hc) as [Hcr _].
      rewrite length_app in Hcr. simpl in Hcr.
      unfold aget in Hc. destruct (Z.ltb_spec c 0); [lia|].
      destruct (Z.eq_dec c j) as [->|Hne].
      * rewrite nth_error_app2 in Hc by lia.
        replace (Z.to_nat j - length rows)%nat with O in Hc by lia.
        simpl in Hc. inversion Hc; subst row'. eauto.
      * rewrite nth_error_app1 in Hc by lia.
        apply Hinv. unfold aget. destruct (Z.ltb_spec c 0); [lia|]. exact Hc.
    + split; [reflexivity|]. intros c row Hc.
      apply aget_Ok in Hc as [Hc _]. simpl in Hc. lia.
  - unfold zrange in H. replace (Z.to_nat min_n) with O in H by lia.
    simpl in H. inversion H; subst. intros c row Hc.
    apply aget_Ok in Hc as [Hc _]. simpl in Hc. lia.
Qed.

Lemma write_min_dfa_rows_spec (sigma : list ascii) (dfa : list DFAState)
  (cls : cells) (min_n need_dead dead : Z) (f : DfaFile) :
  sigma <> [] ->
  write_min_dfa sigma dfa cls min_n need_dead dead = Ok f ->
  let k := Z.of_nat (length sigma) in
  let T := complete_T k dfa need_dead dead in
  cget cls 0 = Ok (f_start f)
  /\ forall c row, aget (f_rows f) c = Ok row ->
       exists r, first_of_class cls c r
                 /\ forall a tc, aget row a = Ok tc ->
                      exists t, aget T (r * k + a) = Ok t
                                /\ cget cls t = Ok tc.
Proof.
  intros Hsig H k T. unfold write_min_dfa in H. fold k T in H.
  apply bind_Ok in H as (rep & Hrep & H).
  apply bind_Ok in H as (acc & _ & H).
  apply bind_Ok in H as (s0 & Hs0 & H).
  apply bind_Ok in H as (rows & Hrows & H).
  inversion H; subst f; clear H. cbn [f_start f_rows].
  split; [exact Hs0|].
  intros c row Hrow.
  pose proof (aget_Ok _ _ _ Hrow) as [Hc _].
  destruct (write_rows_cells _ _ _ _ _ _ Hrows c row Hrow)
    as (Hcn & r & Hr & Hwr).
  destruct (write_row_cells _ _ _ _ _ Hwr) as [Hlen Hcells].
  assert (Hk : 0 < k).
  { unfold k. destruct sigma; [congruence | simpl length; lia]. }
  exists r. split.
  - destruct (Hcells 0 ltac:(lia)) as (t & Ht & _).
    apply aget_Ok in Ht as [Ht _].
    assert (Hr0 : 0 <= r) by nia.
    apply (aget_nth _ _ _ (-1)) in Hr.
    assert (HN : 0 <= Z.of_nat (length dfa)
                      + (if negb (need_dead =? 0) then 1 else 0))
      by (destruct (negb (need_dead =? 0)); lia).
    assert (Hcr : 0 <= c < min_n) by lia.
    destruct (build_rep_first _ _ _ _ HN Hrep c Hcr) as [[Hm _]|[_ Hf]].
    + lia.
    + now rewrite Hr in Hf.
  - intros a tc Htc. pose proof (aget_Ok _ _ _ Htc) as [Ha _].
    destruct (Hcells a ltac:(lia)) as (t & Ht & Hct).
    exists t. split; [exact Ht|].
    now rewrite (aget_nth _ _ _ 0 Htc) in Hct.
Qed.

(** The START line and the rows that [write_min_dfa] prints, for a
    non-empty alphabet: START is the class of state 0, and row [c] is read
    from the first state [r] whose class is [c]: its cell for symbol [a] is
    the class of the state [T[r*k+a]] of the completed table. *)
Theorem write_min_dfa_rows (sigma : list ascii) (dfa : list DFAState)
  (cls : cells) (min_n need_dead dead : Z) (f : DfaFile) :
  sigma <> [] ->
  write_min_dfa sigma dfa cls min_n need_dead dead = Ok f ->
  let k := Z.of_nat (length sigma) in
  let T := complete_T k dfa need_dead dead in
  cget cls 0 = Ok (f_start f)
  /\ forall c row, aget (f_rows f) c = Ok row ->
       exists r, first_of_class cls c r
                 /\ forall a tc, aget row a = Ok tc ->
                      exists t, aget T (r * k + a) = Ok t
                                /\ cget cls t = Ok tc.
Proof.
  exact (write_min_dfa_rows_spec sigma dfa cls min_n need_dead dead f).
Qed.

Lemma write_min_dfa_rows_witness :
  exists f,
    write_min_dfa (str "a") [mkDFAState [1] 0 [1]; mkDFAState [2] 1 [-1]]
      [Some 1; Some 0; Some 2] 3 1 2 = Ok f
    /\ cget [Some 1; Some 0; Some 2] 0 = Ok (f_start f).
Proof.
  eexists. split; [vm_compute; reflexivity|].
  match goal with
  | |- cget _ _ = Ok (f_start ?f) =>
      destruct (write_min_dfa_rows (str "a")
                  [mkDFAState [1] 0 [1]; mkDFAState [2] 1 [-1]]
                  [Some 1; Some 0; Some 2] 3 1 2 f) as [H1 _]
  end.
  - discriminate.
  - vm_compute. reflexivity.
  - exact H1.
Defined.

(** *** The ACCEPT line *)

Lemma build_acc_marks (N min_n : Z) (A : list Z) (cls : cells)
  (acc : list Z) :
  0 <= N ->
  build_acc N min_n A cls = Ok acc ->
  length acc = Z.to_nat min_n
  /\ (forall s c, 0 <= s < N -> accepting A s = true -> cget cls s = Ok c ->
        0 <= c < min_n)
  /\ forall c, 0 <= c ->
       (nth (Z.to_nat c) acc 0 <> 0
        <-> exists s, 0 <= s < N /\ accepting A s = true
                      /\ cget cls s = Ok c).
Proof.
  intros HN H. unfold build_acc in H.
  apply (foldM_zrange_inv
           (fun j acc =>
              length acc = Z.to_nat min_n
              /\ (forall s c, 0 <= s < j -> accepting A s = true ->
                    cget cls s = Ok c -> 0 <= c < min_n)
              /\ forall c, 0 <= c ->
                   (nth (Z.to_nat c) acc 0 <> 0
                    <-> exists s, 0 <= s < j /\ accepting A s = true
                                  /\ cget cls s = Ok c)))
    in H; [exact H | exact HN | |].
  - clear H acc. intros j acc acc' Hj (L & Hrange & Hinv) H.
    apply bind_Ok in H as (x & Hx & H).
    apply (aget_nth _ _ _ 0) in Hx.
    assert (Hacc : accepting A j = negb (x =? 0))
      by (unfold accepting; now rewrite Hx).
    destruct (negb (x =? 0)) eqn:E.
    + apply bind_Ok in H as (c0 & Hc0 & H).
      split; [rewrite (aset_length _ _ _ _ H); exact L|]. split.
      { intros s c Hs Ha Hcs. destruct (Z.eq_dec s j) as [->|Hsj].
        - assert (c = c0) by congruence. subst c.
          apply aset_Ok in H as [Hr _]. lia.
        - apply (Hrange s c); auto; lia. }
      intros c Hc. destruct (Z.eq_dec c c0) as [->|Hne].
      * rewrite (nth_aset_same _ _ _ _ _ H). split; [|lia].
        intros _. exists j. repeat split; auto; lia.
      * rewrite (nth_aset_other _ _ _ _ _ _ H) by lia.
        rewrite (Hinv c Hc). split; intros (s & Hs & Ha & Hcs).
        -- exists s. repeat split; auto; lia.
        -- assert (s <> j) by congruence.
           exists s. repeat split; auto; lia.
    + inversion H; subst acc'; clear H. split; [exact L|]. split.
      { intros s c Hs Ha Hcs. destruct (Z.eq_dec s j) as [->|Hsj].
        - congruence.
        - apply (Hrange s c); auto; lia. }
      intros c Hc. rewrite (Hinv c Hc).
      split; intros (s & Hs & Ha & Hcs).
      * exists s. repeat split; auto; lia.
      * assert (s <> j) by congruence.
        exists s. repeat split; auto; lia.
  - split; [apply repeat_length|]. split; [intros s c Hs; lia|].
    intros c Hc. split.
    + intros Hnz. exfalso. apply Hnz.
      destruct (nth_in_or_default (Z.to_nat c) (repeat 0 (Z.to_nat min_n)) 0)
        as [Hin|Hd]; [|exact Hd].
      now apply repeat_spec in Hin.
    + intros (s & Hs & _). lia.
Qed.

Lemma count_by_index (f : Z -> bool) (l : list Z) :
  forall lo,
    length (filter f l)
    = length (filter (fun i => f (nth (Z.to_nat (i - lo)) l 0))
                (zrange_from (length l) lo)).
Proof.
  induction l as [|x l IH]; intros lo; [reflexivity|].
  assert (E : filter (fun i => f (nth (Z.to_nat (i - lo)) (x :: l) 0))
                (zrange_from (length l) (lo + 1))
              = filter (fun i => f (nth (Z.to_nat (i - (lo + 1))) l 0))
                  (zrange_from (length l) (lo + 1))).
  { apply filter_ext_in. intros i Hi. apply zrange_from_In in Hi.
    replace (Z.to_nat (i - lo)) with (S (Z.to_nat (i - (lo + 1)))) by lia.
    reflexivity. }
  change (zrange_from (length (x :: l)) lo)
    with (lo :: zrange_from (length l) (lo + 1)).
  cbn [filter]. rewrite E.
  replace (Z.to_nat (lo - lo)) with O by lia. cbn [nth].
  destruct (f x); cbn [length]; now rewrite (IH (lo + 1)).
Qed.

Lemma write_min_dfa_accept_spec (sigma : list ascii) (dfa : list DFAState)
  (cls : cells) (min_n need_dead dead : Z) (f : DfaFile) :
  write_min_dfa sigma dfa cls min_n need_dead dead = Ok f ->
  let A := complete_A dfa need_dead in
  f_accept_count f = Z.of_nat (length (f_accept f))
  /\ NoDup (f_accept f)
  /\ forall c, In c (f_accept f)
               <-> exists s, accepting A s = true /\ cget cls s = Ok c.
Proof.
  intros H A. unfold write_min_dfa in H. fold A in H.
  apply bind_Ok in H as (rep & _ & H).
  apply bind_Ok in H as (acc & Hacc & H).
  apply bind_Ok in H as (s0 & _ & H).
  apply bind_Ok in H as (rows & _ & H).
  inversion H; subst f; clear H. cbn [f_accept_count f_accept].
  set (N := Z.of_nat (length dfa)
            + (if negb (need_dead =? 0) then 1 else 0)) in *.
  assert (HN : 0 <= N) by (unfold N; destruct (negb (need_dead =? 0)); lia).
  destruct (build_acc_marks _ _ _ _ _ HN Hacc) as (L & Hrange & Hmarks).
  split; [|split].
  - f_equal. rewrite (count_by_index (fun x => negb (x =? 0)) acc 0).
    unfold zrange. rewrite L. f_equal. apply filter_ext.
    intros i. now rewrite Z.sub_0_r.
  - apply NoDup_filter. unfold zrange.
    generalize (Z.to_nat min_n) 0. intros n. induction n as [|n IH];
      intros lo; simpl; constructor.
    + rewrite zrange_from_In. lia.
    + apply IH.
  - intros c. rewrite filter_In, zrange_In, negb_true_iff, Z.eqb_neq.
    split.
    + intros [Hc Hnz]. apply Hmarks in Hnz; [|lia].
      destruct Hnz as (s & _ & Ha & Hcs). eauto.
    + intros (s & Ha & Hcs).
      assert (Hs : 0 <= s < N).
      { pose proof Hcs as Hcs'. unfold cget in Hcs'.
        apply bind_Ok in Hcs' as (x & Hx & _).
        apply aget_Ok in Hx as [Hx _]. split; [lia|].
        unfold N. rewrite <- complete_A_length. fold A.
        destruct (Z.lt_ge_cases s (Z.of_nat (length A))) as [Hlt|Hge];
          [exact Hlt|].
        unfold accepting in Ha. rewrite nth_overflow in Ha by lia.
        discriminate. }
      pose proof (Hrange s c Hs Ha Hcs) as Hc.
      split; [exact Hc|]. apply Hmarks; [lia | eauto].
Qed.

(** The ACCEPT line that [write_min_dfa] prints: the count is the number
    of ids listed, the ids are listed once each, and a class is listed
    exactly when one of its states is accepting in the completed
    automaton. *)
Theorem write_min_dfa_accept (sigma : list ascii) (dfa : list DFAState)
  (cls : cells) (min_n need_dead dead : Z) (f : DfaFile) :
  write_min_dfa sigma dfa cls min_n need_dead dead = Ok f ->
  let A := complete_A dfa need_dead in
  f_accept_count f = Z.of_nat (length (f_accept f))
  /\ NoDup (f_accept f)
  /\ forall c, In c (f_accept f)
               <-> exists s, accepting A s = true /\ cget cls s = Ok c.
Proof.
  exact (write_min_dfa_accept_spec sigma dfa cls min_n need_dead dead f).
Qed.

Lemma write_min_dfa_accept_witness :
  exists f,
    write_min_dfa (str "a") [mkDFAState [1] 0 [1]; mkDFAState [2] 1 [-1]]
      [Some 1; Some 0; Some 2] 3 1 2 = Ok f
    /\ f_accept_count f = Z.of_nat (length (f_accept f))
    /\ NoDup (f_accept f).
Proof.
  eexists. split; [vm_compute; reflexivity|].
  match goal with
  | |- f_accept_count ?f = _ /\ _ =>
      destruct (write_min_dfa_accept (str "a")
                  [mkDFAState [1] 0 [1]; mkDFAState [2] 1 [-1]]
                  [Some 1; Some 0; Some 2] 3 1 2 f) as (H1 & H2 & _)
  end.
  - vm_compute. reflexivity.
  - split; [exact H1 | exact H2].
Defined.

End EmittedFile.

(* ================================================================== *)
(** ** The verdicts of the comparator *)

Section Verdicts.
Import DfaChecker.

Lemma alph_index_from_absent (l : list ascii) (c : ascii) :
  ~ In c l -> forall i, alph_index_from l i c = -1.
Proof.
  induction l as [|x l IH]; intros Hn i; simpl; [reflexivity|].
  destruct (Ascii.eqb x c) eqn:E.
  - apply Ascii.eqb_eq in E. subst. exfalso. apply Hn. now left.
  - apply IH. intros H. apply Hn. now right.
Qed.

Lemma alph_index_absent (d : DFA) (c : ascii) :
  wf_DFA d -> ~ In c (alphabet d) -> alph_index d c = -1.
Proof.
  intros Hwf Hn. unfold alph_index.
  rewrite firstn_all2 by (pose proof (wf_alphabet d Hwf); lia).
  now apply alph_index_from_absent.
Qed.

Lemma run_dfa_from_total (d : DFA) :
  wf_DFA d ->
  forall w st, 0 <= st < n d ->
    (Forall (fun c => In c (alphabet d)) w
     /\ exists r, run_dfa_from d st w = Ok r /\ (r = 0 \/ r = 1))
    \/ (Exists (fun c => ~ In c (alphabet d)) w
        /\ run_dfa_from d st w = Ok (-1)).
Proof.
  intros Hwf. induction w as [|c w IH]; intros st Hst.
  - left. split; [constructor|].
    now apply run_dfa_from_answers.
  - destruct (in_dec ascii_dec c (alphabet d)) as [Hin|Hout].
    + cbn [run_dfa_from].
      pose proof (alph_index_range d c Hwf Hin) as Hidx.
      destruct (alph_index d c <? 0) eqn:E; [apply Z.ltb_lt in E; lia|].
      destruct (aget_in_range (trans d) (st * k d + alph_index d c))
        as (st' & Hst' & Hin').
      { rewrite (wf_trans_len d Hwf). split; [nia|].
        assert (st * k d + alph_index d c < (st + 1) * k d) by lia. nia. }
      rewrite Hst'. cbn [bind].
      pose proof (wf_trans d Hwf) as Ht. rewrite Forall_forall in Ht.
      destruct (IH st' (Ht st' Hin')) as [[Hall Hr]|[Hex Hr]].
      * left. split; [now constructor | exact Hr].
      * right. split; [now apply Exists_cons_tl | exact Hr].
    + right. split; [now apply Exists_cons_hd|].
      cbn [run_dfa_from]. now rewrite (alph_index_absent d c Hwf Hout).
Qed.

(** On a DFA as [dfa_read] returns it, [run_dfa] never reads outside the
    arrays, whatever the string: it answers -1, 0 or 1, and -1 exactly when
    the string holds a byte that is not in the alphabet. *)
Theorem run_dfa_verdict (d : DFA) (w : list ascii) :
  wf_DFA d ->
  exists r, run_dfa d w = Ok r
            /\ (r = -1 \/ r = 0 \/ r = 1)
            /\ (r = -1 <-> exists c, In c w /\ ~ In c (alphabet d)).
Proof.
  intros Hwf. unfold run_dfa.
  destruct (run_dfa_from_total d Hwf w (start d) (wf_start d Hwf))
    as [[Hall (r & Hr & Hr01)]|[Hex Hr]].
  - exists r. split; [exact Hr|]. split; [tauto|]. split.
    + intros ->. lia.
    + intros (c & Hc & Hout). rewrite Forall_forall in Hall.
      exfalso. apply Hout. now apply Hall.
  - exists (-1). split; [exact Hr|]. split; [tauto|]. split; [|reflexivity].
    intros _. now apply Exists_exists in Hex.
Qed.

Lemma run_dfa_verdict_witness :
  exists r, run_dfa star_dfa (str "ab") = Ok r
            /\ (r = -1 \/ r = 0 \/ r = 1)
            /\ (r = -1 <-> exists c, In c (str "ab")
                                     /\ ~ In c (alphabet star_dfa)).
Proof.
  apply (run_dfa_verdict star_dfa (str "ab")). exact star_dfa_wf.
Defined.

(** The loop over a prefix of lines on which both DFAs agree. *)
Lemma tests_loop_prefix (ref usr : DFA) :
  wf_DFA ref -> wf_DFA usr -> alphabet usr = alphabet ref ->
  forall pre tests rest,
    Forall2 (test_line (alphabet ref)) pre tests ->
    (forall label w, In (label, w) (tests_of tests) ->
                     run_dfa ref w = run_dfa usr w) ->
    forall line_no total warns,
      tests_loop ref usr (pre ++ rest) line_no total warns
      = tests_loop ref usr rest (line_no + Z.of_nat (length pre))
          (total + Z.of_nat (length (tests_of tests)))
          (warns ++ warnings_of ref tests line_no).
Proof.
  intros Href Husr Halph pre tests rest Hlines.
  induction Hlines as [|buf t lines tests Hline Hlines IH];
    intros Hagree line_no total warns.
  - simpl. now rewrite !Z.add_0_r, app_nil_r.
  - rewrite <- app_comm_cons.
    rewrite (tests_loop_line _ _ _ _ _ _ _ _ _ Hline).
    destruct t as [[label w]|].
    + assert (Hw : Forall (fun c => In c (alphabet ref)) w).
      { inversion Hline; subst. assumption. }
      destruct (run_dfa_answers ref w Href Hw) as (r & Hr & Hr01).
      assert (Hu : run_dfa usr w = Ok r).
      { rewrite <- Hr. symmetry. apply (Hagree label). now left. }
      rewrite Hr, Hu. cbn [bind].
      replace ((r <? 0) || (r <? 0)) with false
        by (destruct Hr01 as [-> | ->]; reflexivity).
      rewrite Z.eqb_refl. cbn [negb].
      rewrite IH by (intros l0 w0 Hin; apply (Hagree l0); now right).
      cbn [tests_of length warnings_of]. rewrite Hr.
      f_equal; [lia | lia |].
      destruct (negb (r =? label)); [now rewrite <- app_assoc|].
      reflexivity.
    + rewrite IH by exact Hagree. cbn [tests_of length warnings_of].
      f_equal. lia.
Qed.

(** The comparator stops at the first test on which the two DFAs answer
    differently: after lines on which they agree, a test line with
    different answers ends the run with FAIL at the number of that line
    and exit code 2; the lines after it are not looked at. *)
Theorem first_mismatch_reported (ref usr : DFA)
  (pre post : list (list ascii)) (bad : list ascii)
  (tests : list (option (Z * list ascii))) (label : Z) (w : list ascii)
  (rref rusr : Z) :
  wf_DFA ref -> wf_DFA usr ->
  same_alphabet ref usr = true ->
  Forall2 (test_line (alphabet ref)) pre tests ->
  (forall l0 w0, In (l0, w0) (tests_of tests) ->
                 run_dfa ref w0 = run_dfa usr w0) ->
  test_line (alphabet ref) bad (Some (label, w)) ->
  run_dfa ref w = Ok rref -> run_dfa usr w = Ok rusr -> rref <> rusr ->
  let v := FailAt (Z.of_nat (length pre) + 1) w rref rusr label in
  main ref usr (pre ++ bad :: post) = Ok (v, warnings_of ref tests 0)
  /\ exit_code v = 2.
Proof.
  intros Href Husr Hsame Hpre Hagree Hbad Hr Hu Hne v.
  split; [|reflexivity].
  unfold main. rewrite Hsame. cbn [negb].
  pose proof (same_alphabet_eq _ _ Href Husr Hsame) as Halph.
  rewrite (tests_loop_prefix ref usr Href Husr (eq_sym Halph) pre tests
             (bad :: post) Hpre Hagree 0 0 []).
  rewrite (tests_loop_line _ _ _ _ _ _ _ _ _ Hbad).
  assert (Hw : Forall (fun c => In c (alphabet ref)) w)
    by (inversion Hbad; subst; assumption).
  destruct (run_dfa_answers ref w Href Hw) as (r1 & Hr1 & Hr101).
  assert (Hw' : Forall (fun c => In c (alphabet usr)) w)
    by now rewrite <- Halph.
  destruct (run_dfa_answers usr w Husr Hw') as (r2 & Hr2 & Hr201).
  rewrite Hr in Hr1. inversion Hr1; subst r1.
  rewrite Hu in Hr2. inversion Hr2; subst r2.
  rewrite Hr, Hu. cbn [bind].
  replace ((rref <? 0) || (rusr <? 0)) with false
    by (destruct Hr101 as [-> | ->]; destruct Hr201 as [-> | ->];
        reflexivity).
  apply Z.eqb_neq in Hne. rewrite Hne. cbn [negb]. reflexivity.
Qed.

(** After lines on which both DFAs agree, a test whose string holds a byte
    outside the alphabet ends the run with the error "string contains
    symbol not in alphabet" at the number of that line and exit code 1. *)
Theorem foreign_symbol_reported (ref usr : DFA) (sigma : list ascii)
  (pre post : list (list ascii)) (bad : list ascii)
  (tests : list (option (Z * list ascii))) (label : Z) (w : list ascii) :
  wf_DFA ref -> wf_DFA usr ->
  same_alphabet ref usr = true ->
  Forall2 (test_line (alphabet ref)) pre tests ->
  (forall l0 w0, In (l0, w0) (tests_of tests) ->
                 run_dfa ref w0 = run_dfa usr w0) ->
  test_line sigma bad (Some (label, w)) ->
  (exists c, In c w /\ ~ In c (alphabet ref)) ->
  let v := SymbolNotInAlphabet (Z.of_nat (length pre) + 1) in
  main ref usr (pre ++ bad :: post) = Ok (v, warnings_of ref tests 0)
  /\ exit_code v = 1.
Proof.
  intros Href Husr Hsame Hpre Hagree Hbad Hex v.
  split; [|reflexivity].
  unfold main. rewrite Hsame. cbn [negb].
  pose proof (same_alphabet_eq _ _ Href Husr Hsame) as Halph.
  rewrite (tests_loop_prefix ref usr Href Husr (eq_sym Halph) pre tests
             (bad :: post) Hpre Hagree 0 0 []).
  rewrite (tests_loop_line _ _ _ _ _ _ _ _ _ Hbad).
  assert (Hr1 : run_dfa ref w = Ok (-1)).
  { unfold run_dfa.
    destruct (run_dfa_from_total ref Href w (start ref) (wf_start ref Href))
      as [[Hall _]|[_ Hr]]; [|exact Hr].
    destruct Hex as (c & Hc & Hout). rewrite Forall_forall in Hall.
    exfalso. apply Hout. now apply Hall. }
  assert (Hr2 : exists r2, run_dfa usr w = Ok r2).
  { unfold run_dfa.
    destruct (run_dfa_from_total usr Husr w (start usr) (wf_start usr Husr))
      as [[_ (r & Hr & _)]|[_ Hr]]; eauto. }
  destruct Hr2 as (r2 & Hr2).
  rewrite Hr1, Hr2. cbn [bind]. reflexivity.
Qed.

Lemma foreign_symbol_reported_witness :
  main star_dfa star_dfa [str "1 a" ++ ["010"%char]; str "1 ab"]
  = Ok (SymbolNotInAlphabet 2, [])
  /\ exit_code (SymbolNotInAlphabet 2) = 1.
Proof.
  apply (foreign_symbol_reported star_dfa star_dfa (str "ab")
           [str "1 a" ++ ["010"%char]] [] (str "1 ab")
           [Some (1, str "a")] 1 (str "ab")).
  - exact star_dfa_wf.
  - exact star_dfa_wf.
  - reflexivity.
  - apply Forall2_cons; [|apply Forall2_nil].
    apply (tl_test (str "a") [] "1"%char [" "%char] (str "a")
             ["010"%char] (str "a"));
      [ constructor | now right | discriminate | repeat constructor
      | discriminate | repeat constructor; discriminate
      | repeat constructor | vm_compute; reflexivity | reflexivity
      | repeat constructor ].
  - intros l0 w0 _. reflexivity.
  - apply (tl_test (str "ab") [] "1"%char [" "%char] (str "ab") []
             (str "ab"));
      [ constructor | now right | discriminate | repeat constructor
      | discriminate | repeat constructor; discriminate
      | constructor | vm_compute; reflexivity | reflexivity
      | apply Forall_forall; intros x Hx; exact Hx ].
  - exists "b"%char. split; [simpl; auto|].
    simpl. intros [H|[]]. discriminate.
Defined.

Lemma plus_dfa_wf : wf_DFA (mkDFA 1 (str "a") 2 0 [0; 1] [1; 1]).
Proof.
  constructor; simpl; unfold MAX_ALPHABET; try lia.
  - repeat constructor; discriminate.
  - repeat constructor; lia.
Qed.

Lemma first_mismatch_reported_witness :
  main star_dfa (mkDFA 1 (str "a") 2 0 [0; 1] [1; 1])
    [str "1 a" ++ ["010"%char]; str "1 <eps>" ++ ["010"%char]; str "0 a"]
  = Ok (FailAt 2 [] 1 0 1, [])
  /\ exit_code (FailAt 2 [] 1 0 1) = 2.
Proof.
  apply (first_mismatch_reported star_dfa
           (mkDFA 1 (str "a") 2 0 [0; 1] [1; 1])
           [str "1 a" ++ ["010"%char]] [str "0 a"]
           (str "1 <eps>" ++ ["010"%char])
           [Some (1, str "a")] 1 [] 1 0).
  - exact star_dfa_wf.
  - exact plus_dfa_wf.
  - reflexivity.
  - apply Forall2_cons; [|apply Forall2_nil].
    apply (tl_test (str "a") [] "1"%char [" "%char] (str "a")
             ["010"%char] (str "a"));
      [ constructor | now right | discriminate | repeat constructor
      | discriminate | repeat constructor; discriminate
      | repeat constructor | vm_compute; reflexivity | reflexivity
      | repeat constructor ].
  - intros l0 w0 [H|[]]. inversion H; subst. reflexivity.
  - apply (tl_test (str "a") [] "1"%char [" "%char] (str "<eps>")
             ["010"%char] []);
      [ constructor | now right | discriminate | repeat constructor
      | discriminate | repeat constructor; discriminate
      | repeat constructor | vm_compute; reflexivity | reflexivity
      | constructor ].
  - reflexivity.
  - reflexivity.
  - discriminate.
Defined.

(** *** Lines that are not tests *)

Lemma line_head (ws rest : list ascii) (c : ascii) :
  Forall is_space ws -> isspace c = false -> c <> zero ->
  skip_spaces (trim_newline (c_str (ws ++ c :: rest)))
  = c :: trim_newline (c_str rest).
Proof.
  intros Hws Hc Hz.
  assert (Hnz : Forall (fun x => x <> zero) ws).
  { eapply Forall_impl; [|exact Hws]. intros x. apply space_not_nul. }
  rewrite c_str_app, (c_str_clean ws Hnz).
  destruct (in_dec ascii_dec zero ws) as [Hin|_].
  { rewrite Forall_forall in Hnz. now destruct (Hnz zero Hin). }
  cbn [c_str]. apply Ascii.eqb_neq in Hz. rewrite Hz.
  rewrite trim_newline_app by now apply not_space_not_newline.
  rewrite skip_spaces_app by exact Hws.
  now apply skip_spaces_stop.
Qed.

(** After lines on which both DFAs agree, a line whose first byte after
    the leading white space is neither [0], [1] nor [#] ends the run with
    the error "label must be 0 or 1" at the number of that line and exit
    code 1. *)
Theorem bad_label_reported (ref usr : DFA)
  (pre post : list (list ascii)) (ws rest : list ascii) (c : ascii)
  (tests : list (option (Z * list ascii))) :
  wf_DFA ref -> wf_DFA usr ->
  same_alphabet ref usr = true ->
  Forall2 (test_line (alphabet ref)) pre tests ->
  (forall l0 w0, In (l0, w0) (tests_of tests) ->
                 run_dfa ref w0 = run_dfa usr w0) ->
  Forall is_space ws -> isspace c = false -> c <> zero ->
  c <> "#"%char -> c <> "0"%char -> c <> "1"%char ->
  let v := BadLabel (Z.of_nat (length pre) + 1) in
  main ref usr (pre ++ (ws ++ c :: rest) :: post)
  = Ok (v, warnings_of ref tests 0)
  /\ exit_code v = 1.
Proof.
  intros Href Husr Hsame Hpre Hagree Hws Hc Hz Hh H0 H1 v.
  split; [|reflexivity].
  unfold main. rewrite Hsame. cbn [negb].
  pose proof (same_alphabet_eq _ _ Href Husr Hsame) as Halph.
  rewrite (tests_loop_prefix ref usr Href Husr (eq_sym Halph) pre tests
             _ Hpre Hagree 0 0 []).
  cbn [tests_loop]. rewrite (line_head ws rest c Hws Hc Hz).
  apply Ascii.eqb_neq in Hh, H0, H1. rewrite Hh, H0, H1. reflexivity.
Qed.

Lemma bad_label_reported_witness :
  main star_dfa star_dfa [str "1 a" ++ ["010"%char]; str " 2 a"; str "0 a"]
  = Ok (BadLabel 2, [])
  /\ exit_code (BadLabel 2) = 1.
Proof.
  apply (bad_label_reported star_dfa star_dfa
           [str "1 a" ++ ["010"%char]] [str "0 a"] (str " ") (str " a")
           "2"%char [Some (1, str "a")]).
  - exact star_dfa_wf.
  - exact star_dfa_wf.
  - reflexivity.
  - apply Forall2_cons; [|apply Forall2_nil].
    apply (tl_test (str "a") [] "1"%char [" "%char] (str "a")
             ["010"%char] (str "a"));
      [ constructor | now right | discriminate | repeat constructor
      | discriminate | repeat constructor; discriminate
      | repeat constructor | vm_compute; reflexivity | reflexivity
      | repeat constructor ].
  - intros l0 w0 _. reflexivity.
  - repeat constructor.
  - reflexivity.
  - discriminate.
  - discriminate.
  - discriminate.
  - discriminate.
Defined.

(** After lines on which both DFAs agree, a line that holds a label [0]
    or [1] followed by white space only ends the run with the error
    "missing string token" at the number of that line and exit code 1. *)
Theorem missing_string_reported (ref usr : DFA)
  (pre post : list (list ascii)) (ws1 ws2 : list ascii) (lab : ascii)
  (tests : list (option (Z * list ascii))) :
  wf_DFA ref -> wf_DFA usr ->
  same_alphabet ref usr = true ->
  Forall2 (test_line (alphabet ref)) pre tests ->
  (forall l0 w0, In (l0, w0) (tests_of tests) ->
                 run_dfa ref w0 = run_dfa usr w0) ->
  Forall is_space ws1 -> lab = "0"%char \/ lab = "1"%char ->
  Forall is_space ws2 ->
  let v := MissingString (Z.of_nat (length pre) + 1) in
  main ref usr (pre ++ (ws1 ++ lab :: ws2) :: post)
  = Ok (v, warnings_of ref tests 0)
  /\ exit_code v = 1.
Proof.
  intros Href Husr Hsame Hpre Hagree Hws1 Hlab Hws2 v.
  split; [|reflexivity].
  unfold main. rewrite Hsame. cbn [negb].
  pose proof (same_alphabet_eq _ _ Href Husr Hsame) as Halph.
  rewrite (tests_loop_prefix ref usr Href Husr (eq_sym Halph) pre tests
             _ Hpre Hagree 0 0 []).
  cbn [tests_loop].
  assert (Hl : isspace lab = false /\ lab <> zero
               /\ Ascii.eqb lab "#" = false
               /\ negb (Ascii.eqb lab "0") && negb (Ascii.eqb lab "1")
                  = false)
    by (destruct Hlab as [-> | ->]; repeat split; discriminate).
  destruct Hl as (Hsp & Hz & Hh & H01).
  rewrite (line_head ws1 ws2 lab Hws1 Hsp Hz), Hh, H01.
  assert (Hnz : Forall (fun x => x <> zero) ws2).
  { eapply Forall_impl; [|exact Hws2]. intros x. apply space_not_nul. }
  rewrite (c_str_clean ws2 Hnz).
  rewrite (skip_spaces_all _ (trim_newline_Forall _ _ Hws2)).
  reflexivity.
Qed.

Lemma missing_string_reported_witness :
  main star_dfa star_dfa [str "1 a" ++ ["010"%char]; str "1" ++ ["010"%char]]
  = Ok (MissingString 2, [])
  /\ exit_code (MissingString 2) = 1.
Proof.
  apply (missing_string_reported star_dfa star_dfa
           [str "1 a" ++ ["010"%char]] [] [] ["010"%char] "1"%char
           [Some (1, str "a")]).
  - exact star_dfa_wf.
  - exact star_dfa_wf.
  - reflexivity.
  - apply Forall2_cons; [|apply Forall2_nil].
    apply (tl_test (str "a") [] "1"%char [" "%char] (str "a")
             ["010"%char] (str "a"));
      [ constructor | now right | discriminate | repeat constructor
      | discriminate | repeat constructor; discriminate
      | repeat constructor | vm_compute; reflexivity | reflexivity
      | repeat constructor ].
  - intros l0 w0 _. reflexivity.
  - constructor.
  - now right.
  - repeat constructor.
Defined.

End Verdicts.

(* ================================================================== *)
(** ** Epsilon closure and move *)

Section Closure.
Import Regex2MinDfa Spec Props.

Lemma foldM_prefix_inv_gen {A St : Type} (I : list A -> St -> Prop)
  (f : St -> A -> result St) :
  forall (l pre : list A) (s s' : St),
    (forall p a s s', (exists suf, pre ++ l = p ++ a :: suf) ->
                      I p s -> f s a = Ok s' -> I (p ++ [a]) s') ->
    I pre s -> foldM f l s = Ok s' -> I (pre ++ l) s'.
Proof.
  induction l as [|x l IH]; intros pre s s' Hstep Hs H; simpl in H.
  - inversion H; subst. now rewrite app_nil_r.
  - apply bind_Ok in H as (s1 & H1 & H).
    replace (pre ++ x :: l) with ((pre ++ [x]) ++ l)
      by (rewrite <- app_assoc; reflexivity).
    apply (IH (pre ++ [x]) s1 s'); [| |exact H].
    + intros p a t t' Hsuf. apply Hstep.
      destruct Hsuf as (suf & Hsuf). exists suf.
      rewrite <- Hsuf, <- app_assoc. reflexivity.
    + apply (Hstep pre x s s1); [now exists l | exact Hs | exact H1].
Qed.

Lemma foldM_prefix_inv {A St : Type} (I : list A -> St -> Prop)
  (f : St -> A -> result St) (l : list A) (s s' : St) :
  (forall p a s s', In a l -> I p s -> f s a = Ok s' -> I (p ++ [a]) s') ->
  I [] s -> foldM f l s = Ok s' -> I l s'.
Proof.
  intros Hstep Hs H.
  apply (foldM_prefix_inv_gen I f l [] s s'); [|exact Hs|exact H].
  intros p a t t' (suf & Hsuf). apply Hstep.
  simpl in Hsuf. rewrite Hsuf. apply in_elt.
Qed.

Lemma member_nonneg (b : Bitset) (v : Z) : member b v -> 0 <= v.
Proof.
  unfold member, bs_get. intros H. apply bind_Ok in H as (w & Hw & _).
  apply aget_Ok in Hw as [Hw _]. apply (Z.shiftr_nonneg v 6). lia.
Qed.

Lemma bs_get_member (b : Bitset) (i g : Z) :
  bs_get b i = Ok g -> (g =? 0) = false -> member b i.
Proof.
  intros H Hg. unfold member. apply Z.eqb_neq in Hg.
  destruct (bs_get_bit b i g H) as [-> | ->]; [lia | exact H].
Qed.

Lemma bs_get_not_member (b : Bitset) (i g : Z) :
  bs_get b i = Ok g -> (g =? 0) = true -> ~ member b i.
Proof.
  intros H Hg Hm. unfold member in Hm. apply Z.eqb_eq in Hg.
  rewrite H in Hm. inversion Hm. lia.
Qed.

Lemma bs_set_member (b b' : Bitset) (i : Z) :
  bs_set b i = Ok b' ->
  length b' = length b
  /\ forall v, member b' v <-> v = i \/ member b v.
Proof.
  intros H. destruct (bs_set_spec b b' i H) as (Hi & L & Hset & Hother).
  split; [exact L|]. intros v. unfold member. split.
  - intros Hm. destruct (Z.eq_dec v i) as [->|Hne]; [now left|].
    right. rewrite <- (Hother v); [exact Hm | | exact Hne].
    now apply (member_nonneg b').
  - intros [->|Hm]; [exact Hset|].
    destruct (Z.eq_dec v i) as [->|Hne]; [exact Hset|].
    rewrite (Hother v); [exact Hm | | exact Hne].
    now apply (member_nonneg b).
Qed.

Lemma bs_new_no_member (n v : Z) : ~ member (bs_new n) v.
Proof.
  unfold member, bs_get, bs_new. intros H.
  apply bind_Ok in H as (w & Hw & H).
  apply aget_Ok in Hw as [_ Hin]. apply repeat_spec in Hin. subst w.
  rewrite Z.shiftr_0_l in H. discriminate.
Qed.

Lemma edge_eta (e : Edge) : e = mkEdge (to e) (sym e).
Proof. now destruct e. Qed.

(** *** move *)

Lemma move_edges_spec (sy : ascii) (edges : list Edge) (out out' : Bitset) :
  foldM (move_edge sy) edges out = Ok out' ->
  length out' = length out
  /\ forall t, member out' t <-> member out t \/ In (mkEdge t sy) edges.
Proof.
  intros H.
  apply (foldM_prefix_inv
           (fun pre o => length o = length out
                         /\ forall t, member o t
                                      <-> member out t \/ In (mkEdge t sy) pre))
    in H; [exact H | |].
  - clear H out'. intros p e o o' _ [L Hinv] H. unfold move_edge in H.
    destruct (Ascii.eqb (sym e) sy) eqn:E.
    + apply Ascii.eqb_eq in E.
      destruct (bs_set_member _ _ _ H) as [L' Hm].
      split; [congruence|]. intros t. rewrite Hm, Hinv, in_app_iff.
      cbn [In]. rewrite (edge_eta e) at 2. rewrite E. split.
      * intros [->|[Ho|Hp]]; auto.
      * intros [Ho|[Hp|[He|[]]]]; auto. inversion He; auto.
    + inversion H; subst o'; clear H. split; [exact L|].
      intros t. rewrite Hinv, in_app_iff. cbn [In]. split.
      * intros [Ho|Hp]; auto.
      * intros [Ho|[Hp|[He|[]]]]; auto.
        apply Ascii.eqb_neq in E. exfalso. apply E. now rewrite He.
  - split; [reflexivity|]. intros t. cbn [In]. tauto.
Qed.

Lemma move_on_symbol_spec (nfa : list NFAState) (inb : Bitset)
  (sy : ascii) (out : Bitset) :
  move_on_symbol nfa inb sy = Ok out ->
  length out = length (bs_new (Z.of_nat (length nfa)))
  /\ forall t, member out t
               <-> exists s, member inb s /\ nfa_edge nfa sy s t.
Proof.
  intros H. unfold move_on_symbol in H.
  set (N := Z.of_nat (length nfa)) in *.
  assert (Hinv : length out = length (bs_new N)
                 /\ forall t, member out t
                              <-> exists s, 0 <= s < N /\ member inb s
                                            /\ nfa_edge nfa sy s t).
  { revert H.
    apply (foldM_zrange_inv
             (fun j o =>
                length o = length (bs_new N)
                /\ forall t, member o t
                             <-> exists s, 0 <= s < j /\ member inb s
                                           /\ nfa_edge nfa sy s t));
      [apply Zle_0_nat | |].
    - intros j o o' Hj [L Hinv] H. unfold move_state in H.
      apply bind_Ok in H as (g & Hg & H).
      destruct (g =? 0) eqn:E.
      + inversion H; subst o'; clear H. split; [exact L|].
        intros t. rewrite Hinv. split.
        * intros (s & Hs & Hm & He). exists s.
          split; [lia | split; assumption].
        * intros (s & Hs & Hm & He). exists s.
          assert (s <> j)
            by (intros ->; exact (bs_get_not_member _ _ _ Hg E Hm)).
          split; [lia | split; assumption].
      + apply bind_Ok in H as (edges & Hedges & H).
        destruct (move_edges_spec _ _ _ _ H) as [L' Hm'].
        split; [congruence|]. intros t. rewrite Hm', Hinv. split.
        * intros [(s & Hs & Hm & He) | Hin].
          -- exists s. split; [lia | split; assumption].
          -- exists j. split; [lia|].
             split; [eapply bs_get_member; eauto|].
             exists edges. auto.
        * intros (s & Hs & Hm & (edges' & He' & Hin)).
          destruct (Z.eq_dec s j) as [->|Hne].
          -- right. assert (edges' = edges) by congruence. now subst.
          -- left. exists s. split; [lia|]. split; [exact Hm|].
             exists edges'. auto.
    - split; [reflexivity|]. intros t. split.
      + intros Hm. now apply bs_new_no_member in Hm.
      + intros (s & Hs & _). lia. }
  destruct Hinv as [L Hinv]. split; [exact L|].
  intros t. rewrite Hinv. split.
  - intros (s & _ & Hm & He). eauto.
  - intros (s & Hm & He). exists s. split; [|auto].
    destruct He as (edges & He & _). apply aget_Ok in He as [He _].
    exact He.
Qed.

(** The set [move_on_symbol] builds: a state is in it exactly when some
    member of the input set has an edge with that symbol to it. *)
Theorem move_on_symbol_members (nfa : list NFAState) (inb : Bitset)
  (sy : ascii) (out : Bitset) :
  move_on_symbol nfa inb sy = Ok out ->
  length out = length (bs_new (Z.of_nat (length nfa)))
  /\ forall t, member out t
               <-> exists s, member inb s /\ nfa_edge nfa sy s t.
Proof.
  exact (move_on_symbol_spec nfa inb sy out).
Qed.

Lemma move_on_symbol_members_witness :
  exists out,
    move_on_symbol [[mkEdge 1 "a"]; []] [1] "a" = Ok out
    /\ (member out 1
        <-> exists s, member [1] s /\ nfa_edge [[mkEdge 1 "a"]; []] "a" s 1).
Proof.
  eexists. split; [vm_compute; reflexivity|].
  match goal with
  | |- member ?o _ <-> _ =>
      destruct (move_on_symbol_members [[mkEdge 1 "a"]; []] [1] "a" o)
        as [_ H]
  end.
  - vm_compute. reflexivity.
  - apply H.
Defined.

(** *** Epsilon closure *)

Lemma closure_seed_spec (inb : Bitset) (N : Z) (q0 q : cells) (qt : Z) :
  0 <= N ->
  foldM (closure_seed inb) (zrange N) (q0, 0) = Ok (q, qt) ->
  0 <= qt
  /\ (forall i, 0 <= i < qt -> exists u, cget q i = Ok u /\ member inb u)
  /\ (forall s, 0 <= s < N -> member inb s ->
        exists i, 0 <= i < qt /\ cget q i = Ok s).
Proof.
  intros HN H.
  apply (foldM_zrange_inv
           (fun j (acc : cells * Z) =>
              0 <= snd acc
              /\ (forall i, 0 <= i < snd acc ->
                    exists u, cget (fst acc) i = Ok u /\ member inb u)
              /\ (forall s, 0 <= s < j -> member inb s ->
                    exists i, 0 <= i < snd acc /\ cget (fst acc) i = Ok s))
           (closure_seed inb) N (q0, 0) (q, qt) HN) in H; [exact H | |].
  - clear H q qt. intros j [q qt] [q' qt'] Hj (Hqt & Hq & Hs) H.
    cbn [fst snd] in *. unfold closure_seed in H.
    apply bind_Ok in H as (g & Hg & H).
    destruct (g =? 0) eqn:E.
    + inversion H; subst q' qt'; clear H.
      split; [exact Hqt|]. split; [exact Hq|].
      intros s Hsr Hm. apply Hs; [|exact Hm].
      assert (s <> j)
        by (intros ->; exact (bs_get_not_member _ _ _ Hg E Hm)).
      lia.
    + apply bind_Ok in H as (q1 & Hq1 & H).
      inversion H; subst q' qt'; clear H.
      split; [lia|]. split.
      * intros i Hi. destruct (Z.eq_dec i qt) as [->|Hne].
        -- exists j. split; [now apply cget_cset_same with (a := q)|].
           eapply bs_get_member; eauto.
        -- rewrite (cget_cset_other _ _ _ _ _ Hq1 Hne). apply Hq. lia.
      * intros s Hsr Hm. destruct (Z.eq_dec s j) as [->|Hne].
        -- exists qt. split; [lia|].
           now apply cget_cset_same with (a := q).
        -- destruct (Hs s ltac:(lia) Hm) as (i & Hi & Hc).
           exists i. split; [lia|].
           rewrite (cget_cset_other _ _ _ _ _ Hq1); [exact Hc | lia].
  - cbn [fst snd]. split; [lia|]. split; intros i Hi; lia.
Qed.

Lemma closure_edge_ok (nfa : list NFAState) (inb : Bitset) (u : Z)
  (edges pre : list Edge) (e : Edge) (st st' : closure_state) :
  aget nfa u = Ok edges -> In e edges ->
  closure_edges_ok nfa inb u pre st ->
  closure_edge st e = Ok st' ->
  closure_edges_ok nfa inb u (pre ++ [e]) st'.
Proof.
  intros Hedges He (L & Hb & Hin & Hreach & Hq & Hd & Hpre & Hu) H.
  unfold closure_edge in H.
  assert (Hsame : (sym e = zero -> member (cl_out st) (to e)) ->
                  closure_edges_ok nfa inb u (pre ++ [e]) st).
  { intros Hte. repeat split; auto; try lia.
    intros e' He' Hs. apply in_app_iff in He' as [He'|[->|[]]]; auto. }
  destruct (Ascii.eqb (sym e) zero) eqn:E.
  - apply Ascii.eqb_eq in E.
    apply bind_Ok in H as (g & Hg & H).
    destruct (g =? 0) eqn:Eg.
    + apply bind_Ok in H as (out' & Hout & H).
      apply bind_Ok in H as (q' & Hq' & H).
      inversion H; subst st'; clear H.
      destruct (bs_set_member _ _ _ Hout) as [L' Hm].
      assert (Hmono : forall v, member (cl_out st) v -> member out' v)
        by (intros v Hv; apply Hm; now right).
      unfold closure_edges_ok. cbn [cl_out cl_q cl_qh cl_qt].
      split; [congruence|]. split; [lia|].
      split; [intros v Hv; apply Hmono, Hin, Hv|].
      split; [|split; [|split; [|split]]].
      * intros v Hv. apply Hm in Hv as [->|Hv]; [|now apply Hreach].
        apply er_step with (u := u); [now apply Hreach|].
        exists edges. split; [exact Hedges|].
        rewrite <- E, <- edge_eta. exact He.
      * intros i Hi. destruct (Z.eq_dec i (cl_qt st)) as [->|Hne].
        -- exists (to e).
           split; [now apply cget_cset_same with (a := cl_q st)|].
           apply Hm. now left.
        -- rewrite (cget_cset_other _ _ _ _ _ Hq' Hne).
           destruct (Hq i ltac:(lia)) as (x & Hx & Hxm).
           exists x. split; [exact Hx | now apply Hmono].
      * intros u' Hu'. unfold in_queue. cbn [cl_q cl_qh cl_qt].
        apply Hm in Hu' as [->|Hu'].
        -- left. exists (cl_qt st). split; [lia|].
           now apply cget_cset_same with (a := cl_q st).
        -- destruct (Hd u' Hu') as [(i & Hi & Hc)|[Hc|Hc]].
           ++ left. exists i. split; [lia|].
              rewrite (cget_cset_other _ _ _ _ _ Hq'); [exact Hc | lia].
           ++ right. left. intros v Hv. apply Hmono, Hc, Hv.
           ++ right. right. exact Hc.
      * intros e' He' Hs. apply in_app_iff in He' as [He'|[->|[]]].
        -- apply Hmono. now apply Hpre.
        -- apply Hm. now left.
      * now apply Hmono.
    + inversion H; subst st'; clear H. apply Hsame.
      intros _. eapply bs_get_member; eauto.
  - inversion H; subst st'; clear H. apply Hsame.
    intros Hz. apply Ascii.eqb_neq in E. contradiction.
Qed.

Lemma closure_body_ok (nfa : list NFAState) (inb : Bitset)
  (st st' : closure_state) :
  closure_ok nfa inb st ->
  (cl_qh st <? cl_qt st) = true ->
  closure_body nfa st = Ok st' ->
  closure_ok nfa inb st'.
Proof.
  intros (L & Hb & Hin & Hreach & Hq & Hd) Hlt H.
  apply Z.ltb_lt in Hlt. unfold closure_body in H.
  apply bind_Ok in H as (u & Hu & H).
  apply bind_Ok in H as (edges & Hedges & H).
  assert (Hum : member (cl_out st) u).
  { destruct (Hq (cl_qh st) ltac:(lia)) as (x & Hx & Hxm). congruence. }
  apply (foldM_prefix_inv (closure_edges_ok nfa inb u)) in H.
  - destruct H as (L' & Hb' & Hin' & Hreach' & Hq' & Hd' & Hpre' & Hu').
    repeat split; auto; try lia.
    intros u' Hu'm. destruct (Hd' u' Hu'm) as [Hc|[Hc| ->]]; auto.
    right. intros v (edges' & He' & Hv).
    assert (edges' = edges) by congruence. subst edges'.
    exact (Hpre' _ Hv eq_refl).
  - intros p e s s' He. now apply closure_edge_ok with (edges := edges).
  - unfold closure_edges_ok. cbn [cl_out cl_q cl_qh cl_qt].
    repeat split; auto; try lia.
    + intros u' Hu'm. destruct (Hd u' Hu'm) as [(i & Hi & Hc)|Hc].
      * destruct (Z.eq_dec i (cl_qh st)) as [->|Hne].
        -- right. right. congruence.
        -- left. exists i. cbn [cl_q cl_qh cl_qt]. split; [lia | exact Hc].
      * right. left. exact Hc.
    + intros e [].
Qed.

Lemma eps_closure_spec (nfa : list NFAState) (inb out : Bitset) :
  eps_closure nfa inb = Ok out ->
  length out = length inb
  /\ forall v, member out v <-> eps_reach nfa inb v.
Proof.
  intros H. unfold eps_closure in H.
  apply bind_Ok in H as ([q qt] & Hseed & H).
  apply bind_Ok in H as (st & Hloop & H). inversion H; subst out; clear H.
  destruct (closure_seed_spec _ _ _ _ _ (Zle_0_nat _) Hseed)
    as (Hqt & Hq & Hs).
  apply (while_fuel_inv (closure_ok nfa inb)) in Hloop.
  - destruct Hloop as [(L & Hb & Hin & Hreach & _ & Hd) Hc].
    apply Z.ltb_ge in Hc.
    split; [exact L|]. intros v. split; [apply Hreach|].
    induction 1 as [v Hv | u v Hu IH Huv]; [now apply Hin|].
    destruct (Hd u IH) as [(i & Hi & _)|Hcl]; [lia|].
    now apply Hcl.
  - intros s s'. apply closure_body_ok.
  - unfold closure_ok. cbn [cl_out cl_q cl_qh cl_qt].
    split; [reflexivity|]. split; [lia|]. split; [auto|].
    split; [intros v Hv; now apply er_member|]. split; [exact Hq|].
    intros u Hu.
    destruct (Z.lt_ge_cases u (Z.of_nat (length nfa))) as [Hlt|Hge].
    + left. destruct (Hs u) as (i & Hi & Hc); [|exact Hu|].
      * split; [now apply (member_nonneg inb) | exact Hlt].
      * exists i. cbn [cl_q cl_qh cl_qt]. split; [lia | exact Hc].
    + right. intros v (edges & He & _).
      apply aget_Ok in He as [He _]. lia.
Qed.

(** The set [eps_closure] returns: it has the width of its input, and a
    state is in it exactly when it is in the input set or is reached from
    a member of the input set by epsilon edges. *)
Theorem eps_closure_members (nfa : list NFAState) (inb out : Bitset) :
  eps_closure nfa inb = Ok out ->
  length out = length inb
  /\ forall v, member out v <-> eps_reach nfa inb v.
Proof.
  exact (eps_closure_spec nfa inb out).
Qed.

Lemma eps_closure_members_witness :
  exists out,
    eps_closure [[mkEdge 1 zero]; []] [1] = Ok out
    /\ (member out 1 <-> eps_reach [[mkEdge 1 zero]; []] [1] 1).
Proof.
  eexists. split; [vm_compute; reflexivity|].
  match goal with
  | |- member ?o _ <-> _ =>
      destruct (eps_closure_members [[mkEdge 1 zero]; []] [1] o) as [_ H]
  end.
  - vm_compute. reflexivity.
  - apply H.
Defined.

End Closure.

(* ================================================================== *)
(** ** The table of the subset construction *)

Section SubsetRows.
Import Regex2MinDfa Spec Props.

Lemma bs_eq_eq (a b : Bitset) :
  length a = length b -> bs_eq a b = true -> a = b.
Proof.
  revert b; induction a as [|x a IH]; intros [|y b] L H; simpl in *;
    try discriminate; [reflexivity|].
  destruct (x =? y) eqn:E; simpl in H; [|discriminate].
  apply Z.eqb_eq in E. subst. f_equal. apply IH; [lia | exact H].
Qed.

Lemma find_dfa_state_from_found (dfa : list DFAState) (s : Bitset) :
  forall i, 0 <= i -> i <= find_dfa_state_from dfa i s ->
    exists d, aget dfa (find_dfa_state_from dfa i s - i) = Ok d
              /\ bs_eq (set d) s = true.
Proof.
  induction dfa as [|d dfa IH]; intros i Hi Hr; simpl in *; [lia|].
  destruct (bs_eq (set d) s) eqn:E.
  - exists d. rewrite Z.sub_diag. auto.
  - destruct (find_dfa_state_from_spec dfa s (i + 1)) as [[Hm _]|Hrange];
      [lia|].
    destruct (IH (i + 1) ltac:(lia) ltac:(lia)) as (d' & Hd' & Hb).
    exists d'. split; [|exact Hb].
    pose proof (aget_Ok _ _ _ Hd') as [Hr' _]. unfold aget in *.
    destruct (Z.ltb_spec (find_dfa_state_from dfa (i + 1) s - (i + 1)) 0);
      [lia|].
    destruct (Z.ltb_spec (find_dfa_state_from dfa (i + 1) s - i) 0); [lia|].
    replace (Z.to_nat (find_dfa_state_from dfa (i + 1) s - i))
      with (S (Z.to_nat (find_dfa_state_from dfa (i + 1) s - (i + 1))))
      by lia.
    exact Hd'.
Qed.

Lemma aget_app_l {A : Type} (l r : list A) (i : Z) (x : A) :
  aget l i = Ok x -> aget (l ++ r) i = Ok x.
Proof.
  intros H. pose proof (aget_Ok _ _ _ H) as [Hi _]. unfold aget in *.
  destruct (i <? 0); [discriminate|].
  rewrite nth_error_app1 by lia. exact H.
Qed.

Lemma aget_app_last {A : Type} (l : list A) (x : A) :
  aget (l ++ [x]) (Z.of_nat (length l)) = Ok x.
Proof.
  unfold aget. destruct (Z.ltb_spec (Z.of_nat (length l)) 0); [lia|].
  rewrite Nat2Z.id, nth_error_app2 by lia.
  now rewrite Nat.sub_diag.
Qed.

Lemma aget_map {A B : Type} (f : A -> B) (l : list A) (i : Z) (x : A) :
  aget l i = Ok x -> aget (map f l) i = Ok (f x).
Proof.
  unfold aget. destruct (i <? 0); [discriminate|].
  rewrite nth_error_map.
  destruct (nth_error l (Z.to_nat i)); [|discriminate].
  intros H; inversion H; subst. reflexivity.
Qed.

Lemma aget_map_inv {A B : Type} (f : A -> B) (l : list A) (i : Z) (y : B) :
  aget (map f l) i = Ok y -> exists x, aget l i = Ok x /\ f x = y.
Proof.
  unfold aget. destruct (i <? 0); [discriminate|].
  rewrite nth_error_map.
  destruct (nth_error l (Z.to_nat i)) as [x|]; [|discriminate].
  intros H; inversion H; subst. eauto.
Qed.

Lemma cell_app (dfa extra : list DFAState) (id ai v : Z) :
  cell dfa id ai = Ok v -> cell (dfa ++ extra) id ai = Ok v.
Proof.
  unfold cell. intros H. apply bind_Ok in H as (d & Hd & H).
  now rewrite (aget_app_l _ extra _ _ Hd).
Qed.

Lemma set_trans_cells (dfa dfa' : list DFAState) (id0 ai0 v : Z) :
  set_trans dfa id0 ai0 v = Ok dfa' ->
  map set dfa' = map set dfa
  /\ length dfa' = length dfa
  /\ (forall (Q : DFAState -> Prop),
        (forall d tr, Q d -> Q (mkDFAState (set d) (is_accept d) tr)) ->
        Forall Q dfa -> Forall Q dfa')
  /\ cell dfa' id0 ai0 = Ok v
  /\ (forall id ai, 0 <= id -> 0 <= ai -> id <> id0 \/ ai <> ai0 ->
        cell dfa' id ai = cell dfa id ai).
Proof.
  intros H. unfold set_trans in H.
  apply bind_Ok in H as (d & Hd & H).
  apply bind_Ok in H as (tr & Htr & H).
  split; [|split; [|split; [|split]]].
  - apply aset_Ok in H as [_ ->].
    apply (list_set_map_same set _ _ _ d); [|reflexivity].
    now apply aget_nth_error.
  - exact (aset_length _ _ _ _ H).
  - intros Q HQ Hall. eapply aset_Forall; [exact H | exact Hall |].
    apply HQ. apply aget_Ok in Hd as [_ Hin].
    rewrite Forall_forall in Hall. now apply Hall.
  - unfold cell. rewrite (aget_aset_same _ _ _ _ H). cbn [bind trans].
    exact (aget_aset_same _ _ _ _ Htr).
  - intros id ai Hid Hai Hne. unfold cell.
    destruct (Z.eq_dec id id0) as [->|Hn].
    + rewrite (aget_aset_same _ _ _ _ H), Hd. cbn [bind trans].
      apply (aget_aset_other _ _ _ _ _ Htr); [exact Hai|].
      destruct Hne as [Hne|Hne]; [congruence | exact Hne].
    + now rewrite (aget_aset_other _ _ _ _ _ H Hid Hn).
Qed.

Lemma row_done_keep (nfa : list NFAState) (dfa dfa' : list DFAState)
  (id ai : Z) (sy : ascii) :
  (forall i S, aget (map set dfa) i = Ok S -> aget (map set dfa') i = Ok S) ->
  (forall v, cell dfa id ai = Ok v -> cell dfa' id ai = Ok v) ->
  row_done nfa dfa id ai sy -> row_done nfa dfa' id ai sy.
Proof.
  intros Hsets Hcell (S & mv & HS & Hmv & Hrow).
  exists S, mv. split; [now apply Hsets|]. split; [exact Hmv|].
  destruct (bs_empty mv); [now apply Hcell|].
  destruct Hrow as (t & cl & Ht & Hcl & Hset).
  exists t, cl. auto.
Qed.

Lemma eps_closure_length (nfa : list NFAState) (inb out : Bitset) :
  eps_closure nfa inb = Ok out -> length out = length inb.
Proof. intros H. now apply eps_closure_spec in H. Qed.

Lemma move_on_symbol_length (nfa : list NFAState) (inb out : Bitset)
  (sy : ascii) :
  move_on_symbol nfa inb sy = Ok out ->
  length out = length (bs_new (Z.of_nat (length nfa))).
Proof. intros H. now apply move_on_symbol_spec in H. Qed.

Lemma subset_symbol_rows (sigma : list ascii) (nfa : list NFAState)
  (nfa_accept : Z) (init_cl : Bitset) (id j : Z) (st st' : subset_state) :
  0 <= id < ss_qt st -> 0 <= j ->
  subset_rows_ok sigma nfa nfa_accept init_cl id j st ->
  subset_symbol sigma nfa nfa_accept id st j = Ok st' ->
  ss_qh st' = ss_qh st /\ ss_qt st <= ss_qt st'
  /\ subset_rows_ok sigma nfa nfa_accept init_cl id (j + 1) st'.
Proof.
  intros Hid Hj (Hsets & H0 & Hqt & Hqh & Hq & Hdone & Hrow) H.
  unfold subset_symbol in H.
  apply bind_Ok in H as (sy & Hsy & H).
  apply bind_Ok in H as (d & Hd & H).
  apply bind_Ok in H as (mv & Hmv & H).
  pose proof (aget_map set _ _ _ Hd) as HS.
  (* what a write to the cell (id, j) of a table with the same sets and
     at least the same states gives *)
  assert (Hfinish :
    forall dfa1 dfa' v q' qt',
      (forall i S, aget (map set (ss_dfa st)) i = Ok S ->
                   aget (map set dfa1) i = Ok S) ->
      (forall id' ai v', cell (ss_dfa st) id' ai = Ok v' ->
                         cell dfa1 id' ai = Ok v') ->
      Forall (fun d => length (set d)
                       = length (bs_new (Z.of_nat (length nfa)))
                       /\ bs_get (set d) nfa_accept = Ok (is_accept d)) dfa1 ->
      set_trans dfa1 id j v = Ok dfa' ->
      qt' = Z.of_nat (length dfa1) -> ss_qt st <= qt' ->
      (forall i, 0 <= i < qt' -> cget q' i = Ok i) ->
      (if bs_empty mv then v = -1
       else exists cl, eps_closure nfa mv = Ok cl
                       /\ aget (map set dfa1) v = Ok cl) ->
      subset_rows_ok sigma nfa nfa_accept init_cl id (j + 1)
        (mkSubset dfa' q' (ss_qh st) qt')).
  { intros dfa1 dfa' v q' qt' Hs1 Hc1 Hall Hset Hqt' Hle Hq' Hv.
    destruct (set_trans_cells _ _ _ _ _ Hset)
      as (Hmap & Hlen & HQ & Hcell & Hother).
    unfold subset_rows_ok. cbn [ss_dfa ss_q ss_qh ss_qt].
    split; [|split; [|split; [|split; [|split; [|split]]]]].
    - apply HQ; [|exact Hall]. intros d0 tr Hd0. exact Hd0.
    - rewrite Hmap. now apply Hs1.
    - now rewrite Hlen.
    - lia.
    - exact Hq'.
    - intros id' ai sy' Hid' Hai.
      apply (row_done_keep nfa (ss_dfa st)); [| |now apply Hdone].
      + intros i S Hi. rewrite Hmap. now apply Hs1.
      + intros v' Hv'. rewrite Hother.
        * now apply Hc1.
        * lia.
        * now apply aget_Ok in Hai as [Hai _].
        * left. lia.
    - intros ai sy' Hai Hsy'.
      destruct (Z.eq_dec ai j) as [->|Hne].
      + assert (sy' = sy) by congruence. subst sy'.
        exists (set d), mv. split; [rewrite Hmap; now apply Hs1|].
        split; [exact Hmv|].
        destruct (bs_empty mv).
        * now subst v.
        * destruct Hv as (cl & Hcl & Hvcl).
          exists v, cl. rewrite Hmap. auto.
      + apply (row_done_keep nfa (ss_dfa st));
          [| |apply Hrow; [lia | exact Hsy']].
        * intros i S Hi. rewrite Hmap. now apply Hs1.
        * intros v' Hv'. rewrite Hother; [now apply Hc1 | lia | lia|].
          right. exact Hne. }
  destruct (bs_empty mv) eqn:Eempty.
  { apply bind_Ok in H as (dfa' & Hset & H). inversion H; subst st'; clear H.
    cbn [ss_qh ss_qt]. split; [reflexivity|]. split; [lia|].
    apply (Hfinish (ss_dfa st) dfa' (-1)); auto; lia. }
  apply bind_Ok in H as (cl & Hcl & H).
  assert (Lcl : length cl = length (bs_new (Z.of_nat (length nfa)))).
  { rewrite (eps_closure_length _ _ _ Hcl).
    exact (move_on_symbol_length _ _ _ _ Hmv). }
  destruct (find_dfa_state (ss_dfa st) cl <? 0) eqn:E.
  - apply bind_Ok in H as ([dfa1 ex] & Hadd & H).
    apply bind_Ok in H as (q' & Hq' & H).
    apply bind_Ok in H as (dfa' & Hset & H). inversion H; subst st'; clear H.
    cbn [ss_qh ss_qt]. split; [reflexivity|]. split; [lia|].
    unfold dfa_add_state in Hadd.
    destruct (Z.of_nat (length (ss_dfa st)) >=? MAX_DFA_STATES);
      [discriminate|].
    apply bind_Ok in Hadd as (acc & Hacc & Hadd).
    inversion Hadd; subst dfa1 ex; clear Hadd.
    refine (Hfinish _ dfa' (Z.of_nat (length (ss_dfa st))) q'
              (ss_qt st + 1) _ _ _ Hset _ _ _ _).
    + intros i S Hi. rewrite map_app. now apply aget_app_l.
    + intros id' ai v' Hv'. now apply cell_app.
    + apply Forall_app. split; [exact Hsets|].
      constructor; [|constructor]. cbn [set is_accept]. auto.
    + rewrite length_app. simpl. lia.
    + lia.
    + intros i Hi. destruct (Z.eq_dec i (ss_qt st)) as [->|Hne].
      * rewrite (cget_cset_same _ _ _ _ Hq'). congruence.
      * rewrite (cget_cset_other _ _ _ _ _ Hq' Hne). apply Hq. lia.
    + exists cl. split; [exact Hcl|].
      rewrite map_app. cbn [map set].
      rewrite <- (length_map set (ss_dfa st)). apply aget_app_last.
  - apply Z.ltb_ge in E.
    apply bind_Ok in H as (dfa' & Hset & H). inversion H; subst st'; clear H.
    cbn [ss_qh ss_qt]. split; [reflexivity|]. split; [lia|].
    apply (Hfinish (ss_dfa st) dfa' (find_dfa_state (ss_dfa st) cl));
      auto; try lia.
    exists cl. split; [exact Hcl|].
    unfold find_dfa_state in *.
    destruct (find_dfa_state_from_found (ss_dfa st) cl 0 ltac:(lia) E)
      as (d' & Hd' & Hb).
    rewrite Z.sub_0_r in Hd'.
    rewrite (aget_map set _ _ _ Hd'). f_equal.
    apply bs_eq_eq; [|exact Hb].
    apply aget_Ok in Hd' as [_ Hin]. rewrite Forall_forall in Hsets.
    destruct (Hsets d' Hin) as [L _]. congruence.
Qed.

Lemma subset_body_rows (sigma : list ascii) (nfa : list NFAState)
  (nfa_accept : Z) (init_cl : Bitset) (st st' : subset_state) :
  subset_rows_ok sigma nfa nfa_accept init_cl (ss_qh st) 0 st ->
  (ss_qh st <? ss_qt st) = true ->
  subset_body sigma nfa nfa_accept st = Ok st' ->
  subset_rows_ok sigma nfa nfa_accept init_cl (ss_qh st') 0 st'.
Proof.
  intros Hinv Hlt H. apply Z.ltb_lt in Hlt.
  pose proof Hinv as (Hsets & H0 & Hqt & Hqh & Hq & Hdone & Hrow).
  unfold subset_body in H.
  apply bind_Ok in H as (id & Hid & H).
  rewrite (Hq (ss_qh st)) in Hid by lia. inversion Hid; subst id; clear Hid.
  apply (foldM_zrange_inv
           (fun j s =>
              ss_qh s = ss_qh st + 1 /\ ss_qt st <= ss_qt s
              /\ subset_rows_ok sigma nfa nfa_accept init_cl (ss_qh st) j s)
           _ _ _ _ (Zle_0_nat _)) in H.
  - destruct H as (Eqh & Hle & (Hsets' & H0' & Hqt' & Hqh' & Hq' & Hdone'
                                & Hrow')).
    rewrite Eqh. unfold subset_rows_ok.
    split; [exact Hsets'|]. split; [exact H0'|]. split; [exact Hqt'|].
    split; [exact Hqh'|]. split; [exact Hq'|]. split.
    + intros id' ai sy Hid' Hai.
      destruct (Z.eq_dec id' (ss_qh st)) as [->|Hne].
      * apply Hrow'; [|exact Hai]. now apply aget_Ok in Hai as [Hai _].
      * apply Hdone'; [lia | exact Hai].
    + intros ai sy Hai. lia.
  - intros j s s' Hj (Eqh & Hle & Hs) Hstep.
    assert (Hid : 0 <= ss_qh st < ss_qt s) by lia.
    assert (Hj0 : 0 <= j) by lia.
    destruct (subset_symbol_rows _ _ _ _ _ _ _ _ Hid Hj0 Hs Hstep)
      as (Eqh' & Hle' & Hs').
    split; [congruence|]. split; [lia | exact Hs'].
  - cbn [ss_qh ss_qt]. split; [reflexivity|]. split; [lia|].
    unfold subset_rows_ok. cbn [ss_dfa ss_q ss_qh ss_qt].
    split; [exact Hsets|]. split; [exact H0|]. split; [exact Hqt|].
    split; [lia|]. split; [exact Hq|]. split; [exact Hdone|].
    intros ai sy Hai. lia.
Qed.

Lemma nfa_to_dfa_rows_spec (sigma : list ascii) (nfa : list NFAState)
  (nfa_start nfa_accept : Z) (dfa : list DFAState) :
  nfa_to_dfa sigma nfa nfa_start nfa_accept = Ok dfa ->
  (exists init d0,
      bs_set (bs_new (Z.of_nat (length nfa))) nfa_start = Ok init
      /\ aget dfa 0 = Ok d0
      /\ eps_closure nfa init = Ok (set d0))
  /\ forall id d, aget dfa id = Ok d ->
       bs_get (set d) nfa_accept = Ok (is_accept d)
       /\ forall ai sy, aget sigma ai = Ok sy ->
            exists mv,
              move_on_symbol nfa (set d) sy = Ok mv
              /\ if bs_empty mv then aget (trans d) ai = Ok (-1)
                 else exists t d',
                     aget (trans d) ai = Ok t
                     /\ aget dfa t = Ok d'
                     /\ eps_closure nfa mv = Ok (set d').
Proof.
  intros H. unfold nfa_to_dfa in H.
  apply bind_Ok in H as (init & Hinit & H).
  apply bind_Ok in H as (init_cl & Hcl & H).
  apply bind_Ok in H as ([dfa0 x] & Hadd & H).
  apply bind_Ok in H as (q & Hq & H).
  apply bind_Ok in H as (st & Hloop & H). inversion H; subst dfa; clear H.
  unfold dfa_add_state in Hadd. cbn [length] in Hadd.
  destruct (Z.of_nat 0 >=? MAX_DFA_STATES); [discriminate|].
  apply bind_Ok in Hadd as (acc & Hacc & Hadd).
  inversion Hadd; subst dfa0 x; clear Hadd.
  apply (while_fuel_inv
           (fun s => subset_rows_ok sigma nfa nfa_accept init_cl
                       (ss_qh s) 0 s)) in Hloop.
  - destruct Hloop as [(Hsets & H0 & Hqt & Hqh & _ & Hdone & _) Hc].
    apply Z.ltb_ge in Hc. split.
    + apply aget_map_inv in H0 as (d0 & Hd0 & Hs0).
      exists init, d0. rewrite Hs0. auto.
    + intros id d Hd. pose proof (aget_Ok _ _ _ Hd) as [Hid Hin].
      rewrite Forall_forall in Hsets. destruct (Hsets d Hin) as [_ Ha].
      split; [exact Ha|]. intros ai sy Hai.
      destruct (Hdone id ai sy ltac:(lia) Hai) as (S & mv & HS & Hmv & Hrow).
      rewrite (aget_map set _ _ _ Hd) in HS. inversion HS; subst S.
      exists mv. split; [exact Hmv|].
      unfold cell in Hrow. rewrite Hd in Hrow. cbn [bind] in Hrow.
      destruct (bs_empty mv); [exact Hrow|].
      destruct Hrow as (t & cl & Ht & Hcl' & Hset).
      apply aget_map_inv in Hset as (d' & Hd' & Hs').
      exists t, d'. rewrite Hs'. auto.
  - intros s s'. apply subset_body_rows.
  - unfold subset_rows_ok. cbn [ss_dfa ss_q ss_qh ss_qt app map set length].
    split; [|split; [|split; [|split; [|split; [|split]]]]].
    + constructor; [|constructor]. cbn [set is_accept].
      split; [|exact Hacc].
      rewrite (eps_closure_length _ _ _ Hcl).
      now destruct (bs_set_spec _ _ _ Hinit) as (_ & L & _).
    + reflexivity.
    + reflexivity.
    + lia.
    + intros i Hi. replace i with 0 by lia.
      now apply cget_cset_same with (a := xmalloc_ints MAX_DFA_STATES).
    + intros id' ai sy Hid'. lia.
    + intros ai sy Hai. lia.
Qed.

(** The table [nfa_to_dfa] returns is that of the subset construction:
    state 0 carries the closure of the start state; the accepting flag of
    a state is the bit of the accepting NFA state in its set; and its cell
    for a symbol is -1 if [move_on_symbol] gives the empty set, and else
    the state that carries the closure of that set. *)
Theorem nfa_to_dfa_rows (sigma : list ascii) (nfa : list NFAState)
  (nfa_start nfa_accept : Z) (dfa : list DFAState) :
  nfa_to_dfa sigma nfa nfa_start nfa_accept = Ok dfa ->
  (exists init d0,
      bs_set (bs_new (Z.of_nat (length nfa))) nfa_start = Ok init
      /\ aget dfa 0 = Ok d0
      /\ eps_closure nfa init = Ok (set d0))
  /\ forall id d, aget dfa id = Ok d ->
       bs_get (set d) nfa_accept = Ok (is_accept d)
       /\ forall ai sy, aget sigma ai = Ok sy ->
            exists mv,
              move_on_symbol nfa (set d) sy = Ok mv
              /\ if bs_empty mv then aget (trans d) ai = Ok (-1)
                 else exists t d',
                     aget (trans d) ai = Ok t
                     /\ aget dfa t = Ok d'
                     /\ eps_closure nfa mv = Ok (set d').
Proof.
  exact (nfa_to_dfa_rows_spec sigma nfa nfa_start nfa_accept dfa).
Qed.

Lemma nfa_to_dfa_rows_witness :
  exists dfa,
    nfa_to_dfa (str "a") [[mkEdge 1 "a"]; []] 0 1 = Ok dfa
    /\ forall id d, aget dfa id = Ok d ->
         bs_get (set d) 1 = Ok (is_accept d).
Proof.
  eexists. split; [vm_compute; reflexivity|].
  match goal with
  | |- forall id d, aget ?dfa _ = _ -> _ =>
      destruct (nfa_to_dfa_rows (str "a") [[mkEdge 1 "a"]; []] 0 1 dfa)
        as [_ H]
  end.
  - vm_compute. reflexivity.
  - intros id d Hd. exact (proj1 (H id d Hd)).
Defined.

(** *** The language of the table *)

Lemma bs_empty_no_member (b : Bitset) (v : Z) :
  bs_empty b = true -> ~ member b v.
Proof.
  intros He Hm. unfold member, bs_get in Hm.
  apply bind_Ok in Hm as (w & Hw & Hm).
  apply aget_Ok in Hw as [_ Hin].
  assert (Hz : w = 0).
  { clear Hm. induction b as [|x b IH]; [destruct Hin|].
    simpl in He. destruct (x =? 0) eqn:E; simpl in He; [|discriminate].
    apply Z.eqb_eq in E. destruct Hin as [->|Hin]; [exact E | now apply IH]. }
  subst w. rewrite Z.shiftr_0_l in Hm. discriminate.
Qed.

Lemma nfa_reach_last (nfa : list NFAState) (s : Z) (w : list ascii)
  (c : ascii) (v : Z) :
  nfa_reach nfa s (w ++ [c]) v ->
  exists u m, nfa_reach nfa s w u /\ nfa_edge nfa c u m.
Proof.
  intros H. remember (w ++ [c]) as w' eqn:E.
  induction H as [|w0 u v Hu IH Huv|w0 c0 u v Hu IH Huv].
  - destruct w; discriminate.
  - now apply IH.
  - apply app_inj_tail in E as [-> ->]. eauto.
Qed.

Lemma table_run_sets (sigma : list ascii) (nfa : list NFAState)
  (nfa_start nfa_accept : Z) (dfa : list DFAState) :
  nfa_to_dfa sigma nfa nfa_start nfa_accept = Ok dfa ->
  forall w id, table_run sigma dfa w id ->
    forall d, aget dfa id = Ok d ->
      forall v, member (set d) v <-> nfa_reach nfa nfa_start w v.
Proof.
  intros H.
  destruct (nfa_to_dfa_rows_spec _ _ _ _ _ H)
    as [(init & d0 & Hinit & Hd0 & Hcl0) Hrows].
  induction 1 as [|w c id ai t Hrun IH Hc Hcell Ht]; intros d Hd v.
  - assert (d = d0) by congruence. subst d.
    destruct (eps_closure_spec _ _ _ Hcl0) as [_ Hm]. rewrite Hm.
    destruct (bs_set_member _ _ _ Hinit) as [_ Hi].
    assert (Hinit_m : forall x, member init x <-> x = nfa_start).
    { intros x. rewrite Hi. split; [|auto].
      intros [->|Hx]; [reflexivity|]. now apply bs_new_no_member in Hx. }
    split.
    + induction 1 as [x Hx | u x Hu IHu Hux].
      * apply Hinit_m in Hx. subst. constructor.
      * now apply nr_eps with (u := u).
    + intros Hr. remember [] as w0 eqn:E.
      induction Hr as [|w0 u x Hu IHu Hux|w0 c0 u x Hu IHu Hux].
      * apply er_member. now apply Hinit_m.
      * apply er_step with (u := u); auto.
      * destruct w0; discriminate.
  - unfold cell in Hcell. apply bind_Ok in Hcell as (di & Hdi & Hcell).
    destruct (Hrows id di Hdi) as [_ Hrow].
    destruct (Hrow ai c Hc) as (mv & Hmv & Hcase).
    destruct (move_on_symbol_spec _ _ _ _ Hmv) as [_ Hmove].
    destruct (bs_empty mv).
    { rewrite Hcell in Hcase. inversion Hcase. lia. }
    destruct Hcase as (t' & d' & Ht' & Hd' & Hcl).
    assert (t' = t) by congruence. subst t'.
    assert (d' = d) by congruence. subst d'.
    destruct (eps_closure_spec _ _ _ Hcl) as [_ Hm]. rewrite Hm.
    split.
    + induction 1 as [x Hx | u x Hu IHu Hux].
      * apply Hmove in Hx as (u & Hu & Hux).
        apply nr_sym with (u := u); [|exact Hux].
        now apply (IH di Hdi).
      * now apply nr_eps with (u := u).
    + intros Hr. remember (w ++ [c]) as w' eqn:E.
      induction Hr as [|w0 u x Hu IHu Hux|w0 c0 u x Hu IHu Hux].
      * destruct w; discriminate.
      * apply er_step with (u := u); auto.
      * apply app_inj_tail in E as [-> ->].
        apply er_member, Hmove. exists u. split; [|exact Hux].
        now apply (IH di Hdi).
Qed.

Lemma table_run_exists (sigma : list ascii) (nfa : list NFAState)
  (nfa_start nfa_accept : Z) (dfa : list DFAState) :
  nfa_to_dfa sigma nfa nfa_start nfa_accept = Ok dfa ->
  forall w, Forall (fun c => In c sigma) w ->
    (exists v, nfa_reach nfa nfa_start w v) ->
    exists id d, table_run sigma dfa w id /\ aget dfa id = Ok d.
Proof.
  intros H.
  destruct (nfa_to_dfa_rows_spec _ _ _ _ _ H)
    as [(init & d0 & Hinit & Hd0 & Hcl0) Hrows].
  induction w as [|c w IH] using rev_ind; intros Hw (v & Hv).
  - exists 0, d0. split; [constructor | exact Hd0].
  - apply Forall_app in Hw as [Hw Hc].
    apply Forall_inv in Hc.
    destruct (nfa_reach_last _ _ _ _ _ Hv) as (u & m & Hu & Hum).
    destruct (IH Hw (ex_intro _ u Hu)) as (id & d & Hrun & Hd).
    destruct (In_nth_error _ _ Hc) as (n & Hn).
    assert (Hai : aget sigma (Z.of_nat n) = Ok c).
    { unfold aget. destruct (Z.ltb_spec (Z.of_nat n) 0); [lia|].
      now rewrite Nat2Z.id, Hn. }
    destruct (Hrows id d Hd) as [_ Hrow].
    destruct (Hrow _ _ Hai) as (mv & Hmv & Hcase).
    destruct (move_on_symbol_spec _ _ _ _ Hmv) as [_ Hmove].
    assert (Hm : member mv m).
    { apply Hmove. exists u. split; [|exact Hum].
      now apply (table_run_sets _ _ _ _ _ H w id Hrun d Hd). }
    destruct (bs_empty mv) eqn:E.
    { now apply bs_empty_no_member with (v := m) in E. }
    destruct Hcase as (t & d' & Ht & Hd' & _).
    exists t, d'. split; [|exact Hd'].
    apply tr_step with (id := id) (ai := Z.of_nat n); auto.
    + unfold cell. now rewrite Hd.
    + now apply aget_Ok in Hd' as [Hd' _].
Qed.

Lemma nfa_to_dfa_language_spec (sigma : list ascii) (nfa : list NFAState)
  (nfa_start nfa_accept : Z) (dfa : list DFAState) (w : list ascii) :
  nfa_to_dfa sigma nfa nfa_start nfa_accept = Ok dfa ->
  Forall (fun c => In c sigma) w ->
  (nfa_reach nfa nfa_start w nfa_accept
   <-> exists id d, table_run sigma dfa w id /\ aget dfa id = Ok d
                    /\ is_accept d = 1).
Proof.
  intros H Hw.
  destruct (nfa_to_dfa_rows_spec _ _ _ _ _ H) as [_ Hrows].
  split.
  - intros Hr.
    destruct (table_run_exists _ _ _ _ _ H w Hw (ex_intro _ _ Hr))
      as (id & d & Hrun & Hd).
    exists id, d. split; [exact Hrun|]. split; [exact Hd|].
    apply (table_run_sets _ _ _ _ _ H w id Hrun d Hd) in Hr.
    destruct (Hrows id d Hd) as [Ha _]. unfold member in Hr. congruence.
  - intros (id & d & Hrun & Hd & Hacc).
    apply (table_run_sets _ _ _ _ _ H w id Hrun d Hd).
    destruct (Hrows id d Hd) as [Ha _]. unfold member. congruence.
Qed.

(** The table [nfa_to_dfa] returns accepts the words the NFA accepts: for
    a word over the alphabet, the NFA can go from its start state to its
    accepting state reading the word exactly when the run of the table on
    the word ends in a state whose accepting flag is 1. *)
Theorem nfa_to_dfa_language (sigma : list ascii) (nfa : list NFAState)
  (nfa_start nfa_accept : Z) (dfa : list DFAState) (w : list ascii) :
  nfa_to_dfa sigma nfa nfa_start nfa_accept = Ok dfa ->
  Forall (fun c => In c sigma) w ->
  (nfa_reach nfa nfa_start w nfa_accept
   <-> exists id d, table_run sigma dfa w id /\ aget dfa id = Ok d
                    /\ is_accept d = 1).
Proof.
  exact (nfa_to_dfa_language_spec sigma nfa nfa_start nfa_accept dfa w).
Qed.

Lemma nfa_to_dfa_language_witness :
  exists dfa,
    nfa_to_dfa (str "a") [[mkEdge 1 "a"]; []] 0 1 = Ok dfa
    /\ (nfa_reach [[mkEdge 1 "a"]; []] 0 (str "a") 1
        <-> exists id d, table_run (str "a") dfa (str "a") id
                         /\ aget dfa id = Ok d /\ is_accept d = 1).
Proof.
  eexists. split; [vm_compute; reflexivity|].
  apply (nfa_to_dfa_language (str "a") [[mkEdge 1 "a"]; []] 0 1).
  - vm_compute. reflexivity.
  - repeat constructor.
Defined.

End SubsetRows.

(* ================================================================== *)
(** ** The language of the emitted file *)

Section Quotient.
Import Regex2MinDfa Spec Props.

Lemma dfa_minimize_dead (k : Z) (dfa : list DFAState) (m : minimized) :
  dfa_minimize k dfa = Ok m ->
  let N := Z.of_nat (length dfa)
           + (if negb (need_dead_of dfa =? 0) then 1 else 0) in
  m_need_dead m = need_dead_of dfa
  /\ m_dead m = (if negb (need_dead_of dfa =? 0) then N - 1 else -1).
Proof.
  unfold dfa_minimize.
  match goal with
  | |- context [if ?b then _ else _] => destruct b
  end.
  - intros H. inversion H; subst. simpl. auto.
  - intros H.
    apply bind_Ok in H as (P1 & _ & H).
    apply bind_Ok in H as (P2 & _ & H).
    apply bind_Ok in H as (P0 & _ & H).
    apply bind_Ok in H as (P1' & _ & H).
    apply bind_Ok in H as (cls1 & _ & H).
    apply bind_Ok in H as (cls2 & _ & H).
    apply bind_Ok in H as (inv & _ & H).
    apply bind_Ok in H as (st & _ & H). inversion H; subst. simpl. auto.
Qed.

Lemma need_dead_of_cases (dfa : list DFAState) :
  (need_dead_of dfa = 1)
  \/ (need_dead_of dfa = 0
      /\ Forall (fun d => Forall (fun t => t <> -1) (trans d)) dfa).
Proof.
  unfold need_dead_of.
  destruct (existsb (fun d => existsb (fun t => t =? -1) (trans d)) dfa)
    eqn:E; [now left|].
  right. split; [reflexivity|].
  apply Forall_forall. intros d Hd. apply Forall_forall. intros t Ht Hm.
  assert (Hex : existsb (fun d => existsb (fun t => t =? -1) (trans d)) dfa
                = true).
  { apply existsb_exists. exists d. split; [exact Hd|].
    apply existsb_exists. exists t. split; [exact Ht|]. now apply Z.eqb_eq. }
  congruence.
Qed.

Lemma complete_T_ok (k : Z) (dfa : list DFAState) :
  0 <= k ->
  Forall (row_ok k (Z.of_nat (length dfa))) dfa ->
  let nd := need_dead_of dfa in
  let N := Z.of_nat (length dfa) + (if negb (nd =? 0) then 1 else 0) in
  let dead := if negb (nd =? 0) then N - 1 else -1 in
  let T := complete_T k dfa nd dead in
  Z.of_nat (length T) = N * k /\ Forall (fun t => 0 <= t < N) T.
Proof.
  intros Hk Hrows nd N dead T.
  assert (HN : N = Z.of_nat (length dfa)
                   + (if negb (nd =? 0) then 1 else 0)) by reflexivity.
  assert (Hdead : dead = if negb (nd =? 0) then N - 1 else -1)
    by reflexivity.
  unfold T, complete_T. clearbody N dead. clear T.
  assert (Hflat : forall l,
             Forall (row_ok k (Z.of_nat (length dfa))) l ->
             Forall (fun d => Forall (fun t => t <> -1 \/ 0 <= dead < N)
                                (trans d)) l ->
             Z.of_nat (length (flat_map
                                 (fun d => map (fun t => if t =? -1 then dead
                                                         else t) (trans d)) l))
             = Z.of_nat (length l) * k
             /\ Forall (fun t => 0 <= t < N)
                  (flat_map (fun d => map (fun t => if t =? -1 then dead
                                                    else t) (trans d)) l)).
  { induction l as [|d l IH]; intros Hl Hd; cbn [flat_map].
    - split; [cbn [length]; lia | constructor].
    - pose proof (Forall_inv Hl) as (Hlen & Hcells & _).
      pose proof (Forall_inv_tail Hl) as Hl'.
      pose proof (Forall_inv Hd) as Hd1.
      pose proof (Forall_inv_tail Hd) as Hd'.
      destruct (IH Hl' Hd') as [IH1 IH2].
      split.
      + rewrite length_app, length_map. cbn [length]. lia.
      + apply Forall_app. split; [|exact IH2].
        apply Forall_map. rewrite Forall_forall in *.
        intros t Ht. specialize (Hcells t Ht). specialize (Hd1 t Ht).
        destruct (t =? -1) eqn:E.
        * apply Z.eqb_eq in E. lia.
        * apply Z.eqb_neq in E. unfold cell_ok in Hcells.
          destruct (negb (nd =? 0)); lia. }
  assert (Hd : Forall (fun d => Forall (fun t => t <> -1 \/ 0 <= dead < N)
                                  (trans d)) dfa).
  { destruct (need_dead_of_cases dfa) as [E|[E Hno]].
    - apply Forall_forall. intros d _. apply Forall_forall. intros t _.
      right. fold nd in E. rewrite E in HN, Hdead.
      cbn [Z.eqb negb] in HN, Hdead. lia.
    - eapply Forall_impl; [|exact Hno]. intros d Hd'.
      eapply Forall_impl; [|exact Hd']. intros t Ht. now left. }
  destruct (Hflat dfa Hrows Hd) as [L R].
  destruct (negb (nd =? 0)) eqn:E.
  - split.
    + rewrite length_app, repeat_length. lia.
    + apply Forall_app. split; [exact R|].
      apply repeat_Forall. lia.
  - rewrite app_nil_r. split; [lia | exact R].
Qed.

Lemma cget_class_of (cls : cells) (s c : Z) :
  cget cls s = Ok c -> class_of cls s = c.
Proof.
  unfold cget, class_of. intros H. apply bind_Ok in H as (x & Hx & H).
  rewrite (aget_nth _ _ _ None Hx). destruct x; [|discriminate].
  now inversion H.
Qed.

Lemma stable_b_spec (N k : Z) (T : list Z) (cls : cells) :
  stable_b N k T cls = true ->
  forall s t a c ts tt,
    0 <= s < N -> 0 <= t < N -> 0 <= a < k ->
    cget cls s = Ok c -> cget cls t = Ok c ->
    aget T (s * k + a) = Ok ts -> aget T (t * k + a) = Ok tt ->
    class_of cls ts = class_of cls tt.
Proof.
  intros H s t a c ts tt Hs Ht Ha Hcs Hct Hts Htt.
  unfold stable_b in H. rewrite forallb_forall in H.
  specialize (H s ltac:(now apply zrange_In)).
  rewrite forallb_forall in H.
  specialize (H t ltac:(now apply zrange_In)).
  rewrite (cget_class_of _ _ _ Hcs), (cget_class_of _ _ _ Hct) in H.
  rewrite Z.eqb_refl in H. cbn [negb orb] in H.
  rewrite forallb_forall in H.
  specialize (H a ltac:(now apply zrange_In)).
  rewrite (aget_nth _ _ _ 0 Hts), (aget_nth _ _ _ 0 Htt) in H.
  now apply Z.eqb_eq in H.
Qed.

Lemma emitted_facts (sigma : list ascii) (dfa : list DFAState)
  (m : minimized) (f : DfaFile) :
  emitted_from sigma dfa m f ->
  let k := Z.of_nat (length sigma) in
  let A := complete_A dfa (need_dead_of dfa) in
  let N := Z.of_nat (length A) in
  let T := complete_T k dfa (need_dead_of dfa) (m_dead m) in
  let cls := m_cls m in
  (0 < k /\ 1 <= N)
  /\ (forall s, 0 <= s < N -> exists c, cget cls s = Ok c)
  /\ (forall s t c, cget cls s = Ok c -> cget cls t = Ok c ->
        accepting A s = accepting A t)
  /\ (forall s a, 0 <= s -> 0 <= a < k ->
        (s < N <-> exists t, aget T (s * k + a) = Ok t)
        /\ forall t, aget T (s * k + a) = Ok t -> 0 <= t < N)
  /\ cget cls 0 = Ok (f_start f)
  /\ (forall c s, cget cls s = Ok c -> 0 <= s < N ->
        exists row, aget (f_rows f) c = Ok row)
  /\ (forall c row, aget (f_rows f) c = Ok row ->
        (forall a, 0 <= a < k <-> exists tc, aget row a = Ok tc)
        /\ exists r, cget cls r = Ok c
                     /\ forall a tc, aget row a = Ok tc ->
                          exists t, aget T (r * k + a) = Ok t
                                    /\ cget cls t = Ok tc)
  /\ (forall c, In c (f_accept f)
                <-> exists s, accepting A s = true /\ cget cls s = Ok c).
Proof.
  intros (Hsig & Hdfa & Hrows & Hmin & Hwrite) k A N T cls.
  destruct (dfa_minimize_dead _ _ _ Hmin) as [End Edead].
  destruct (dfa_minimize_partition_spec _ _ _ Hdfa Hmin)
    as (Hn & Htotal & _ & Hacc).
  fold k A N cls in Hn, Htotal, Hacc.
  pose proof (dfa_minimize_range _ _ _ Hmin) as [_ Hrange].
  pose proof (write_min_dfa_total _ _ _ _ _ _ _ Hrange Hwrite)
    as (_ & Hlen & Hrowlen & _).
  destruct (write_min_dfa_rows_spec _ _ _ _ _ _ _ Hsig Hwrite)
    as [Hstart Hrowspec].
  pose proof (write_min_dfa_accept_spec _ _ _ _ _ _ _ Hwrite) as (_ & _ & Hin).
  rewrite End in Hrowspec, Hin. fold k T cls in Hrowspec. fold A cls in Hin.
  assert (Hstates : f_states f = m_min_n m).
  { unfold write_min_dfa in Hwrite.
    apply bind_Ok in Hwrite as (? & _ & Hwrite).
    apply bind_Ok in Hwrite as (? & _ & Hwrite).
    apply bind_Ok in Hwrite as (? & _ & Hwrite).
    apply bind_Ok in Hwrite as (? & _ & Hwrite).
    now inversion Hwrite. }
  assert (Hsyms : f_symbols f = sigma).
  { unfold write_min_dfa in Hwrite.
    apply bind_Ok in Hwrite as (? & _ & Hwrite).
    apply bind_Ok in Hwrite as (? & _ & Hwrite).
    apply bind_Ok in Hwrite as (? & _ & Hwrite).
    apply bind_Ok in Hwrite as (? & _ & Hwrite).
    now inversion Hwrite. }
  rewrite Hstates in Hlen. rewrite Hsyms in Hrowlen.
  assert (Hk : 0 < k).
  { unfold k. destruct sigma; [congruence | cbn [length]; lia]. }
  assert (HN : N = Z.of_nat (length dfa)
                   + (if negb (need_dead_of dfa =? 0) then 1 else 0))
    by apply complete_A_length.
  pose proof (complete_T_ok k dfa ltac:(lia) Hrows) as HTok.
  cbv zeta in HTok, Edead. rewrite <- Edead in HTok. rewrite <- HN in HTok.
  fold T in HTok. destruct HTok as [HTlen HTcells].
  split; [lia|]. split.
  { intros s Hs. destruct (Htotal s Hs) as (c & Hc & _). eauto. }
  split; [exact Hacc|]. split.
  { intros s a Hs Ha. split.
    - split.
      + intros HsN.
        destruct (aget_in_range T (s * k + a)) as (t & Ht & _); [|eauto].
        rewrite HTlen. split; [nia|].
        assert (s * k + a < (s + 1) * k) by lia. nia.
      + intros (t & Ht). apply aget_Ok in Ht as [Ht _].
        rewrite HTlen in Ht. nia.
    - intros t Ht. apply aget_Ok in Ht as [_ Ht].
      rewrite Forall_forall in HTcells. now apply HTcells. }
  split; [exact Hstart|]. split.
  { intros c s Hc Hs. destruct (Htotal s Hs) as (c' & Hc' & Hcr).
    assert (c' = c) by congruence. subst c'.
    destruct (aget_in_range (f_rows f) c) as (row & Hrow & _); [lia|eauto]. }
  split; [|exact Hin].
  intros c row Hrow.
  pose proof (aget_Ok _ _ _ Hrow) as [_ Hrin].
  rewrite Forall_forall in Hrowlen. destruct (Hrowlen row Hrin) as [Hrl _].
  split.
  { intros a. split.
    - intros Ha. destruct (aget_in_range row a) as (tc & Htc & _); [|eauto].
      unfold k. lia.
    - intros (tc & Htc). apply aget_Ok in Htc as [Htc _]. unfold k. lia. }
  destruct (Hrowspec c row Hrow) as (r & (_ & Hr & _) & Hcells).
  exists r. split; [exact Hr | exact Hcells].
Qed.

Lemma file_run_T_run (sigma : list ascii) (dfa : list DFAState)
  (m : minimized) (f : DfaFile) :
  emitted_from sigma dfa m f ->
  let k := Z.of_nat (length sigma) in
  let A := complete_A dfa (need_dead_of dfa) in
  let N := Z.of_nat (length A) in
  let T := complete_T k dfa (need_dead_of dfa) (m_dead m) in
  stable_b N k T (m_cls m) = true ->
  forall w c, file_run f w c ->
    exists s, T_run k T w s /\ 0 <= s < N /\ cget (m_cls m) s = Ok c.
Proof.
  intros He k A N T Hst.
  destruct (emitted_facts _ _ _ _ He)
    as ((Hk & HN) & Htotal & _ & HT & Hstart & _ & Hrow & _).
  fold k A N T in Hk, HN, Htotal, HT, Hrow.
  induction 1 as [|w a c row tc Hrun IH Hr Htc].
  - exists 0. split; [constructor|]. split; [lia | exact Hstart].
  - destruct IH as (s & Hs & Hsr & Hsc).
    destruct (Hrow c row Hr) as (Hcols & r & Hrc & Hcells).
    assert (Ha : 0 <= a < k) by (apply Hcols; eauto).
    destruct (Hcells a tc Htc) as (t & Ht & Htcl).
    assert (Hr0 : 0 <= r).
    { unfold cget in Hrc. apply bind_Ok in Hrc as (x & Hx & _).
      now apply aget_Ok in Hx as [Hx _]. }
    assert (HrN : r < N)
      by (apply (proj2 (proj1 (HT r a Hr0 Ha))); exists t; exact Ht).
    destruct (proj1 (proj1 (HT s a ltac:(lia) Ha)) ltac:(lia)) as (ts & Hts).
    pose proof (proj2 (HT s a ltac:(lia) Ha) ts Hts) as Htsr.
    exists ts. split; [now apply Tr_step with (s := s)|].
    split; [exact Htsr|].
    destruct (Htotal ts Htsr) as (c' & Hc').
    rewrite Hc'. f_equal.
    rewrite <- (cget_class_of _ _ _ Hc'), <- (cget_class_of _ _ _ Htcl).
    apply (stable_b_spec N k T (m_cls m) Hst s r a c); auto; lia.
Qed.

Lemma T_run_file_run (sigma : list ascii) (dfa : list DFAState)
  (m : minimized) (f : DfaFile) :
  emitted_from sigma dfa m f ->
  let k := Z.of_nat (length sigma) in
  let A := complete_A dfa (need_dead_of dfa) in
  let N := Z.of_nat (length A) in
  let T := complete_T k dfa (need_dead_of dfa) (m_dead m) in
  stable_b N k T (m_cls m) = true ->
  forall w s, T_run k T w s ->
    0 <= s < N /\ exists c, file_run f w c /\ cget (m_cls m) s = Ok c.
Proof.
  intros He k A N T Hst.
  destruct (emitted_facts _ _ _ _ He)
    as ((Hk & HN) & Htotal & _ & HT & Hstart & Hrows & Hrow & _).
  fold k A N T in Hk, HN, Htotal, HT, Hrow, Hrows.
  induction 1 as [|w a s t Hrun IH Ha Ht].
  - split; [lia|]. exists (f_start f). split; [constructor | exact Hstart].
  - destruct IH as (Hsr & c & Hc & Hsc).
    pose proof (proj2 (HT s a ltac:(lia) Ha) t Ht) as Htr.
    split; [exact Htr|].
    destruct (Hrows c s Hsc Hsr) as (row & Hr).
    destruct (Hrow c row Hr) as (Hcols & r & Hrc & Hcells).
    destruct (proj1 (Hcols a) Ha) as (tc & Htc).
    destruct (Hcells a tc Htc) as (t0 & Ht0 & Htcl).
    assert (Hr0 : 0 <= r).
    { unfold cget in Hrc. apply bind_Ok in Hrc as (x & Hx & _).
      now apply aget_Ok in Hx as [Hx _]. }
    assert (HrN : r < N)
      by (apply (proj2 (proj1 (HT r a Hr0 Ha))); exists t0; exact Ht0).
    exists tc. split; [now apply fr_step with (c := c) (row := row)|].
    destruct (Htotal t Htr) as (c' & Hc').
    rewrite Hc'. f_equal.
    rewrite <- (cget_class_of _ _ _ Hc'), <- (cget_class_of _ _ _ Htcl).
    apply (stable_b_spec N k T (m_cls m) Hst s r a c); auto; lia.
Qed.

Lemma minimized_file_language_spec (sigma : list ascii) (dfa : list DFAState)
  (m : minimized) (f : DfaFile) (w : list Z) :
  let k := Z.of_nat (length sigma) in
  let A := complete_A dfa (need_dead_of dfa) in
  let N := Z.of_nat (length A) in
  let T := complete_T k dfa (need_dead_of dfa) (m_dead m) in
  sigma <> [] -> dfa <> [] ->
  Forall (row_ok k (Z.of_nat (length dfa))) dfa ->
  dfa_minimize k dfa = Ok m ->
  write_min_dfa sigma dfa (m_cls m) (m_min_n m) (m_need_dead m) (m_dead m)
  = Ok f ->
  stable_b N k T (m_cls m) = true ->
  (file_accepts f w <-> T_accepts k T A w).
Proof.
  intros k A N T Hsig Hdfa Hrows Hmin Hwrite Hst.
  assert (He : emitted_from sigma dfa m f) by (repeat split; assumption).
  destruct (emitted_facts _ _ _ _ He)
    as (_ & _ & Hacc & _ & _ & _ & _ & Hin).
  fold k A N T in Hacc, Hin.
  unfold file_accepts, T_accepts. split.
  - intros (c & Hrun & Hc).
    destruct (file_run_T_run _ _ _ _ He Hst w c Hrun) as (s & Hs & _ & Hsc).
    exists s. split; [exact Hs|].
    apply Hin in Hc as (s' & Ha & Hs'c).
    now rewrite (Hacc s s' c Hsc Hs'c).
  - intros (s & Hrun & Ha).
    destruct (T_run_file_run _ _ _ _ He Hst w s Hrun) as (_ & c & Hc & Hsc).
    exists c. split; [exact Hc|]. apply Hin. eauto.
Qed.

(** When the partition [dfa_minimize] returns is stable, the file
    [write_min_dfa] prints accepts the same words as the completed table:
    for a table as the subset construction leaves it and any word, given
    by the indices of its symbols, the run of the emitted rows from START
    ends in a state of the ACCEPT list exactly when the run of the
    completed table from state 0 ends in an accepting state. *)
Theorem minimized_file_language (sigma : list ascii) (dfa : list DFAState)
  (m : minimized) (f : DfaFile) (w : list Z) :
  let k := Z.of_nat (length sigma) in
  let A := complete_A dfa (need_dead_of dfa) in
  let N := Z.of_nat (length A) in
  let T := complete_T k dfa (need_dead_of dfa) (m_dead m) in
  sigma <> [] -> dfa <> [] ->
  Forall (row_ok k (Z.of_nat (length dfa))) dfa ->
  dfa_minimize k dfa = Ok m ->
  write_min_dfa sigma dfa (m_cls m) (m_min_n m) (m_need_dead m) (m_dead m)
  = Ok f ->
  stable_b N k T (m_cls m) = true ->
  (file_accepts f w <-> T_accepts k T A w).
Proof.
  exact (minimized_file_language_spec sigma dfa m f w).
Qed.

Lemma minimized_file_language_witness :
  exists m f,
    dfa_minimize 2
      [mkDFAState [1] 0 [1; -1]; mkDFAState [2] 1 [1; -1]] = Ok m
    /\ write_min_dfa (str "ab")
         [mkDFAState [1] 0 [1; -1]; mkDFAState [2] 1 [1; -1]]
         (m_cls m) (m_min_n m) (m_need_dead m) (m_dead m) = Ok f
    /\ (file_accepts f [0; 0]
        <-> T_accepts 2
              (complete_T 2
                 [mkDFAState [1] 0 [1; -1]; mkDFAState [2] 1 [1; -1]] 1
                 (m_dead m))
              [0; 1; 0] [0; 0]).
Proof.
  eexists. eexists. split; [vm_compute; reflexivity|].
  split; [vm_compute; reflexivity|].
  match goal with
  | |- file_accepts ?f _ <-> T_accepts _ (complete_T _ _ _ (m_dead ?m)) _ _ =>
      exact (minimized_file_language (str "ab")
               [mkDFAState [1] 0 [1; -1]; mkDFAState [2] 1 [1; -1]]
               m f [0; 0]
               ltac:(discriminate) ltac:(discriminate)
               ltac:(repeat constructor; simpl; unfold cell_ok; lia)
               ltac:(vm_compute; reflexivity)
               ltac:(vm_compute; reflexivity)
               ltac:(vm_compute; reflexivity))
  end.
Defined.

End Quotient.

(* ================================================================== *)
(** ** Completion with the dead state *)

Section Completion.
Import Regex2MinDfa Spec Props.

Lemma nth_error_concat_rows {A : Type} (k : nat) (rows : list (list A)) :
  Forall (fun r => length r = k) rows ->
  forall i a r, nth_error rows i = Some r -> (a < k)%nat ->
    nth_error (concat rows) (i * k + a) = nth_error r a.
Proof.
  induction 1 as [|r0 rows Hr0 Hrows IH]; intros i a r Hi Ha.
  - destruct i; discriminate.
  - destruct i as [|i]; cbn [concat].
    + inversion Hi; subst r0. cbn [Nat.mul Nat.add].
      apply nth_error_app1. lia.
    + cbn [nth_error] in Hi.
      rewrite nth_error_app2 by (cbn [Nat.mul]; lia).
      replace (S i * k + a - length r0)%nat with (i * k + a)%nat
        by (cbn [Nat.mul]; lia).
      now apply IH.
Qed.

Lemma complete_T_cell (k : Z) (dfa : list DFAState) (nd dead s a : Z)
  (d : DFAState) (t : Z) :
  Forall (row_ok k (Z.of_nat (length dfa))) dfa ->
  aget dfa s = Ok d -> aget (trans d) a = Ok t ->
  aget (complete_T k dfa nd dead) (s * k + a)
  = Ok (if t =? -1 then dead else t).
Proof.
  intros Hrows Hd Ht.
  pose proof (aget_Ok _ _ _ Hd) as [Hs Hin].
  pose proof (aget_Ok _ _ _ Ht) as [Ha _].
  assert (Hk : Z.of_nat (length (trans d)) = k).
  { rewrite Forall_forall in Hrows. now destruct (Hrows d Hin). }
  unfold complete_T. apply aget_app_l.
  rewrite flat_map_concat_map.
  unfold aget. destruct (Z.ltb_spec (s * k + a) 0); [nia|].
  replace (Z.to_nat (s * k + a))
    with (Z.to_nat s * Z.to_nat k + Z.to_nat a)%nat by nia.
  assert (Hall : Forall (fun r : list Z => length r = Z.to_nat k)
                   (map (fun d => map (fun t => if t =? -1 then dead else t)
                                    (trans d)) dfa)).
  { apply Forall_map. eapply Forall_impl; [|exact Hrows].
    intros d0 (Hl & _). rewrite length_map. lia. }
  rewrite (nth_error_concat_rows (Z.to_nat k) _ Hall (Z.to_nat s)
             (Z.to_nat a)
             (map (fun t => if t =? -1 then dead else t) (trans d))).
  - rewrite nth_error_map. apply aget_nth_error in Ht. now rewrite Ht.
  - rewrite nth_error_map. apply aget_nth_error in Hd. now rewrite Hd.
  - lia.
Qed.

Lemma flat_map_rows_length (k n dead : Z) (l : list DFAState) :
  Forall (row_ok k n) l ->
  length (flat_map (fun d => map (fun t => if t =? -1 then dead else t)
                               (trans d)) l)
  = (length l * Z.to_nat k)%nat.
Proof.
  induction 1 as [|d l (Hl & _) Hrest IH]; [reflexivity|].
  cbn [flat_map]. rewrite length_app, length_map, IH.
  cbn [length Nat.mul]. lia.
Qed.

Lemma complete_T_dead (k : Z) (dfa : list DFAState) (nd dead a : Z) :
  Forall (row_ok k (Z.of_nat (length dfa))) dfa ->
  nd <> 0 -> 0 <= a < k ->
  aget (complete_T k dfa nd dead) (Z.of_nat (length dfa) * k + a) = Ok dead.
Proof.
  intros Hrows Hnd Ha. unfold complete_T.
  apply Z.eqb_neq in Hnd. rewrite Hnd. cbn [negb].
  pose proof (flat_map_rows_length _ _ dead _ Hrows) as Hlen.
  unfold aget.
  destruct (Z.ltb_spec (Z.of_nat (length dfa) * k + a) 0); [nia|].
  rewrite nth_error_app2 by (rewrite Hlen; nia).
  rewrite nth_error_repeat; [reflexivity|]. rewrite Hlen. nia.
Qed.

Lemma accepting_complete_A (dfa : list DFAState) (nd s : Z) (d : DFAState) :
  aget dfa s = Ok d ->
  accepting (complete_A dfa nd) s = negb (is_accept d =? 0).
Proof.
  intros Hd. unfold accepting, complete_A.
  apply (aget_map is_accept) in Hd.
  apply (aget_app_l _ (if negb (nd =? 0) then [0] else [])) in Hd.
  now rewrite (aget_nth _ _ _ 0 Hd).
Qed.

Lemma accepting_dead (dfa : list DFAState) (nd : Z) :
  accepting (complete_A dfa nd) (Z.of_nat (length dfa)) = false.
Proof.
  unfold accepting, complete_A. rewrite Nat2Z.id.
  rewrite app_nth2 by (rewrite length_map; lia).
  rewrite length_map, Nat.sub_diag.
  destruct (negb (nd =? 0)); reflexivity.
Qed.

Lemma completed_run_table_run (sigma : list ascii) (dfa : list DFAState)
  (dead : Z) :
  let k := Z.of_nat (length sigma) in
  let nd := need_dead_of dfa in
  let T := complete_T k dfa nd dead in
  dfa <> [] ->
  Forall (row_ok k (Z.of_nat (length dfa))) dfa ->
  dead = (if negb (nd =? 0) then Z.of_nat (length dfa) else -1) ->
  forall wi s, T_run k T wi s ->
    (exists d, aget dfa s = Ok d
               /\ table_run sigma dfa (word_symbols sigma wi) s)
    \/ (nd <> 0 /\ s = Z.of_nat (length dfa)).
Proof.
  intros k nd T Hdfa Hrows Hdead. subst T.
  induction 1 as [|wi a s t Hrun IH Ha Ht].
  - left. destruct dfa as [|d0 dfa']; [congruence|].
    exists d0. split; [reflexivity | constructor].
  - destruct IH as [(d & Hd & Htr)|[Hnd ->]].
    + pose proof (aget_Ok _ _ _ Hd) as [_ Hin].
      pose proof Hrows as Hrows'. rewrite Forall_forall in Hrows'.
      destruct (Hrows' d Hin) as (Hlen & Hcells & _).
      destruct (aget_in_range (trans d) a) as (tc & Htc & Htcin); [lia|].
      rewrite (complete_T_cell k dfa nd dead s a d tc Hrows Hd Htc) in Ht.
      inversion Ht; subst t; clear Ht.
      rewrite Forall_forall in Hcells. specialize (Hcells tc Htcin).
      destruct (tc =? -1) eqn:E.
      * apply Z.eqb_eq in E. subst tc. right.
        destruct (need_dead_of_cases dfa) as [E1|[_ Hno]].
        -- fold nd in E1. rewrite E1 in Hdead. cbn [Z.eqb negb] in Hdead.
           split; [lia | exact Hdead].
        -- rewrite Forall_forall in Hno. specialize (Hno d Hin).
           rewrite Forall_forall in Hno. now specialize (Hno _ Htcin).
      * apply Z.eqb_neq in E. left. unfold cell_ok in Hcells.
        destruct (aget_in_range dfa tc) as (d' & Hd' & _); [lia|].
        exists d'. split; [exact Hd'|].
        unfold word_symbols. rewrite map_app. cbn [map].
        apply tr_step with (id := s) (ai := a); [exact Htr | | | lia].
        -- destruct (aget_in_range sigma a) as (c & Hc & _); [exact Ha|].
           now rewrite (aget_nth _ _ _ zero Hc).
        -- unfold cell. now rewrite Hd.
    + right. split; [exact Hnd|].
      rewrite (complete_T_dead k dfa nd dead a Hrows Hnd Ha) in Ht.
      inversion Ht; subst t. apply Z.eqb_neq in Hnd.
      rewrite Hnd in Hdead. exact Hdead.
Qed.

Lemma map_eq_snoc {A B : Type} (f : A -> B) (l : list A) (w : list B)
  (c : B) :
  map f l = w ++ [c] ->
  exists l' a, l = l' ++ [a] /\ map f l' = w /\ f a = c.
Proof.
  intros H. destruct l as [|x l] using rev_ind.
  - destruct w; discriminate.
  - rewrite map_app in H. cbn [map] in H.
    apply app_inj_tail in H as [H1 H2]. eauto.
Qed.

Lemma table_run_completed_run (sigma : list ascii) (dfa : list DFAState)
  (nd dead : Z) :
  let k := Z.of_nat (length sigma) in
  let T := complete_T k dfa nd dead in
  NoDup sigma ->
  Forall (row_ok k (Z.of_nat (length dfa))) dfa ->
  forall w id, table_run sigma dfa w id ->
    forall wi, w = word_symbols sigma wi ->
               Forall (fun ai => 0 <= ai < k) wi ->
               T_run k T wi id.
Proof.
  intros k T Hnodup Hrows. subst T.
  induction 1 as [|w c id ai t Hrun IH Hc Hcell Ht]; intros wi Hw Hwi.
  - destruct wi; [constructor | discriminate].
  - symmetry in Hw. apply map_eq_snoc in Hw as (wi' & a & -> & Hw' & Ha).
    apply Forall_app in Hwi as [Hwi' Har]. apply Forall_inv in Har.
    assert (a = ai).
    { pose proof (aget_Ok _ _ _ Hc) as [Hai _].
      apply aget_nth_error in Hc.
      assert (Hna : nth_error sigma (Z.to_nat a) = Some c).
      { rewrite <- Ha. apply nth_error_nth'. lia. }
      assert (Z.to_nat a = Z.to_nat ai).
      { apply (proj1 (NoDup_nth_error sigma) Hnodup); [lia|]. congruence. }
      lia. }
    subst a.
    apply Tr_step with (s := id); [now apply IH | exact Har|].
    unfold cell in Hcell. apply bind_Ok in Hcell as (d & Hd & Hcell).
    rewrite (complete_T_cell k dfa nd dead id ai d t Hrows Hd Hcell).
    destruct (t =? -1) eqn:E; [apply Z.eqb_eq in E; lia | reflexivity].
Qed.

Lemma completion_language_spec (sigma : list ascii) (dfa : list DFAState)
  (m : minimized) (wi : list Z) :
  let k := Z.of_nat (length sigma) in
  let T := complete_T k dfa (need_dead_of dfa) (m_dead m) in
  let A := complete_A dfa (need_dead_of dfa) in
  NoDup sigma -> dfa <> [] ->
  Forall (row_ok k (Z.of_nat (length dfa))) dfa ->
  dfa_minimize k dfa = Ok m ->
  Forall (fun ai => 0 <= ai < k) wi ->
  (T_accepts k T A wi <-> table_accepts sigma dfa (word_symbols sigma wi)).
Proof.
  intros k T A Hnodup Hdfa Hrows Hmin Hwi.
  destruct (dfa_minimize_dead _ _ _ Hmin) as [_ Edead].
  assert (Hdead : m_dead m = if negb (need_dead_of dfa =? 0)
                             then Z.of_nat (length dfa) else -1).
  { rewrite Edead. destruct (negb (need_dead_of dfa =? 0)); lia. }
  unfold T_accepts, table_accepts. split.
  - intros (s & Hrun & Hacc).
    destruct (completed_run_table_run sigma dfa (m_dead m) Hdfa Hrows Hdead
                wi s Hrun) as [(d & Hd & Htr)|[_ ->]].
    + exists s, d. split; [exact Htr|]. split; [exact Hd|].
      unfold A in Hacc. rewrite (accepting_complete_A _ _ _ _ Hd) in Hacc.
      pose proof (aget_Ok _ _ _ Hd) as [_ Hin].
      rewrite Forall_forall in Hrows.
      destruct (Hrows d Hin) as (_ & _ & [E|E]); [|exact E].
      rewrite E in Hacc. discriminate.
    + unfold A in Hacc. rewrite accepting_dead in Hacc. discriminate.
  - intros (id & d & Htr & Hd & Hacc).
    exists id. split.
    + now apply (table_run_completed_run sigma dfa (need_dead_of dfa)
                   (m_dead m) Hnodup Hrows _ id Htr wi).
    + unfold A. rewrite (accepting_complete_A _ _ _ _ Hd), Hacc.
      reflexivity.
Qed.

Lemma T_run_det (k : Z) (T : list Z) (w : list Z) (s : Z) :
  T_run k T w s -> forall t, T_run k T w t -> s = t.
Proof.
  induction 1 as [|w a s s' Hrun IH Ha Hs]; intros t Ht.
  - inversion Ht as [|w' a' u u' Hr' Ha' Hu' Hw']; [reflexivity|].
    destruct w'; discriminate.
  - inversion Ht as [Hw'|w' a' u u' Hr' Ha' Hu' Hw'].
    + destruct w; discriminate.
    + apply app_inj_tail in Hw' as [-> ->].
      rewrite (IH u Hr') in Hs. congruence.
Qed.

Lemma completion_dead_spec (sigma : list ascii) (dfa : list DFAState)
  (m : minimized) :
  let k := Z.of_nat (length sigma) in
  let T := complete_T k dfa (need_dead_of dfa) (m_dead m) in
  let A := complete_A dfa (need_dead_of dfa) in
  Forall (row_ok k (Z.of_nat (length dfa))) dfa ->
  dfa_minimize k dfa = Ok m ->
  need_dead_of dfa <> 0 ->
  m_dead m = Z.of_nat (length dfa)
  /\ accepting A (m_dead m) = false
  /\ (forall a, 0 <= a < k -> aget T (m_dead m * k + a) = Ok (m_dead m))
  /\ (forall w1 w2 s, T_run k T w1 (m_dead m) -> T_run k T (w1 ++ w2) s ->
        s = m_dead m).
Proof.
  intros k T A Hrows Hmin Hnd.
  destruct (dfa_minimize_dead _ _ _ Hmin) as [_ Edead].
  assert (Hdead : m_dead m = Z.of_nat (length dfa)).
  { rewrite Edead. apply Z.eqb_neq in Hnd. rewrite Hnd. cbn [negb]. lia. }
  assert (Hrow : forall a, 0 <= a < k ->
                   aget T (m_dead m * k + a) = Ok (m_dead m)).
  { intros a Ha. unfold T. rewrite Hdead at 2.
    apply (complete_T_dead k dfa (need_dead_of dfa) (m_dead m) a Hrows Hnd Ha). }
  split; [exact Hdead|]. split; [|split; [exact Hrow|]].
  - unfold A. rewrite Hdead. apply accepting_dead.
  - intros w1 w2. induction w2 as [|a w2 IH] using rev_ind; intros s H1 H2.
    + rewrite app_nil_r in H2. symmetry. exact (T_run_det _ _ _ _ H1 _ H2).
    + rewrite app_assoc in H2.
      inversion H2 as [Hw'|w' a' u u' Hr' Ha' Hu' Hw'].
      * destruct (w1 ++ w2); discriminate.
      * apply app_inj_tail in Hw' as [-> ->].
        rewrite (IH u H1 Hr') in Hu'. rewrite (Hrow a Ha') in Hu'.
        congruence.
Qed.

(** Completing the table with the dead state keeps the language: for an
    alphabet without repetition, a table as the subset construction leaves
    it, and a word given by the indices of its symbols, the run of the
    completed table [T] ends in a state accepting in [A] exactly when the
    run of the table before completion, which a cell -1 ends, ends in a
    state whose accepting flag is 1. When a dead state is added, it is the
    state after the last state of the table, it is not accepting in [A],
    every cell of its row is the dead state itself, and a run that has
    reached it stays in it whatever it reads. *)
Theorem completion_keeps_language (sigma : list ascii) (dfa : list DFAState)
  (m : minimized) (wi : list Z) :
  let k := Z.of_nat (length sigma) in
  let T := complete_T k dfa (need_dead_of dfa) (m_dead m) in
  let A := complete_A dfa (need_dead_of dfa) in
  NoDup sigma -> dfa <> [] ->
  Forall (row_ok k (Z.of_nat (length dfa))) dfa ->
  dfa_minimize k dfa = Ok m ->
  Forall (fun ai => 0 <= ai < k) wi ->
  (T_accepts k T A wi <-> table_accepts sigma dfa (word_symbols sigma wi))
  /\ (need_dead_of dfa <> 0 ->
      m_dead m = Z.of_nat (length dfa)
      /\ accepting A (m_dead m) = false
      /\ (forall a, 0 <= a < k -> aget T (m_dead m * k + a) = Ok (m_dead m))
      /\ (forall w1 w2 s,
            T_run k T w1 (m_dead m) -> T_run k T (w1 ++ w2) s ->
            s = m_dead m)).
Proof.
  intros k T A Hnodup Hdfa Hrows Hmin Hwi. split.
  - exact (completion_language_spec sigma dfa m wi Hnodup Hdfa Hrows Hmin Hwi).
  - exact (completion_dead_spec sigma dfa m Hrows Hmin).
Qed.

Lemma completion_keeps_language_witness :
  exists m,
    dfa_minimize 2
      [mkDFAState [1] 0 [1; -1]; mkDFAState [2] 1 [1; -1]] = Ok m
    /\ (T_accepts 2
          (complete_T 2
             [mkDFAState [1] 0 [1; -1]; mkDFAState [2] 1 [1; -1]] 1
             (m_dead m))
          [0; 1; 0] [0; 0]
        <-> table_accepts (str "ab")
              [mkDFAState [1] 0 [1; -1]; mkDFAState [2] 1 [1; -1]]
              (str "aa"))
    /\ m_dead m = 2
    /\ accepting [0; 1; 0] (m_dead m) = false
    /\ aget (complete_T 2
               [mkDFAState [1] 0 [1; -1]; mkDFAState [2] 1 [1; -1]] 1
               (m_dead m)) (m_dead m * 2 + 1) = Ok (m_dead m).
Proof.
  eexists. split; [vm_compute; reflexivity|].
  match goal with
  | |- (T_accepts _ (complete_T _ _ _ (m_dead ?m)) _ _ <-> _) /\ _ =>
      destruct (completion_keeps_language (str "ab")
                  [mkDFAState [1] 0 [1; -1]; mkDFAState [2] 1 [1; -1]]
                  m [0; 0]
                  ltac:(repeat constructor; simpl; intuition discriminate)
                  ltac:(discriminate)
                  ltac:(repeat constructor; simpl; unfold cell_ok; lia)
                  ltac:(vm_compute; reflexivity)
                  ltac:(repeat constructor; simpl; lia))
        as [Hlang Hdead]
  end.
  split; [exact Hlang|].
  destruct (Hdead ltac:(vm_compute; discriminate)) as (H1 & H2 & H3 & _).
  split; [exact H1|]. split; [exact H2|].
  apply (H3 1). vm_compute. split; [discriminate | reflexivity].
Defined.

Lemma emitted_file_language_spec (sigma : list ascii) (nfa : list NFAState)
  (nfa_start nfa_accept : Z) (dfa : list DFAState) (m : minimized)
  (f : DfaFile) (wi : list Z) :
  let k := Z.of_nat (length sigma) in
  let A := complete_A dfa (need_dead_of dfa) in
  let N := Z.of_nat (length A) in
  let T := complete_T k dfa (need_dead_of dfa) (m_dead m) in
  sigma <> [] -> NoDup sigma ->
  nfa_to_dfa sigma nfa nfa_start nfa_accept = Ok dfa ->
  dfa_minimize k dfa = Ok m ->
  write_min_dfa sigma dfa (m_cls m) (m_min_n m) (m_need_dead m) (m_dead m)
  = Ok f ->
  stable_b N k T (m_cls m) = true ->
  Forall (fun ai => 0 <= ai < k) wi ->
  (file_accepts f wi
   <-> nfa_reach nfa nfa_start (word_symbols sigma wi) nfa_accept).
Proof.
  intros k A N T Hsig Hnodup Hdfa Hmin Hwrite Hst Hwi.
  destruct (nfa_to_dfa_table_spec _ _ _ _ _ Hdfa) as (Hn & Hrows & _).
  assert (Hne : dfa <> []) by (intros ->; simpl in Hn; lia).
  rewrite (minimized_file_language_spec sigma dfa m f wi Hsig Hne Hrows Hmin
             Hwrite Hst).
  rewrite (completion_language_spec sigma dfa m wi Hnodup Hne Hrows Hmin Hwi).
  symmetry. apply nfa_to_dfa_language_spec; [exact Hdfa|].
  unfold word_symbols. apply Forall_map.
  eapply Forall_impl; [|exact Hwi].
  intros ai Hai. apply nth_In. fold k in Hai. unfold k in Hai. lia.
Qed.

(** From the NFA to the emitted file: for an alphabet without repetition,
    when the partition [dfa_minimize] returns is stable, the file
    [write_min_dfa] prints accepts a word, given by the indices of its
    symbols, exactly when the NFA can go from its start state to its
    accepting state reading that word. *)
Theorem emitted_file_language (sigma : list ascii) (nfa : list NFAState)
  (nfa_start nfa_accept : Z) (dfa : list DFAState) (m : minimized)
  (f : DfaFile) (wi : list Z) :
  let k := Z.of_nat (length sigma) in
  let A := complete_A dfa (need_dead_of dfa) in
  let N := Z.of_nat (length A) in
  let T := complete_T k dfa (need_dead_of dfa) (m_dead m) in
  sigma <> [] -> NoDup sigma ->
  nfa_to_dfa sigma nfa nfa_start nfa_accept = Ok dfa ->
  dfa_minimize k dfa = Ok m ->
  write_min_dfa sigma dfa (m_cls m) (m_min_n m) (m_need_dead m) (m_dead m)
  = Ok f ->
  stable_b N k T (m_cls m) = true ->
  Forall (fun ai => 0 <= ai < k) wi ->
  (file_accepts f wi
   <-> nfa_reach nfa nfa_start (word_symbols sigma wi) nfa_accept).
Proof.
  exact (emitted_file_language_spec sigma nfa nfa_start nfa_accept dfa m f wi).
Qed.

Lemma emitted_file_language_witness :
  exists dfa m f,
    nfa_to_dfa (str "a") [[mkEdge 1 "a"]; []] 0 1 = Ok dfa
    /\ dfa_minimize 1 dfa = Ok m
    /\ write_min_dfa (str "a") dfa (m_cls m) (m_min_n m) (m_need_dead m)
         (m_dead m) = Ok f
    /\ (file_accepts f [0]
        <-> nfa_reach [[mkEdge 1 "a"]; []] 0 (word_symbols (str "a") [0]) 1).
Proof.
  eexists. eexists. eexists.
  split; [vm_compute; reflexivity|].
  split; [vm_compute; reflexivity|].
  split; [vm_compute; reflexivity|].
  match goal with
  | |- file_accepts ?f _ <-> _ =>
      refine (emitted_file_language (str "a") [[mkEdge 1 "a"]; []] 0 1
                _ _ f [0] _ _ _ _ _ _ _)
  end.
  - discriminate.
  - repeat constructor. intros [].
  - vm_compute. reflexivity.
  - vm_compute. reflexivity.
  - vm_compute. reflexivity.
  - vm_compute. reflexivity.
  - repeat constructor; simpl; lia.
Defined.

End Completion.

(* ================================================================== *)
(** ** The language of the Thompson construction *)

Section ThompsonLanguage.
Import Regex2MinDfa Spec Props.

Lemma reach_mono (E E' : graph) (s : Z) :
  (forall c u v, E c u v -> E' c u v) ->
  forall w v, reach E s w v -> reach E' s w v.
Proof.
  intros Hsub w v H. induction H as [|w u v Hu IH He|w c u v Hu IH He].
  - constructor.
  - apply r_eps with (u := u); auto.
  - apply r_sym with (u := u); auto.
Qed.

Lemma reach_trans (E : graph) (s u : Z) (w1 : list ascii) :
  reach E s w1 u ->
  forall w2 v, reach E u w2 v -> reach E s (w1 ++ w2) v.
Proof.
  intros H1 w2 v H2. induction H2 as [|w x v Hx IH He|w c x v Hx IH He].
  - now rewrite app_nil_r.
  - apply r_eps with (u := x); auto.
  - rewrite app_assoc. apply r_sym with (u := x); auto.
Qed.

Lemma reach_closed (E : graph) (lo hi s : Z) :
  (forall c u v, E c u v -> lo <= u < hi -> lo <= v < hi) ->
  lo <= s < hi ->
  forall w v, reach E s w v -> lo <= v < hi.
Proof.
  intros Hcl Hs w v H. induction H; eauto.
Qed.

Lemma nonzero_snoc (w : list ascii) (c : ascii) :
  nonzero (w ++ [c]) -> nonzero w /\ c <> zero.
Proof.
  unfold nonzero. intros H. apply Forall_app in H as [H1 H2].
  split; [exact H1 | now apply Forall_inv in H2].
Qed.

Lemma nonzero_app (w1 w2 : list ascii) :
  nonzero (w1 ++ w2) <-> nonzero w1 /\ nonzero w2.
Proof. apply Forall_app. Qed.

(** Edges added outside a region leave the region as it is. *)
Lemma reach_region_old (E E' New : graph) (lo hi s : Z) :
  (forall c u v, E c u v -> lo <= u < hi -> lo <= v < hi) ->
  (forall c u v, E' c u v <-> E c u v \/ New c u v) ->
  (forall c u v, New c u v -> ~ lo <= u < hi) ->
  lo <= s < hi ->
  forall w v, reach E' s w v -> reach E s w v.
Proof.
  intros Hcl HE' Hnew Hs w v H.
  induction H as [|w u v Hu IH He|w c u v Hu IH He].
  - constructor.
  - apply HE' in He as [He|He].
    + apply r_eps with (u := u); auto.
    + exfalso. apply (Hnew _ _ _ He). eapply reach_closed; eauto.
  - apply HE' in He as [He|He].
    + apply r_sym with (u := u); auto.
    + exfalso. apply (Hnew _ _ _ He). eapply reach_closed; eauto.
Qed.

Lemma region_ok_extend (E E' New : graph) (lo hi : Z) (f : Frag) (r : re) :
  region_ok E lo hi f r ->
  (forall c u v, E' c u v <-> E c u v \/ New c u v) ->
  (forall c u v, New c u v -> ~ lo <= u < hi) ->
  region_ok E' lo hi f r.
Proof.
  intros (Hs & Ha & Hcl & Hout & Hlang) HE' Hnew.
  split; [exact Hs|]. split; [exact Ha|]. split; [|split].
  - intros c u v He Hu. apply HE' in He as [He|He]; [eauto|].
    exfalso. eapply Hnew; eauto.
  - intros c v He. apply HE' in He as [He|He].
    + eapply Hout; eauto.
    + eapply Hnew; eauto.
  - intros w Hw. rewrite <- (Hlang w Hw). split.
    + apply (reach_region_old E E' New lo hi); auto.
    + apply reach_mono. intros c u v He. apply HE'. now left.
Qed.

Lemma stack_ok_bounds (E : graph) (fs : list Frag) :
  forall hi rs, stack_ok E hi fs rs -> 0 <= hi.
Proof.
  induction fs as [|f fs IH]; intros hi [|r rs] H; simpl in H;
    try contradiction.
  - lia.
  - destruct H as (lo & (Hs & _) & Hrest). apply IH in Hrest. lia.
Qed.

Lemma stack_ok_extend (E E' New : graph) (fs : list Frag) :
  (forall c u v, E' c u v <-> E c u v \/ New c u v) ->
  forall hi rs,
    (forall c u v, New c u v -> ~ u < hi) ->
    stack_ok E hi fs rs -> stack_ok E' hi fs rs.
Proof.
  intros HE'. induction fs as [|f fs IH]; intros hi [|r rs] Hnew H;
    simpl in *; try contradiction; [exact H|].
  destruct H as (lo & Hreg & Hrest). exists lo. split.
  - apply (region_ok_extend E E' New); auto.
    intros c u v Hn Hu. apply (Hnew _ _ _ Hn). lia.
  - apply IH; [|exact Hrest].
    intros c u v Hn Hu. apply (Hnew _ _ _ Hn).
    destruct Hreg as (Hs & _). lia.
Qed.

(** *** The four constructions *)

Lemma leaf_region (E E' : graph) (n : Z) (lbl : ascii) (r : re)
  (wl : list ascii) :
  (forall c u v, E c u v -> u < n) ->
  (forall c u v, E' c u v <-> E c u v \/ (u = n /\ v = n + 1 /\ c = lbl)) ->
  (forall w, matches r w <-> w = wl) ->
  wl = (if Ascii.eqb lbl zero then [] else [lbl]) ->
  region_ok E' n (n + 2) (mkFrag n (n + 1)) r.
Proof.
  intros Hsrc HE' Hr Hwl. unfold region_ok. cbn [start accept].
  split; [lia|]. split; [lia|]. split; [|split].
  - intros c u v He Hu. apply HE' in He as [He|(-> & -> & _)]; [|lia].
    apply Hsrc in He. lia.
  - intros c v He. apply HE' in He as [He|(Hu & _)]; [|lia].
    apply Hsrc in He. lia.
  - intros w Hw. rewrite Hr. split.
    + intros H.
      assert (Hgen : forall w v, reach E' n w v -> nonzero w ->
                       (v = n /\ w = []) \/ (v = n + 1 /\ w = wl)).
      { clear w Hw H. intros w v H.
        induction H as [|w u v Hu IH He|w c u v Hu IH He]; intros Hw.
        - now left.
        - right. apply HE' in He as [He|(-> & -> & Hl)].
          + apply Hsrc in He. destruct (IH Hw) as [[-> _]|[-> _]]; lia.
          + destruct (IH Hw) as [[_ ->]|[Hc _]]; [|lia].
            split; [reflexivity|]. rewrite Hwl, <- Hl. reflexivity.
        - right. apply nonzero_snoc in Hw as [Hw Hc].
          apply HE' in He as [He|(-> & -> & Hl)].
          + apply Hsrc in He. destruct (IH Hw) as [[-> _]|[-> _]]; lia.
          + destruct (IH Hw) as [[_ ->]|[Hc' _]]; [|lia].
            split; [reflexivity|]. rewrite Hwl, <- Hl.
            apply Ascii.eqb_neq in Hc. now rewrite Hc. }
      destruct (Hgen w (n + 1) H Hw) as [[Hc _]|[_ Hc]]; [lia | exact Hc].
    + intros ->. rewrite Hwl.
      assert (Hedge : E' lbl n (n + 1)) by (apply HE'; right; auto).
      destruct (Ascii.eqb lbl zero) eqn:El.
      * apply Ascii.eqb_eq in El. subst lbl.
        apply r_eps with (u := n); [constructor | exact Hedge].
      * apply (r_sym E' n [] lbl n (n + 1)); [constructor | exact Hedge].
Qed.

Lemma cat_region (E E' : graph) (lo1 hi1 hi2 : Z) (f1 f2 : Frag)
  (r1 r2 : re) :
  region_ok E lo1 hi1 f1 r1 -> region_ok E hi1 hi2 f2 r2 ->
  (forall c u v, E' c u v
                 <-> E c u v \/ (u = accept f1 /\ v = start f2 /\ c = zero)) ->
  region_ok E' lo1 hi2 (mkFrag (start f1) (accept f2)) (re_cat r1 r2).
Proof.
  intros (Hs1 & Ha1 & Hcl1 & Hout1 & Hl1) (Hs2 & Ha2 & Hcl2 & Hout2 & Hl2) HE'.
  assert (Hin1 : forall w v, reach E (start f1) w v -> lo1 <= v < hi1)
    by (intros w v; now apply reach_closed).
  assert (Hin2 : forall w v, reach E (start f2) w v -> hi1 <= v < hi2)
    by (intros w v; now apply reach_closed).
  unfold region_ok. cbn [start accept].
  split; [lia|]. split; [lia|]. split; [|split].
  - intros c u v He Hu. apply HE' in He as [He|(-> & -> & _)]; [|lia].
    destruct (Z.lt_ge_cases u hi1).
    + specialize (Hcl1 c u v He). lia.
    + specialize (Hcl2 c u v He). lia.
  - intros c v He. apply HE' in He as [He|(Hu & _)]; [|lia].
    eapply Hout2; eauto.
  - intros w Hw. split.
    + intros H.
      assert (Hgen : forall w v, reach E' (start f1) w v -> nonzero w ->
                (reach E (start f1) w v)
                \/ (exists w1 w2, w = w1 ++ w2
                                  /\ reach E (start f1) w1 (accept f1)
                                  /\ reach E (start f2) w2 v)).
      { clear w Hw H. intros w v H.
        induction H as [|w u v Hu IH He|w c u v Hu IH He]; intros Hw.
        - left. constructor.
        - apply HE' in He as [He|(-> & -> & _)].
          + destruct (IH Hw) as [Hr|(w1 & w2 & -> & Hr1 & Hr2)].
            * left. now apply r_eps with (u := u).
            * right. exists w1, w2. split; [reflexivity|].
              split; [exact Hr1 | now apply r_eps with (u := u)].
          + right. destruct (IH Hw) as [Hr|(w1 & w2 & -> & Hr1 & Hr2)].
            * exists w, []. rewrite app_nil_r.
              split; [reflexivity|]. split; [exact Hr | constructor].
            * apply Hin2 in Hr2. lia.
        - apply nonzero_snoc in Hw as [Hw Hc].
          apply HE' in He as [He|(_ & _ & Hz)]; [|contradiction].
          destruct (IH Hw) as [Hr|(w1 & w2 & -> & Hr1 & Hr2)].
          + left. now apply r_sym with (u := u).
          + right. exists w1, (w2 ++ [c]). rewrite app_assoc.
            split; [reflexivity|].
            split; [exact Hr1 | now apply r_sym with (u := u)]. }
      destruct (Hgen w (accept f2) H Hw) as [Hr|(w1 & w2 & -> & Hr1 & Hr2)].
      * apply Hin1 in Hr. lia.
      * apply nonzero_app in Hw as [Hw1 Hw2].
        constructor; [now apply Hl1 | now apply Hl2].
    + intros H. inversion H as [| |? ? w1 w2 H1 H2| | | |]; subst.
      apply nonzero_app in Hw as [Hw1 Hw2].
      apply Hl1 in H1; [|exact Hw1]. apply Hl2 in H2; [|exact Hw2].
      assert (Hsub : forall c u v, E c u v -> E' c u v)
        by (intros c u v He; apply HE'; now left).
      apply reach_trans with (u := start f2).
      * apply r_eps with (u := accept f1);
          [now apply (reach_mono E E') | apply HE'; right; auto].
      * now apply (reach_mono E E').
Qed.

Lemma alt_region (E E' : graph) (lo1 hi1 n : Z) (f1 f2 : Frag)
  (r1 r2 : re) :
  region_ok E lo1 hi1 f1 r1 -> region_ok E hi1 n f2 r2 ->
  (forall c u v, E c u v -> u < n) ->
  (forall c u v,
      E' c u v
      <-> E c u v
          \/ (c = zero
              /\ ((u = n /\ v = start f1) \/ (u = n /\ v = start f2)
                  \/ (u = accept f1 /\ v = n + 1)
                  \/ (u = accept f2 /\ v = n + 1)))) ->
  region_ok E' lo1 (n + 2) (mkFrag n (n + 1)) (re_alt r1 r2).
Proof.
  intros (Hs1 & Ha1 & Hcl1 & Hout1 & Hl1) (Hs2 & Ha2 & Hcl2 & Hout2 & Hl2)
         Hsrc HE'.
  assert (Hin1 : forall w v, reach E (start f1) w v -> lo1 <= v < hi1)
    by (intros w v; now apply reach_closed).
  assert (Hin2 : forall w v, reach E (start f2) w v -> hi1 <= v < n)
    by (intros w v; now apply reach_closed).
  assert (Hsub : forall c u v, E c u v -> E' c u v)
    by (intros c u v He; apply HE'; now left).
  unfold region_ok. cbn [start accept].
  split; [lia|]. split; [lia|]. split; [|split].
  - intros c u v He Hu.
    apply HE' in He as [He|(_ & [(-> & ->)|[(-> & ->)|[(-> & ->)|(-> & ->)]]])];
      try lia.
    pose proof (Hsrc _ _ _ He).
    destruct (Z.lt_ge_cases u hi1).
    + specialize (Hcl1 c u v He). lia.
    + specialize (Hcl2 c u v He). lia.
  - intros c v He.
    apply HE' in He as [He|(_ & [(Hu & _)|[(Hu & _)|[(Hu & _)|(Hu & _)]]])];
      try lia.
    apply Hsrc in He. lia.
  - intros w Hw. split.
    + intros H.
      assert (Hgen : forall w v, reach E' n w v -> nonzero w ->
                (v = n /\ w = [])
                \/ reach E (start f1) w v
                \/ reach E (start f2) w v
                \/ (v = n + 1 /\ (matches r1 w \/ matches r2 w))).
      { clear w Hw H. intros w v H.
        induction H as [|w u v Hu IH He|w c u v Hu IH He]; intros Hw.
        - now left.
        - specialize (IH Hw).
          apply HE' in He
              as [He|(_ & [(-> & ->)|[(-> & ->)|[(-> & ->)|(-> & ->)]]])].
          + pose proof (Hsrc _ _ _ He).
            destruct IH as [[-> _]|[Hr|[Hr|[-> _]]]]; try lia.
            * right. left. now apply r_eps with (u := u).
            * right. right. left. now apply r_eps with (u := u).
          + destruct IH as [[_ ->]|[Hr|[Hr|[Hc _]]]]; try lia.
            * right. left. constructor.
            * apply Hin1 in Hr. lia.
            * apply Hin2 in Hr. lia.
          + destruct IH as [[_ ->]|[Hr|[Hr|[Hc _]]]]; try lia.
            * right. right. left. constructor.
            * apply Hin1 in Hr. lia.
            * apply Hin2 in Hr. lia.
          + right. right. right. split; [reflexivity|].
            destruct IH as [[Hc _]|[Hr|[Hr|[Hc _]]]]; try lia.
            * left. now apply Hl1.
            * apply Hin2 in Hr. lia.
          + right. right. right. split; [reflexivity|].
            destruct IH as [[Hc _]|[Hr|[Hr|[Hc _]]]]; try lia.
            * apply Hin1 in Hr. lia.
            * right. now apply Hl2.
        - apply nonzero_snoc in Hw as [Hw Hc]. specialize (IH Hw).
          apply HE' in He as [He|(Hz & _)]; [|contradiction].
          pose proof (Hsrc _ _ _ He).
          destruct IH as [[-> _]|[Hr|[Hr|[-> _]]]]; try lia.
          + right. left. now apply r_sym with (u := u).
          + right. right. left. now apply r_sym with (u := u). }
      destruct (Hgen w (n + 1) H Hw) as [[Hc _]|[Hr|[Hr|[_ Hm]]]]; try lia.
      * apply Hin1 in Hr. lia.
      * apply Hin2 in Hr. lia.
      * destruct Hm; [now apply m_alt_l | now apply m_alt_r].
    + intros H. inversion H as [| | |? ? ? H1|? ? ? H2| |]; subst.
      * apply Hl1 in H1; [|exact Hw].
        apply r_eps with (u := accept f1); [|apply HE'; right; auto 6].
        apply (reach_trans E' n (start f1) []);
          [|now apply (reach_mono E E')].
        apply r_eps with (u := n); [constructor | apply HE'; right; auto 6].
      * apply Hl2 in H2; [|exact Hw].
        apply r_eps with (u := accept f2); [|apply HE'; right; auto 7].
        apply (reach_trans E' n (start f2) []);
          [|now apply (reach_mono E E')].
        apply r_eps with (u := n); [constructor | apply HE'; right; auto 6].
Qed.

Lemma star_snoc (r : re) (w0 w1 : list ascii) :
  matches (re_star r) w0 -> matches r w1 -> matches (re_star r) (w0 ++ w1).
Proof.
  intros H0 H1. remember (re_star r) as rs eqn:E.
  induction H0 as [| | | | |r0|r0 wa wb Ha _ Hb IH]; try discriminate.
  - inversion E; subst. rewrite <- (app_nil_r w1). simpl.
    apply m_star_app; [exact H1 | constructor].
  - inversion E; subst. rewrite <- app_assoc.
    apply m_star_app; [exact Ha | now apply IH].
Qed.

Lemma star_region (E E' : graph) (lo n : Z) (f : Frag) (r : re) :
  region_ok E lo n f r ->
  (forall c u v, E c u v -> u < n) ->
  (forall c u v,
      E' c u v
      <-> E c u v
          \/ (c = zero
              /\ ((u = n /\ v = start f) \/ (u = n /\ v = n + 1)
                  \/ (u = accept f /\ v = start f)
                  \/ (u = accept f /\ v = n + 1)))) ->
  region_ok E' lo (n + 2) (mkFrag n (n + 1)) (re_star r).
Proof.
  intros (Hs & Ha & Hcl & Hout & Hl) Hsrc HE'.
  assert (Hin : forall w v, reach E (start f) w v -> lo <= v < n)
    by (intros w v; now apply reach_closed).
  assert (Hsub : forall c u v, E c u v -> E' c u v)
    by (intros c u v He; apply HE'; now left).
  unfold region_ok. cbn [start accept].
  split; [lia|]. split; [lia|]. split; [|split].
  - intros c u v He Hu.
    apply HE' in He as [He|(_ & [(-> & ->)|[(-> & ->)|[(-> & ->)|(-> & ->)]]])];
      try lia.
    pose proof (Hsrc _ _ _ He). specialize (Hcl c u v He). lia.
  - intros c v He.
    apply HE' in He as [He|(_ & [(Hu & _)|[(Hu & _)|[(Hu & _)|(Hu & _)]]])];
      try lia.
    apply Hsrc in He. lia.
  - intros w Hw. split.
    + intros H.
      assert (Hgen : forall w v, reach E' n w v -> nonzero w ->
                (v = n /\ w = [])
                \/ (exists w0 w', w = w0 ++ w'
                                  /\ matches (re_star r) w0
                                  /\ reach E (start f) w' v)
                \/ (v = n + 1 /\ matches (re_star r) w)).
      { clear w Hw H. intros w v H.
        induction H as [|w u v Hu IH He|w c u v Hu IH He]; intros Hw.
        - now left.
        - specialize (IH Hw).
          apply HE' in He
              as [He|(_ & [(-> & ->)|[(-> & ->)|[(-> & ->)|(-> & ->)]]])].
          + pose proof (Hsrc _ _ _ He).
            destruct IH as [[-> _]|[(w0 & w' & -> & H0 & Hr)|[-> _]]];
              try lia.
            right. left. exists w0, w'. split; [reflexivity|].
            split; [exact H0 | now apply r_eps with (u := u)].
          + destruct IH as [[_ ->]|[(w0 & w' & -> & H0 & Hr)|[Hc _]]];
              try lia.
            * right. left. exists [], []. split; [reflexivity|].
              split; constructor.
            * apply Hin in Hr. lia.
          + destruct IH as [[_ ->]|[(w0 & w' & -> & H0 & Hr)|[Hc _]]];
              try lia.
            * right. right. split; [reflexivity | constructor].
            * apply Hin in Hr. lia.
          + destruct IH as [[Hc _]|[(w0 & w' & -> & H0 & Hr)|[Hc _]]];
              try lia.
            apply nonzero_app in Hw as [_ Hw'].
            right. left. exists (w0 ++ w'), []. rewrite app_nil_r.
            split; [reflexivity|].
            split; [|constructor].
            apply star_snoc; [exact H0 | now apply Hl].
          + destruct IH as [[Hc _]|[(w0 & w' & -> & H0 & Hr)|[Hc _]]];
              try lia.
            apply nonzero_app in Hw as [_ Hw'].
            right. right. split; [reflexivity|].
            apply star_snoc; [exact H0 | now apply Hl].
        - apply nonzero_snoc in Hw as [Hw Hc]. specialize (IH Hw).
          apply HE' in He as [He|(Hz & _)]; [|contradiction].
          pose proof (Hsrc _ _ _ He).
          destruct IH as [[-> _]|[(w0 & w' & -> & H0 & Hr)|[-> _]]];
            try lia.
          right. left. exists w0, (w' ++ [c]). rewrite app_assoc.
          split; [reflexivity|].
          split; [exact H0 | now apply r_sym with (u := u)]. }
      destruct (Hgen w (n + 1) H Hw)
        as [[Hc _]|[(w0 & w' & -> & H0 & Hr)|[_ Hm]]]; try lia.
      * apply Hin in Hr. lia.
      * exact Hm.
    + intros H.
      assert (Hgen : forall rs w, matches rs w -> rs = re_star r ->
                nonzero w ->
                forall x, x = n \/ x = accept f -> reach E' x w (n + 1)).
      { clear w Hw H. intros rs w H.
        induction H as [| | | | |r0|r0 wa wb Hma _ Hmb IH]; intros Ers Hw x Hx;
          try discriminate.
        - apply r_eps with (u := x); [constructor|].
          apply HE'. right. split; [reflexivity|].
          destruct Hx as [-> | ->]; auto 6.
        - inversion Ers; subst r0. apply nonzero_app in Hw as [Hwa Hwb].
          apply Hl in Hma; [|exact Hwa].
          apply reach_trans with (u := accept f).
          + apply (reach_trans E' x (start f) []);
              [|now apply (reach_mono E E')].
            apply r_eps with (u := x); [constructor|].
            apply HE'. right. split; [reflexivity|].
            destruct Hx as [-> | ->]; auto 6.
          + apply IH; auto. }
      apply (Hgen _ w H eq_refl Hw). now left.
Qed.

(** *** The graph of the array [nfa] *)

Lemma nfa_reach_reach (nfa : list NFAState) (s : Z) (w : list ascii) (v : Z) :
  nfa_reach nfa s w v <-> reach (nfa_edge nfa) s w v.
Proof.
  split; intros H.
  - induction H as [|w u v Hu IH He|w c u v Hu IH He].
    + constructor.
    + now apply r_eps with (u := u).
    + now apply r_sym with (u := u).
  - induction H as [|w u v Hu IH He|w c u v Hu IH He].
    + constructor.
    + now apply nr_eps with (u := u).
    + now apply nr_sym with (u := u).
Qed.

Lemma nfa_edge_src (nfa : list NFAState) (c : ascii) (u v : Z) :
  nfa_edge nfa c u v -> u < Z.of_nat (length nfa).
Proof.
  intros (edges & He & _). now apply aget_Ok in He as [He _].
Qed.

Lemma new_nfa_state_graph (nfa nfa' : list NFAState) (s : Z) :
  new_nfa_state nfa = Ok (nfa', s) ->
  s = Z.of_nat (length nfa)
  /\ Z.of_nat (length nfa') = Z.of_nat (length nfa) + 1
  /\ forall c u v, nfa_edge nfa' c u v <-> nfa_edge nfa c u v.
Proof.
  unfold new_nfa_state. intros H.
  destruct (Z.of_nat (length nfa) >=? MAX_NFA_STATES); [discriminate|].
  inversion H; subst nfa' s; clear H.
  split; [reflexivity|]. split; [rewrite length_app; simpl; lia|].
  intros c u v. unfold nfa_edge. split.
  - intros (edges & He & Hin). exists edges. split; [|exact Hin].
    pose proof (aget_Ok _ _ _ He) as [Hu _].
    rewrite length_app in Hu. simpl in Hu.
    unfold aget in *. destruct (u <? 0); [discriminate|].
    destruct (Z.eq_dec u (Z.of_nat (length nfa))) as [->|Hne].
    + rewrite Nat2Z.id, nth_error_app2, Nat.sub_diag in He by lia.
      simpl in He. inversion He; subst edges. destruct Hin.
    + rewrite nth_error_app1 in He by lia. exact He.
  - intros (edges & He & Hin). exists edges.
    split; [now apply aget_app_l | exact Hin].
Qed.

Lemma add_edge_graph (nfa nfa' : list NFAState) (from to0 : Z) (sy : ascii) :
  add_edge nfa from to0 sy = Ok nfa' ->
  length nfa' = length nfa
  /\ forall c u v,
       nfa_edge nfa' c u v
       <-> nfa_edge nfa c u v \/ (u = from /\ v = to0 /\ c = sy).
Proof.
  unfold add_edge. intros H. apply bind_Ok in H as (es & Hes & H).
  split; [exact (aset_length _ _ _ _ H)|].
  intros c u v. unfold nfa_edge. split.
  - intros (edges & He & Hin).
    destruct (Z.eq_dec u from) as [->|Hne].
    + rewrite (aget_aset_same _ _ _ _ H) in He. inversion He; subst edges.
      apply in_app_iff in Hin as [Hin|[Hin|[]]].
      * left. eauto.
      * right. inversion Hin; auto.
    + left. exists edges. split; [|exact Hin].
      rewrite <- He. symmetry.
      apply (aget_aset_other _ _ _ _ _ H); [|exact Hne].
      now apply aget_Ok in He as [He' _].
  - intros [(edges & He & Hin)|(-> & -> & ->)].
    + destruct (Z.eq_dec u from) as [->|Hne].
      * exists (es ++ [mkEdge to0 sy]).
        split; [exact (aget_aset_same _ _ _ _ H)|].
        apply in_app_iff. left. congruence.
      * exists edges. split; [|exact Hin].
        rewrite <- He. apply (aget_aset_other _ _ _ _ _ H); [|exact Hne].
        now apply aget_Ok in He as [He' _].
    + exists (es ++ [mkEdge to0 sy]).
      split; [exact (aget_aset_same _ _ _ _ H)|].
      apply in_app_iff. right. now left.
Qed.

Lemma stack_ok_two (E : graph) (hi : Z) (f2 f1 : Frag) (fs : list Frag)
  (rs : list re) :
  stack_ok E hi (f2 :: f1 :: fs) rs ->
  exists r2 r1 rs' lo2 lo1,
    rs = r2 :: r1 :: rs'
    /\ region_ok E lo2 hi f2 r2 /\ region_ok E lo1 lo2 f1 r1
    /\ stack_ok E lo1 fs rs'.
Proof.
  destruct rs as [|r2 [|r1 rs']]; simpl; try contradiction.
  - intros (lo & _ & []).
  - intros (lo2 & H2 & lo1 & H1 & Hrest).
    exists r2, r1, rs', lo2, lo1. auto.
Qed.

Lemma stack_ok_one (E : graph) (hi : Z) (f : Frag) (fs : list Frag)
  (rs : list re) :
  stack_ok E hi (f :: fs) rs ->
  exists r rs' lo,
    rs = r :: rs' /\ region_ok E lo hi f r /\ stack_ok E lo fs rs'.
Proof.
  destruct rs as [|r rs']; simpl; [contradiction|].
  intros (lo & H & Hrest). exists r, rs', lo. auto.
Qed.

Lemma fs_pop_Ok (fs fs' : list Frag) (f : Frag) :
  fs_pop fs = Ok (f, fs') -> fs = f :: fs'.
Proof.
  destruct fs; simpl; intros H; [discriminate|]. now inversion H.
Qed.

Lemma postfix_re_snoc (sigma pre : list ascii) (c : ascii) :
  postfix_re sigma (pre ++ [c]) = re_step sigma (postfix_re sigma pre) c.
Proof. unfold postfix_re. now rewrite fold_left_app. Qed.

Lemma postfix_step_lang (sigma : list ascii) (pre : list ascii)
  (st st' : list NFAState * list Frag) (c : ascii) :
  ~ In zero sigma ->
  thompson_lang sigma pre st ->
  postfix_step sigma st c = Ok st' ->
  thompson_lang sigma (pre ++ [c]) st'.
Proof.
  intros Hz (rs & Hre & Hst) H. destruct st as [nfa fs].
  cbn [fst snd] in Hst. unfold thompson_lang.
  rewrite postfix_re_snoc, Hre. unfold re_step.
  unfold postfix_step in H.
  set (n := Z.of_nat (length nfa)) in *.
  assert (Hsrc : forall c u v, nfa_edge nfa c u v -> u < n)
    by (intros; eapply nfa_edge_src; eauto).
  (* a leaf: two new states and one edge *)
  assert (Hleaf : forall lbl r,
    (forall w, matches r w
               <-> w = (if Ascii.eqb lbl zero then [] else [lbl])) ->
    ('(nfa, s) <- new_nfa_state nfa ;;
     '(nfa, t) <- new_nfa_state nfa ;;
     nfa <- add_edge nfa s t lbl ;;
     Ok (nfa, fs_push fs (mkFrag s t))) = Ok st' ->
    stack_ok (nfa_edge (fst st')) (Z.of_nat (length (fst st'))) (snd st')
      (r :: rs)).
  { intros lbl r Hr Hrun.
    apply bind_Ok in Hrun as ([nfa1 s] & H1 & Hrun).
    apply bind_Ok in Hrun as ([nfa2 t] & H2 & Hrun).
    apply bind_Ok in Hrun as (nfa3 & H3 & Hrun).
    inversion Hrun; subst st'; clear Hrun. cbn [fst snd].
    destruct (new_nfa_state_graph _ _ _ H1) as (-> & L1 & G1).
    destruct (new_nfa_state_graph _ _ _ H2) as (-> & L2 & G2).
    destruct (add_edge_graph _ _ _ _ _ H3) as (L3 & G3).
    fold n in L1. rewrite L1 in *. 
    assert (HE' : forall c u v,
               nfa_edge nfa3 c u v
               <-> nfa_edge nfa c u v \/ (u = n /\ v = n + 1 /\ c = lbl)).
    { intros c0 u v. rewrite G3, G2, G1. reflexivity. }
    replace (Z.of_nat (length nfa3)) with (n + 2) by lia.
    unfold fs_push. simpl. exists n. split.
    - apply (leaf_region (nfa_edge nfa) _ n lbl r _ Hsrc HE' Hr eq_refl).
    - apply (stack_ok_extend (nfa_edge nfa) _
               (fun c u v => u = n /\ v = n + 1 /\ c = lbl) fs HE');
        [|exact Hst].
      intros c0 u v (-> & _). lia. }
  destruct (is_alphabet_symbol sigma c) eqn:E1.
  { exists (re_sym c :: rs). split; [reflexivity|].
    apply (Hleaf c (re_sym c)); [|exact H].
    assert (Hc : Ascii.eqb c zero = false).
    { apply Ascii.eqb_neq. intros ->. apply Hz.
      now apply is_alphabet_symbol_In. }
    rewrite Hc. intros w. split.
    - intros Hm. now inversion Hm.
    - intros ->. constructor. }
  destruct (Ascii.eqb c EPS_TOK) eqn:E2.
  { exists (re_eps :: rs). split; [reflexivity|].
    apply (Hleaf zero re_eps); [|exact H].
    rewrite Ascii.eqb_refl. intros w. split.
    - intros Hm. now inversion Hm.
    - intros ->. constructor. }
  destruct (Ascii.eqb c ".") eqn:E3.
  { apply bind_Ok in H as ([f2 fs1] & Hp2 & H).
    apply bind_Ok in H as ([f1 fs2] & Hp1 & H).
    apply bind_Ok in H as (nfa1 & Hadd & H).
    inversion H; subst st'; clear H. cbn [fst snd].
    apply fs_pop_Ok in Hp2. apply fs_pop_Ok in Hp1. subst fs1 fs.
    rename f2 into g2. rename f1 into g1. rename fs2 into fs'.
    destruct (stack_ok_two _ _ _ _ _ _ Hst)
      as (r2 & r1 & rs' & lo2 & lo1 & -> & Hr2 & Hr1 & Hrest).
    exists (re_cat r1 r2 :: rs'). split; [reflexivity|].
    destruct (add_edge_graph _ _ _ _ _ Hadd) as (L & G).
    rewrite L. fold n. unfold fs_push. simpl. exists lo1. split.
    - apply (cat_region (nfa_edge nfa) _ lo1 lo2 n g1 g2 r1 r2 Hr1 Hr2 G).
    - apply (stack_ok_extend (nfa_edge nfa) _
               (fun c u v => u = accept g1 /\ v = start g2 /\ c = zero)
               fs' G); [|exact Hrest].
      intros c0 u v (-> & _). destruct Hr1 as (_ & Ha & _). lia. }
  destruct (Ascii.eqb c "|" || Ascii.eqb c "+") eqn:E4.
  { apply bind_Ok in H as ([f2 fs1] & Hp2 & H).
    apply bind_Ok in H as ([f1 fs2] & Hp1 & H).
    apply bind_Ok in H as ([nfa1 s] & H1 & H).
    apply bind_Ok in H as ([nfa2 t] & H2 & H).
    apply bind_Ok in H as (nfa3 & A1 & H).
    apply bind_Ok in H as (nfa4 & A2 & H).
    apply bind_Ok in H as (nfa5 & A3 & H).
    apply bind_Ok in H as (nfa6 & A4 & H).
    inversion H; subst st'; clear H. cbn [fst snd].
    apply fs_pop_Ok in Hp2. apply fs_pop_Ok in Hp1. subst fs1 fs.
    rename f2 into g2. rename f1 into g1. rename fs2 into fs'.
    destruct (stack_ok_two _ _ _ _ _ _ Hst)
      as (r2 & r1 & rs' & lo2 & lo1 & -> & Hr2 & Hr1 & Hrest).
    exists (re_alt r1 r2 :: rs'). split; [reflexivity|].
    destruct (new_nfa_state_graph _ _ _ H1) as (-> & L1 & G1).
    destruct (new_nfa_state_graph _ _ _ H2) as (-> & L2 & G2).
    destruct (add_edge_graph _ _ _ _ _ A1) as (L3 & G3).
    destruct (add_edge_graph _ _ _ _ _ A2) as (L4 & G4).
    destruct (add_edge_graph _ _ _ _ _ A3) as (L5 & G5).
    destruct (add_edge_graph _ _ _ _ _ A4) as (L6 & G6).
    fold n in L1. rewrite L1 in *.
    assert (HE' : forall c u v,
               nfa_edge nfa6 c u v
               <-> nfa_edge nfa c u v
                   \/ (c = zero
                       /\ ((u = n /\ v = start g1) \/ (u = n /\ v = start g2)
                           \/ (u = accept g1 /\ v = n + 1)
                           \/ (u = accept g2 /\ v = n + 1)))).
    { intros c0 u v. rewrite G6, G5, G4, G3, G2, G1. tauto. }
    replace (Z.of_nat (length nfa6)) with (n + 2) by lia.
    unfold fs_push. simpl. exists lo1. split.
    - apply (alt_region (nfa_edge nfa) _ lo1 lo2 n g1 g2 r1 r2 Hr1 Hr2 Hsrc
               HE').
    - apply (stack_ok_extend (nfa_edge nfa) _ _ fs' HE'); [|exact Hrest].
      destruct Hr1 as (_ & Ha1 & _). destruct Hr2 as (_ & Ha2 & _).
      intros c0 u v (_ & [(-> & _)|[(-> & _)|[(-> & _)|(-> & _)]]]); lia. }
  destruct (Ascii.eqb c "*") eqn:E5; [|discriminate].
  apply bind_Ok in H as ([f fs1] & Hp & H).
  apply bind_Ok in H as ([nfa1 s] & H1 & H).
  apply bind_Ok in H as ([nfa2 t] & H2 & H).
  apply bind_Ok in H as (nfa3 & A1 & H).
  apply bind_Ok in H as (nfa4 & A2 & H).
  apply bind_Ok in H as (nfa5 & A3 & H).
  apply bind_Ok in H as (nfa6 & A4 & H).
  inversion H; subst st'; clear H. cbn [fst snd].
  apply fs_pop_Ok in Hp. subst fs.
  rename f into g. rename fs1 into fs'.
  destruct (stack_ok_one _ _ _ _ _ Hst) as (r & rs' & lo & -> & Hr & Hrest).
  exists (re_star r :: rs'). split; [reflexivity|].
  destruct (new_nfa_state_graph _ _ _ H1) as (-> & L1 & G1).
  destruct (new_nfa_state_graph _ _ _ H2) as (-> & L2 & G2).
  destruct (add_edge_graph _ _ _ _ _ A1) as (L3 & G3).
  destruct (add_edge_graph _ _ _ _ _ A2) as (L4 & G4).
  destruct (add_edge_graph _ _ _ _ _ A3) as (L5 & G5).
  destruct (add_edge_graph _ _ _ _ _ A4) as (L6 & G6).
  fold n in L1. rewrite L1 in *.
  assert (HE' : forall c u v,
             nfa_edge nfa6 c u v
             <-> nfa_edge nfa c u v
                 \/ (c = zero
                     /\ ((u = n /\ v = start g) \/ (u = n /\ v = n + 1)
                         \/ (u = accept g /\ v = start g)
                         \/ (u = accept g /\ v = n + 1)))).
  { intros c0 u v. rewrite G6, G5, G4, G3, G2, G1. tauto. }
  replace (Z.of_nat (length nfa6)) with (n + 2) by lia.
  unfold fs_push. simpl. exists lo. split.
  - apply (star_region (nfa_edge nfa) _ lo n g r Hr Hsrc HE').
  - apply (stack_ok_extend (nfa_edge nfa) _ _ fs' HE'); [|exact Hrest].
    destruct Hr as (_ & Ha & _).
    intros c0 u v (_ & [(-> & _)|[(-> & _)|[(-> & _)|(-> & _)]]]); lia.
Qed.

Lemma postfix_to_nfa_language_spec (sigma post : list ascii)
  (nfa : list NFAState) (frag : Frag) :
  ~ In zero sigma ->
  postfix_to_nfa sigma post = Ok (nfa, frag) ->
  exists r,
    postfix_re sigma post = Some [r]
    /\ forall w, nonzero w ->
         (nfa_reach nfa (start frag) w (accept frag) <-> matches r w).
Proof.
  intros Hz H. unfold postfix_to_nfa in H.
  apply bind_Ok in H as ([nfa0 fs] & Hloop & H).
  destruct (negb (Z.of_nat (length fs) =? 1)) eqn:E; [discriminate|].
  apply bind_Ok in H as ([res fs'] & Hpop & H).
  inversion H; subst nfa0 res; clear H.
  apply negb_false_iff, Z.eqb_eq in E. apply fs_pop_Ok in Hpop. subst fs.
  destruct fs' as [|f' fs'']; [clear E | cbn [length] in E; lia].
  apply (foldM_prefix_inv (thompson_lang sigma)) in Hloop.
  - destruct Hloop as (rs & Hre & Hst). cbn [fst snd] in Hst.
    destruct (stack_ok_one _ _ _ _ _ Hst) as (r & rs' & lo & -> & Hr & Hrest).
    destruct rs'; [|contradiction].
    exists r. split; [exact Hre|].
    intros w Hw. rewrite nfa_reach_reach.
    destruct Hr as (_ & _ & _ & _ & Hl). now apply Hl.
  - intros p c s s' _. now apply postfix_step_lang.
  - exists []. split; [reflexivity|]. reflexivity.
Qed.

(** The NFA [postfix_to_nfa] builds accepts the language of the postfix
    string: for an alphabet without the byte 0, the postfix string stands
    for one expression, read with [.] as concatenation, [|] and [+] as
    union and [*] as iteration, and the NFA can go from the start to the
    accept state of the returned fragment reading a word without the byte
    0 exactly when the expression matches the word. *)
Theorem postfix_to_nfa_language (sigma post : list ascii)
  (nfa : list NFAState) (frag : Frag) :
  ~ In zero sigma ->
  postfix_to_nfa sigma post = Ok (nfa, frag) ->
  exists r,
    postfix_re sigma post = Some [r]
    /\ forall w, nonzero w ->
         (nfa_reach nfa (start frag) w (accept frag) <-> matches r w).
Proof.
  exact (postfix_to_nfa_language_spec sigma post nfa frag).
Qed.

Lemma postfix_to_nfa_language_witness :
  exists nfa frag r,
    postfix_to_nfa (str "ab") (str "ab|*a.") = Ok (nfa, frag)
    /\ postfix_re (str "ab") (str "ab|*a.") = Some [r]
    /\ (nfa_reach nfa (start frag) (str "ba") (accept frag)
        <-> matches r (str "ba")).
Proof.
  eexists. eexists.
  destruct (postfix_to_nfa_language (str "ab") (str "ab|*a.")
              _ _
              ltac:(simpl; intuition discriminate)
              ltac:(vm_compute; reflexivity)) as (r & Hre & Hl).
  exists r. split; [vm_compute; reflexivity|]. split; [exact Hre|].
  apply Hl. repeat constructor; discriminate.
Defined.

End ThompsonLanguage.

(* ================================================================== *)
(** ** From the postfix string to the emitted file *)

Section Pipeline.
Import Regex2MinDfa Spec Props.

Lemma compiled_file_language_spec (sigma post : list ascii)
  (nfa : list NFAState) (frag : Frag) (dfa : list DFAState) (m : minimized)
  (f : DfaFile) :
  let k := Z.of_nat (length sigma) in
  let A := complete_A dfa (need_dead_of dfa) in
  let N := Z.of_nat (length A) in
  let T := complete_T k dfa (need_dead_of dfa) (m_dead m) in
  sigma <> [] -> NoDup sigma -> ~ In zero sigma ->
  postfix_to_nfa sigma post = Ok (nfa, frag) ->
  nfa_to_dfa sigma nfa (start frag) (accept frag) = Ok dfa ->
  dfa_minimize k dfa = Ok m ->
  write_min_dfa sigma dfa (m_cls m) (m_min_n m) (m_need_dead m) (m_dead m)
  = Ok f ->
  stable_b N k T (m_cls m) = true ->
  exists r,
    postfix_re sigma post = Some [r]
    /\ forall wi, Forall (fun ai => 0 <= ai < k) wi ->
         (file_accepts f wi <-> matches r (word_symbols sigma wi)).
Proof.
  intros k A N T Hsig Hnodup Hz Hnfa Hdfa Hmin Hwrite Hst.
  destruct (postfix_to_nfa_language_spec _ _ _ _ Hz Hnfa) as (r & Hre & Hl).
  exists r. split; [exact Hre|]. intros wi Hwi.
  rewrite (emitted_file_language_spec sigma nfa (start frag) (accept frag)
             dfa m f wi Hsig Hnodup Hdfa Hmin Hwrite Hst Hwi).
  apply Hl. unfold nonzero, word_symbols. apply Forall_map.
  eapply Forall_impl; [|exact Hwi]. intros ai Hai Hc.
  apply Hz. rewrite <- Hc. apply nth_In. fold k in Hai. unfold k in Hai. lia.
Qed.

(** The stages after [to_postfix], taken together: for a non-empty
    alphabet without repetition and without the byte 0, when the partition
    [dfa_minimize] returns is stable, the emitted file accepts a word over
    the alphabet exactly when the expression the postfix string stands for
    matches it. *)
Theorem compiled_file_language (sigma post : list ascii)
  (nfa : list NFAState) (frag : Frag) (dfa : list DFAState) (m : minimized)
  (f : DfaFile) :
  let k := Z.of_nat (length sigma) in
  let A := complete_A dfa (need_dead_of dfa) in
  let N := Z.of_nat (length A) in
  let T := complete_T k dfa (need_dead_of dfa) (m_dead m) in
  sigma <> [] -> NoDup sigma -> ~ In zero sigma ->
  postfix_to_nfa sigma post = Ok (nfa, frag) ->
  nfa_to_dfa sigma nfa (start frag) (accept frag) = Ok dfa ->
  dfa_minimize k dfa = Ok m ->
  write_min_dfa sigma dfa (m_cls m) (m_min_n m) (m_need_dead m) (m_dead m)
  = Ok f ->
  stable_b N k T (m_cls m) = true ->
  exists r,
    postfix_re sigma post = Some [r]
    /\ forall wi, Forall (fun ai => 0 <= ai < k) wi ->
         (file_accepts f wi <-> matches r (word_symbols sigma wi)).
Proof.
  exact (compiled_file_language_spec sigma post nfa frag dfa m f).
Qed.

Lemma compiled_file_language_witness :
  exists nfa frag dfa m f r,
    postfix_to_nfa (str "ab") (str "ab|*a.") = Ok (nfa, frag)
    /\ nfa_to_dfa (str "ab") nfa (start frag) (accept frag) = Ok dfa
    /\ dfa_minimize 2 dfa = Ok m
    /\ write_min_dfa (str "ab") dfa (m_cls m) (m_min_n m) (m_need_dead m)
         (m_dead m) = Ok f
    /\ postfix_re (str "ab") (str "ab|*a.") = Some [r]
    /\ (file_accepts f [1; 0] <-> matches r (word_symbols (str "ab") [1; 0])).
Proof.
  eexists. eexists. eexists. eexists. eexists.
  match goal with
  | |- exists r, ?P1 /\ ?P2 /\ ?P3 /\ ?P4 /\ _ =>
      assert (H1 : P1) by (vm_compute; reflexivity);
      assert (H2 : P2) by (vm_compute; reflexivity);
      assert (H3 : P3) by (vm_compute; reflexivity);
      assert (H4 : P4) by (vm_compute; reflexivity)
  end.
  destruct (compiled_file_language (str "ab") (str "ab|*a.") _ _ _ _ _
              ltac:(discriminate)
              ltac:(repeat constructor; simpl; intuition discriminate)
              ltac:(simpl; intuition discriminate)
              H1 H2 H3 H4 ltac:(vm_compute; reflexivity))
    as (r & Hre & Hl).
  exists r. repeat (split; [assumption|]).
  apply Hl. repeat constructor; simpl; lia.
Defined.

Lemma parse_alphabet_line_facts (line sigma : list ascii) :
  parse_alphabet_line line = Ok sigma ->
  sigma <> [] /\ NoDup sigma /\ ~ In zero sigma.
Proof.
  unfold parse_alphabet_line. intros H.
  apply (parse_alphabet_loop_spec line (fun _ => false) [] sigma) in H.
  - destruct H as (_ & Hne & Hnd & _ & Hadm).
    split; [exact Hne|]. split; [exact Hnd|].
    intros Hz. rewrite Forall_forall in Hadm.
    destruct (Hadm zero Hz) as (_ & _ & Hb). vm_compute in Hb.
    now apply Hb.
  - intros x. simpl. split; [discriminate | contradiction].
  - constructor.
  - constructor.
  - unfold MAX_ALPHABET. simpl. lia.
Qed.

(** The whole compiler: when [main] writes a file, the alphabet line gave
    an alphabet, [to_postfix] gave a postfix string that stands for one
    expression, and, if the partition [dfa_minimize] returned for the
    table is stable, the file accepts a word over the alphabet exactly
    when that expression matches it. *)
Theorem main_file_language (line_regex line_alpha : list ascii)
  (f : DfaFile) :
  main line_regex line_alpha = Ok f ->
  exists sigma post r dfa m,
    let k := Z.of_nat (length sigma) in
    let A := complete_A dfa (need_dead_of dfa) in
    let T := complete_T k dfa (need_dead_of dfa) (m_dead m) in
    parse_alphabet_line (c_str line_alpha) = Ok sigma
    /\ to_postfix sigma
         (add_concat_ops sigma (preprocess_regex (c_str line_regex)))
       = Ok post
    /\ postfix_re sigma post = Some [r]
    /\ build_dfa line_regex line_alpha = Ok (sigma, dfa)
    /\ dfa_minimize k dfa = Ok m
    /\ (stable_b (Z.of_nat (length A)) k T (m_cls m) = true ->
        forall wi, Forall (fun ai => 0 <= ai < k) wi ->
          (file_accepts f wi <-> matches r (word_symbols sigma wi))).
Proof.
  intros H. unfold main in H.
  apply bind_Ok in H as ([sigma dfa] & Hbuild & H).
  apply bind_Ok in H as (m & Hmin & Hwrite).
  pose proof Hbuild as Hb. unfold build_dfa in Hb.
  apply bind_Ok in Hb as (sigma' & Hparse & Hb).
  destruct (preprocess_regex (c_str line_regex)) as [|c0 regex0] eqn:Ere;
    [discriminate|].
  apply bind_Ok in Hb as (? & _ & Hb).
  apply bind_Ok in Hb as (? & _ & Hb).
  apply bind_Ok in Hb as (post & Hpost & Hb).
  apply bind_Ok in Hb as ([nfa frag] & Hnfa & Hb).
  apply bind_Ok in Hb as (dfa' & Hdfa & Hb).
  inversion Hb; subst sigma' dfa'; clear Hb.
  destruct (parse_alphabet_line_facts _ _ Hparse) as (Hne & Hnd & Hz).
  destruct (postfix_to_nfa_language_spec _ _ _ _ Hz Hnfa)
    as (r & Hre & Hl).
  exists sigma, post, r, dfa, m. cbv zeta.
  split; [exact Hparse|]. split; [exact Hpost|]. split; [exact Hre|].
  split; [exact Hbuild|]. split; [exact Hmin|].
  intros Hst wi Hwi.
  destruct (compiled_file_language_spec sigma post nfa frag dfa m f
              Hne Hnd Hz Hnfa Hdfa Hmin Hwrite Hst) as (r' & Hre' & Hl').
  assert (r' = r) by congruence. subst r'. now apply Hl'.
Qed.

Lemma main_file_language_witness :
  exists f sigma post r dfa m,
    main (str "(a|b)*a") (str "a b") = Ok f
    /\ parse_alphabet_line (c_str (str "a b")) = Ok sigma
    /\ to_postfix sigma
         (add_concat_ops sigma (preprocess_regex (c_str (str "(a|b)*a"))))
       = Ok post
    /\ postfix_re sigma post = Some [r]
    /\ dfa_minimize (Z.of_nat (length sigma)) dfa = Ok m.
Proof.
  eexists.
  destruct (main_file_language (str "(a|b)*a") (str "a b") _
              ltac:(vm_compute; reflexivity))
    as (sigma & post & r & dfa & m & H1 & H2 & H3 & _ & H5 & _).
  exists sigma, post, r, dfa, m.
  split; [vm_compute; reflexivity|]. auto.
Defined.

End Pipeline.

(* ================================================================== *)
(** ** The minimizer never separates states with the same language *)

Section Refinement.
Import Regex2MinDfa Spec Props.

Lemma split_block_classes (N : Z) (A : list Z) (mark : list Z)
  (st st' : hopcroft_state) (yi : Z) (blk : IntVec) :
  partition_ok N A st ->
  0 <= yi < hp_Pn st ->
  aget (hp_P st) yi = Ok blk ->
  split_block mark st yi = Ok st' ->
  hp_Pn st' = hp_Pn st + 1
  /\ (Forall (fun i => 0 <= i < hp_Pn st) (hp_W st) ->
      Forall (fun i => 0 <= i < hp_Pn st') (hp_W st'))
  /\ forall s c, 0 <= s < N -> cget (hp_cls st) s = Ok c ->
       cget (hp_cls st') s
       = Ok (if c =? yi then (if marked mark s then yi else hp_Pn st)
             else c).
Proof.
  intros (Hn & Hcov & Hblk & Hacc) Hyi Hget H.
  unfold split_block in H.
  apply bind_Ok in H as (blk0 & HY & H).
  assert (blk0 = blk) by (eapply aget_inj; eauto). subst blk0.
  apply bind_Ok in H as ([Y1 Y2] & Hsplit & H).
  apply bind_Ok in H as (P1 & HP1 & H).
  apply bind_Ok in H as (P2 & HP2 & H).
  apply bind_Ok in H as (Pyi & HPyi & H).
  apply bind_Ok in H as (cls1 & Hcls1 & H).
  apply bind_Ok in H as (Pnew & HPnew & H).
  apply bind_Ok in H as (cls2 & Hcls2 & H).
  unfold split_members in Hsplit.
  apply split_members_filter in Hsplit as [EY1 EY2]. simpl in EY1, EY2.
  rewrite (aget_aset_same _ _ _ _ HP2) in HPnew.
  inversion HPnew; subst Pnew; clear HPnew.
  rewrite (aget_aset_other _ _ _ _ _ HP2) in HPyi by lia.
  rewrite (aget_aset_same _ _ _ _ HP1) in HPyi.
  inversion HPyi; subst Pyi; clear HPyi.
  destruct (assign_class_spec _ _ _ _ Hcls1) as (L1 & In1 & Out1).
  destruct (assign_class_spec _ _ _ _ Hcls2) as (L2 & In2 & Out2).
  assert (HY1 : forall s, In s Y1 <-> In s blk /\ marked mark s = true)
    by (intros s; rewrite EY1; apply filter_In).
  assert (HY2 : forall s, In s Y2 <-> In s blk /\ marked mark s = false).
  { intros s. rewrite EY2, filter_In. now rewrite negb_true_iff. }
  assert (Hclasses : forall s c, 0 <= s < N -> cget (hp_cls st) s = Ok c ->
             cget cls2 s
             = Ok (if c =? yi then (if marked mark s then yi else hp_Pn st)
                   else c)).
  { intros s c Hs Hc.
    destruct (Hcov s Hs) as (c' & b & Hc' & Hcr & Hb & Hin).
    assert (c' = c) by congruence. subst c'.
    destruct (Z.eqb_spec c yi) as [->|Hne].
    - assert (b = blk) by (eapply aget_inj; eauto). subst b.
      destruct (marked mark s) eqn:Hm.
      + assert (H1 : In s Y1) by (apply HY1; auto).
        rewrite Out2; [now apply In1|].
        intros H2. apply HY2 in H2 as [_ H2]. congruence.
      + apply In2. apply HY2. auto.
    - assert (Hnot : ~ In s blk).
      { intros Hin'. destruct (Hblk yi blk Hyi Hget) as [_ Hm].
        destruct (Hm s Hin') as [_ Hc'']. congruence. }
      rewrite Out2, Out1; [exact Hc | |];
        intros Hx; [apply HY1 in Hx | apply HY2 in Hx]; tauto. }
  assert (Hgoal : forall W,
             (Forall (fun i => 0 <= i < hp_Pn st) (hp_W st) ->
              Forall (fun i => 0 <= i < hp_Pn st + 1) W) ->
             let st1 := mkHopcroft P2 (hp_Pn st + 1) cls2 W in
             hp_Pn st1 = hp_Pn st + 1
             /\ (Forall (fun i => 0 <= i < hp_Pn st) (hp_W st) ->
                 Forall (fun i => 0 <= i < hp_Pn st1) (hp_W st1))
             /\ forall s c, 0 <= s < N -> cget (hp_cls st) s = Ok c ->
                  cget (hp_cls st1) s
                  = Ok (if c =? yi
                        then (if marked mark s then yi else hp_Pn st)
                        else c)).
  { intros W HW. cbn [hp_Pn hp_W hp_cls]. auto. }
  assert (Hwiden : Forall (fun i => 0 <= i < hp_Pn st) (hp_W st) ->
                   Forall (fun i => 0 <= i < hp_Pn st + 1) (hp_W st)).
  { intros HW. eapply Forall_impl; [|exact HW]. intros i Hi.
    cbv beta in Hi |- *. lia. }
  destruct (find_in_W (hp_W st) 0 yi >=? 0).
  - apply bind_Ok in H as (W1 & HW1 & H). inversion H; subst st'.
    apply Hgoal. intros HW. unfold iv_push.
    apply Forall_app. split; [|constructor; [lia | constructor]].
    eapply aset_Forall; [exact HW1 | now apply Hwiden | lia].
  - destruct (Z.of_nat (length Y1) <=? Z.of_nat (length Y2));
      inversion H; subst st'; apply Hgoal; intros HW; unfold iv_push;
      (apply Forall_app; split;
       [now apply Hwiden | constructor; [lia | constructor]]).
Qed.

Lemma refine_block_refine (N k : Z) (T A mark : list Z)
  (sy sy' : hopcroft_state * Z) :
  refine_ok N k T A (fst sy) ->
  mark_fair N k T A mark ->
  (snd sy <? hp_Pn (fst sy)) = true ->
  refine_block mark sy = Ok sy' ->
  refine_ok N k T A (fst sy') /\ hp_Pn (fst sy) <= hp_Pn (fst sy').
Proof.
  intros Hok Hfair Hlt H.
  pose proof (refine_block_partition N A mark sy sy' (proj1 Hok) Hlt H)
    as Hpart.
  destruct sy as [st yi]. cbn [fst snd] in *.
  destruct Hok as (Hp & HW & Heq).
  apply Z.ltb_lt in Hlt.
  apply bind_Ok in H as (blk & Hblk & H).
  apply bind_Ok in H as (cnt & Hcnt & H).
  destruct ((cnt =? 0) || (cnt =? Z.of_nat (length blk))).
  - inversion H; subst. cbn [fst]. split; [|lia].
    split; [exact Hp|]. split; [exact HW | exact Heq].
  - apply bind_Ok in H as (st1 & Hsplit & H). inversion H; subst.
    cbn [fst] in *.
    pose proof (aget_Ok _ _ _ Hblk) as [Hyi _].
    assert (Hyi' : 0 <= yi < hp_Pn st) by lia.
    destruct (split_block_classes N A mark st st1 yi blk Hp Hyi' Hblk Hsplit)
      as (HPn & HW' & Hcls).
    split; [|lia].
    split; [exact Hpart|]. split; [now apply HW'|].
    intros s t Hs Ht Hst.
    destruct Hp as (_ & Hcov & _).
    destruct (Hcov s Hs) as (c & b & Hc & _).
    pose proof (Heq s t Hs Ht Hst) as E. rewrite Hc in E. symmetry in E.
    rewrite (Hcls s c Hs Hc), (Hcls t c Ht E).
    rewrite (Hfair s t Hs Ht Hst). reflexivity.
Qed.

Lemma refine_loop_refine (N k : Z) (T A mark : list Z) (fuel : nat)
  (sy sy' : hopcroft_state * Z) :
  refine_ok N k T A (fst sy) ->
  mark_fair N k T A mark ->
  while_fuel fuel (fun sy => snd sy <? hp_Pn (fst sy)) (refine_block mark) sy
  = Ok sy' ->
  refine_ok N k T A (fst sy') /\ hp_Pn (fst sy) <= hp_Pn (fst sy').
Proof.
  intros Hok Hfair H.
  apply (while_fuel_inv
           (fun x => refine_ok N k T A (fst x)
                     /\ hp_Pn (fst sy) <= hp_Pn (fst x))) in H.
  - apply H.
  - intros x x' [Hx Hle] Hc Hb.
    destruct (refine_block_refine N k T A mark x x' Hx Hfair Hc Hb)
      as [Hx' Hle'].
    split; [exact Hx' | lia].
  - split; [exact Hok | lia].
Qed.

Lemma mark_bucket_spec (pre : list Z) :
  forall mark mark' : list Z,
    foldM (fun mark p => aset mark p 1) pre mark = Ok mark' ->
    forall p, 0 <= p ->
      (marked mark' p = true <-> marked mark p = true \/ In p pre).
Proof.
  induction pre as [|x pre IH]; intros mark mark' H p Hp; simpl in H.
  - inversion H; subst. simpl. tauto.
  - apply bind_Ok in H as (m1 & Hset & H).
    rewrite (IH m1 mark' H p Hp). cbn [In].
    destruct (Z.eq_dec p x) as [->|Hne].
    + unfold marked at 1. rewrite (nth_aset_same _ _ _ _ 0 Hset).
      simpl. tauto.
    + unfold marked at 1 2.
      rewrite (nth_aset_other _ _ _ _ _ 0 Hset Hp Hne).
      split; [intros [Hm|Hm]; auto | intros [Hm|[Hm|Hm]]; auto; congruence].
Qed.

Lemma mark_preimage_from (N k a : Z) (T : list Z) (inv : list IntVec) :
  inv_ok N k T inv -> 0 <= a < k ->
  forall (blk : IntVec) (mark0 mark : list Z),
    (forall q, In q blk -> 0 <= q < N) ->
    foldM (fun mark qstate =>
             pre <- aget inv (a * N + qstate) ;;
             foldM (fun mark p => aset mark p 1) pre mark) blk mark0
    = Ok mark ->
    forall p, 0 <= p < N ->
      (marked mark p = true
       <-> marked mark0 p = true
           \/ exists q, In q blk /\ aget T (p * k + a) = Ok q).
Proof.
  intros Hinv Ha.
  induction blk as [|q blk IH]; intros mark0 mark Hr H p Hp; simpl in H.
  - inversion H; subst. split; [auto|].
    intros [Hm|(q & [] & _)]. exact Hm.
  - apply bind_Ok in H as (m1 & Hq & H).
    apply bind_Ok in Hq as (pre & Hpre & Hq).
    destruct (Hinv a q Ha (Hr q (or_introl eq_refl))) as (pre' & Hpre' & Hin).
    assert (pre' = pre) by exact (aget_inj _ _ _ _ Hpre' Hpre). subst pre'.
    rewrite (IH m1 mark (fun q' Hq' => Hr q' (or_intror Hq')) H p Hp).
    rewrite (mark_bucket_spec pre mark0 m1 Hq p (proj1 Hp)).
    rewrite (Hin p).
    split.
    + intros [[Hm|[_ HT]]|(q' & Hq' & HT)]; auto.
      * right. exists q. split; [now left | exact HT].
      * right. exists q'. split; [now right | exact HT].
    + intros [Hm|(q' & [->|Hq'] & HT)]; auto.
      right. exists q'. auto.
Qed.

Lemma mark_preimage_spec (N k a : Z) (T : list Z) (inv : list IntVec)
  (blk : IntVec) (mark : list Z) :
  inv_ok N k T inv -> 0 <= a < k ->
  (forall q, In q blk -> 0 <= q < N) ->
  mark_preimage N a inv blk = Ok mark ->
  forall p, 0 <= p < N ->
    (marked mark p = true
     <-> exists q, In q blk /\ aget T (p * k + a) = Ok q).
Proof.
  intros Hinv Ha Hr H p Hp. unfold mark_preimage in H.
  rewrite (mark_preimage_from N k a T inv Hinv Ha blk _ mark Hr H p Hp).
  unfold marked at 1. rewrite nth_repeat. simpl.
  split; [intros [Hm|Hm]; [discriminate | exact Hm] | auto].
Qed.

Lemma T_cell (N k : Z) (T : list Z) (p a : Z) :
  Z.of_nat (length T) = N * k -> Forall (fun t => 0 <= t < N) T ->
  0 <= p < N -> 0 <= a < k ->
  exists q, aget T (p * k + a) = Ok q /\ 0 <= q < N.
Proof.
  intros HT1 HT2 Hp Ha.
  destruct (aget_in_range T (p * k + a)) as (q & Hq & Hin); [nia|].
  exists q. split; [exact Hq|].
  rewrite Forall_forall in HT2. now apply HT2.
Qed.

Lemma same_language_step (k : Z) (T A : list Z) (s t a qs qt : Z) :
  same_language k T A s t -> 0 <= a < k ->
  aget T (s * k + a) = Ok qs -> aget T (t * k + a) = Ok qt ->
  same_language k T A qs qt.
Proof.
  intros H Ha Hs Ht w Hw.
  specialize (H (a :: w) (Forall_cons _ Ha Hw)).
  cbn [T_walk] in H.
  rewrite (aget_nth _ _ _ 0 Hs), (aget_nth _ _ _ 0 Ht) in H. exact H.
Qed.

Lemma mark_preimage_fair (N k a Ablock : Z) (T A : list Z)
  (inv : list IntVec) (st : hopcroft_state) (blk : IntVec) (mark : list Z) :
  Z.of_nat (length T) = N * k -> Forall (fun t => 0 <= t < N) T ->
  inv_ok N k T inv -> 0 <= a < k ->
  refine_ok N k T A st -> 0 <= Ablock < hp_Pn st ->
  aget (hp_P st) Ablock = Ok blk ->
  mark_preimage N a inv blk = Ok mark ->
  mark_fair N k T A mark.
Proof.
  intros HT1 HT2 Hinv Ha (Hp & HW & Heq) HA Hblk Hmark s t Hs Ht Hst.
  destruct Hp as (Hn & Hcov & Hb & Hacc).
  destruct (Hb Ablock blk HA Hblk) as [_ Hmem].
  pose proof (mark_preimage_spec N k a T inv blk mark Hinv Ha
                (fun q Hq => proj1 (Hmem q Hq)) Hmark) as Hspec.
  destruct (T_cell N k T s a HT1 HT2 Hs Ha) as (qs & Hqs & Hqsr).
  destruct (T_cell N k T t a HT1 HT2 Ht Ha) as (qt & Hqt & Hqtr).
  pose proof (Heq qs qt Hqsr Hqtr
                (same_language_step k T A s t a qs qt Hst Ha Hqs Hqt)) as Hq.
  assert (Hin : forall q, 0 <= q < N ->
                  (In q blk <-> cget (hp_cls st) q = Ok Ablock)).
  { intros q Hq'. split.
    - intros Hi. now apply Hmem.
    - intros Hc. destruct (Hcov q Hq') as (c & b & Hc' & _ & Hb' & Hi).
      assert (c = Ablock) by congruence. subst c.
      assert (b = blk) by exact (aget_inj _ _ _ _ Hb' Hblk). now subst b. }
  apply Bool.eq_iff_eq_true. rewrite (Hspec s Hs), (Hspec t Ht).
  split; intros (q & Hqi & HqT).
  - assert (q = qs) by congruence. subst q.
    exists qt. split; [|exact Hqt].
    apply (Hin qt Hqtr). rewrite <- Hq. now apply (Hin qs Hqsr).
  - assert (q = qt) by congruence. subst q.
    exists qs. split; [|exact Hqs].
    apply (Hin qs Hqsr). rewrite Hq. now apply (Hin qt Hqtr).
Qed.

Lemma refine_symbol_refine (N k : Z) (T A : list Z) (inv : list IntVec)
  (Ablock a : Z) (st st' : hopcroft_state) :
  Z.of_nat (length T) = N * k -> Forall (fun t => 0 <= t < N) T ->
  inv_ok N k T inv -> 0 <= a < k ->
  refine_ok N k T A st -> 0 <= Ablock < hp_Pn st ->
  refine_symbol N inv Ablock st a = Ok st' ->
  refine_ok N k T A st' /\ hp_Pn st <= hp_Pn st'.
Proof.
  intros HT1 HT2 Hinv Ha Hok HA H. unfold refine_symbol in H.
  apply bind_Ok in H as (blk & Hblk & H).
  apply bind_Ok in H as (mark & Hmark & H).
  apply bind_Ok in H as ([st1 y1] & Hloop & H). inversion H; subst.
  pose proof (mark_preimage_fair N k a Ablock T A inv st blk mark
                HT1 HT2 Hinv Ha Hok HA Hblk Hmark) as Hfair.
  exact (refine_loop_refine N k T A mark _ (st, 0) (st', y1)
           Hok Hfair Hloop).
Qed.

Lemma hopcroft_body_refine (N k : Z) (T A : list Z) (inv : list IntVec)
  (st st' : hopcroft_state) :
  Z.of_nat (length T) = N * k -> Forall (fun t => 0 <= t < N) T ->
  inv_ok N k T inv ->
  refine_ok N k T A st ->
  (Z.of_nat (length (hp_W st)) >? 0) = true ->
  hopcroft_body N k inv st = Ok st' ->
  refine_ok N k T A st'.
Proof.
  intros HT1 HT2 Hinv (Hp & HW & Heq) Hc H. unfold hopcroft_body in H.
  assert (Hne : hp_W st <> []).
  { intros E. rewrite E in Hc. discriminate. }
  destruct (exists_last Hne) as (W' & x & E).
  rewrite E in H, HW. rewrite last_last, removelast_last in H.
  apply Forall_app in HW as [HW' Hx].
  apply Forall_inv in Hx. cbv beta in Hx.
  assert (Hgoal : refine_ok N k T A st' /\ x < hp_Pn st'); [|apply Hgoal].
  revert H.
  apply foldM_inv with (I := fun s => refine_ok N k T A s /\ x < hp_Pn s).
  - intros s a s' [Hs Hlt] Ha Hf. apply zrange_In in Ha.
    destruct (refine_symbol_refine N k T A inv x a s s' HT1 HT2 Hinv Ha Hs
                ltac:(lia) Hf) as [Hs' Hle].
    split; [exact Hs' | lia].
  - split; [|cbn [hp_Pn]; lia].
    split; [exact Hp|]. split; [exact HW' | exact Heq].
Qed.

Lemma aget_repeat {X : Type} (x : X) (n : nat) (i : Z) :
  0 <= i < Z.of_nat n -> aget (repeat x n) i = Ok x.
Proof.
  intros Hi.
  destruct (aget_in_range (repeat x n) i) as (y & Hy & Hin);
    [rewrite repeat_length; lia|].
  apply repeat_spec in Hin. now subst y.
Qed.

Lemma build_inv_step (N k : Z) (T : list Z) (p a : Z) (inv inv' : list IntVec) :
  0 <= p < N -> 0 <= a < k ->
  Forall (fun t => 0 <= t < N) T ->
  (Z.of_nat (length inv) = k * N
   /\ forall a0 q, 0 <= a0 < k -> 0 <= q < N ->
        exists pre, aget inv (a0 * N + q) = Ok pre
                    /\ forall x, In x pre
                         <-> (0 <= x < p /\ aget T (x * k + a0) = Ok q)
                             \/ (x = p /\ a0 < a
                                 /\ aget T (p * k + a0) = Ok q)) ->
  (q <- aget T (p * k + a) ;;
   pre <- aget inv (a * N + q) ;;
   aset inv (a * N + q) (iv_push pre p)) = Ok inv' ->
  Z.of_nat (length inv') = k * N
  /\ forall a0 q, 0 <= a0 < k -> 0 <= q < N ->
       exists pre, aget inv' (a0 * N + q) = Ok pre
                   /\ forall x, In x pre
                        <-> (0 <= x < p /\ aget T (x * k + a0) = Ok q)
                            \/ (x = p /\ a0 < a + 1
                                /\ aget T (p * k + a0) = Ok q).
Proof.
  intros Hp Ha HT [Hlen Hinv] H.
  apply bind_Ok in H as (q1 & Hq1 & H).
  apply bind_Ok in H as (pre1 & Hpre1 & H).
  assert (Hq1r : 0 <= q1 < N).
  { apply aget_Ok in Hq1 as [_ Hin]. rewrite Forall_forall in HT.
    now apply HT. }
  split; [rewrite (aset_length _ _ _ _ H); exact Hlen|].
  intros a0 q Ha0 Hq.
  destruct (Hinv a0 q Ha0 Hq) as (pre & Hpre & Hin).
  destruct (Z.eq_dec (a0 * N + q) (a * N + q1)) as [E|E].
  - assert (Ea : a0 = a) by nia. subst a0.
    assert (Eq : q = q1) by lia. subst q.
    assert (pre = pre1) by exact (aget_inj _ _ _ _ Hpre Hpre1). subst pre.
    exists (iv_push pre1 p). split; [apply (aget_aset_same _ _ _ _ H)|].
    intros x. unfold iv_push. rewrite in_app_iff, (Hin x). cbn [In].
    split.
    + intros [[Hx|Hx]|[Hx|[]]]; [now left | right | right].
      * destruct Hx as (Hx1 & Hx2 & Hx3). repeat split; auto; lia.
      * subst x. repeat split; auto; lia.
    + intros [Hx|(Hx1 & Hx2 & Hx3)]; [left; now left|].
      right. left. auto.
  - exists pre. split.
    + rewrite (aget_aset_other _ _ _ _ _ H); [exact Hpre | nia | exact E].
    + intros x. rewrite (Hin x). split.
      * intros [Hx|(Hx1 & Hx2 & Hx3)]; [now left|].
        right. repeat split; auto; lia.
      * intros [Hx|(Hx1 & Hx2 & Hx3)]; [now left|].
        right. repeat split; auto.
        destruct (Z.eq_dec a0 a) as [->|Hne]; [|lia].
        exfalso. apply E. assert (q = q1) by congruence. now subst q.
Qed.

Lemma build_inv_spec (N k : Z) (T : list Z) (inv : list IntVec) :
  0 <= N -> 0 <= k ->
  Forall (fun t => 0 <= t < N) T ->
  build_inv N k T = Ok inv -> inv_ok N k T inv.
Proof.
  intros HN Hk HT H. unfold build_inv in H.
  assert (Hfin :
    Z.of_nat (length inv) = k * N
    /\ forall a q, 0 <= a < k -> 0 <= q < N ->
         exists pre, aget inv (a * N + q) = Ok pre
                     /\ forall x, In x pre
                          <-> 0 <= x < N /\ aget T (x * k + a) = Ok q).
  { revert H.
    apply (foldM_zrange_inv
             (fun p (inv : list IntVec) =>
                Z.of_nat (length inv) = k * N
                /\ forall a q, 0 <= a < k -> 0 <= q < N ->
                     exists pre, aget inv (a * N + q) = Ok pre
                                 /\ forall x, In x pre
                                      <-> 0 <= x < p
                                          /\ aget T (x * k + a) = Ok q));
      [exact HN | |].
    - intros p s s' Hp [Hlen Hs] Hf.
      assert (Hin :
        Z.of_nat (length s') = k * N
        /\ forall a0 q, 0 <= a0 < k -> 0 <= q < N ->
             exists pre, aget s' (a0 * N + q) = Ok pre
                         /\ forall x, In x pre
                              <-> (0 <= x < p /\ aget T (x * k + a0) = Ok q)
                                  \/ (x = p /\ a0 < k
                                      /\ aget T (p * k + a0) = Ok q)).
      { revert Hf.
        apply (foldM_zrange_inv
                 (fun a (inv : list IntVec) =>
                    Z.of_nat (length inv) = k * N
                    /\ forall a0 q, 0 <= a0 < k -> 0 <= q < N ->
                         exists pre, aget inv (a0 * N + q) = Ok pre
                           /\ forall x, In x pre
                                <-> (0 <= x < p
                                     /\ aget T (x * k + a0) = Ok q)
                                    \/ (x = p /\ a0 < a
                                        /\ aget T (p * k + a0) = Ok q)));
          [exact Hk | |].
        - intros a u u' Ha Hu Hstep.
          exact (build_inv_step N k T p a u u' Hp Ha HT Hu Hstep).
        - split; [exact Hlen|]. intros a0 q Ha0 Hq.
          destruct (Hs a0 q Ha0 Hq) as (pre & Hpre & Hin).
          exists pre. split; [exact Hpre|]. intros x. rewrite (Hin x).
          split; [auto | intros [Hx|(_ & Hx & _)]; [exact Hx | lia]]. }
      destruct Hin as [Hlen' Hs']. split; [exact Hlen'|].
      intros a q Ha Hq. destruct (Hs' a q Ha Hq) as (pre & Hpre & Hin).
      exists pre. split; [exact Hpre|]. intros x. rewrite (Hin x). split.
      + intros [[Hx1 Hx2]|(Hx1 & Hx2 & Hx3)]; [split; [lia | exact Hx2]|].
        subst x. split; [lia | exact Hx3].
      + intros [Hx1 Hx2].
        destruct (Z.eq_dec x p) as [->|Hne];
          [right; repeat split; auto; lia | left; split; [lia | exact Hx2]].
    - split; [rewrite repeat_length; nia|].
      intros a q Ha Hq. exists []. split; [apply aget_repeat; nia|].
      intros x. cbn [In]. split; [tauto | intros [Hx _]; lia]. }
  destruct Hfin as [_ Hfin]. exact Hfin.
Qed.

Lemma dfa_minimize_refines_spec (k : Z) (dfa : list DFAState) (m : minimized)
  (s t : Z) :
  dfa <> [] ->
  Forall (row_ok k (Z.of_nat (length dfa))) dfa ->
  dfa_minimize k dfa = Ok m ->
  let nd := need_dead_of dfa in
  let A := complete_A dfa nd in
  let N := Z.of_nat (length A) in
  let T := complete_T k dfa nd (if negb (nd =? 0) then N - 1 else -1) in
  0 <= s < N -> 0 <= t < N ->
  same_language k T A s t ->
  cget (m_cls m) s = cget (m_cls m) t.
Proof.
  intros Hdfa Hrows H nd A N T Hs Ht Hst.
  assert (Hk : 0 <= k).
  { destruct dfa as [|d dfa]; [congruence|].
    apply Forall_inv in Hrows. destruct Hrows as [Hl _]. lia. }
  assert (HN : N = Z.of_nat (length dfa)
                   + (if negb (nd =? 0) then 1 else 0))
    by apply complete_A_length.
  assert (HN1 : 1 <= N).
  { rewrite HN. destruct dfa; [congruence|].
    destruct (negb (nd =? 0)); simpl length; lia. }
  destruct (complete_T_ok k dfa Hk Hrows) as [HT1 HT2].
  fold nd in HT1, HT2. rewrite <- HN in HT1, HT2. fold T in HT1, HT2.
  unfold dfa_minimize in H. fold nd A in H. rewrite <- HN in H. fold T in H.
  match type of H with
  | (if ?b then _ else _) = _ => destruct b eqn:E
  end.
  - inversion H; subst m; clear H. cbn [m_cls].
    rewrite !cget_repeat_Ok by lia. reflexivity.
  - apply orb_false_iff in E as [EF ENF].
    apply Z.eqb_neq in EF. apply Z.eqb_neq in ENF.
    apply bind_Ok in H as (P1 & HP1 & H).
    apply bind_Ok in H as (P2 & HP2 & H).
    apply bind_Ok in H as (P0 & HP0 & H).
    apply bind_Ok in H as (P1' & HP1' & H).
    apply bind_Ok in H as (cls1 & Hcls1 & H).
    apply bind_Ok in H as (cls2 & Hcls2 & H).
    apply bind_Ok in H as (inv & Hinv & H).
    apply bind_Ok in H as (st & Hloop & H).
    inversion H; subst m; clear H. cbn [m_cls].
    rewrite (aget_aset_other _ _ _ _ _ HP2) in HP0 by lia.
    rewrite (aget_aset_same _ _ _ _ HP1) in HP0.
    inversion HP0; subst P0; clear HP0.
    rewrite (aget_aset_same _ _ _ _ HP2) in HP1'.
    inversion HP1'; subst P1'; clear HP1'.
    apply (build_inv_spec N k T inv ltac:(lia) Hk HT2) in Hinv.
    match type of Hloop with
    | while_fuel _ _ _ (mkHopcroft _ _ _ ?W) = _ =>
        destruct (initial_partition A P1 P2 cls1 cls2 W
                    HN1 EF ENF HP1 HP2 Hcls1 Hcls2) as [Hinit Hcls];
        assert (HW : Forall (fun i => 0 <= i < 2) W)
    end.
    { match goal with
      | |- Forall _ (if ?b then _ else _) => destruct b
      end; (constructor; [lia | constructor]). }
    apply (while_fuel_inv (refine_ok N k T A)) in Hloop.
    + destruct Hloop as [(_ & _ & Heq) _]. exact (Heq s t Hs Ht Hst).
    + intros u u' Hu Hc Hb.
      exact (hopcroft_body_refine N k T A inv u u' HT1 HT2 Hinv Hu Hc Hb).
    + split; [exact Hinit|]. split; [exact HW|].
      cbn [hp_cls]. intros s0 t0 Hs0 Ht0 Hst0.
      rewrite (Hcls s0 Hs0), (Hcls t0 Ht0).
      specialize (Hst0 [] (Forall_nil _)). cbn [T_walk] in Hst0.
      now rewrite Hst0.
Qed.

Lemma completed_table_ok (k : Z) (dfa : list DFAState) (m : minimized) :
  let A := complete_A dfa (need_dead_of dfa) in
  let N := Z.of_nat (length A) in
  let T := complete_T k dfa (need_dead_of dfa) (m_dead m) in
  dfa <> [] ->
  Forall (row_ok k (Z.of_nat (length dfa))) dfa ->
  dfa_minimize k dfa = Ok m ->
  T = complete_T k dfa (need_dead_of dfa)
        (if negb (need_dead_of dfa =? 0) then N - 1 else -1)
  /\ Z.of_nat (length T) = N * k
  /\ Forall (fun t => 0 <= t < N) T.
Proof.
  intros A N T Hdfa Hrows H.
  assert (Hk : 0 <= k).
  { destruct dfa as [|d dfa]; [congruence|].
    apply Forall_inv in Hrows. destruct Hrows as [Hl _]. lia. }
  assert (HN : N = Z.of_nat (length dfa)
                   + (if negb (need_dead_of dfa =? 0) then 1 else 0))
    by apply complete_A_length.
  destruct (dfa_minimize_dead k dfa m H) as [_ Hd]. cbv zeta in Hd.
  rewrite <- HN in Hd.
  destruct (complete_T_ok k dfa Hk Hrows) as [HT1 HT2].
  rewrite <- HN in HT1, HT2. rewrite <- Hd in HT1, HT2.
  fold T in HT1, HT2.
  split; [unfold T; now rewrite Hd|]. split; assumption.
Qed.

Lemma dfa_minimize_keeps_equivalent_spec (k : Z) (dfa : list DFAState)
  (m : minimized) (s t : Z) :
  let A := complete_A dfa (need_dead_of dfa) in
  let N := Z.of_nat (length A) in
  let T := complete_T k dfa (need_dead_of dfa) (m_dead m) in
  dfa <> [] ->
  Forall (row_ok k (Z.of_nat (length dfa))) dfa ->
  dfa_minimize k dfa = Ok m ->
  0 <= s < N -> 0 <= t < N ->
  same_language k T A s t ->
  cget (m_cls m) s = cget (m_cls m) t.
Proof.
  intros A N T Hdfa Hrows H Hs Ht Hst.
  destruct (completed_table_ok k dfa m Hdfa Hrows H) as (ET & _ & _).
  fold A N T in ET. rewrite ET in Hst.
  exact (dfa_minimize_refines_spec k dfa m s t Hdfa Hrows H Hs Ht Hst).
Qed.

Lemma stable_same_language (N k : Z) (T A : list Z) (cls : cells) :
  Z.of_nat (length T) = N * k -> Forall (fun t => 0 <= t < N) T ->
  (forall s, 0 <= s < N -> exists c, cget cls s = Ok c) ->
  (forall s t c, cget cls s = Ok c -> cget cls t = Ok c ->
     accepting A s = accepting A t) ->
  stable_b N k T cls = true ->
  forall w s t, 0 <= s < N -> 0 <= t < N -> cget cls s = cget cls t ->
    Forall (fun a => 0 <= a < k) w ->
    accepting A (T_walk k T s w) = accepting A (T_walk k T t w).
Proof.
  intros HT1 HT2 Hcov Hacc Hst.
  induction w as [|a w IH]; intros s t Hs Ht E Hw; cbn [T_walk].
  - destruct (Hcov s Hs) as (c & Hc). apply (Hacc s t c Hc).
    now rewrite <- E.
  - pose proof (Forall_inv Hw) as Ha. cbv beta in Ha.
    apply Forall_inv_tail in Hw.
    destruct (T_cell N k T s a HT1 HT2 Hs Ha) as (qs & Hqs & Hqsr).
    destruct (T_cell N k T t a HT1 HT2 Ht Ha) as (qt & Hqt & Hqtr).
    rewrite (aget_nth _ _ _ 0 Hqs), (aget_nth _ _ _ 0 Hqt).
    apply IH; auto.
    destruct (Hcov s Hs) as (c & Hc).
    assert (Hct : cget cls t = Ok c) by now rewrite <- E.
    pose proof (stable_b_spec N k T cls Hst s t a c qs qt
                  Hs Ht Ha Hc Hct Hqs Hqt) as Hcl.
    destruct (Hcov qs Hqsr) as (c1 & Hc1).
    destruct (Hcov qt Hqtr) as (c2 & Hc2).
    rewrite (cget_class_of _ _ _ Hc1), (cget_class_of _ _ _ Hc2) in Hcl.
    congruence.
Qed.

Lemma sinks_walk (w : list Z) :
  Forall (fun a => 0 <= a < 1) w ->
  forall s, s = 1 \/ s = 2 ->
    accepting [0; 1; 1] (T_walk 1 [1; 2; 1] s w) = true.
Proof.
  induction 1 as [|a w Ha Hw IH]; intros s Hs.
  - destruct Hs; subst; reflexivity.
  - assert (a = 0) by lia. subst a. cbn [T_walk]. apply IH.
    destruct Hs; subst; simpl; auto.
Qed.

Lemma sinks_same_language : same_language 1 [1; 2; 1] [0; 1; 1] 1 2.
Proof.
  intros w Hw. rewrite !sinks_walk; auto.
Qed.

(** [dfa_minimize] never separates two states of the completed table
    that accept the same words: they get the same class. *)
Theorem dfa_minimize_keeps_equivalent (k : Z) (dfa : list DFAState)
  (m : minimized) (s t : Z) :
  let A := complete_A dfa (need_dead_of dfa) in
  let N := Z.of_nat (length A) in
  let T := complete_T k dfa (need_dead_of dfa) (m_dead m) in
  dfa <> [] ->
  Forall (row_ok k (Z.of_nat (length dfa))) dfa ->
  dfa_minimize k dfa = Ok m ->
  0 <= s < N -> 0 <= t < N ->
  same_language k T A s t ->
  cget (m_cls m) s = cget (m_cls m) t.
Proof.
  exact (dfa_minimize_keeps_equivalent_spec k dfa m s t).
Qed.

Lemma dfa_minimize_keeps_equivalent_witness :
  exists m,
    dfa_minimize 1
      [mkDFAState [1] 0 [1]; mkDFAState [2] 1 [2]; mkDFAState [4] 1 [1]]
    = Ok m
    /\ cget (m_cls m) 1 = cget (m_cls m) 2.
Proof.
  eexists. split; [vm_compute; reflexivity|].
  match goal with
  | |- cget (m_cls ?m) _ = _ =>
      exact (dfa_minimize_keeps_equivalent 1
               [mkDFAState [1] 0 [1]; mkDFAState [2] 1 [2];
                mkDFAState [4] 1 [1]]
               m 1 2
               ltac:(discriminate)
               ltac:(repeat constructor; simpl; unfold cell_ok; lia)
               ltac:(vm_compute; reflexivity)
               ltac:(simpl; lia) ltac:(simpl; lia)
               sinks_same_language)
  end.
Defined.

(** When the classes [dfa_minimize] returns are stable under the
    transitions of the completed table, two states of one class accept the
    same words. *)
Theorem stable_classes_same_language (k : Z) (dfa : list DFAState)
  (m : minimized) (s t : Z) :
  let A := complete_A dfa (need_dead_of dfa) in
  let N := Z.of_nat (length A) in
  let T := complete_T k dfa (need_dead_of dfa) (m_dead m) in
  dfa <> [] ->
  Forall (row_ok k (Z.of_nat (length dfa))) dfa ->
  dfa_minimize k dfa = Ok m ->
  stable_b N k T (m_cls m) = true ->
  0 <= s < N -> 0 <= t < N ->
  cget (m_cls m) s = cget (m_cls m) t ->
  same_language k T A s t.
Proof.
  intros A N T Hdfa Hrows H Hst Hs Ht E w Hw.
  destruct (completed_table_ok k dfa m Hdfa Hrows H) as (_ & HT1 & HT2).
  fold A N T in HT1, HT2.
  destruct (dfa_minimize_partition_spec k dfa m Hdfa H)
    as (_ & Hcov & _ & Hacc).
  fold A N in Hcov, Hacc.
  apply (stable_same_language N k T A (m_cls m) HT1 HT2); auto.
  intros u Hu. destruct (Hcov u Hu) as (c & Hc & _). eauto.
Qed.

Lemma stable_classes_same_language_witness :
  exists m,
    dfa_minimize 1
      [mkDFAState [1] 0 [1]; mkDFAState [2] 1 [2]; mkDFAState [4] 1 [1]]
    = Ok m
    /\ same_language 1 [1; 2; 1] [0; 1; 1] 1 2.
Proof.
  eexists. split; [vm_compute; reflexivity|].
  exact (stable_classes_same_language 1
           [mkDFAState [1] 0 [1]; mkDFAState [2] 1 [2];
            mkDFAState [4] 1 [1]]
           (mkMinimized [Some 1; Some 0; Some 0] 2 0 (-1)) 1 2
           ltac:(discriminate)
           ltac:(repeat constructor; simpl; unfold cell_ok; lia)
           ltac:(vm_compute; reflexivity)
           ltac:(vm_compute; reflexivity)
           ltac:(simpl; lia) ltac:(simpl; lia)
           ltac:(vm_compute; reflexivity)).
Defined.

End Refinement.

(* ================================================================== *)
(** ** A pattern line of white space *)

Section BlankPattern.
Import Regex2MinDfa.

Lemma preprocess_regex_blank (line : list ascii) :
  Forall (fun c => isspace c = true) line -> preprocess_regex line = [].
Proof.
  induction 1 as [|b tl Hb Htl IH]; [reflexivity|].
  cbn [preprocess_regex]. rewrite Hb, IH.
  now destruct (Ascii.eqb b "013" || Ascii.eqb b "010").
Qed.

(** With an alphabet line that [parse_alphabet_line] accepts, a pattern
    line that holds only white space before its end makes [main] stop with
    "empty regex": no other check is reached and no file is written. *)
Theorem blank_pattern_rejected (line_regex line_alpha sigma : list ascii) :
  parse_alphabet_line (c_str line_alpha) = Ok sigma ->
  Forall (fun c => isspace c = true) (c_str line_regex) ->
  main line_regex line_alpha = Err EmptyRegex.
Proof.
  intros Ha Hb. unfold main, build_dfa.
  rewrite Ha. cbn [bind].
  rewrite (preprocess_regex_blank _ Hb). reflexivity.
Qed.

Lemma blank_pattern_rejected_witness :
  main (str "  ") (str "a b") = Err EmptyRegex.
Proof.
  apply (blank_pattern_rejected (str "  ") (str "a b")
           [ascii_of_nat 97; ascii_of_nat 98]).
  - vm_compute. reflexivity.
  - repeat constructor.
Defined.

End BlankPattern.

(* ================================================================== *)
(** ** The raw sentinel byte in a pattern *)

Section RawSentinel.
Import Regex2MinDfa Spec Props.






(** *** The front end on the pattern that is the sentinel alone *)


(** *** The subset construction on its NFA *)



(** *** The minimizer and the writer on its table *)







(** *** The sentinel in any pattern *)








(** The pattern [a], the byte 0x01, [b] over the alphabet [ab] compiles,
    to the file that accepts the word [ab] only. *)
Lemma raw_sentinel_pattern_compiles :
  main (str "a" ++ [byte 1] ++ str "b") (str "ab")
  = Ok (mkDfaFile 2 (str "ab") 4 2 1 [0]
          [[3; 3]; [3; 0]; [1; 3]; [3; 3]]).
Proof.
  vm_compute. reflexivity.
Qed.

End RawSentinel.
